(** * Mem2Reg: promotion of stack cells to SSA registers

    A shallow embedding of [task/4/Mem2Reg.cpp] and the properties its
    design document states about it.

    The pass works on LLVM IR through a narrow interface (use lists,
    [replaceAllUsesWith], [eraseFromParent], phi creation).  The first
    part of this file models that interface; the second part is the pass
    itself, function by function, under the names of the source. *)

From stdpp Require Import gmap list sorting strings pretty.


(** ** The IR *)

(** An instruction is identified by a number (the model's stand-in for its
    address); a block is identified by its position in the function's block
    list, which is also the number [BBNumbers] gives it ([ID++] over a
    forward iteration of the function). *)
Abbreviation InstId := nat (only parsing).
Abbreviation BlockId := nat (only parsing).

Inductive Ty : Type :=
| TVoid
| TInt (bits : nat)
| TFloat
| TPtr
| TArray (len : nat) (elem : Ty).

#[global] Instance Ty_eq_dec : EqDecision Ty.
Proof. solve_decision. Defined.

(** Values: the result of an instruction, or one of the non-instruction
    values (arguments, constants, and the two markers). *)
Inductive Value : Type :=
| VInst (i : InstId)
| VArg (ty : Ty) (n : nat)
| VConst (ty : Ty) (c : Z)
| VUndef (ty : Ty)
| VPoison (ty : Ty).

#[global] Instance Value_eq_dec : EqDecision Value.
Proof. solve_decision. Defined.

(** [isa<Instruction>(V)] *)
Definition isInstruction (v : Value) : bool :=
  match v with VInst _ => true | _ => false end.

Inductive InstKind : Type :=
| Alloca (allocated : Ty)
| Load (ptr : Value)
| Store (val ptr : Value)
| PHI (incoming : list (Value * BlockId))
| Other (ops : list Value).

#[global] Instance InstKind_eq_dec : EqDecision InstKind.
Proof. solve_decision. Defined.

Record Instruction : Type := mkInst {
  iid : InstId;
  iname : string;
  ity : Ty;
  ikind : InstKind
}.

#[global] Instance Instruction_eq_dec : EqDecision Instruction.
Proof. solve_decision. Defined.

(** The terminator of a block: its value operands and its successor slots
    (a [switch] may name one block in several slots). *)
Record Terminator : Type := mkTerm {
  tid : InstId;
  tops : list Value;
  tsuccs : list BlockId
}.

#[global] Instance Terminator_eq_dec : EqDecision Terminator.
Proof. solve_decision. Defined.

(** A block is its instructions up to the terminator, then the terminator.
    The pass erases loads, stores, allocas and phis only, and its loops over
    a block stop at the terminator, so the two are kept apart. *)
Record BasicBlock : Type := mkBlock {
  insts : list Instruction;
  term : Terminator
}.

#[global] Instance BasicBlock_eq_dec : EqDecision BasicBlock.
Proof. solve_decision. Defined.

(** A function is its list of blocks; block [0] is the entry block. *)
Abbreviation Func := (list BasicBlock) (only parsing).

(** A user of a value is an instruction or a terminator. *)
Inductive User : Type :=
| UInst (J : Instruction)
| UTerm (T : Terminator).

Definition userId (u : User) : InstId :=
  match u with UInst J => iid J | UTerm T => tid T end.

Definition userType (u : User) : Ty :=
  match u with UInst J => ity J | UTerm _ => TVoid end.

(** *** Operands *)

Definition operands (J : Instruction) : list Value :=
  match ikind J with
  | Alloca _ => []
  | Load p => [p]
  | Store v p => [v; p]
  | PHI inc => inc.*1
  | Other ops => ops
  end.

Definition userOperands (u : User) : list Value :=
  match u with UInst J => operands J | UTerm T => tops T end.

(** [PN->getNumOperands()], [PN->getNumIncomingValues()] *)
Definition getNumOperands (J : Instruction) : nat := length (operands J).

Definition isPHI (J : Instruction) : bool :=
  match ikind J with PHI _ => true | _ => false end.

Definition incomingOf (J : Instruction) : list (Value * BlockId) :=
  match ikind J with PHI inc => inc | _ => [] end.

(** *** Looking instructions up *)

Definition blockInsts (F : Func) (b : BlockId) : list Instruction :=
  match F !! b with Some B => insts B | None => [] end.

Definition allInsts (F : Func) : list (BlockId * Instruction) :=
  mjoin (imap (fun b B => (fun J => (b, J)) <$> insts B) F).

Definition findInst (F : Func) (i : InstId) : option (BlockId * Instruction) :=
  List.find (fun p => bool_decide (iid p.2 = i)) (allInsts F).

(** [I->getParent()] for an instruction known by its id. *)
Definition getParent (F : Func) (i : InstId) : BlockId :=
  match findInst F i with Some (b, _) => b | None => 0 end.

(** [V->getType()] *)
Definition getType (F : Func) (v : Value) : Ty :=
  match v with
  | VInst i => match findInst F i with Some (_, J) => ity J | None => TVoid end
  | VArg ty _ | VConst ty _ | VUndef ty | VPoison ty => ty
  end.

(** [isa<AllocaInst>(V)] *)
Definition isAllocaValue (F : Func) (v : Value) : bool :=
  match v with
  | VInst i =>
      match findInst F i with
      | Some (_, J) => match ikind J with Alloca _ => true | _ => false end
      | None => false
      end
  | _ => false
  end.

(** [SI->getOperand(0)] of the store known by its id, as the function
    holds it now. *)
Definition storedValue (F : Func) (s : InstId) : Value :=
  match findInst F s with
  | Some (_, J) => match ikind J with Store v _ => v | _ => VUndef TVoid end
  | None => VUndef TVoid
  end.

(** *** The control-flow graph *)

Definition successors (F : Func) (b : BlockId) : list BlockId :=
  match F !! b with Some B => tsuccs (term B) | None => [] end.

(** [predecessors(BB)]: one entry per successor slot that names [BB]. *)
Definition predecessors (F : Func) (b : BlockId) : list BlockId :=
  mjoin (imap (fun p B =>
                 replicate (length (List.filter (fun s => bool_decide (s = b))
                                                (tsuccs (term B)))) p) F).

Definition pred_size (F : Func) (b : BlockId) : nat := length (predecessors F b).

(** *** Use lists *)

(** The uses of a value, one entry per operand slot that holds it, each
    with the block of the user; [usesInOrder] has them in the order the
    instructions stand in the function. *)
Definition usesIn (a : InstId) (u : User) : list User :=
  replicate (length (List.filter (fun v => bool_decide (v = VInst a)) (userOperands u))) u.

Definition blockUsers (a : InstId) (b : BlockId) (B : BasicBlock)
  : list (BlockId * User) :=
  ((fun u => (b, u)) <$> (mjoin ((fun J => usesIn a (UInst J)) <$> insts B)))
    ++ ((fun u => (b, u)) <$> usesIn a (UTerm (term B))).

Definition usesInOrder (F : Func) (a : InstId) : list (BlockId * User) :=
  mjoin (imap (blockUsers a) F).

(** [V->users()]: the use list of the value.  A new use goes to the head
    of the list and a use that goes leaves the others where they are, so
    for a function whose instructions were made in the order they stand in,
    the list runs from the last use in the function to the first.  The
    pass adds no use to a cell it promotes. *)
Definition users (F : Func) (a : InstId) : list (BlockId * User) :=
  rev (usesInOrder F a).

(** [V->use_empty()] *)
Definition use_empty (F : Func) (a : InstId) : bool :=
  match users F a with [] => true | _ => false end.

(** *** Mutation *)

Definition substValue (old : InstId) (new v : Value) : Value :=
  if bool_decide (v = VInst old) then new else v.

Definition substKind (old : InstId) (new : Value) (k : InstKind) : InstKind :=
  match k with
  | Alloca t => Alloca t
  | Load p => Load (substValue old new p)
  | Store v p => Store (substValue old new v) (substValue old new p)
  | PHI inc => PHI ((fun e => (substValue old new e.1, e.2)) <$> inc)
  | Other ops => Other (substValue old new <$> ops)
  end.

Definition substInst (old : InstId) (new : Value) (J : Instruction) : Instruction :=
  mkInst (iid J) (iname J) (ity J) (substKind old new (ikind J)).

Definition substTerm (old : InstId) (new : Value) (T : Terminator) : Terminator :=
  mkTerm (tid T) (substValue old new <$> tops T) (tsuccs T).

(** [Old->replaceAllUsesWith(New)] *)
Definition replaceAllUsesWith (F : Func) (old : InstId) (new : Value) : Func :=
  (fun B => mkBlock (substInst old new <$> insts B) (substTerm old new (term B))) <$> F.

(** [I->eraseFromParent()], for the instruction kinds the pass erases. *)
Definition eraseFromParent (F : Func) (i : InstId) : Func :=
  (fun B => mkBlock (List.filter (fun J => negb (bool_decide (iid J = i))) (insts B))
                    (term B)) <$> F.

(** [PN->addIncoming(V, Pred)] *)
Definition addIncomingInst (pn : InstId) (v : Value) (pred : BlockId)
    (J : Instruction) : Instruction :=
  if bool_decide (iid J = pn) then
    match ikind J with
    | PHI inc => mkInst (iid J) (iname J) (ity J) (PHI (inc ++ [(v, pred)]))
    | _ => J
    end
  else J.

Definition addIncoming (F : Func) (pn : InstId) (v : Value) (pred : BlockId) : Func :=
  (fun B => mkBlock (addIncomingInst pn v pred <$> insts B) (term B)) <$> F.

(** [PN->insertBefore(&*(BB->begin()))] *)
Definition insertAtBegin (F : Func) (b : BlockId) (J : Instruction) : Func :=
  match F !! b with
  | Some B => <[b := mkBlock (J :: insts B) (term B)]> F
  | None => F
  end.

(** The ids a function mentions anywhere; a fresh instruction takes a
    number above all of them. *)
Definition valueIds (v : Value) : list InstId :=
  match v with VInst i => [i] | _ => [] end.

Definition blockIds (B : BasicBlock) : list InstId :=
  mjoin ((fun J => iid J :: mjoin (valueIds <$> operands J)) <$> insts B)
    ++ tid (term B) :: mjoin (valueIds <$> tops (term B)).

Definition funcIds (F : Func) : list InstId := mjoin (blockIds <$> F).


(** ** Small functions used as examples *)

Definition i32 : Ty := TInt 32.

(** One block: [cell = alloca i32; store 42, cell; v = load cell; ret v]. *)
Definition ex_straight : list BasicBlock :=
  [ mkBlock [ mkInst 1 "cell" TPtr (Alloca i32);
              mkInst 2 "" TVoid (Store (VConst i32 42) (VInst 1));
              mkInst 3 "v" i32 (Load (VInst 1)) ]
            (mkTerm 4 [VInst 3] []) ].

(** An alloca nobody uses, next to one that is used. *)
Definition ex_unused : list BasicBlock :=
  [ mkBlock [ mkInst 1 "dead" TPtr (Alloca i32);
              mkInst 2 "cell" TPtr (Alloca i32);
              mkInst 3 "" TVoid (Store (VArg i32 0) (VInst 2));
              mkInst 4 "v" i32 (Load (VInst 2)) ]
            (mkTerm 5 [VInst 4] []) ].

(** If/else with a store on each side and a load at the join. *)
Definition ex_diamond : list BasicBlock :=
  [ mkBlock [ mkInst 1 "cell" TPtr (Alloca i32) ]
            (mkTerm 10 [VArg (TInt 1) 0] [1; 2]);
    mkBlock [ mkInst 2 "" TVoid (Store (VConst i32 1) (VInst 1)) ]
            (mkTerm 11 [] [3]);
    mkBlock [ mkInst 3 "" TVoid (Store (VConst i32 2) (VInst 1)) ]
            (mkTerm 12 [] [3]);
    mkBlock [ mkInst 4 "v" i32 (Load (VInst 1)) ]
            (mkTerm 13 [VInst 4] []) ].

(** Block 1 ends in a switch with two slots for block 2 (and one for block
    3); blocks 0 and 1 store to the cell, block 2 loads it. *)
Definition ex_switch : list BasicBlock :=
  [ mkBlock [ mkInst 1 "cell" TPtr (Alloca i32);
              mkInst 2 "" TVoid (Store (VConst i32 0) (VInst 1)) ]
            (mkTerm 10 [VArg (TInt 1) 0] [1; 2]);
    mkBlock [ mkInst 3 "" TVoid (Store (VArg i32 1) (VInst 1)) ]
            (mkTerm 11 [VArg i32 2] [2; 2; 3]);
    mkBlock [ mkInst 4 "v" i32 (Load (VInst 1)) ]
            (mkTerm 12 [VInst 4] []);
    mkBlock [] (mkTerm 13 [] []) ].

(** One store of an instruction's value, with a load before it and a load
    after it in its block, and a load in the next block. *)
Definition ex_single_store : list BasicBlock :=
  [ mkBlock [ mkInst 1 "cell" TPtr (Alloca i32);
              mkInst 2 "x" i32 (Other [VArg i32 0]);
              mkInst 3 "early" i32 (Load (VInst 1));
              mkInst 4 "" TVoid (Store (VInst 2) (VInst 1));
              mkInst 5 "late" i32 (Load (VInst 1)) ]
            (mkTerm 10 [VInst 5] [1]);
    mkBlock [ mkInst 6 "far" i32 (Load (VInst 1)) ]
            (mkTerm 11 [VInst 6; VInst 3] []) ].

(** One block with two stores, and a load after each. *)
Definition ex_single_block : list BasicBlock :=
  [ mkBlock [ mkInst 1 "cell" TPtr (Alloca i32);
              mkInst 2 "" TVoid (Store (VConst i32 1) (VInst 1));
              mkInst 3 "first" i32 (Load (VInst 1));
              mkInst 4 "" TVoid (Store (VConst i32 2) (VInst 1));
              mkInst 5 "second" i32 (Load (VInst 1)) ]
            (mkTerm 10 [VInst 3; VInst 5] []) ].

(** The diamond with one more block, which no block leads to; it stores
    to the cell and goes to the join. *)
Definition ex_unreachable : list BasicBlock :=
  ex_diamond
    ++ [ mkBlock [ mkInst 5 "" TVoid (Store (VConst i32 3) (VInst 1)) ]
                 (mkTerm 14 [] [3]) ].

(** A loop block whose phi takes a constant from the entry block and its
    own value around the loop. *)
Definition ex_selfphi : list BasicBlock :=
  [ mkBlock [] (mkTerm 10 [] [1]);
    mkBlock [ mkInst 7 "p" i32 (PHI [(VConst i32 1, 0); (VInst 7, 1)]) ]
            (mkTerm 11 [VInst 7] [1]) ].

(** A cell [a] that holds the address of a cell [b], which is stored to and
    loaded from through the address loaded from [a]: [b] is promotable
    only once [a] is gone. *)
Definition ex_two_rounds : list BasicBlock :=
  [ mkBlock [ mkInst 1 "b" TPtr (Alloca i32);
              mkInst 2 "a" TPtr (Alloca TPtr);
              mkInst 3 "" TVoid (Store (VInst 1) (VInst 2));
              mkInst 4 "p" TPtr (Load (VInst 2));
              mkInst 5 "" TVoid (Store (VConst i32 5) (VInst 4));
              mkInst 6 "v" i32 (Load (VInst 4));
              mkInst 7 "y" i32 (Other [VInst 6; VArg i32 0]) ]
            (mkTerm 10 [VInst 7] []) ].

(** The diamond with three cells: one nobody uses, and two that are stored
    to on each side and loaded at the join. *)
Definition ex_three_cells : list BasicBlock :=
  [ mkBlock [ mkInst 1 "dead" TPtr (Alloca i32);
              mkInst 2 "x" TPtr (Alloca i32);
              mkInst 3 "y" TPtr (Alloca i32) ]
            (mkTerm 20 [VArg (TInt 1) 0] [1; 2]);
    mkBlock [ mkInst 4 "" TVoid (Store (VConst i32 1) (VInst 2));
              mkInst 5 "" TVoid (Store (VConst i32 10) (VInst 3)) ]
            (mkTerm 21 [] [3]);
    mkBlock [ mkInst 6 "" TVoid (Store (VConst i32 2) (VInst 2));
              mkInst 7 "" TVoid (Store (VConst i32 20) (VInst 3)) ]
            (mkTerm 22 [] [3]);
    mkBlock [ mkInst 8 "vx" i32 (Load (VInst 2));
              mkInst 9 "vy" i32 (Load (VInst 3)) ]
            (mkTerm 23 [VInst 8; VInst 9] []) ].

(** Two cells in one block: [a] holds the value of an instruction and is
    loaded after the store, and what is loaded goes into [b]. *)
Definition ex_cached : list BasicBlock :=
  [ mkBlock [ mkInst 1 "a" TPtr (Alloca i32);
              mkInst 2 "b" TPtr (Alloca i32);
              mkInst 3 "x" i32 (Other [VArg i32 0]);
              mkInst 4 "" TVoid (Store (VInst 3) (VInst 1));
              mkInst 5 "va" i32 (Load (VInst 1));
              mkInst 6 "" TVoid (Store (VInst 5) (VInst 2));
              mkInst 7 "vb" i32 (Load (VInst 2)) ]
            (mkTerm 10 [VInst 7] []) ].



(** Collaborators for the examples: block 0 dominates every block and
    every block dominates itself; an IDF calculator that answers with a
    fixed list; the undef test of the simplify query, which takes poison
    for undef as well. *)
Definition ex_dominates (a b : nat) : bool := bool_decide (a = 0) || bool_decide (a = b).
Definition ex_dominatesInst (F : list BasicBlock) (i p : nat) : bool := true.
Definition ex_idf (blocks : list nat) (DefBlocks LiveInBlocks : gset nat) : list nat :=
  blocks.
Definition ex_isUndef (v : Value) : bool :=
  match v with VUndef _ | VPoison _ => true | _ => false end.

(** A symbol table over the names of the instructions: a name no
    instruction has is given as asked for, and a name that is taken gets
    the first number behind it that makes it a new one. *)
Definition ex_names (F : Func) : list string := (fun p => iname p.2) <$> allInsts F.

Fixpoint ex_freshName (taken : list string) (s : string) (k fuel : nat) : string :=
  match fuel with
  | 0 => s +:+ pretty k
  | S fuel' =>
      if bool_decide (s +:+ pretty k ∈ taken)
      then ex_freshName taken s (S k) fuel'
      else s +:+ pretty k
  end.

Definition ex_uniqueName (F : Func) (s : string) : string :=
  if bool_decide (s ∈ ex_names F)
  then ex_freshName (ex_names F) s 1 (length (ex_names F))
  else s.

(** The diamond again, with the load at the join named as the first phi of
    the cell would be. *)
Definition ex_clash : list BasicBlock :=
  [ mkBlock [ mkInst 1 "cell" TPtr (Alloca i32) ]
            (mkTerm 10 [VArg (TInt 1) 0] [1; 2]);
    mkBlock [ mkInst 2 "" TVoid (Store (VConst i32 1) (VInst 1)) ]
            (mkTerm 11 [] [3]);
    mkBlock [ mkInst 3 "" TVoid (Store (VConst i32 2) (VInst 1)) ]
            (mkTerm 12 [] [3]);
    mkBlock [ mkInst 4 "cell.0" i32 (Load (VInst 1)) ]
            (mkTerm 13 [VInst 4] []) ].

(** ** The pass *)

(** [AllocaInst*]: the handle the pass keeps on a stack cell.  An alloca has
    no operand the pass rewrites, so the handle carries what the pass reads
    from it: its identity, name, type and allocated type. *)
Record AllocaInst : Type := mkAlloca {
  a_id : InstId;
  a_name : string;
  a_type : Ty;
  a_allocated : Ty
}.

#[global] Instance AllocaInst_eq_dec : EqDecision AllocaInst.
Proof. solve_decision. Defined.

(** [dyn_cast<AllocaInst>(I)] *)
Definition asAlloca (J : Instruction) : option AllocaInst :=
  match ikind J with
  | Alloca t => Some (mkAlloca (iid J) (iname J) (ity J) t)
  | _ => None
  end.

(** *** isAllocaPromotable *)

Fixpoint promotableUsers (F : Func) (AI : AllocaInst) (us : list (BlockId * User))
  : bool :=
  match us with
  | [] => true
  | (_, UInst J) :: us' =>
      match ikind J with
      | Load _ =>
          if bool_decide (ity J ≠ a_allocated AI) then false
          else promotableUsers F AI us'
      | Store v _ =>
          if bool_decide (v = VInst (a_id AI))
             || bool_decide (getType F v ≠ a_allocated AI)
          then false
          else promotableUsers F AI us'
      | _ => false
      end
  | (_, UTerm _) :: _ => false
  end.

Definition isAllocaPromotable (F : Func) (AI : AllocaInst) : bool :=
  promotableUsers F AI (users F (a_id AI)).

(** *** AllocaInfo *)

(** A [StoreInst*] is kept as the store's block and id. *)
Record AllocaInfo : Type := mkInfo {
  DefiningBlocks : list BlockId;
  UsingBlocks : list BlockId;
  OnlyStore : option (BlockId * InstId);
  OnlyBlock : option BlockId;
  OnlyUsedInOneBlock : bool
}.

(** [Info.clear()] *)
Definition Info_clear : AllocaInfo := mkInfo [] [] None None true.

Definition analyzeUser (Info : AllocaInfo) (bu : BlockId * User) : AllocaInfo :=
  let b := bu.1 in
  let u := bu.2 in
  let isStore :=
    match u with
    | UInst J => match ikind J with Store _ _ => true | _ => false end
    | UTerm _ => false
    end in
  let Info1 :=
    if isStore
    then mkInfo (DefiningBlocks Info ++ [b]) (UsingBlocks Info)
                (Some (b, userId u)) (OnlyBlock Info) (OnlyUsedInOneBlock Info)
    else mkInfo (DefiningBlocks Info) (UsingBlocks Info ++ [b])
                (OnlyStore Info) (OnlyBlock Info) (OnlyUsedInOneBlock Info) in
  if OnlyUsedInOneBlock Info1 then
    match OnlyBlock Info1 with
    | None => mkInfo (DefiningBlocks Info1) (UsingBlocks Info1) (OnlyStore Info1)
                     (Some b) true
    | Some ob =>
        if bool_decide (ob ≠ b)
        then mkInfo (DefiningBlocks Info1) (UsingBlocks Info1) (OnlyStore Info1)
                    (Some ob) false
        else Info1
    end
  else Info1.

(** [Info.AnalyzeAlloca(AI)] *)
Definition AnalyzeAlloca (F : Func) (AI : AllocaInst) : AllocaInfo :=
  fold_left analyzeUser (users F (a_id AI)) Info_clear.

(** *** LargeBlockInfo *)

(** [InstNumbers] *)
Abbreviation LargeBlockInfo := (gmap InstId nat) (only parsing).

Definition isInterestingInstruction (F : Func) (J : Instruction) : bool :=
  match ikind J with
  | Load p => isAllocaValue F p
  | Store _ p => isAllocaValue F p
  | _ => false
  end.

(** The scan of a block that numbers its interesting instructions. *)
Fixpoint numberBlock (F : Func) (l : list Instruction) (InstNo : nat)
    (LBI : gmap InstId nat) : gmap InstId nat :=
  match l with
  | [] => LBI
  | J :: l' =>
      if isInterestingInstruction F J
      then numberBlock F l' (S InstNo) (<[iid J := InstNo]> LBI)
      else numberBlock F l' InstNo LBI
  end.

(** [LBI.getInstructionIndex(I)], for the instruction [i] of block [b]. *)
Definition getInstructionIndex (F : Func) (LBI : gmap InstId nat)
    (b : BlockId) (i : InstId) : nat * gmap InstId nat :=
  match LBI !! i with
  | Some n => (n, LBI)
  | None =>
      let LBI' := numberBlock F (blockInsts F b) 0 LBI in
      (default 0 (LBI' !! i), LBI')
  end.

(** [LBI.deleteValue(I)] *)
Definition deleteValue (LBI : gmap InstId nat) (i : InstId) : gmap InstId nat :=
  delete i LBI.

(** *** The dominator tree, the IDF calculator, the simplify query and the
    symbol table

    These are the collaborators the pass is given.  Block dominance does
    not change while the pass runs (the CFG is fixed); instruction dominance
    is asked on the function as it is when the question is put.  The symbol
    table of the function names the values that enter it:
    [ST_uniqueName F s] is the name it gives an instruction that asks for
    the name [s] when it is put into [F], which is [s] when no value has
    that name, and a name the table makes up from [s] when one has. *)
Section Mem2Reg.

Variable DT_dominates : BlockId -> BlockId -> bool.
Variable DT_dominatesInst : Func -> InstId -> InstId -> bool.
Variable IDF_calculate : gset BlockId -> gset BlockId -> list BlockId.
Variable isUndefValue : Value -> bool.
Variable ST_uniqueName : Func -> string -> string.

(** *** rewriteSingleStoreAlloca *)

Record SingleStoreState : Type := mkSS {
  ss_F : Func;
  ss_LBI : gmap InstId nat;
  ss_UsingBlocks : list BlockId;
  ss_StoreIndex : Z
}.

(** The tail of the loop body: the load takes the stored value. *)
Definition ss_rewrite (OnlyStore : BlockId * InstId) (u : User)
    (st : SingleStoreState) : SingleStoreState :=
  let LI := userId u in
  let ReplVal := storedValue (ss_F st) OnlyStore.2 in
  let ReplVal :=
    if bool_decide (ReplVal = VInst LI) then VPoison (userType u) else ReplVal in
  mkSS (eraseFromParent (replaceAllUsesWith (ss_F st) LI ReplVal) LI)
       (deleteValue (ss_LBI st) LI) (ss_UsingBlocks st) (ss_StoreIndex st).

(** [Info.UsingBlocks.push_back(b); continue;] *)
Definition ss_bail (b : BlockId) (st : SingleStoreState) : SingleStoreState :=
  mkSS (ss_F st) (ss_LBI st) (ss_UsingBlocks st ++ [b]) (ss_StoreIndex st).

(** [if (StoreIndex == -1) StoreIndex = LBI.getInstructionIndex(OnlyStore);] *)
Definition ss_storeIndex (OnlyStore : BlockId * InstId) (st : SingleStoreState)
  : SingleStoreState :=
  if bool_decide (ss_StoreIndex st = (-1)%Z) then
    let r := getInstructionIndex (ss_F st) (ss_LBI st) OnlyStore.1 OnlyStore.2 in
    mkSS (ss_F st) r.2 (ss_UsingBlocks st) (Z.of_nat r.1)
  else st.

(** One round of the loop over the users of [AI]. *)
Definition singleStoreUser (OnlyStore : BlockId * InstId) (StoringGlobalVal : bool)
    (st : SingleStoreState) (bu : BlockId * User) : SingleStoreState :=
  let StoreBB := OnlyStore.1 in
  let LI := userId bu.2 in
  if bool_decide (LI = OnlyStore.2) then st
  else if negb StoringGlobalVal then
    if bool_decide (bu.1 = StoreBB) then
      let st1 := ss_storeIndex OnlyStore st in
      let r := getInstructionIndex (ss_F st1) (ss_LBI st1) bu.1 LI in
      let st2 := mkSS (ss_F st1) r.2 (ss_UsingBlocks st1) (ss_StoreIndex st1) in
      if bool_decide (r.1 < Z.to_nat (ss_StoreIndex st2))
      then ss_bail StoreBB st2
      else ss_rewrite OnlyStore bu.2 st2
    else if negb (DT_dominates StoreBB bu.1) then ss_bail bu.1 st
    else ss_rewrite OnlyStore bu.2 st
  else ss_rewrite OnlyStore bu.2 st.

(** Returns the function, the rebuilt [Info], the index cache and the
    result of the call. *)
Definition rewriteSingleStoreAlloca (F : Func) (AI : AllocaInst)
    (Info : AllocaInfo) (LBI : gmap InstId nat)
  : Func * AllocaInfo * gmap InstId nat * bool :=
  match OnlyStore Info with
  | None => (F, Info, LBI, false)
  | Some OS =>
      let StoringGlobalVal := negb (isInstruction (storedValue F OS.2)) in
      let st := fold_left (singleStoreUser OS StoringGlobalVal)
                          (users F (a_id AI)) (mkSS F LBI [] (-1)) in
      let Info' := mkInfo (DefiningBlocks Info) (ss_UsingBlocks st) (OnlyStore Info)
                          (OnlyBlock Info) (OnlyUsedInOneBlock Info) in
      match ss_UsingBlocks st with
      | _ :: _ => (ss_F st, Info', ss_LBI st, false)
      | [] =>
          let F1 := eraseFromParent (ss_F st) OS.2 in
          let LBI1 := deleteValue (ss_LBI st) OS.2 in
          (eraseFromParent F1 (a_id AI), Info', LBI1, true)
      end
  end.

(** *** simplifyPHINode *)

(** [valueDominatesPHI(V, P, DT)]; [DT] may be absent. *)
Definition valueDominatesPHI (F : Func) (V : Value) (P : InstId)
    (DT : option (Func -> InstId -> InstId -> bool)) : bool :=
  match V with
  | VInst i =>
      match DT with
      | Some dominates => dominates F i P
      | None =>
          (* an instruction of the entry block that is not a terminator *)
          match findInst F i with
          | Some (b, _) => bool_decide (b = 0)
          | None => false
          end
      end
  | _ => true
  end.

(** The loop over the incoming values: [None] is the early
    [return nullptr]; otherwise [CommonValue] and [HasUndefInput]. *)
Fixpoint commonIncoming (PN : InstId) (IncomingValues : list Value)
    (CommonValue : option Value) (HasUndefInput : bool)
  : option (option Value * bool) :=
  match IncomingValues with
  | [] => Some (CommonValue, HasUndefInput)
  | Incoming :: rest =>
      if bool_decide (Incoming = VInst PN)
      then commonIncoming PN rest CommonValue HasUndefInput
      else if isUndefValue Incoming
      then commonIncoming PN rest CommonValue true
      else
        match CommonValue with
        | Some c =>
            if bool_decide (Incoming ≠ c) then None
            else commonIncoming PN rest (Some Incoming) HasUndefInput
        | None => commonIncoming PN rest (Some Incoming) HasUndefInput
        end
  end.

(** [simplifyPHINode(PN, Q)] for the phi [PN] of type [ty] with the given
    operands; [None] is the null result. *)
Definition simplifyPHI (F : Func) (PN : InstId) (ty : Ty) (ops : list Value)
    (Q_DT : option (Func -> InstId -> InstId -> bool)) : option Value :=
  match commonIncoming PN ops None false with
  | None => None
  | Some (None, _) => Some (VUndef ty)
  | Some (Some c, true) =>
      if valueDominatesPHI F c PN Q_DT then Some c else None
  | Some (Some c, false) => Some c
  end.

Definition simplifyPHINode (F : Func) (PN : InstId)
    (Q_DT : option (Func -> InstId -> InstId -> bool)) : option Value :=
  match findInst F PN with
  | Some (_, J) => simplifyPHI F PN (ity J) (incomingOf J).*1 Q_DT
  | None => simplifyPHI F PN TVoid [] Q_DT
  end.

(** *** promoteSingleBlockAlloca *)

(** [less_first] *)
Definition less_first (p q : nat * InstId) : bool := bool_decide (p.1 < q.1).

(** The order [llvm::sort(StoresByIndex, less_first())] sorts by. *)
Definition index_le (p q : nat * InstId) : Prop := p.1 <= q.1.

#[global] Instance index_le_dec : RelDecision index_le.
Proof. intros p q. unfold index_le. apply _. Defined.

(** [llvm::lower_bound]: the position of the first entry that is not less
    than [x]; on a sorted list, what the binary search returns. *)
Fixpoint lower_bound {A} (less : A -> A -> bool) (l : list A) (x : A) : nat :=
  match l with
  | [] => 0
  | y :: l' => if less y x then S (lower_bound less l' x) else 0
  end.

Definition collectStore (F : Func) (acc : list (nat * InstId) * gmap InstId nat)
    (bu : BlockId * User) : list (nat * InstId) * gmap InstId nat :=
  match bu.2 with
  | UInst J =>
      match ikind J with
      | Store _ _ =>
          let r := getInstructionIndex F acc.2 bu.1 (iid J) in
          (acc.1 ++ [(r.1, iid J)], r.2)
      | _ => acc
      end
  | UTerm _ => acc
  end.

(** The tail of the loop body: the load [J] takes [ReplVal]. *)
Definition sb_replace (F : Func) (LBI : gmap InstId nat) (J : Instruction)
    (ReplVal : Value) : Func * gmap InstId nat :=
  let LI := iid J in
  let ReplVal :=
    if bool_decide (ReplVal = VInst LI) then VPoison (ity J) else ReplVal in
  (eraseFromParent (replaceAllUsesWith F LI ReplVal) LI, deleteValue LBI LI).

(** The value the load with index [LoadIdx] takes, [None] for
    [return false]. *)
Definition sb_value (StoresByIndex : list (nat * InstId)) (F : Func)
    (J : Instruction) (LoadIdx : nat) : option Value :=
  match lower_bound less_first StoresByIndex (LoadIdx, 0) with
  | 0 =>
      match StoresByIndex with
      | [] => Some (VUndef (ity J))
      | _ :: _ => None
      end
  | S k =>
      match StoresByIndex !! k with
      | Some SI => Some (storedValue F SI.2)
      | None => Some (VUndef TVoid)
      end
  end.

(** The loop over the loads; the boolean is [false] when the loop left
    through [return false]. *)
Fixpoint singleBlockLoads (StoresByIndex : list (nat * InstId)) (F : Func)
    (LBI : gmap InstId nat) (us : list (BlockId * User))
  : Func * gmap InstId nat * bool :=
  match us with
  | [] => (F, LBI, true)
  | bu :: us' =>
      match bu.2 with
      | UInst J =>
          match ikind J with
          | Load _ =>
              let r := getInstructionIndex F LBI bu.1 (iid J) in
              match sb_value StoresByIndex F J r.1 with
              | None => (F, r.2, false)
              | Some ReplVal =>
                  let r' := sb_replace F r.2 J ReplVal in
                  singleBlockLoads StoresByIndex r'.1 r'.2 us'
              end
          | _ => singleBlockLoads StoresByIndex F LBI us'
          end
      | UTerm _ => singleBlockLoads StoresByIndex F LBI us'
      end
  end.

(** [while (!AI->use_empty()) { ... SI->eraseFromParent(); LBI.deleteValue(SI); }];
    [AI->user_back()] is the user at the head of the use list. *)
Definition eraseUsers (F : Func) (LBI : gmap InstId nat) (a : InstId)
  : Func * gmap InstId nat :=
  fold_left (fun acc bu => (eraseFromParent acc.1 (userId bu.2),
                            deleteValue acc.2 (userId bu.2)))
            (users F a) (F, LBI).

Definition promoteSingleBlockAlloca (F : Func) (AI : AllocaInst)
    (Info : AllocaInfo) (LBI : gmap InstId nat)
  : Func * gmap InstId nat * bool :=
  let us := users F (a_id AI) in
  let c := fold_left (collectStore F) us ([], LBI) in
  let StoresByIndex := merge_sort index_le c.1 in
  let r := singleBlockLoads StoresByIndex F c.2 us in
  if r.2 then
    let e := eraseUsers r.1.1 r.1.2 (a_id AI) in
    (eraseFromParent e.1 (a_id AI), e.2, true)
  else r.

(** *** PromoteMem2Reg *)

(** The pass object, with the function it rewrites ([F] in [run]) and the
    supply of identities for the instructions it creates.  [BBNumbers] is
    not kept: a block is named by the number it would hold. *)
Record PromoteMem2Reg : Type := mkPass {
  Fn : Func;
  nextId : InstId;
  Allocas : list AllocaInst;
  AllocaLookup : gmap InstId nat;
  NewPhiNodes : gmap (nat * nat) InstId;
  PhiToAllocaMap : gmap InstId nat;
  Visited : gset BlockId;
  BBNumPreds : gmap BlockId nat
}.

Definition setFn (P : PromoteMem2Reg) (F : Func) : PromoteMem2Reg :=
  mkPass F (nextId P) (Allocas P) (AllocaLookup P) (NewPhiNodes P)
         (PhiToAllocaMap P) (Visited P) (BBNumPreds P).

Definition setAllocas (P : PromoteMem2Reg) (l : list AllocaInst) : PromoteMem2Reg :=
  mkPass (Fn P) (nextId P) l (AllocaLookup P) (NewPhiNodes P)
         (PhiToAllocaMap P) (Visited P) (BBNumPreds P).

(** [v[i] = v.back(); v.pop_back();] *)
Definition swapRemove {A} (l : list A) (i : nat) : list A :=
  match last l with
  | Some x => take (length l - 1) (<[i := x]> l)
  | None => l
  end.

(** [RemoveFromAllocasList(AllocaIdx)]; the caller's index stays where it
    is, as [--AllocaIdx] is undone by the loop's [++AllocaNum]. *)
Definition RemoveFromAllocasList (P : PromoteMem2Reg) (AllocaIdx : nat)
  : PromoteMem2Reg :=
  setAllocas P (swapRemove (Allocas P) AllocaIdx).

(** [getNumPreds(BB)] *)
Definition getNumPreds (P : PromoteMem2Reg) (BB : BlockId) : nat * PromoteMem2Reg :=
  match BBNumPreds P !! BB with
  | Some (S n) => (n, P)
  | _ =>
      let NP := pred_size (Fn P) BB + 1 in
      (NP - 1,
       mkPass (Fn P) (nextId P) (Allocas P) (AllocaLookup P) (NewPhiNodes P)
              (PhiToAllocaMap P) (Visited P) (<[BB := NP]> (BBNumPreds P)))
  end.

(** *** ComputeLiveInBlocks *)

(** The scan of a block for the first access to the cell: [Some true] for a
    store, [Some false] for a load.  The source's scan has no end test; it
    is run on blocks that hold a store to the cell. *)
Fixpoint firstAccess (a : InstId) (l : list Instruction) : option bool :=
  match l with
  | [] => None
  | J :: l' =>
      match ikind J with
      | Store _ p =>
          if bool_decide (p ≠ VInst a) then firstAccess a l' else Some true
      | Load p =>
          if bool_decide (p = VInst a) then Some false else firstAccess a l'
      | _ => firstAccess a l'
      end
  end.

(** The first loop, over the indices [i .. e) of the worklist; [n] is
    [e - i]. *)
Fixpoint pruneLiveIn (n : nat) (F : Func) (a : InstId) (DefBlocks : gset BlockId)
    (wl : list BlockId) (i : nat) : list BlockId :=
  match n with
  | 0 => wl
  | S n' =>
      match wl !! i with
      | None => wl
      | Some BB =>
          if bool_decide (BB ∉ DefBlocks) then pruneLiveIn n' F a DefBlocks wl (S i)
          else
            match firstAccess a (blockInsts F BB) with
            | Some true => pruneLiveIn n' F a DefBlocks (swapRemove wl i) i
            | _ => pruneLiveIn n' F a DefBlocks wl (S i)
            end
      end
  end.

(** The second loop.  The worklist is kept with its back at the head of the
    list. *)
Fixpoint liveInLoop (fuel : nat) (F : Func) (DefBlocks : gset BlockId)
    (wl : list BlockId) (LiveInBlocks : gset BlockId) : option (gset BlockId) :=
  match fuel with
  | 0 => None
  | S fuel' =>
      match wl with
      | [] => Some LiveInBlocks
      | BB :: wl' =>
          if bool_decide (BB ∈ LiveInBlocks)
          then liveInLoop fuel' F DefBlocks wl' LiveInBlocks
          else
            let ps := List.filter (fun p => bool_decide (p ∉ DefBlocks))
                                  (predecessors F BB) in
            liveInLoop fuel' F DefBlocks (rev ps ++ wl') ({[BB]} ∪ LiveInBlocks)
      end
  end.

Definition numEdges (F : Func) : nat :=
  sum_list ((fun B => length (tsuccs (term B))) <$> F).

Definition ComputeLiveInBlocks (F : Func) (AI : AllocaInst) (Info : AllocaInfo)
    (DefBlocks : gset BlockId) : option (gset BlockId) :=
  let wl := pruneLiveIn (length (UsingBlocks Info)) F (a_id AI) DefBlocks
                        (UsingBlocks Info) 0 in
  liveInLoop (length wl + numEdges F + 1) F DefBlocks (rev wl) ∅.

(** *** QueuePhiNode *)

Definition QueuePhiNode (P : PromoteMem2Reg) (BB : BlockId) (AllocaNo : nat)
    (Version : nat) : PromoteMem2Reg * nat * bool :=
  match NewPhiNodes P !! (BB, AllocaNo) with
  | Some _ => (P, Version, false)
  | None =>
      match Allocas P !! AllocaNo with
      | None => (P, Version, false)
      | Some AI =>
          let P1 := (getNumPreds P BB).2 in
          let Name := a_name AI +:+ "." +:+ pretty Version in
          let PN := mkInst (nextId P1) (ST_uniqueName (Fn P1) Name)
                           (a_allocated AI) (PHI []) in
          (mkPass (insertAtBegin (Fn P1) BB PN) (S (nextId P1)) (Allocas P1)
                  (AllocaLookup P1)
                  (<[(BB, AllocaNo) := iid PN]> (NewPhiNodes P1))
                  (<[iid PN := AllocaNo]> (PhiToAllocaMap P1))
                  (Visited P1) (BBNumPreds P1),
           S Version, true)
      end
  end.

(** *** RenamePass *)

(** [RenamePassData]: block, predecessor ([None] for [nullptr]), values. *)
Abbreviation RenamePassData := (BlockId * option BlockId * list Value)%type
  (only parsing).

(** The phis the [do ... while] loop goes on to after the first one: those
    that follow it at the head of the block and hold [n] operands. *)
Fixpoint phiRun (n : nat) (l : list Instruction) : list Instruction :=
  match l with
  | J :: l' =>
      if isPHI J && bool_decide (getNumOperands J = n)
      then J :: phiRun n l' else []
  | [] => []
  end.

(** [for (i = 0; i != NumEdges; ++i) APN->addIncoming(V, Pred);] *)
Definition addIncomingN (F : Func) (pn : InstId) (v : Value) (pred : BlockId)
    (n : nat) : Func :=
  Nat.iter n (fun F' => addIncoming F' pn v pred) F.

(** [IncomingVals[AllocaNo]] *)
Definition valueAt (IncomingVals : list Value) (AllocaNo : nat) : Value :=
  default (VUndef TVoid) (IncomingVals !! AllocaNo).

(** One round of the [do ... while] loop.  [PhiToAllocaMap[APN]] enters
    the phi with number 0 when the map does not hold it. *)
Definition updatePhi (Pred : BlockId) (NumEdges : nat)
    (acc : PromoteMem2Reg * list Value) (APN : Instruction)
  : PromoteMem2Reg * list Value :=
  let P := acc.1 in
  let IncomingVals := acc.2 in
  let AllocaNo := default 0 (PhiToAllocaMap P !! iid APN) in
  let F1 := addIncomingN (Fn P) (iid APN) (valueAt IncomingVals AllocaNo)
                         Pred NumEdges in
  (mkPass F1 (nextId P) (Allocas P) (AllocaLookup P) (NewPhiNodes P)
          (<[iid APN := AllocaNo]> (PhiToAllocaMap P)) (Visited P) (BBNumPreds P),
   <[AllocaNo := VInst (iid APN)]> IncomingVals).

(** The first part of [RenamePass]: the phis of [BB] take their operands
    for the edges from [Pred]. *)
Definition populatePhis (P : PromoteMem2Reg) (BB : BlockId)
    (Pred : option BlockId) (IncomingVals : list Value)
  : PromoteMem2Reg * list Value :=
  match blockInsts (Fn P) BB with
  | APN :: rest =>
      if isPHI APN && bool_decide (is_Some (PhiToAllocaMap P !! iid APN)) then
        let NewPHINumOperands := getNumOperands APN in
        let NumEdges :=
          match Pred with
          | Some p => length (List.filter (fun s => bool_decide (s = BB))
                                          (successors (Fn P) p))
          | None => 0
          end in
        fold_left (updatePhi (default 0 Pred) NumEdges)
                  (APN :: phiRun NewPHINumOperands rest) (P, IncomingVals)
      else (P, IncomingVals)
  | [] => (P, IncomingVals)
  end.

Definition findInBlock (F : Func) (BB : BlockId) (i : InstId) : option Instruction :=
  List.find (fun J => bool_decide (iid J = i)) (blockInsts F BB).

(** [dyn_cast<AllocaInst>(V)], as the id of the alloca. *)
Definition asAllocaId (F : Func) (v : Value) : option InstId :=
  match v with
  | VInst i => if isAllocaValue F v then Some i else None
  | _ => None
  end.

(** One round of the loop over the instructions of [BB]; the instruction is
    read as the function holds it when its turn comes. *)
Definition renameInst (BB : BlockId) (acc : PromoteMem2Reg * list Value)
    (i : InstId) : PromoteMem2Reg * list Value :=
  let P := acc.1 in
  let IncomingVals := acc.2 in
  match findInBlock (Fn P) BB i with
  | None => acc
  | Some J =>
      match ikind J with
      | Load p =>
          match asAllocaId (Fn P) p with
          | None => acc
          | Some Src =>
              match AllocaLookup P !! Src with
              | None => acc
              | Some AllocaNo =>
                  let V := valueAt IncomingVals AllocaNo in
                  let F1 := replaceAllUsesWith (Fn P) i V in
                  (setFn P (eraseFromParent F1 i), IncomingVals)
              end
          end
      | Store v p =>
          match asAllocaId (Fn P) p with
          | None => acc
          | Some Dest =>
              match AllocaLookup P !! Dest with
              | None => acc
              | Some AllocaNo =>
                  (setFn P (eraseFromParent (Fn P) i),
                   <[AllocaNo := v]> IncomingVals)
              end
          end
      | _ => acc
      end
  end.

(** The successors in the order of their first slot ([VisitedSuccs]). *)
Fixpoint firstOccurrences (l : list BlockId) (VisitedSuccs : gset BlockId)
  : list BlockId :=
  match l with
  | [] => []
  | s :: l' =>
      if bool_decide (s ∈ VisitedSuccs) then firstOccurrences l' VisitedSuccs
      else s :: firstOccurrences l' ({[s]} ∪ VisitedSuccs)
  end.

(** [Visited.insert(BB)] *)
Definition markVisited (P : PromoteMem2Reg) (BB : BlockId) : PromoteMem2Reg :=
  mkPass (Fn P) (nextId P) (Allocas P) (AllocaLookup P) (NewPhiNodes P)
         (PhiToAllocaMap P) ({[BB]} ∪ Visited P) (BBNumPreds P).

(** The loop over the instructions of a block on its first visit. *)
Definition renameBody (P : PromoteMem2Reg) (BB : BlockId) (IncomingVals : list Value)
  : PromoteMem2Reg * list Value :=
  fold_left (renameInst BB) (iid <$> blockInsts (Fn P) BB)
            (markVisited P BB, IncomingVals).

(** One pass through the body of [RenamePass], from [NextIteration] to the
    [return] or the [goto]: the state, the data the [goto] goes on with (if
    any), and the worklist, kept with its back at the head of the list. *)
Definition RenamePassStep (P : PromoteMem2Reg) (d : RenamePassData)
    (Worklist : list RenamePassData)
  : PromoteMem2Reg * option RenamePassData * list RenamePassData :=
  let BB := d.1.1 in
  let r1 := populatePhis P BB d.1.2 d.2 in
  if bool_decide (BB ∈ Visited r1.1) then (r1.1, None, Worklist)
  else
    let r3 := renameBody r1.1 BB r1.2 in
    match firstOccurrences (successors (Fn r3.1) BB) ∅ with
    | [] => (r3.1, None, Worklist)
    | S1 :: others =>
        (r3.1, Some (S1, Some BB, r3.2),
         rev ((fun s => (s, Some BB, r3.2)) <$> others) ++ Worklist)
    end.

(** [RenamePass] under the [do ... while] loop of [run]: each round is one
    pass through the body, followed by the [goto] or, on [return], by the
    next entry of the worklist. *)
Fixpoint RenameLoop (fuel : nat) (P : PromoteMem2Reg) (d : RenamePassData)
    (Worklist : list RenamePassData) : option PromoteMem2Reg :=
  match fuel with
  | 0 => None
  | S fuel' =>
      let r := RenamePassStep P d Worklist in
      match r.1.2 with
      | Some d' => RenameLoop fuel' r.1.1 d' r.2
      | None =>
          match r.2 with
          | [] => Some r.1.1
          | d' :: wl2 => RenameLoop fuel' r.1.1 d' wl2
          end
      end
  end.

(** *** run *)

(** [for (BasicBlock* BB : PHIBlocks) QueuePhiNode(BB, AllocaNum, CurrentVersion);] *)
Definition queuePhis (P : PromoteMem2Reg) (AllocaNum : nat)
    (PHIBlocks : list BlockId) : PromoteMem2Reg :=
  (fold_left (fun acc BB => (QueuePhiNode acc.1 BB AllocaNum acc.2).1)
             PHIBlocks (P, 0)).1.

(** The state the loop over [Allocas] carries: the pass object, [Info],
    [LBI] and [AllocaNum]. *)
Record AllocaLoopState : Type := mkLoop {
  ls_P : PromoteMem2Reg;
  ls_Info : AllocaInfo;
  ls_LBI : gmap InstId nat;
  ls_AllocaNum : nat
}.

(** The body of the loop over [Allocas], for [AI = Allocas[AllocaNum]].  A
    round that ends in [RemoveFromAllocasList] leaves [AllocaNum] where it
    is ([--AllocaIdx], then [++AllocaNum]); the others advance it. *)
Definition processAlloca (s : AllocaLoopState) (AI : AllocaInst)
  : option AllocaLoopState :=
  let P := ls_P s in
  let AllocaNum := ls_AllocaNum s in
  if use_empty (Fn P) (a_id AI) then
    let P1 := setFn P (eraseFromParent (Fn P) (a_id AI)) in
    Some (mkLoop (RemoveFromAllocasList P1 AllocaNum) (ls_Info s) (ls_LBI s) AllocaNum)
  else
    let Info1 := AnalyzeAlloca (Fn P) AI in
    let r1 :=
      if bool_decide (length (DefiningBlocks Info1) = 1)
      then rewriteSingleStoreAlloca (Fn P) AI Info1 (ls_LBI s)
      else (Fn P, Info1, ls_LBI s, false) in
    let F1 := r1.1.1.1 in
    let Info2 := r1.1.1.2 in
    let LBI1 := r1.1.2 in
    if r1.2 then
      Some (mkLoop (RemoveFromAllocasList (setFn P F1) AllocaNum) Info2 LBI1 AllocaNum)
    else
      let r2 :=
        if OnlyUsedInOneBlock Info2
        then promoteSingleBlockAlloca F1 AI Info2 LBI1
        else (F1, LBI1, false) in
      let F2 := r2.1.1 in
      let LBI2 := r2.1.2 in
      if r2.2 then
        Some (mkLoop (RemoveFromAllocasList (setFn P F2) AllocaNum) Info2 LBI2 AllocaNum)
      else
        let P2 := mkPass F2 (nextId P) (Allocas P)
                         (<[a_id AI := AllocaNum]> (AllocaLookup P))
                         (NewPhiNodes P) (PhiToAllocaMap P) (Visited P)
                         (BBNumPreds P) in
        let DefBlocks : gset BlockId := list_to_set (DefiningBlocks Info2) in
        match ComputeLiveInBlocks F2 AI Info2 DefBlocks with
        | None => None
        | Some LiveInBlocks =>
            let PHIBlocks := merge_sort le (IDF_calculate DefBlocks LiveInBlocks) in
            Some (mkLoop (queuePhis P2 AllocaNum PHIBlocks) Info2 LBI2 (S AllocaNum))
        end.

(** The loop over [Allocas]; [n] is [Allocas.size() - AllocaNum], which
    every round lowers by one. *)
Fixpoint allocaLoop (n : nat) (s : AllocaLoopState) : option AllocaLoopState :=
  match n with
  | 0 => Some s
  | S n' =>
      match Allocas (ls_P s) !! ls_AllocaNum s with
      | None => Some s
      | Some AI =>
          match processAlloca s AI with
          | None => None
          | Some s' => allocaLoop n' s'
          end
      end
  end.

(** [for (Instruction* A : Allocas) { ... }] after the renaming. *)
Definition eraseAlloca (F : Func) (A : AllocaInst) : Func :=
  let F1 :=
    if negb (use_empty F (a_id A))
    then replaceAllUsesWith F (a_id A) (VPoison (a_type A))
    else F in
  eraseFromParent F1 (a_id A).

(** One round of the loop over [NewPhiNodes] that folds trivial phis. *)
Definition simplifyEntry (acc : PromoteMem2Reg * bool) (e : nat * nat * InstId)
  : PromoteMem2Reg * bool :=
  let P := acc.1 in
  let PN := e.2 in
  match simplifyPHINode (Fn P) PN (Some DT_dominatesInst) with
  | Some V =>
      let F1 := replaceAllUsesWith (Fn P) PN V in
      (mkPass (eraseFromParent F1 PN) (nextId P) (Allocas P) (AllocaLookup P)
              (delete e.1 (NewPhiNodes P)) (PhiToAllocaMap P) (Visited P)
              (BBNumPreds P),
       true)
  | None => acc
  end.

(** [while (EliminatedAPHI) { ... }] *)
Fixpoint simplifyLoop (fuel : nat) (P : PromoteMem2Reg) : option PromoteMem2Reg :=
  match fuel with
  | 0 => None
  | S fuel' =>
      let r := fold_left simplifyEntry (map_to_list (NewPhiNodes P)) (P, false) in
      if r.2 then simplifyLoop fuel' r.1 else Some r.1
  end.

(** The predecessors of [BB] that [SomePHI] has no entry for: the sorted
    predecessor list, less one position per incoming block of the phi. *)
Definition missingPreds (F : Func) (BB : BlockId) (SomePHI : Instruction)
  : list BlockId :=
  fold_left (fun Preds blk =>
               delete (lower_bound (fun x y => bool_decide (x < y)) Preds blk) Preds)
            (incomingOf SomePHI).*2
            (merge_sort le (predecessors F BB)).

(** [for (BasicBlock* Pred : Preds) SomePHI->addIncoming(PoisonVal, Pred);] *)
Definition addPoison (Preds : list BlockId) (F : Func) (PN : Instruction) : Func :=
  fold_left (fun F' Pred => addIncoming F' (iid PN) (VPoison (ity PN)) Pred) Preds F.

(** One round of the loop that gives the phis of unvisited predecessors
    their poison entries. *)
Definition fillEntry (P : PromoteMem2Reg) (e : nat * nat * InstId)
  : PromoteMem2Reg :=
  match findInst (Fn P) e.2 with
  | None => P
  | Some (BB, SomePHI) =>
      match blockInsts (Fn P) BB with
      | [] => P
      | front :: _ =>
          if bool_decide (iid front ≠ iid SomePHI) then P
          else
            let P1 := (getNumPreds P BB).2 in
            if bool_decide (getNumOperands SomePHI = (getNumPreds P BB).1) then P1
            else
              let Preds := missingPreds (Fn P1) BB SomePHI in
              let NumBadPreds := getNumOperands SomePHI in
              setFn P1 (fold_left (addPoison Preds)
                                  (phiRun NumBadPreds (blockInsts (Fn P1) BB))
                                  (Fn P1))
      end
  end.

Definition run (P : PromoteMem2Reg) : option PromoteMem2Reg :=
  match allocaLoop (length (Allocas P)) (mkLoop P Info_clear ∅ 0) with
  | None => None
  | Some s =>
      let P1 := ls_P s in
      match Allocas P1 with
      | [] => Some P1
      | _ :: _ =>
          let Values := (fun A => VUndef (a_allocated A)) <$> Allocas P1 in
          match RenameLoop (numEdges (Fn P1) + 1) P1 (0, None, Values) [] with
          | None => None
          | Some P2 =>
              let P3 := mkPass (fold_left eraseAlloca (Allocas P2) (Fn P2))
                               (nextId P2) (Allocas P2) (AllocaLookup P2)
                               (NewPhiNodes P2) (PhiToAllocaMap P2) ∅
                               (BBNumPreds P2) in
              match simplifyLoop (size (NewPhiNodes P3) + 1) P3 with
              | None => None
              | Some P4 =>
                  let P5 := fold_left fillEntry (map_to_list (NewPhiNodes P4)) P4 in
                  Some (mkPass (Fn P5) (nextId P5) (Allocas P5) (AllocaLookup P5)
                               ∅ (PhiToAllocaMap P5) (Visited P5) (BBNumPreds P5))
              end
          end
      end
  end.

(** The pass object [PromoteMem2Reg(Allocas, DT)] on the function [F]. *)
Definition newPass (F : Func) (Allocas : list AllocaInst) : PromoteMem2Reg :=
  mkPass F (S (max_list (funcIds F ++ (a_id <$> Allocas)))) Allocas ∅ ∅ ∅ ∅ ∅.

Definition PromoteMemToReg (F : Func) (Allocas : list AllocaInst) : option Func :=
  match Allocas with
  | [] => Some F
  | _ :: _ => Fn <$> run (newPass F Allocas)
  end.

(** *** promoteMemoryToRegister *)

(** The allocas of the entry block that [isAllocaPromotable] accepts. *)
Definition promotableAllocas (F : Func) : list AllocaInst :=
  List.filter (isAllocaPromotable F) (omap asAlloca (blockInsts F 0)).

(** [while (true) { ... }]; every round that goes on erases an alloca of the
    entry block. *)
Fixpoint promoteLoop (fuel : nat) (F : Func) (Changed : bool)
  : option (Func * bool) :=
  match fuel with
  | 0 => None
  | S fuel' =>
      match promotableAllocas F with
      | [] => Some (F, Changed)
      | Allocas =>
          match PromoteMemToReg F Allocas with
          | None => None
          | Some F' => promoteLoop fuel' F' true
          end
      end
  end.

Definition promoteMemoryToRegister (F : Func) : option (Func * bool) :=
  promoteLoop (S (length (blockInsts F 0))) F false.

(** ** Notions the properties are stated with *)

(** The terminators, with their successor slots, are what the CFG is. *)
Definition cfg (F : Func) : list (InstId * list BlockId) :=
  (fun B => (tid (term B), tsuccs (term B))) <$> F.

(** A load of the cell's allocated type. *)
Definition loadOfType (AI : AllocaInst) (J : Instruction) : Prop :=
  exists p, ikind J = Load p /\ ity J = a_allocated AI.

(** A store of a value of the allocated type, other than the cell itself. *)
Definition storeOfType (F : Func) (AI : AllocaInst) (J : Instruction) : Prop :=
  exists v p, ikind J = Store v p /\ v <> VInst (a_id AI)
              /\ getType F v = a_allocated AI.

Definition goodUser (F : Func) (AI : AllocaInst) (u : User) : Prop :=
  match u with
  | UInst J => loadOfType AI J \/ storeOfType F AI J
  | UTerm _ => False
  end.






(** Successor slots that name a block outside [L]; successor slots of the
    blocks outside [V] (counted on the CFG, from block number [i] on).
    These bound the work left in the two worklist loops. *)
Definition slotsOutside (L : gset BlockId) (c : list (InstId * list BlockId)) : nat :=
  sum_list ((fun e => length (List.filter (fun s => bool_decide (s ∉ L)) e.2)) <$> c).

Fixpoint slotsOfUnvisited (V : gset BlockId) (i : BlockId)
    (c : list (InstId * list BlockId)) : nat :=
  match c with
  | [] => 0
  | e :: c' =>
      (if bool_decide (i ∈ V) then 0 else length e.2) + slotsOfUnvisited V (S i) c'
  end.

(** What a property of the function has to be closed under for the pass to
    keep it: the four mutations, applied to [safe] values and to new phis
    with an [okId] identity, where stored values, phi operands and phis are
    [safe] whenever the property holds. *)
Record PassInvariant (Inv : Func -> Prop) (safe : Value -> Prop)
    (okId : InstId -> Prop) : Prop := {
  pi_rauw : forall F old new,
      Inv F -> safe new -> Inv (replaceAllUsesWith F old new);
  pi_erase : forall F i, Inv F -> Inv (eraseFromParent F i);
  pi_addIncoming : forall F pn v p,
      Inv F -> safe v -> Inv (addIncoming F pn v p);
  pi_insert : forall F b J,
      Inv F -> ikind J = PHI [] -> okId (iid J) -> Inv (insertAtBegin F b J);
  pi_undef : forall ty, safe (VUndef ty);
  pi_poison : forall ty, safe (VPoison ty);
  pi_storeval : forall F b J v p,
      Inv F -> J ∈ blockInsts F b -> ikind J = Store v p -> safe v;
  pi_phiop : forall F b J v,
      Inv F -> J ∈ blockInsts F b -> isPHI J = true -> v ∈ operands J -> safe v;
  pi_phiid : forall F b J,
      Inv F -> J ∈ blockInsts F b -> isPHI J = true -> safe (VInst (iid J))
}.

(** No instruction of the function has the identity [a]. *)
Definition absent (a : InstId) (F : Func) : Prop :=
  forall b J, J ∈ blockInsts F b -> iid J <> a.

(** No instruction and no terminator has the value [a] among its operands. *)
Definition unused (a : InstId) (F : Func) : Prop :=
  (forall b J, J ∈ blockInsts F b -> VInst a ∉ operands J)
  /\ (forall B, B ∈ F -> VInst a ∉ tops (term B)).

(** Every user of [a] is a load from it or a store into it of another
    value, and [a] is not the identity of a phi. *)
Definition cellOK (a : InstId) (F : Func) : Prop :=
  (forall b J, J ∈ blockInsts F b -> VInst a ∈ operands J ->
               ikind J = Load (VInst a)
               \/ exists v, ikind J = Store v (VInst a) /\ v <> VInst a)
  /\ (forall B, B ∈ F -> VInst a ∉ tops (term B))
  /\ (forall b J, J ∈ blockInsts F b -> isPHI J = true -> iid J <> a).

(** The allocas of the entry block. *)
Definition entryAllocas (F : Func) : list AllocaInst := omap asAlloca (blockInsts F 0).

(** Instructions have identities of their own. *)
Definition uniqueIds (F : Func) : Prop := NoDup (iid <$> (allInsts F).*2).

(** The handles are allocas of the function. *)
Definition allocasOf (F : Func) (As : list AllocaInst) : Prop :=
  forall A, A ∈ As -> exists b J, J ∈ blockInsts F b /\ asAlloca J = Some A.

(** A phi with the entries [es] appended. *)
Definition addEntries (es : list (Value * BlockId)) (J : Instruction) : Instruction :=
  match ikind J with
  | PHI inc => mkInst (iid J) (iname J) (ity J) (PHI (inc ++ es))
  | _ => J
  end.

(** The number of the cell a phi stands for. *)
Definition cellOf (P : PromoteMem2Reg) (J : Instruction) : nat :=
  default 0 (PhiToAllocaMap P !! iid J).

(** The successor slots of [Pred] that name [BB]. *)
Definition edgeCount (F : Func) (Pred BB : BlockId) : nat :=
  length (List.filter (fun s => bool_decide (s = BB)) (successors F Pred)).

(** The place of [i] in a list of identities. *)
Fixpoint indexOf (i : InstId) (l : list InstId) : nat :=
  match l with
  | [] => 0
  | x :: l' => if bool_decide (x = i) then 0 else S (indexOf i l')
  end.

(** The place of the instruction [i] in block [b]. *)
Definition position (F : Func) (b : BlockId) (i : InstId) : nat :=
  indexOf i (iid <$> blockInsts F b).

(** The index cache and the accesses to the cell [a] in block [b]: the
    cache holds them in the order they stand in the block, and it holds all
    of them or none. *)
Definition LBIordered (F : Func) (LBI : gmap InstId nat) (a : InstId)
    (b : BlockId) : Prop :=
  forall J1 J2 n1 n2,
    J1 ∈ blockInsts F b -> J2 ∈ blockInsts F b ->
    VInst a ∈ operands J1 -> VInst a ∈ operands J2 ->
    LBI !! iid J1 = Some n1 -> LBI !! iid J2 = Some n2 ->
    position F b (iid J1) < position F b (iid J2) -> n1 < n2.

Definition LBIfull (F : Func) (LBI : gmap InstId nat) (a : InstId)
    (b : BlockId) : Prop :=
  forall J, J ∈ blockInsts F b -> VInst a ∈ operands J -> is_Some (LBI !! iid J).

Definition LBInone (F : Func) (LBI : gmap InstId nat) (a : InstId)
    (b : BlockId) : Prop :=
  forall J, J ∈ blockInsts F b -> VInst a ∈ operands J -> LBI !! iid J = None.

Definition LBIconsistent (F : Func) (LBI : gmap InstId nat) (a : InstId)
    (b : BlockId) : Prop :=
  LBIordered F LBI a b /\ (LBIfull F LBI a b \/ LBInone F LBI a b).

(** The accesses to the cell are what the scan numbers. *)
Definition accessesNumbered (F : Func) (a : InstId) (b : BlockId) : Prop :=
  forall J, J ∈ blockInsts F b -> VInst a ∈ operands J ->
            isInterestingInstruction F J = true.


(** The cell [a] while the pass works on it: instructions have identities
    of their own, the cell is an alloca of the function, and all that use it
    are loads from it and stores into it. *)
Definition cellState (a : InstId) (F : Func) : Prop :=
  uniqueIds F /\ cellOK a F /\ isAllocaValue F (VInst a) = true.

Definition storeAt (F : Func) (a : InstId) (b : BlockId) (s : InstId) : Prop :=
  exists J v, J ∈ blockInsts F b /\ iid J = s /\ ikind J = Store v (VInst a).



(** The load [u] takes the value [v] (poison, if that is the load itself),
    and goes. *)
Definition replaceLoadWith (v : Value) (F : Func) (u : User) : Func :=
  let v := if bool_decide (v = VInst (userId u)) then VPoison (userType u) else v in
  eraseFromParent (replaceAllUsesWith F (userId u) v) (userId u).



(** What the loop of the single-store rewrite keeps about the index of the
    store. *)
Definition storeIndexKnown (st : SingleStoreState) (a : InstId)
    (OnlyStore : BlockId * InstId) : Prop :=
  ss_StoreIndex st = (-1)%Z
  \/ exists n, ss_StoreIndex st = Z.of_nat n
               /\ ss_LBI st !! OnlyStore.2 = Some n
               /\ LBIfull (ss_F st) (ss_LBI st) a OnlyStore.1.

(** What the loop of the single-store rewrite keeps, [F0] being the
    function it started on. *)
Definition ssInv (F0 : Func) (a : InstId) (OnlyStore : BlockId * InstId)
    (st : SingleStoreState) : Prop :=
  cellState a (ss_F st)
  /\ storeAt (ss_F st) a OnlyStore.1 OnlyStore.2
  /\ (forall b, sublist (iid <$> blockInsts (ss_F st) b) (iid <$> blockInsts F0 b))
  /\ LBIconsistent (ss_F st) (ss_LBI st) a OnlyStore.1
  /\ storeIndexKnown st a OnlyStore.

(** The users that are stores. *)
Definition isStoreUser (bu : BlockId * User) : bool :=
  match bu.2 with
  | UInst J => match ikind J with Store _ _ => true | _ => false end
  | UTerm _ => false
  end.




(** Entries with indices that go up. *)
Definition index_lt (p q : nat * InstId) : Prop := p.1 < q.1.




(** *** The phis the pass inserts *)

(** [F'] comes from [F] by replacing uses and erasing instructions. *)
Inductive shrinks (F : Func) : Func -> Prop :=
| shrinks_refl : shrinks F F
| shrinks_rauw F' old new :
    shrinks F F' -> shrinks F (replaceAllUsesWith F' old new)
| shrinks_erase F' i :
    shrinks F F' -> shrinks F (eraseFromParent F' i).

Definition mapInsts (g : Instruction -> Instruction) (F : Func) : Func :=
  (fun B => mkBlock (g <$> insts B) (term B)) <$> F.

(** Every phi takes the entries [X] holds for its identity. *)
Definition addTo (X : InstId -> list (Value * BlockId)) (F : Func) : Func :=
  mapInsts (fun J => addEntries (X (iid J)) J) F.

(** The incoming blocks the edges from the blocks [ps] into [b] make: one
    per successor slot. *)
Definition edgesFrom (F : Func) (ps : list BlockId) (b : BlockId) : list BlockId :=
  ps ≫= (fun p => replicate (edgeCount F p b) p).

(** The phis the function had before the pass (their identities are below
    [n0]) hold one entry per predecessor slot, and there is one at least. *)
Definition oldPhisFull (n0 : nat) (F0 F : Func) : Prop :=
  forall b J, J ∈ blockInsts F b -> iid J < n0 -> isPHI J = true ->
              getNumOperands J = pred_size F0 b /\ 0 < pred_size F0 b.

(** The instructions of the pass (identities from [n0] on) are phis at the
    head of their blocks. *)
Definition newAtHead (n0 : nat) (F : Func) : Prop :=
  forall b, exists news olds,
    blockInsts F b = news ++ olds
    /\ Forall (fun J => n0 <= iid J /\ isPHI J = true) news
    /\ Forall (fun J => iid J < n0) olds.

(** The phis of the pass in block [b] hold the entries of the edges from
    the blocks [D b]. *)
Definition newPhisFrom (n0 : nat) (F0 : Func) (D : BlockId -> list BlockId)
    (F : Func) : Prop :=
  forall b J, J ∈ blockInsts F b -> n0 <= iid J ->
              (incomingOf J).*2 = edgesFrom F0 (D b) b.

Definition phiBase (n0 : nat) (F0 F : Func) : Prop :=
  cfg F = cfg F0 /\ uniqueIds F /\ oldPhisFull n0 F0 F /\ newAtHead n0 F.

Definition phiFrame (n0 : nat) (F0 : Func) (D : BlockId -> list BlockId)
    (F : Func) : Prop :=
  phiBase n0 F0 F /\ newPhisFrom n0 F0 D F.

(** What the pass object knows of the phis it inserted: each is entered
    in both maps, the maps hold identities of the pass only, the cache of
    predecessor counts is right, and identities below [nextId] only are in
    use. *)
Definition registered (n0 : nat) (F0 : Func) (P : PromoteMem2Reg) : Prop :=
  (forall b J, J ∈ blockInsts (Fn P) b -> n0 <= iid J ->
               is_Some (PhiToAllocaMap P !! iid J)
               /\ exists k, NewPhiNodes P !! k = Some (iid J))
  /\ (forall i, is_Some (PhiToAllocaMap P !! i) -> n0 <= i)
  /\ (forall k i, NewPhiNodes P !! k = Some i -> n0 <= i)
  /\ (forall BB m, BBNumPreds P !! BB = Some m -> m = pred_size F0 BB + 1)
  /\ (forall b J, J ∈ blockInsts (Fn P) b -> iid J < nextId P)
  /\ n0 <= nextId P.

Definition sameRegistry (P P' : PromoteMem2Reg) : Prop :=
  nextId P' = nextId P /\ NewPhiNodes P' = NewPhiNodes P
  /\ PhiToAllocaMap P' = PhiToAllocaMap P /\ BBNumPreds P' = BBNumPreds P.

(** What the loop over the allocas keeps: the phis of the pass hold no
    entry yet. *)
Definition AInv (n0 : nat) (F0 : Func) (P : PromoteMem2Reg) : Prop :=
  phiFrame n0 F0 (fun _ => []) (Fn P) /\ registered n0 F0 P.

(** The edges the renaming walk has still to go over: the source of each is
    a block the walk has been in, its edges into the target are not among
    the entries of the phis there yet, and no edge is held twice.  The walk
    starts with the entry block, which it enters from no block. *)
Definition pendingOK (F0 : Func) (D : BlockId -> list BlockId) (V : gset BlockId)
    (pend : list (BlockId * option BlockId * list Value)) : Prop :=
  (forall e, e ∈ pend ->
     match e.1.2 with
     | Some p => p ∈ V /\ (p ∉ D e.1.1) /\ 0 < edgeCount F0 p e.1.1
     | None => pend = [e] /\ forall b, D b = []
     end)
  /\ NoDup ((fun e => (e.1.2, e.1.1)) <$> pend).

(** What the renaming walk keeps. *)
Definition RInv (n0 : nat) (F0 : Func) (P : PromoteMem2Reg)
    (pend : list (BlockId * option BlockId * list Value)) : Prop :=
  exists D, phiFrame n0 F0 D (Fn P) /\ registered n0 F0 P
            /\ (forall b, NoDup (D b) /\ forall p, p ∈ D b -> p ∈ Visited P)
            /\ pendingOK F0 D (Visited P) pend.

(** *** The renaming walk *)

(** The blocks the walk has still to go to after a pass through the body of
    [RenamePass]: the one the [goto] goes on with, then the worklist. *)
Definition pendingOf
    (r : PromoteMem2Reg * option (BlockId * option BlockId * list Value)
         * list (BlockId * option BlockId * list Value))
  : list (BlockId * option BlockId * list Value) :=
  match r.1.2 with Some d' => d' :: r.2 | None => r.2 end.

(** The blocks the entry block reaches along successor slots. *)
Definition reachable (F : Func) (b : BlockId) : Prop :=
  rtc (fun p s => s ∈ successors F p) 0 b.

(** What the walk keeps about the blocks: it has been in reachable blocks
    only, it has reachable blocks only before it, every successor of a
    block it has been in is a block it has been in or has before it, and so
    is the entry block. *)
Definition walkInv (F0 : Func) (P : PromoteMem2Reg)
    (pend : list (BlockId * option BlockId * list Value)) : Prop :=
  cfg (Fn P) = cfg F0
  /\ (forall b, b ∈ Visited P -> reachable F0 b)
  /\ (forall e, e ∈ pend -> reachable F0 e.1.1)
  /\ (forall p s, p ∈ Visited P -> s ∈ successors F0 p ->
                  s ∈ Visited P \/ s ∈ pend.*1.*1)
  /\ (0 ∈ Visited P \/ 0 ∈ pend.*1.*1).

(** *** What the pass leaves of the instructions *)

(** [J] is the instruction [J0] up to its operands: the same identity,
    name, type and opcode, and as many operands (a phi may have taken
    entries). *)
Definition sameShape (J0 J : Instruction) : Prop :=
  iid J = iid J0 /\ iname J = iname J0 /\ ity J = ity J0
  /\ match ikind J0, ikind J with
     | Alloca t0, Alloca t => t0 = t
     | Load _, Load _ | Store _ _, Store _ _ | PHI _, PHI _ => True
     | Other o0, Other o => length o0 = length o
     | _, _ => False
     end.

(** Every block of [F] is a run of phis with identities from [n0] on,
    followed by instructions of the same block of [F0], in the order they
    have there, each up to its operands. *)
Definition keptInOrder (n0 : nat) (F0 F : Func) : Prop :=
  forall b, exists news kept olds,
    blockInsts F b = news ++ olds
    /\ Forall (fun J => n0 <= iid J /\ isPHI J = true) news
    /\ sublist kept (blockInsts F0 b)
    /\ Forall2 sameShape kept olds.

(** *** ComputeLiveInBlocks *)



(** *** The phis of the pass when the pass ends *)

(** The phis a function has before the pass are well formed: each holds
    one entry per predecessor slot of its block, and its block has a
    predecessor. *)
Definition wfPhis (F : Func) : Prop :=
  Forall (fun bJ => isPHI bJ.2 = true ->
                    getNumOperands bJ.2 = pred_size F bJ.1 /\ 0 < pred_size F bJ.1)
         (allInsts F).

(** The phis of the pass in block [b] are complete: their incoming blocks
    are the predecessors of [b], slot by slot, and what comes in from a
    block that cannot be reached is poison. *)
Definition phisComplete (n0 : nat) (F0 F : Func) (b : BlockId) : Prop :=
  forall J, J ∈ blockInsts F b -> n0 <= iid J ->
    (incomingOf J).*2 ≡ₚ predecessors F0 b
    /\ forall v p, (v, p) ∈ incomingOf J -> ~ reachable F0 p -> v = VPoison (ity J).

(** The phis of the pass in block [b] hold what the walk gave them, and
    the loop that fills them has yet to come to the first of them. *)
Definition phisWait (n0 : nat) (F0 : Func) (D : BlockId -> list BlockId) (F : Func)
    (rest : list (nat * nat * InstId)) (b : BlockId) : Prop :=
  (forall J, J ∈ blockInsts F b -> n0 <= iid J ->
             (incomingOf J).*2 = edgesFrom F0 (D b) b)
  /\ (forall J, head (blockInsts F b) = Some J -> n0 <= iid J -> iid J ∈ rest.*2).

(** What the loop that fills the phis keeps. *)
Definition fillInv (n0 : nat) (F0 : Func) (D : BlockId -> list BlockId)
    (P : PromoteMem2Reg) (rest : list (nat * nat * InstId)) : Prop :=
  phiBase n0 F0 (Fn P)
  /\ (forall BB m, BBNumPreds P !! BB = Some m -> m = pred_size F0 BB + 1)
  /\ (forall e, e ∈ rest -> n0 <= e.2)
  /\ forall b, phisComplete n0 F0 (Fn P) b \/ phisWait n0 F0 D (Fn P) rest b.

(** *** The instructions the pass has no business with *)

(** No value of [AS], the cells the pass is given. *)
Definition notCell (AS : list InstId) (v : Value) : Prop :=
  forall a, a ∈ AS -> v <> VInst a.

(** Every cell of [AS] is used by loads from it and stores into it only. *)
Definition cellsOK (AS : list InstId) (F : Func) : Prop :=
  forall a, a ∈ AS -> cellOK a F.

(** The instruction [J0] of block [b0] is in its block still, up to its
    operands, and no instruction with its identity holds a cell of [AS]. *)
Definition keepsInst (AS : list InstId) (b0 : BlockId) (J0 : Instruction)
    (F : Func) : Prop :=
  (exists J, J ∈ blockInsts F b0 /\ sameShape J0 J)
  /\ (forall b J a, J ∈ blockInsts F b -> iid J = iid J0 -> a ∈ AS ->
                    VInst a ∉ operands J).

(** Instructions have identities of their own, all below [n]. *)
Definition idsBelow (n : nat) (F : Func) : Prop :=
  uniqueIds F /\ forall b J, J ∈ blockInsts F b -> iid J < n.

Definition KInv (AS : list InstId) (b0 : BlockId) (J0 : Instruction)
    (n : nat) (F : Func) : Prop :=
  cellsOK AS F /\ keepsInst AS b0 J0 F /\ idsBelow n F.

(** The same for the pass object: the allocas it holds and the ones it has
    numbered are cells of [AS], and the phis it has made and the ones it
    will make are neither cells nor [J0]. *)
Definition KPass (AS : list InstId) (b0 : BlockId) (J0 : Instruction)
    (P : PromoteMem2Reg) : Prop :=
  KInv AS b0 J0 (nextId P) (Fn P)
  /\ (forall i, nextId P <= i -> (i ∉ AS) /\ i <> iid J0)
  /\ (forall A, A ∈ Allocas P -> a_id A ∈ AS)
  /\ (forall a n, AllocaLookup P !! a = Some n -> a ∈ AS)
  /\ (forall k i, NewPhiNodes P !! k = Some i -> i <> iid J0).

(** Neither an alloca, nor a load, nor a store. *)
Definition notMemory (J : Instruction) : Prop :=
  match ikind J with
  | Alloca _ | Load _ | Store _ _ => False
  | PHI _ | Other _ => True
  end.

(** *** The books of the loop over the allocas *)

(** The registry of phis, when the allocas with numbers below [N] have
    been dealt with: a phi entered for a block and an alloca number is
    entered under that number in [PhiToAllocaMap], and the other way
    round. *)
Definition phiBooks (N : nat) (P : PromoteMem2Reg) : Prop :=
  (forall k i, NewPhiNodes P !! k = Some i ->
               k.2 < N /\ i < nextId P /\ PhiToAllocaMap P !! i = Some k.2)
  /\ (forall i m, PhiToAllocaMap P !! i = Some m ->
                  exists BB, NewPhiNodes P !! (BB, m) = Some i).

(** [AllocaLookup] holds the allocas with numbers below [N], each under
    the place it has in [Allocas]. *)
Definition booksOK (N : nat) (P : PromoteMem2Reg) : Prop :=
  N <= length (Allocas P)
  /\ NoDup (a_id <$> Allocas P)
  /\ (forall a n, AllocaLookup P !! a = Some n
                  <-> n < N /\ a_id <$> (Allocas P !! n) = Some a)
  /\ phiBooks N P.

(** *** The index cache in the loop over the allocas *)

(** The cells [Pend] are allocas of the function, used by loads and stores
    only, and the index cache is consistent for each of them in every
    block; the identities of the instructions are distinct and below
    [n]. *)
Definition cacheOK (Pend : list InstId) (n : nat) (F : Func)
    (LBI : gmap InstId nat) : Prop :=
  idsBelow n F
  /\ forall a, a ∈ Pend ->
       cellOK a F /\ isAllocaValue F (VInst a) = true
       /\ forall b, LBIconsistent F LBI a b.

(** The allocas the loop has still to come to. *)
Definition pendingAllocas (s : AllocaLoopState) : list InstId :=
  a_id <$> drop (ls_AllocaNum s) (Allocas (ls_P s)).

(** What the loop over the allocas keeps about the cache. *)
Definition loopCacheOK (s : AllocaLoopState) : Prop :=
  cacheOK (pendingAllocas s) (nextId (ls_P s)) (Fn (ls_P s)) (ls_LBI s)
  /\ NoDup (pendingAllocas s).

(** *** The terminators *)

(** An operand that is not an instruction stays the value it is; the uses
    of an instruction may be replaced. *)
Definition keptOperand (v0 v : Value) : Prop :=
  match v0 with
  | VInst _ => True
  | _ => v = v0
  end.

(** [T] is the terminator [T0]: the same instruction, with the same
    successor slots and as many operands, each the operand of [T0] unless
    that was an instruction. *)
Definition sameTerminator (T0 T : Terminator) : Prop :=
  tid T = tid T0 /\ tsuccs T = tsuccs T0 /\ Forall2 keptOperand (tops T0) (tops T).

(** Block by block, [F] has the terminators of [F0]. *)
Definition terminatorsKept (F0 F : Func) : Prop :=
  Forall2 sameTerminator (term <$> F0) (term <$> F).

(** *** The loop that queues the phis of an alloca *)

(** The loop over [PHIBlocks] from the version [Version] on, with the
    version it ends with; [queuePhis] is the loop from version 0. *)
Definition queuePhisFrom (P : PromoteMem2Reg) (AllocaNum Version : nat)
    (PHIBlocks : list BlockId) : PromoteMem2Reg * nat :=
  fold_left (fun acc BB => (QueuePhiNode acc.1 BB AllocaNum acc.2).1)
            PHIBlocks (P, Version).

(** *** Folding the phis *)




(** * Properties *)

(** ** The IR interface *)

Lemma elem_of_blockInsts (F : Func) (b : BlockId) (J : Instruction) :
  J ∈ blockInsts F b <-> exists B, F !! b = Some B /\ J ∈ insts B.
Proof.
  unfold blockInsts. destruct (F !! b) as [B|] eqn:E.
  - split; [eauto|]. intros (B' & [= <-] & H). done.
  - split; [by intros ?%elem_of_nil|]. by intros (? & ? & _).
Qed.

Lemma blockInsts_rauw F old new b :
  blockInsts (replaceAllUsesWith F old new) b = substInst old new <$> blockInsts F b.
Proof.
  unfold blockInsts, replaceAllUsesWith. rewrite list_lookup_fmap.
  by destruct (F !! b).
Qed.

Lemma blockInsts_erase F i b :
  blockInsts (eraseFromParent F i) b
  = List.filter (fun J => negb (bool_decide (iid J = i))) (blockInsts F b).
Proof.
  unfold blockInsts, eraseFromParent. rewrite list_lookup_fmap.
  by destruct (F !! b).
Qed.

Lemma blockInsts_addIncoming F pn v p b :
  blockInsts (addIncoming F pn v p) b = addIncomingInst pn v p <$> blockInsts F b.
Proof.
  unfold blockInsts, addIncoming. rewrite list_lookup_fmap.
  by destruct (F !! b).
Qed.

Lemma blockInsts_insertAtBegin F b J b' :
  blockInsts (insertAtBegin F b J) b'
  = if bool_decide (b' = b /\ b < length F) then J :: blockInsts F b'
    else blockInsts F b'.
Proof.
  unfold blockInsts, insertAtBegin.
  destruct (F !! b) as [B|] eqn:E.
  - pose proof (lookup_lt_Some _ _ _ E) as Hlt.
    destruct (decide (b' = b)) as [->|Hne].
    + rewrite list_lookup_insert_eq by done. rewrite E.
      by rewrite bool_decide_eq_true_2.
    + rewrite list_lookup_insert_ne by done.
      rewrite bool_decide_eq_false_2; [done|]. by intros [? _].
  - rewrite bool_decide_eq_false_2; [done|].
    intros [-> Hlt]. apply lookup_ge_None in E. lia.
Qed.

Lemma elem_of_filter_bool {A} (f : A -> bool) (l : list A) (x : A) :
  x ∈ List.filter f l <-> x ∈ l /\ f x = true.
Proof. rewrite !list_elem_of_In. apply filter_In. Qed.


Lemma cfg_rauw F old new : cfg (replaceAllUsesWith F old new) = cfg F.
Proof.
  unfold cfg, replaceAllUsesWith. rewrite <- list_fmap_compose.
  by apply list_fmap_ext.
Qed.

Lemma cfg_erase F i : cfg (eraseFromParent F i) = cfg F.
Proof.
  unfold cfg, eraseFromParent. rewrite <- list_fmap_compose.
  by apply list_fmap_ext.
Qed.

Lemma cfg_addIncoming F pn v p : cfg (addIncoming F pn v p) = cfg F.
Proof.
  unfold cfg, addIncoming. rewrite <- list_fmap_compose.
  by apply list_fmap_ext.
Qed.

Lemma cfg_insertAtBegin F b J : cfg (insertAtBegin F b J) = cfg F.
Proof.
  unfold cfg, insertAtBegin. destruct (F !! b) as [B|] eqn:E; [|done].
  rewrite list_fmap_insert. simpl. apply list_insert_id.
  rewrite list_lookup_fmap, E. done.
Qed.

Lemma cfg_length F F' : cfg F = cfg F' -> length F = length F'.
Proof. intros H. apply (f_equal length) in H. unfold cfg in H. by rewrite !length_fmap in H. Qed.

Lemma cfg_successors F F' b : cfg F = cfg F' -> successors F b = successors F' b.
Proof.
  intros H. unfold successors.
  assert (cfg F !! b = cfg F' !! b) as Hb by by rewrite H.
  unfold cfg in Hb. rewrite !list_lookup_fmap in Hb.
  destruct (F !! b), (F' !! b); simpl in *; congruence.
Qed.

Lemma predecessors_cfg F b :
  predecessors F b
  = mjoin (imap (fun p e =>
                   replicate (length (List.filter (fun s => bool_decide (s = b)) e.2)) p)
                (cfg F)).
Proof.
  unfold predecessors, cfg. by rewrite imap_fmap.
Qed.

Lemma cfg_predecessors F F' b : cfg F = cfg F' -> predecessors F b = predecessors F' b.
Proof. intros H. by rewrite !predecessors_cfg, H. Qed.

Lemma cfg_pred_size F F' b : cfg F = cfg F' -> pred_size F b = pred_size F' b.
Proof. intros H. unfold pred_size. by rewrite (cfg_predecessors _ _ _ H). Qed.

Lemma numEdges_cfg F : numEdges F = sum_list ((fun e => length e.2) <$> cfg F).
Proof. unfold numEdges, cfg. by rewrite <- list_fmap_compose. Qed.

Lemma cfg_numEdges F F' : cfg F = cfg F' -> numEdges F = numEdges F'.
Proof. intros H. by rewrite !numEdges_cfg, H. Qed.

Lemma elem_of_rev {A} (l : list A) (x : A) : x ∈ rev l <-> x ∈ l.
Proof. rewrite !list_elem_of_In. symmetry. apply in_rev. Qed.




(** ** Use lists *)

Lemma elem_of_usesIn a u x :
  x ∈ usesIn a u <-> x = u /\ VInst a ∈ userOperands u.
Proof.
  unfold usesIn. rewrite elem_of_replicate.
  split; intros [-> H]; split; try done.
  - destruct (List.filter _ _) as [|v l] eqn:E; [done|].
    assert (v ∈ List.filter (fun v => bool_decide (v = VInst a)) (userOperands u)) as Hv
        by (rewrite E; left).
    apply elem_of_filter_bool in Hv as [Hv Heq].
    apply bool_decide_eq_true in Heq. by subst.
  - assert (VInst a ∈ List.filter (fun v => bool_decide (v = VInst a)) (userOperands u)) as Hv.
    { apply elem_of_filter_bool. split; [done|]. by apply bool_decide_eq_true. }
    destruct (List.filter _ _); [by apply elem_of_nil in Hv|done].
Qed.

Lemma elem_of_blockUsers a b B b' u :
  (b', u) ∈ blockUsers a b B
  <-> b' = b /\ VInst a ∈ userOperands u
      /\ ((exists J, u = UInst J /\ J ∈ insts B) \/ u = UTerm (term B)).
Proof.
  unfold blockUsers. rewrite elem_of_app, !list_elem_of_fmap. split.
  - intros [(u' & [= -> ->] & H)|(u' & [= -> ->] & H)].
    + apply list_elem_of_join in H as (l & Hu & Hl).
      apply list_elem_of_fmap in Hl as (J & -> & HJ).
      apply elem_of_usesIn in Hu as [-> Hu]. eauto 10.
    + apply elem_of_usesIn in H as [-> Hu]. eauto.
  - intros (-> & Hu & [(J & -> & HJ)| ->]).
    + left. exists (UInst J). split; [done|].
      apply list_elem_of_join. exists (usesIn a (UInst J)). split.
      * by apply elem_of_usesIn.
      * apply list_elem_of_fmap. eauto.
    + right. exists (UTerm (term B)). split; [done|]. by apply elem_of_usesIn.
Qed.

Lemma elem_of_users F a b u :
  (b, u) ∈ users F a
  <-> exists B, F !! b = Some B /\ VInst a ∈ userOperands u
                /\ ((exists J, u = UInst J /\ J ∈ insts B) \/ u = UTerm (term B)).
Proof.
  unfold users, usesInOrder. rewrite elem_of_rev, list_elem_of_join. split.
  - intros (l & Hu & Hl). apply elem_of_lookup_imap in Hl as (i & B & -> & HB).
    apply elem_of_blockUsers in Hu as (-> & ? & ?). eauto.
  - intros (B & HB & Hu & H). exists (blockUsers a b B). split.
    + by apply elem_of_blockUsers.
    + apply elem_of_lookup_imap. eauto.
Qed.

Lemma elem_of_users_inst F a b J :
  (b, UInst J) ∈ users F a <-> J ∈ blockInsts F b /\ VInst a ∈ operands J.
Proof.
  rewrite elem_of_users, elem_of_blockInsts. split.
  - intros (B & HB & Hu & [(J' & [= <-] & HJ)|?]); [eauto|done].
  - intros [(B & HB & HJ) Hu]. exists B. eauto 10.
Qed.

Lemma elem_of_users_term F a b T :
  (b, UTerm T) ∈ users F a
  <-> exists B, F !! b = Some B /\ T = term B /\ VInst a ∈ tops T.
Proof.
  rewrite elem_of_users. split.
  - intros (B & HB & Hu & [(J' & ? & HJ)|[= ->]]); [done|eauto].
  - intros (B & HB & -> & Hu). exists B. eauto.
Qed.

Lemma use_empty_true F a : use_empty F a = true <-> users F a = [].
Proof. unfold use_empty. by destruct (users F a). Qed.

(** ** isAllocaPromotable *)

Lemma promotableUsers_Forall F AI us :
  promotableUsers F AI us = true <-> Forall (fun bu => goodUser F AI bu.2) us.
Proof.
  induction us as [|[b u] us IH]; simpl.
  - split; [constructor|done].
  - rewrite Forall_cons. simpl. destruct u as [J|T]; simpl.
    + unfold loadOfType, storeOfType.
      destruct (ikind J) as [t|p|v p|inc|ops] eqn:EK.
      * split; [done|]. intros [[(? & ? & _)|(? & ? & ? & _)] _]; done.
      * case_bool_decide as Hty.
        -- split; [done|]. intros [[(? & _ & ?)|(? & ? & ? & _)] _]; done.
        -- rewrite IH. split; [intros ?; split; [left; eauto|done]|by intros [_ ?]].
      * case_bool_decide as Hv; simpl.
        -- split; [done|].
           intros [[(? & ? & _)|(? & ? & [= <- <-] & ? & _)] _]; done.
        -- case_bool_decide as Hty.
           ++ split; [done|].
              intros [[(? & ? & _)|(? & ? & [= <- <-] & _ & ?)] _]; done.
           ++ rewrite IH.
              split; [intros ?; split; [right; eauto 10|done]|by intros [_ ?]].
      * split; [done|]. intros [[(? & ? & _)|(? & ? & ? & _)] _]; done.
      * split; [done|]. intros [[(? & ? & _)|(? & ? & ? & _)] _]; done.
    + split; [done|]. by intros [[] _].
Qed.

(** C2.  The promotability filter accepts a cell exactly when every
    instruction that has the cell among its operands is a load of the
    allocated type or a store of a value of the allocated type other than
    the cell itself, and no terminator has the cell among its operands; any
    other user makes it answer false. *)
Theorem isAllocaPromotable_iff (F : Func) (AI : AllocaInst) :
  isAllocaPromotable F AI = true
  <-> (forall b J, J ∈ blockInsts F b -> VInst (a_id AI) ∈ operands J ->
                   loadOfType AI J \/ storeOfType F AI J)
      /\ (forall B, B ∈ F -> VInst (a_id AI) ∉ tops (term B)).
Proof.
  unfold isAllocaPromotable. rewrite promotableUsers_Forall, Forall_forall.
  split.
  - intros H. split.
    + intros b J HJ Hop.
      apply (H (b, UInst J)). by apply elem_of_users_inst.
    + intros B HB Hop. apply list_elem_of_lookup in HB as [b HB].
      apply (H (b, UTerm (term B))). apply elem_of_users_term. eauto.
  - intros [Hi Ht] [b [J|T]] Hu; simpl.
    + apply elem_of_users_inst in Hu as [HJ Hop]. eauto.
    + apply elem_of_users_term in Hu as (B & HB & -> & Hop).
      eapply Ht; [|done]. by eapply list_elem_of_lookup_2.
Qed.


(** ** simplifyPHINode and the loop that folds trivial phis *)



Lemma simplifyEntry_eq P flag e :
  simplifyEntry (P, flag) e
  = match simplifyPHINode (Fn P) e.2 (Some DT_dominatesInst) with
    | Some V =>
        (mkPass (eraseFromParent (replaceAllUsesWith (Fn P) e.2 V) e.2)
                (nextId P) (Allocas P) (AllocaLookup P)
                (delete e.1 (NewPhiNodes P)) (PhiToAllocaMap P)
                (Visited P) (BBNumPreds P), true)
    | None => (P, flag)
    end.
Proof.
  unfold simplifyEntry.
  by destruct (simplifyPHINode _ _ _).
Qed.

Lemma simplifyPass_subseteq l P flag :
  NewPhiNodes (fold_left simplifyEntry l (P, flag)).1 ⊆ NewPhiNodes P.
Proof.
  revert P flag. induction l as [|e l IH]; intros P flag; cbn [fold_left]; [done|].
  rewrite simplifyEntry_eq.
  destruct (simplifyPHINode _ _ _); [|apply IH].
  etrans; [apply IH|]. simpl. apply delete_subseteq.
Qed.

Lemma simplifyPass_false l P flag :
  (fold_left simplifyEntry l (P, flag)).2 = false ->
  flag = false
  /\ (fold_left simplifyEntry l (P, flag)).1 = P
  /\ Forall (fun e => simplifyPHINode (Fn P) e.2 (Some DT_dominatesInst) = None) l.
Proof.
  revert P flag. induction l as [|e l IH]; intros P flag; cbn [fold_left].
  - simpl. intros ->. by repeat split.
  - rewrite simplifyEntry_eq.
    destruct (simplifyPHINode _ _ _) eqn:E.
    + intros H. by apply IH in H as [? _].
    + intros H. apply IH in H as (-> & -> & Hl). repeat split.
      by constructor.
Qed.

Lemma simplifyPass_true l P :
  (forall e, e ∈ l -> NewPhiNodes P !! e.1 = Some e.2) ->
  (fold_left simplifyEntry l (P, false)).2 = true ->
  size (NewPhiNodes (fold_left simplifyEntry l (P, false)).1) < size (NewPhiNodes P).
Proof.
  revert P. induction l as [|e l IH]; intros P Hl; cbn [fold_left]; [done|].
  rewrite simplifyEntry_eq.
  destruct (simplifyPHINode _ _ _) eqn:E.
  - intros _. eapply Nat.le_lt_trans.
    + apply map_subseteq_size, simplifyPass_subseteq.
    + simpl. rewrite map_size_delete, (Hl e) by left.
      assert (size (NewPhiNodes P) <> 0); [|lia].
      apply map_size_ne_0_lookup. exists e.1. rewrite (Hl e) by left. done.
  - apply IH. intros e' He'. apply Hl. by right.
Qed.

Lemma simplifyLoop_fixpoint fuel P :
  size (NewPhiNodes P) < fuel ->
  exists P', simplifyLoop fuel P = Some P'
    /\ NewPhiNodes P' ⊆ NewPhiNodes P
    /\ (forall k PN, NewPhiNodes P' !! k = Some PN ->
                     simplifyPHINode (Fn P') PN (Some DT_dominatesInst) = None).
Proof.
  revert P. induction fuel as [|fuel IH]; intros P Hsz; [lia|]. simpl.
  destruct (fold_left simplifyEntry (map_to_list (NewPhiNodes P)) (P, false))
    as [P1 flag] eqn:E.
  pose proof (simplifyPass_subseteq (map_to_list (NewPhiNodes P)) P false) as Hsub.
  rewrite E in Hsub. simpl in Hsub.
  destruct flag.
  - pose proof (simplifyPass_true (map_to_list (NewPhiNodes P)) P) as Hlt.
    rewrite E in Hlt. simpl in Hlt.
    destruct (IH P1) as (P' & HP' & Hsub' & Hfix).
    { assert (size (NewPhiNodes P1) < size (NewPhiNodes P)); [|lia].
      apply Hlt; [|done]. intros [k x] He. by apply elem_of_map_to_list. }
    exists P'. split; [done|]. split; [by etrans|done].
  - pose proof (simplifyPass_false (map_to_list (NewPhiNodes P)) P false) as Hf.
    rewrite E in Hf. simpl in Hf. destruct (Hf eq_refl) as (_ & -> & Hall).
    exists P. split; [done|]. split; [done|].
    intros k PN Hk. rewrite Forall_forall in Hall.
    apply (Hall (k, PN)). by apply elem_of_map_to_list.
Qed.

(** ** What every mutation of the pass preserves

    The pass changes the function through four operations only, and the
    values it moves around are stored values, phi operands, phis, and the
    two markers.  A property closed under these is kept by the whole pass. *)

Lemma elem_of_allInsts F b J : (b, J) ∈ allInsts F <-> J ∈ blockInsts F b.
Proof.
  unfold allInsts. rewrite list_elem_of_join, elem_of_blockInsts. split.
  - intros (l & HJ & Hl). apply elem_of_lookup_imap in Hl as (i & B & -> & HB).
    apply list_elem_of_fmap in HJ as (J' & [= -> ->] & HJ). eauto.
  - intros (B & HB & HJ). exists ((fun J => (b, J)) <$> insts B). split.
    + apply list_elem_of_fmap. eauto.
    + apply elem_of_lookup_imap. eauto.
Qed.

Lemma findInst_Some F i b J :
  findInst F i = Some (b, J) -> J ∈ blockInsts F b /\ iid J = i.
Proof.
  unfold findInst. intros H. apply find_some in H as [Hin Heq].
  apply list_elem_of_In, elem_of_allInsts in Hin.
  apply bool_decide_eq_true in Heq. done.
Qed.

Lemma findInBlock_Some F b i J :
  findInBlock F b i = Some J -> J ∈ blockInsts F b /\ iid J = i.
Proof.
  unfold findInBlock. intros H. apply find_some in H as [Hin Heq].
  apply list_elem_of_In in Hin. apply bool_decide_eq_true in Heq. done.
Qed.

Section Preservation.

Variable Inv : Func -> Prop.
Variable safe : Value -> Prop.
Variable okId : InstId -> Prop.
Hypothesis HI : PassInvariant Inv safe okId.

Let Inv_rauw := pi_rauw Inv safe okId HI.
Let Inv_erase := pi_erase Inv safe okId HI.
Let Inv_addIncoming := pi_addIncoming Inv safe okId HI.
Let Inv_insert := pi_insert Inv safe okId HI.
Let safe_undef := pi_undef Inv safe okId HI.
Let safe_poison := pi_poison Inv safe okId HI.
Let Inv_storeval := pi_storeval Inv safe okId HI.
Let Inv_phiop := pi_phiop Inv safe okId HI.
Let Inv_phiid := pi_phiid Inv safe okId HI.

Lemma storedValue_safe F s : Inv F -> safe (storedValue F s).
Proof.
  intros HF. unfold storedValue.
  destruct (findInst F s) as [[b J]|] eqn:E; [|done].
  apply findInst_Some in E as [HJ _].
  destruct (ikind J) eqn:EK; try done. eauto.
Qed.

Lemma rauw_erase_Inv F i v : Inv F -> safe v ->
  Inv (eraseFromParent (replaceAllUsesWith F i v) i).
Proof. auto. Qed.

(** *** The fast paths *)

Lemma ss_rewrite_Inv OS u st : Inv (ss_F st) -> Inv (ss_F (ss_rewrite OS u st)).
Proof.
  intros H. unfold ss_rewrite. simpl. apply rauw_erase_Inv; [done|].
  case_bool_decide; [done|]. by apply storedValue_safe.
Qed.

Lemma ss_storeIndex_F OS st : ss_F (ss_storeIndex OS st) = ss_F st.
Proof. unfold ss_storeIndex. by case_bool_decide. Qed.

Lemma singleStoreUser_Inv OS g st bu :
  Inv (ss_F st) -> Inv (ss_F (singleStoreUser OS g st bu)).
Proof.
  intros HF. unfold singleStoreUser.
  case_bool_decide; [done|].
  destruct (negb g); [|by apply ss_rewrite_Inv].
  case_bool_decide.
  - case_bool_decide; simpl; [by rewrite ss_storeIndex_F|].
    apply ss_rewrite_Inv. simpl. by rewrite ss_storeIndex_F.
  - destruct (negb (DT_dominates _ _)); [done|]. by apply ss_rewrite_Inv.
Qed.

Lemma singleStoreFold_Inv OS g us st :
  Inv (ss_F st) -> Inv (ss_F (fold_left (singleStoreUser OS g) us st)).
Proof.
  revert st. induction us as [|bu us IH]; intros st H; cbn [fold_left]; [done|].
  apply IH. by apply singleStoreUser_Inv.
Qed.

Lemma rewriteSingleStoreAlloca_Inv F AI Info LBI :
  Inv F -> Inv (rewriteSingleStoreAlloca F AI Info LBI).1.1.1.
Proof.
  intros HF. unfold rewriteSingleStoreAlloca.
  destruct (OnlyStore Info) as [OS|]; [|done].
  pose proof (singleStoreFold_Inv OS (negb (isInstruction (storedValue F OS.2)))
                (users F (a_id AI)) (mkSS F LBI [] (-1)) HF) as H.
  destruct (ss_UsingBlocks _); simpl; [|done].
  by do 2 apply Inv_erase.
Qed.

Lemma sb_value_safe SBI F J n v : Inv F -> sb_value SBI F J n = Some v -> safe v.
Proof.
  intros HF. unfold sb_value. destruct (lower_bound _ _ _) as [|k].
  - destruct SBI; [|done]. by intros [= <-].
  - destruct (SBI !! k) as [SI|]; intros [= <-]; [|done].
    by apply storedValue_safe.
Qed.

Lemma sb_replace_Inv F LBI J v : Inv F -> safe v -> Inv (sb_replace F LBI J v).1.
Proof.
  intros HF Hv. unfold sb_replace. simpl. apply rauw_erase_Inv; [done|].
  by case_bool_decide.
Qed.

Lemma singleBlockLoads_Inv SBI us F LBI :
  Inv F -> Inv (singleBlockLoads SBI F LBI us).1.1.
Proof.
  revert F LBI. induction us as [|bu us IH]; intros F LBI HF; simpl; [done|].
  destruct (bu.2) as [J|T]; [|by apply IH].
  destruct (ikind J); try by apply IH.
  destruct (sb_value _ _ _ _) as [v|] eqn:Ev; [|done].
  apply IH. apply (sb_replace_Inv F LBI J v HF). by eapply sb_value_safe.
Qed.

Lemma eraseUsers_Inv F LBI a : Inv F -> Inv (eraseUsers F LBI a).1.
Proof.
  intros HF. unfold eraseUsers.
  generalize (users F a). intros l.
  assert (Inv (F, LBI).1) as H by done. revert H.
  generalize (F, LBI). induction l as [|bu l IH]; intros acc H; simpl; [done|].
  apply IH. simpl. by apply Inv_erase.
Qed.

Lemma promoteSingleBlockAlloca_Inv F AI Info LBI :
  Inv F -> Inv (promoteSingleBlockAlloca F AI Info LBI).1.1.
Proof.
  intros HF. unfold promoteSingleBlockAlloca.
  set (c := fold_left _ _ _).
  pose proof (singleBlockLoads_Inv (merge_sort index_le c.1) (users F (a_id AI))
                F c.2 HF) as H.
  destruct (singleBlockLoads _ _ _ _) as [[F1 LBI2] ok]. simpl in *.
  destruct ok; [|done]. simpl.
  by apply Inv_erase, eraseUsers_Inv.
Qed.

(** *** Phi placement *)

Local Abbreviation PInv P := (Inv (Fn P) /\ forall i, nextId P <= i -> okId i).

Lemma getNumPreds_Fn P BB : Fn (getNumPreds P BB).2 = Fn P.
Proof. unfold getNumPreds. by destruct (BBNumPreds P !! BB) as [[|?]|]. Qed.

Lemma getNumPreds_nextId P BB : nextId (getNumPreds P BB).2 = nextId P.
Proof. unfold getNumPreds. by destruct (BBNumPreds P !! BB) as [[|?]|]. Qed.

Lemma QueuePhiNode_PInv P BB AllocaNo Version :
  PInv P -> PInv (QueuePhiNode P BB AllocaNo Version).1.1.
Proof.
  intros [HF Hn]. unfold QueuePhiNode.
  destruct (NewPhiNodes P !! _); [done|].
  destruct (Allocas P !! AllocaNo) as [AI|]; [|done]. simpl.
  rewrite getNumPreds_Fn, getNumPreds_nextId. split; simpl.
  - apply Inv_insert; [done|done|]. simpl. by apply Hn.
  - intros i Hi. apply Hn. lia.
Qed.

Lemma queuePhis_PInv P AllocaNum PHIBlocks :
  PInv P -> PInv (queuePhis P AllocaNum PHIBlocks).
Proof.
  unfold queuePhis. generalize 0 as Version.
  revert P. induction PHIBlocks as [|BB l IH]; intros P Version HP; simpl; [done|].
  destruct (QueuePhiNode P BB AllocaNum Version) as [[P' V'] ok] eqn:E.
  simpl. apply IH.
  pose proof (QueuePhiNode_PInv P BB AllocaNum Version HP) as H.
  by rewrite E in H.
Qed.

Lemma processAlloca_PInv s AI s' :
  PInv (ls_P s) -> processAlloca s AI = Some s' -> PInv (ls_P s').
Proof.
  intros [HF Hn]. unfold processAlloca.
  destruct (use_empty _ _).
  { intros [= <-]. split; simpl; [by apply Inv_erase|done]. }
  set (Info1 := AnalyzeAlloca _ AI).
  set (r1 := if bool_decide (length (DefiningBlocks Info1) = 1)
             then rewriteSingleStoreAlloca _ AI Info1 _
             else (_, Info1, _, false)).
  assert (Inv r1.1.1.1) as H1.
  { subst r1. case_bool_decide; [|done]. by apply rewriteSingleStoreAlloca_Inv. }
  destruct (r1.2).
  { intros [= <-]. by split. }
  set (r2 := if OnlyUsedInOneBlock r1.1.1.2
             then promoteSingleBlockAlloca r1.1.1.1 AI r1.1.1.2 r1.1.2
             else (r1.1.1.1, r1.1.2, false)).
  assert (Inv r2.1.1) as H2.
  { subst r2. destruct (OnlyUsedInOneBlock _); [|done].
    by apply promoteSingleBlockAlloca_Inv. }
  destruct (r2.2).
  { intros [= <-]. by split. }
  destruct (ComputeLiveInBlocks _ _ _ _) as [LiveIn|]; [|done].
  intros [= <-]. simpl. apply queuePhis_PInv. by split.
Qed.

Lemma allocaLoop_PInv n s s' :
  PInv (ls_P s) -> allocaLoop n s = Some s' -> PInv (ls_P s').
Proof.
  revert s. induction n as [|n IH]; intros s HP; simpl.
  { by intros [= <-]. }
  destruct (Allocas (ls_P s) !! ls_AllocaNum s) as [AI|]; [|by intros [= <-]].
  destruct (processAlloca s AI) as [s1|] eqn:E; [|done].
  apply IH. by eapply processAlloca_PInv.
Qed.

(** *** Renaming *)

Lemma addIncomingN_Inv F pn v p n : Inv F -> safe v -> Inv (addIncomingN F pn v p n).
Proof.
  intros HF Hv. unfold addIncomingN. induction n as [|n IH]; simpl; [done|].
  by apply Inv_addIncoming.
Qed.

Lemma valueAt_safe vals n : Forall safe vals -> safe (valueAt vals n).
Proof.
  intros H. unfold valueAt. destruct (vals !! n) as [v|] eqn:E; simpl; [|done].
  eapply Forall_forall; [done|]. by eapply list_elem_of_lookup_2.
Qed.

Lemma Forall_insert_safe vals n v :
  Forall safe vals -> safe v -> Forall safe (<[n := v]> vals).
Proof. intros. by apply Forall_insert. Qed.

Lemma updatePhis_PInv Pred NumEdges l acc :
  Forall (fun J => safe (VInst (iid J))) l ->
  PInv acc.1 -> Forall safe acc.2 ->
  PInv (fold_left (updatePhi Pred NumEdges) l acc).1
  /\ Forall safe (fold_left (updatePhi Pred NumEdges) l acc).2.
Proof.
  revert acc. induction l as [|APN l IH]; intros acc Hl HP Hv; cbn [fold_left]; [done|].
  apply Forall_cons in Hl as [HA Hl]. destruct HP as [HF Hn].
  apply IH; [done| |].
  - unfold updatePhi. simpl. split; [|done].
    apply addIncomingN_Inv; [done|]. by apply valueAt_safe.
  - unfold updatePhi. simpl. by apply Forall_insert_safe.
Qed.

Lemma phiRun_sublist n l : phiRun n l `sublist_of` l.
Proof.
  induction l as [|J l IH]; simpl; [done|].
  destruct (isPHI J && _); [by constructor|]. apply sublist_nil_l.
Qed.

Lemma phiRun_isPHI n l : Forall (fun J => isPHI J = true) (phiRun n l).
Proof.
  induction l as [|J l IH]; simpl; [done|].
  destruct (isPHI J) eqn:E; simpl; [|done].
  case_bool_decide; [|done]. by constructor.
Qed.

Lemma populatePhis_PInv P BB Pred vals :
  PInv P -> Forall safe vals ->
  PInv (populatePhis P BB Pred vals).1
  /\ Forall safe (populatePhis P BB Pred vals).2.
Proof.
  intros HP Hv. unfold populatePhis.
  destruct (blockInsts (Fn P) BB) as [|APN rest] eqn:E; [done|].
  destruct (isPHI APN) eqn:EP; cbn [andb]; [|done].
  case_bool_decide; [|done].
  apply updatePhis_PInv; [|done|done].
  apply Forall_cons. split.
  - apply (Inv_phiid (Fn P) BB); [apply HP| |done]. rewrite E. left.
  - apply Forall_forall. intros J HJ.
    apply (Inv_phiid (Fn P) BB); [apply HP| |].
    + rewrite E. right. eapply elem_of_sublist; [done|]. apply phiRun_sublist.
    + pose proof (phiRun_isPHI (getNumOperands APN) rest) as H'.
      rewrite Forall_forall in H'. by apply H'.
Qed.

Lemma renameInst_PInv BB acc i :
  PInv acc.1 -> Forall safe acc.2 ->
  PInv (renameInst BB acc i).1 /\ Forall safe (renameInst BB acc i).2.
Proof.
  intros [HF Hn] Hv. unfold renameInst.
  destruct (findInBlock (Fn acc.1) BB i) as [J|] eqn:E; [|done].
  apply findInBlock_Some in E as [HJ _].
  destruct (ikind J) as [t|p|v p|inc|ops] eqn:EK; try done.
  - destruct (asAllocaId _ p); [|done].
    destruct (AllocaLookup acc.1 !! _); [|done]. simpl.
    split; [|done]. split; [|done].
    apply rauw_erase_Inv; [done|]. by apply valueAt_safe.
  - destruct (asAllocaId _ p); [|done].
    destruct (AllocaLookup acc.1 !! _); [|done]. simpl.
    split; [split; [by apply Inv_erase|done]|].
    apply Forall_insert_safe; [done|]. eauto.
Qed.

Lemma renameInsts_PInv BB l acc :
  PInv acc.1 -> Forall safe acc.2 ->
  PInv (fold_left (renameInst BB) l acc).1
  /\ Forall safe (fold_left (renameInst BB) l acc).2.
Proof.
  revert acc. induction l as [|i l IH]; intros acc HP Hv; cbn [fold_left]; [done|].
  destruct (renameInst_PInv BB acc i HP Hv). by apply IH.
Qed.

Local Abbreviation safeData d := (Forall safe (d : RenamePassData).2).

Lemma renameBody_PInv P BB vals :
  PInv P -> Forall safe vals ->
  PInv (renameBody P BB vals).1 /\ Forall safe (renameBody P BB vals).2.
Proof.
  intros HP Hv. by apply renameInsts_PInv.
Qed.

Lemma RenamePassStep_PInv P d wl :
  PInv P -> safeData d -> Forall (fun d' => safeData d') wl ->
  PInv (RenamePassStep P d wl).1.1
  /\ (forall d', (RenamePassStep P d wl).1.2 = Some d' -> safeData d')
  /\ Forall (fun d' => safeData d') (RenamePassStep P d wl).2.
Proof.
  intros HP Hd Hwl. unfold RenamePassStep.
  destruct (populatePhis_PInv P d.1.1 d.1.2 d.2 HP Hd) as [HP1 Hv1].
  case_bool_decide; [done|].
  destruct (renameBody_PInv _ d.1.1 _ HP1 Hv1) as [HP3 Hv3].
  destruct (firstOccurrences _ _) as [|S1 others]; [done|]. simpl.
  split; [done|]. split; [by intros d' [= <-]|].
  apply Forall_app. split; [|done].
  apply Forall_rev, Forall_fmap, Forall_forall. by intros.
Qed.

Lemma RenameLoop_PInv fuel P d wl P' :
  PInv P -> safeData d -> Forall (fun d' => safeData d') wl ->
  RenameLoop fuel P d wl = Some P' -> PInv P'.
Proof.
  revert P d wl. induction fuel as [|fuel IH]; intros P d wl HP Hd Hwl; [done|].
  simpl. destruct (RenamePassStep_PInv P d wl HP Hd Hwl) as (HP1 & Hnext & Hwl1).
  destruct ((RenamePassStep P d wl).1.2) as [d'|].
  - apply IH; eauto.
  - destruct ((RenamePassStep P d wl).2) as [|d' wl2]; [by intros [= <-]|].
    apply Forall_cons in Hwl1 as [? ?]. by apply IH.
Qed.

(** *** Cleanup *)

Lemma eraseAlloca_Inv F A : Inv F -> Inv (eraseAlloca F A).
Proof.
  intros HF. unfold eraseAlloca. apply Inv_erase.
  destruct (negb _); [|done]. by apply Inv_rauw.
Qed.

Lemma eraseAllocas_Inv l F : Inv F -> Inv (fold_left eraseAlloca l F).
Proof.
  revert F. induction l as [|A l IH]; intros F HF; simpl; [done|].
  by apply IH, eraseAlloca_Inv.
Qed.

Lemma commonIncoming_elem PN ops c hu V hu' :
  commonIncoming PN ops c hu = Some (Some V, hu') -> c = Some V \/ V ∈ ops.
Proof.
  revert c hu. induction ops as [|v ops IH]; intros c hu; simpl.
  - intros [= -> _]. by left.
  - case_bool_decide.
    { intros H'. apply IH in H' as [?|?]; [by left|right; by right]. }
    destruct (isUndefValue v).
    { intros H'. apply IH in H' as [?|?]; [by left|right; by right]. }
    destruct c as [c|].
    + case_bool_decide; [done|]. subst c.
      intros H'. apply IH in H' as [?|?]; [by left|right; by right].
    + intros H'. apply IH in H' as [[= <-]|?]; right; [left|by right].
Qed.

Lemma simplifyPHI_safe F PN ty ops Q V :
  Forall safe ops -> simplifyPHI F PN ty ops Q = Some V -> safe V.
Proof.
  intros Hops. unfold simplifyPHI.
  destruct (commonIncoming PN ops None false) as [[[c|] hu]|] eqn:E; [| |done].
  - apply commonIncoming_elem in E as [?|Hin]; [done|].
    assert (safe c) by (by eapply Forall_forall).
    destruct hu; [destruct (valueDominatesPHI _ _ _ _)|]; by intros [= <-].
  - by intros [= <-].
Qed.

Lemma simplifyPHINode_safe F PN Q V :
  Inv F -> simplifyPHINode F PN Q = Some V -> safe V.
Proof.
  intros HF. unfold simplifyPHINode.
  destruct (findInst F PN) as [[b J]|] eqn:E.
  - apply findInst_Some in E as [HJ _].
    apply simplifyPHI_safe, Forall_forall. intros v Hv.
    assert (isPHI J = true /\ v ∈ operands J) as [? ?].
    { unfold incomingOf, isPHI, operands in *.
      destruct (ikind J); simpl in Hv; try (by apply elem_of_nil in Hv). done. }
    by apply (Inv_phiop F b J).
  - by apply simplifyPHI_safe.
Qed.

Lemma simplifyPass_PInv l P flag :
  PInv P -> PInv (fold_left simplifyEntry l (P, flag)).1.
Proof.
  revert P flag. induction l as [|e l IH]; intros P flag HP; cbn [fold_left]; [done|].
  rewrite simplifyEntry_eq.
  destruct (simplifyPHINode _ _ _) as [V|] eqn:E; [|by apply IH].
  apply IH. destruct HP as [HF Hn]. split; [|done]. simpl.
  apply rauw_erase_Inv; [done|]. by eapply simplifyPHINode_safe.
Qed.

Lemma simplifyLoop_PInv fuel P P' :
  PInv P -> simplifyLoop fuel P = Some P' -> PInv P'.
Proof.
  revert P. induction fuel as [|fuel IH]; intros P HP; [done|]. simpl.
  pose proof (simplifyPass_PInv (map_to_list (NewPhiNodes P)) P false HP) as H1.
  destruct (fold_left _ _ _) as [P1 flag]. simpl in *.
  destruct flag; [by apply IH|]. by intros [= <-].
Qed.

Lemma addPoison_Inv Preds F PN : Inv F -> Inv (addPoison Preds F PN).
Proof.
  unfold addPoison. revert F.
  induction Preds as [|Pred Preds IH]; intros F HF; simpl; [done|].
  apply IH. by apply Inv_addIncoming.
Qed.

Lemma fillPhis_Inv Preds phis F : Inv F -> Inv (fold_left (addPoison Preds) phis F).
Proof.
  revert F. induction phis as [|PN phis IH]; intros F HF; simpl; [done|].
  by apply IH, addPoison_Inv.
Qed.

Lemma fillEntry_PInv P e : PInv P -> PInv (fillEntry P e).
Proof.
  intros HP. unfold fillEntry.
  destruct (findInst (Fn P) e.2) as [[BB SomePHI]|]; [|done].
  destruct (blockInsts (Fn P) BB) as [|front ?]; [done|].
  case_bool_decide; [done|].
  assert (PInv (getNumPreds P BB).2) as HP1.
  { by rewrite getNumPreds_Fn, getNumPreds_nextId. }
  case_bool_decide; [done|].
  destruct HP1 as [HF1 Hn1]. split; [|done]. simpl.
  by apply fillPhis_Inv.
Qed.

Lemma fillEntries_PInv l P : PInv P -> PInv (fold_left fillEntry l P).
Proof.
  revert P. induction l as [|e l IH]; intros P HP; simpl; [done|].
  by apply IH, fillEntry_PInv.
Qed.

(** *** The whole pass *)

Lemma run_PInv P P' : PInv P -> run P = Some P' -> PInv P'.
Proof.
  intros HP. unfold run.
  destruct (allocaLoop _ _) as [s|] eqn:EA; [|done].
  apply allocaLoop_PInv in EA; [|done].
  destruct (Allocas (ls_P s)) as [|A As] eqn:EAs; [by intros [= <-]|].
  destruct (RenameLoop _ _ _ _) as [P2|] eqn:ER; [|done].
  apply RenameLoop_PInv in ER; [|done| |done].
  2:{ cbn [snd]. apply Forall_fmap, Forall_forall. intros x _. apply safe_undef. }
  destruct (simplifyLoop _ _) as [P4|] eqn:ES; [|done].
  apply simplifyLoop_PInv in ES.
  2:{ destruct ER as [HF Hn]. split; [|done]. simpl. by apply eraseAllocas_Inv. }
  intros [= <-]. simpl.
  by apply fillEntries_PInv.
Qed.

Lemma PromoteMemToReg_Inv F As F' :
  Inv F -> (forall i, S (max_list (funcIds F ++ (a_id <$> As))) <= i -> okId i) ->
  PromoteMemToReg F As = Some F' -> Inv F'.
Proof.
  intros HF Hn. unfold PromoteMemToReg.
  destruct As as [|A As]; [by intros [= <-]|].
  destruct (run _) as [P'|] eqn:E; [|done]. intros [= <-].
  apply run_PInv in E; [apply E|]. by split.
Qed.

End Preservation.

(** ** The CFG is fixed, and the loops of the pass end *)

Lemma cfg_PassInvariant c :
  PassInvariant (fun F => cfg F = c) (fun _ => True) (fun _ => True).
Proof.
  split; try done.
  - intros. by rewrite cfg_rauw.
  - intros. by rewrite cfg_erase.
  - intros. by rewrite cfg_addIncoming.
  - intros. by rewrite cfg_insertAtBegin.
Qed.

Lemma Forall_True {A} (l : list A) : Forall (fun _ => True) l.
Proof. by apply Forall_forall. Qed.

Lemma populatePhis_cfg P BB Pred vals :
  cfg (Fn (populatePhis P BB Pred vals).1) = cfg (Fn P).
Proof.
  by destruct (populatePhis_PInv _ _ _ (cfg_PassInvariant (cfg (Fn P))) P BB Pred vals)
    as [[H1 _] _]; [|apply Forall_True|].
Qed.

Lemma renameBody_cfg P BB vals : cfg (Fn (renameBody P BB vals).1) = cfg (Fn P).
Proof.
  by destruct (renameBody_PInv _ _ _ (cfg_PassInvariant (cfg (Fn P))) P BB vals)
    as [[H1 _] _]; [|apply Forall_True|].
Qed.

(** *** ComputeLiveInBlocks *)

Lemma pred_size_cfg F b :
  pred_size F b
  = sum_list ((fun e => length (List.filter (fun s => bool_decide (s = b)) e.2))
                <$> cfg F).
Proof.
  unfold pred_size. rewrite predecessors_cfg, length_join.
  generalize (cfg F). intros c. f_equal.
  rewrite fmap_imap. rewrite <- imap_const. apply imap_ext.
  intros i e _. simpl. by rewrite length_replicate.
Qed.

Lemma filter_outside_insert (L : gset BlockId) (b : BlockId) (l : list BlockId) :
  b ∉ L ->
  length (List.filter (fun s => bool_decide (s ∉ {[b]} ∪ L)) l)
  + length (List.filter (fun s => bool_decide (s = b)) l)
  = length (List.filter (fun s => bool_decide (s ∉ L)) l).
Proof.
  intros Hb. induction l as [|s l IH]; [done|]. simpl.
  destruct (decide (s = b)) as [->|Hne].
  - rewrite (bool_decide_eq_false_2 (b ∉ {[b]} ∪ L)) by set_solver.
    rewrite (bool_decide_eq_true_2 (b = b)) by done.
    rewrite (bool_decide_eq_true_2 (b ∉ L)) by done. simpl. lia.
  - rewrite (bool_decide_eq_false_2 (s = b)) by done.
    destruct (decide (s ∈ L)).
    + rewrite (bool_decide_eq_false_2 (s ∉ {[b]} ∪ L)) by set_solver.
      rewrite (bool_decide_eq_false_2 (s ∉ L)) by set_solver. done.
    + rewrite (bool_decide_eq_true_2 (s ∉ {[b]} ∪ L)) by set_solver.
      rewrite (bool_decide_eq_true_2 (s ∉ L)) by set_solver. simpl. lia.
Qed.

Lemma slotsOutside_insert L b F :
  b ∉ L -> slotsOutside ({[b]} ∪ L) (cfg F) + pred_size F b = slotsOutside L (cfg F).
Proof.
  intros Hb. rewrite pred_size_cfg. unfold slotsOutside.
  induction (cfg F) as [|e c IH]; [done|]. csimpl.
  pose proof (filter_outside_insert L b e.2 Hb). lia.
Qed.

Lemma length_filter_le {A} (f : A -> bool) (l : list A) :
  length (List.filter f l) <= length l.
Proof. induction l as [|x l IH]; simpl; [done|]. destruct (f x); simpl; lia. Qed.

Lemma liveInLoop_total fuel F Def wl L :
  length wl + slotsOutside L (cfg F) < fuel ->
  is_Some (liveInLoop fuel F Def wl L).
Proof.
  revert wl L. induction fuel as [|fuel IH]; intros wl L Hf; [lia|]. simpl.
  destruct wl as [|BB wl]; [done|]. simpl in Hf.
  case_bool_decide as HBB.
  - apply IH. lia.
  - apply IH. rewrite length_app, length_rev.
    pose proof (slotsOutside_insert L BB F HBB).
    pose proof (length_filter_le (fun p => bool_decide (p ∉ Def)) (predecessors F BB)).
    unfold pred_size in *. lia.
Qed.

Lemma slotsOutside_empty F : slotsOutside ∅ (cfg F) = numEdges F.
Proof.
  rewrite numEdges_cfg. unfold slotsOutside. f_equal.
  apply list_fmap_ext. intros _ e _.
  f_equal. induction e.2 as [|s l IH]; [done|]. simpl.
  rewrite bool_decide_eq_true_2 by set_solver. by f_equal.
Qed.

Lemma ComputeLiveInBlocks_total F AI Info Def :
  is_Some (ComputeLiveInBlocks F AI Info Def).
Proof.
  unfold ComputeLiveInBlocks. apply liveInLoop_total.
  rewrite slotsOutside_empty, length_rev. lia.
Qed.

Lemma processAlloca_total s AI : is_Some (processAlloca s AI).
Proof.
  unfold processAlloca.
  destruct (use_empty _ _); [done|].
  match goal with |- context [if ?c then _ else _] => destruct c end; [done|].
  match goal with |- context [if ?c then _ else _] => destruct c end; [done|].
  match goal with |- context [ComputeLiveInBlocks ?a ?b ?c ?d] =>
    destruct (ComputeLiveInBlocks_total a b c d) as [L ->] end.
  done.
Qed.

Lemma allocaLoop_total n s : is_Some (allocaLoop n s).
Proof.
  revert s. induction n as [|n IH]; intros s; simpl; [done|].
  destruct (Allocas (ls_P s) !! ls_AllocaNum s) as [AI|]; [|done].
  destruct (processAlloca_total s AI) as [s' ->]. apply IH.
Qed.

(** *** RenamePass *)

Lemma updatePhis_Visited Pred n l acc :
  Visited (fold_left (updatePhi Pred n) l acc).1 = Visited acc.1.
Proof.
  revert acc. induction l as [|J l IH]; intros acc; cbn [fold_left]; [done|].
  by rewrite IH.
Qed.

Lemma populatePhis_Visited P BB Pred vals :
  Visited (populatePhis P BB Pred vals).1 = Visited P.
Proof.
  unfold populatePhis. destruct (blockInsts (Fn P) BB) as [|APN rest]; [done|].
  destruct (isPHI APN && _); [|done]. by rewrite updatePhis_Visited.
Qed.

Lemma renameInst_Visited BB acc i : Visited (renameInst BB acc i).1 = Visited acc.1.
Proof.
  unfold renameInst. destruct (findInBlock _ _ _) as [J|]; [|done].
  destruct (ikind J); try done.
  - destruct (asAllocaId _ _); [|done]. by destruct (AllocaLookup _ !! _).
  - destruct (asAllocaId _ _); [|done]. by destruct (AllocaLookup _ !! _).
Qed.

Lemma renameInsts_Visited BB l acc :
  Visited (fold_left (renameInst BB) l acc).1 = Visited acc.1.
Proof.
  revert acc. induction l as [|i l IH]; intros acc; cbn [fold_left]; [done|].
  by rewrite IH, renameInst_Visited.
Qed.

Lemma successors_cfg F b : successors F b = default [] (snd <$> cfg F !! b).
Proof.
  unfold successors, cfg. rewrite list_lookup_fmap. by destruct (F !! b).
Qed.

Lemma slotsOfUnvisited_insert V BB i c :
  BB ∉ V ->
  slotsOfUnvisited ({[BB]} ∪ V) i c
  + (if bool_decide (i <= BB) then length (default [] (snd <$> c !! (BB - i))) else 0)
  = slotsOfUnvisited V i c.
Proof.
  intros HBB. revert i. induction c as [|e c IH]; intros i; simpl.
  - by case_bool_decide.
  - specialize (IH (S i)).
    destruct (decide (i = BB)) as [->|Hne].
    + rewrite Nat.sub_diag. simpl.
      rewrite (bool_decide_eq_true_2 (BB ∈ {[BB]} ∪ V)) by set_solver.
      rewrite (bool_decide_eq_false_2 (BB ∈ V)) by done.
      rewrite (bool_decide_eq_true_2 (BB <= BB)) by lia.
      rewrite (bool_decide_eq_false_2 (S BB <= BB)) in IH by lia. lia.
    + assert (bool_decide (i ∈ {[BB]} ∪ V) = bool_decide (i ∈ V)) as ->.
      { apply bool_decide_ext. set_solver. }
      destruct (decide (i <= BB)).
      * rewrite (bool_decide_eq_true_2 (i <= BB)) by done.
        rewrite (bool_decide_eq_true_2 (S i <= BB)) in IH by lia.
        replace (BB - i) with (S (BB - S i)) by lia. simpl. lia.
      * rewrite (bool_decide_eq_false_2 (i <= BB)) by done.
        rewrite (bool_decide_eq_false_2 (S i <= BB)) in IH by lia. lia.
Qed.

Lemma slotsOfUnvisited_le V i c :
  slotsOfUnvisited V i c <= sum_list ((fun e => length e.2) <$> c).
Proof.
  revert i. induction c as [|e c IH]; intros i; csimpl; [done|].
  specialize (IH (S i)). case_bool_decide; lia.
Qed.

Lemma firstOccurrences_length l V : length (firstOccurrences l V) <= length l.
Proof.
  revert V. induction l as [|s l IH]; intros V; simpl; [done|].
  case_bool_decide; simpl; [specialize (IH V)|specialize (IH ({[s]} ∪ V))]; lia.
Qed.

Lemma renameBody_Visited P BB vals :
  Visited (renameBody P BB vals).1 = {[BB]} ∪ Visited P.
Proof. unfold renameBody. by rewrite renameInsts_Visited. Qed.

Lemma RenamePassStep_measure P d wl :
  let r := RenamePassStep P d wl in
  (if r.1.2 is Some _ then 1 else 0)
  + length r.2 + slotsOfUnvisited (Visited r.1.1) 0 (cfg (Fn r.1.1))
  <= length wl + slotsOfUnvisited (Visited P) 0 (cfg (Fn P)).
Proof.
  unfold RenamePassStep. rewrite populatePhis_Visited.
  case_bool_decide as HV; cbn zeta.
  { cbn [fst snd]. by rewrite populatePhis_Visited, populatePhis_cfg. }
  set (r1 := populatePhis P d.1.1 d.1.2 d.2).
  set (r3 := renameBody r1.1 d.1.1 r1.2).
  assert (cfg (Fn r3.1) = cfg (Fn P)) as Hcfg.
  { subst r3 r1. by rewrite renameBody_cfg, populatePhis_cfg. }
  assert (Visited r3.1 = {[d.1.1]} ∪ Visited P) as HV3.
  { subst r3 r1. by rewrite renameBody_Visited, populatePhis_Visited. }
  pose proof (slotsOfUnvisited_insert (Visited P) d.1.1 0 (cfg (Fn P)) HV) as Hs.
  rewrite bool_decide_eq_true_2, Nat.sub_0_r in Hs by lia.
  rewrite (cfg_successors _ _ d.1.1 Hcfg).
  pose proof (firstOccurrences_length (successors (Fn P) d.1.1) ∅) as Hlen.
  rewrite <- successors_cfg in Hs.
  destruct (firstOccurrences (successors (Fn P) d.1.1) ∅) as [|S1 others];
    cbn [fst snd].
  - rewrite HV3, Hcfg. lia.
  - rewrite HV3, Hcfg, length_app, length_rev, length_fmap. simpl in Hlen. lia.
Qed.

Lemma RenameLoop_total fuel P d wl :
  length wl + slotsOfUnvisited (Visited P) 0 (cfg (Fn P)) < fuel ->
  is_Some (RenameLoop fuel P d wl).
Proof.
  revert P d wl. induction fuel as [|fuel IH]; intros P d wl Hf; [lia|]. simpl.
  pose proof (RenamePassStep_measure P d wl) as Hm. cbn zeta in Hm.
  destruct ((RenamePassStep P d wl).1.2) as [d'|].
  - apply IH. lia.
  - destruct ((RenamePassStep P d wl).2) as [|d' wl2]; [done|].
    apply IH. simpl in Hm. lia.
Qed.

Lemma RenameLoop_total_run P d :
  is_Some (RenameLoop (numEdges (Fn P) + 1) P d []).
Proof.
  apply RenameLoop_total. simpl.
  pose proof (slotsOfUnvisited_le (Visited P) 0 (cfg (Fn P))).
  rewrite <- numEdges_cfg in *. lia.
Qed.

(** *** run *)

Lemma run_total P : is_Some (run P).
Proof.
  unfold run.
  destruct (allocaLoop_total (length (Allocas P)) (mkLoop P Info_clear ∅ 0)) as [s ->].
  destruct (Allocas (ls_P s)); [done|].
  match goal with |- context [RenameLoop ?f ?p ?d ?w] =>
    destruct (RenameLoop_total_run p d) as [P2 ->] end.
  match goal with |- context [simplifyLoop ?f ?p] =>
    destruct (simplifyLoop_fixpoint f p) as (P4 & -> & _); [lia|] end.
  done.
Qed.

Lemma PromoteMemToReg_total F As : is_Some (PromoteMemToReg F As).
Proof.
  unfold PromoteMemToReg. destruct As as [|A As]; [done|].
  destruct (run_total (newPass F (A :: As))) as [P' ->]. done.
Qed.

(** ** How the four mutations act on instructions *)

Lemma elem_of_blockInsts_rauw F old new b J' :
  J' ∈ blockInsts (replaceAllUsesWith F old new) b
  <-> exists J, J' = substInst old new J /\ J ∈ blockInsts F b.
Proof. rewrite blockInsts_rauw. apply list_elem_of_fmap. Qed.

Lemma elem_of_blockInsts_erase F i b J :
  J ∈ blockInsts (eraseFromParent F i) b <-> J ∈ blockInsts F b /\ iid J <> i.
Proof.
  rewrite blockInsts_erase, elem_of_filter_bool, negb_true_iff.
  rewrite bool_decide_eq_false. done.
Qed.

Lemma elem_of_blockInsts_addIncoming F pn v p b J' :
  J' ∈ blockInsts (addIncoming F pn v p) b
  <-> exists J, J' = addIncomingInst pn v p J /\ J ∈ blockInsts F b.
Proof. rewrite blockInsts_addIncoming. apply list_elem_of_fmap. Qed.

Lemma elem_of_blockInsts_insertAtBegin F b J b' J' :
  J' ∈ blockInsts (insertAtBegin F b J) b' -> J' = J \/ J' ∈ blockInsts F b'.
Proof.
  rewrite blockInsts_insertAtBegin. case_bool_decide; [|by right].
  intros [->|?]%elem_of_cons; [by left|by right].
Qed.

Lemma elem_of_rauw_term F old new B' :
  B' ∈ replaceAllUsesWith F old new
  -> exists B, B ∈ F /\ tops (term B') = substValue old new <$> tops (term B).
Proof.
  unfold replaceAllUsesWith. intros (B & -> & HB)%list_elem_of_fmap. eauto.
Qed.

Lemma elem_of_erase_term F i B' :
  B' ∈ eraseFromParent F i -> exists B, B ∈ F /\ term B' = term B.
Proof.
  unfold eraseFromParent. intros (B & -> & HB)%list_elem_of_fmap. eauto.
Qed.

Lemma elem_of_addIncoming_term F pn v p B' :
  B' ∈ addIncoming F pn v p -> exists B, B ∈ F /\ term B' = term B.
Proof.
  unfold addIncoming. intros (B & -> & HB)%list_elem_of_fmap. eauto.
Qed.

Lemma elem_of_insertAtBegin_term F b J B' :
  B' ∈ insertAtBegin F b J -> exists B, B ∈ F /\ term B' = term B.
Proof.
  unfold insertAtBegin. destruct (F !! b) as [B|] eqn:E; [|eauto].
  intros H. apply list_elem_of_lookup in H as [i Hi].
  destruct (decide (i = b)) as [->|Hne].
  - rewrite list_lookup_insert_eq in Hi by (by eapply lookup_lt_Some).
    injection Hi as <-. exists B. split; [|done]. by eapply list_elem_of_lookup_2.
  - rewrite list_lookup_insert_ne in Hi by done.
    exists B'. split; [|done]. by eapply list_elem_of_lookup_2.
Qed.

Lemma operands_substInst old new J :
  operands (substInst old new J) = substValue old new <$> operands J.
Proof.
  unfold operands, substInst. simpl. destruct (ikind J); simpl; try done.
  by rewrite <- !list_fmap_compose.
Qed.

Lemma isPHI_substInst old new J : isPHI (substInst old new J) = isPHI J.
Proof. unfold isPHI, substInst. simpl. by destruct (ikind J). Qed.

Lemma elem_of_subst (a old : InstId) (new : Value) (l : list Value) :
  new <> VInst a -> VInst a ∈ substValue old new <$> l ->
  VInst a ∈ l /\ old <> a.
Proof.
  intros Hnew (v & Hv & Hin)%list_elem_of_fmap.
  unfold substValue in Hv. case_bool_decide as Hold; [done|]. subst v.
  split; [done|]. by intros ->.
Qed.

Lemma substValue_ne (a old : InstId) (new v : Value) :
  new <> VInst a -> v <> VInst a -> substValue old new v <> VInst a.
Proof. intros. unfold substValue. by case_bool_decide. Qed.

Lemma substValue_other (a old : InstId) (new : Value) :
  old <> a -> substValue old new (VInst a) = VInst a.
Proof.
  intros. unfold substValue. rewrite bool_decide_eq_false_2; [done|]. congruence.
Qed.

Lemma iid_addIncomingInst pn v p J : iid (addIncomingInst pn v p J) = iid J.
Proof.
  unfold addIncomingInst. case_bool_decide; [|done]. by destruct (ikind J).
Qed.

Lemma isPHI_addIncomingInst pn v p J : isPHI (addIncomingInst pn v p J) = isPHI J.
Proof.
  unfold addIncomingInst. case_bool_decide; [|done].
  unfold isPHI. destruct (ikind J) eqn:E; simpl; by rewrite ?E.
Qed.

Lemma operands_addIncomingInst pn v p J x :
  x ∈ operands (addIncomingInst pn v p J) -> x ∈ operands J \/ x = v.
Proof.
  unfold addIncomingInst. case_bool_decide; [|by left].
  unfold operands. destruct (ikind J) eqn:E; simpl; rewrite ?E; try by left.
  rewrite fmap_app. intros [?|Hx]%elem_of_app; [by left|right].
  by apply list_elem_of_singleton in Hx.
Qed.

Lemma ikind_addIncomingInst_notPHI pn v p J :
  isPHI J = false -> addIncomingInst pn v p J = J.
Proof.
  unfold addIncomingInst, isPHI. case_bool_decide; [|done].
  by destruct (ikind J) eqn:E.
Qed.

(** ** Cells that are gone, and cells that may be promoted *)

Lemma absent_PassInvariant a :
  PassInvariant (absent a) (fun _ => True) (fun i => i <> a).
Proof.
  split; try done; unfold absent.
  - intros F old new H _ b J' (J & -> & HJ)%elem_of_blockInsts_rauw. simpl. eauto.
  - intros F i H b J [HJ _]%elem_of_blockInsts_erase. eauto.
  - intros F pn v p H _ b J' (J & -> & HJ)%elem_of_blockInsts_addIncoming.
    rewrite iid_addIncomingInst. eauto.
  - intros F b J H _ Hid b' J' [->|HJ]%elem_of_blockInsts_insertAtBegin; eauto.
Qed.

Lemma absent_erase F a : absent a (eraseFromParent F a).
Proof. by intros b J [_ ?]%elem_of_blockInsts_erase. Qed.

Lemma gone_PassInvariant a :
  PassInvariant (fun F => unused a F /\ absent a F)
                (fun v => v <> VInst a) (fun i => i <> a).
Proof.
  split; try done.
  - intros F old new [[Hi Ht] Ha] Hnew. split; [split|].
    + intros b J' (J & -> & HJ)%elem_of_blockInsts_rauw.
      rewrite operands_substInst. intros [Hin _]%elem_of_subst; [|done].
      by eapply Hi.
    + intros B' (B & HB & ->)%elem_of_rauw_term.
      intros [Hin _]%elem_of_subst; [|done]. by eapply Ht.
    + by apply (pi_rauw _ _ _ (absent_PassInvariant a)).
  - intros F i [[Hi Ht] Ha]. split; [split|].
    + intros b J [HJ _]%elem_of_blockInsts_erase. eauto.
    + intros B' (B & HB & ->)%elem_of_erase_term. eauto.
    + by apply (pi_erase _ _ _ (absent_PassInvariant a)).
  - intros F pn v p [[Hi Ht] Ha] Hv. split; [split|].
    + intros b J' (J & -> & HJ)%elem_of_blockInsts_addIncoming.
      intros [Hin|Heq]%operands_addIncomingInst; [|done]. by eapply Hi.
    + intros B' (B & HB & ->)%elem_of_addIncoming_term. eauto.
    + by apply (pi_addIncoming _ _ _ (absent_PassInvariant a)).
  - intros F b J [[Hi Ht] Ha] HK Hid. split; [split|].
    + intros b' J' [->|HJ]%elem_of_blockInsts_insertAtBegin; [|eauto].
      unfold operands. rewrite HK. apply not_elem_of_nil.
    + intros B' (B & HB & ->)%elem_of_insertAtBegin_term. eauto.
    + by apply (pi_insert _ _ _ (absent_PassInvariant a)).
  - intros F b J v p [[Hi Ht] Ha] HJ HK ->.
    apply (Hi b J HJ). unfold operands. rewrite HK. left.
  - intros F b J v [[Hi Ht] Ha] HJ _ Hv ->. by apply (Hi b J HJ).
  - intros F b J [[Hi Ht] Ha] HJ _ [= Heq]. by apply (Ha b J HJ).
Qed.

Lemma cellOK_PassInvariant a :
  PassInvariant (cellOK a) (fun v => v <> VInst a) (fun i => i <> a).
Proof.
  split; try done.
  - intros F old new (Hu & Ht & Hp) Hnew. split; [|split].
    + intros b J' (J & -> & HJ)%elem_of_blockInsts_rauw.
      rewrite operands_substInst. intros [Hin Hold]%elem_of_subst; [|done].
      destruct (Hu b J HJ Hin) as [HK|(v & HK & Hv)]; unfold substInst; simpl;
        rewrite HK; simpl; rewrite substValue_other by done.
      * by left.
      * right. eexists. split; [done|]. by apply substValue_ne.
    + intros B' (B & HB & ->)%elem_of_rauw_term.
      intros [Hin _]%elem_of_subst; [|done]. by eapply Ht.
    + intros b J' (J & -> & HJ)%elem_of_blockInsts_rauw.
      rewrite isPHI_substInst. simpl. eauto.
  - intros F i (Hu & Ht & Hp). split; [|split].
    + intros b J [HJ _]%elem_of_blockInsts_erase. eauto.
    + intros B' (B & HB & ->)%elem_of_erase_term. eauto.
    + intros b J [HJ _]%elem_of_blockInsts_erase. eauto.
  - intros F pn v p (Hu & Ht & Hp) Hv. split; [|split].
    + intros b J' (J & -> & HJ)%elem_of_blockInsts_addIncoming Hin.
      destruct (isPHI J) eqn:EP.
      * apply operands_addIncomingInst in Hin as [Hin|Heq]; [|done].
        destruct (Hu b J HJ Hin) as [HK|(v' & HK & _)];
          unfold isPHI in EP; by rewrite HK in EP.
      * rewrite ikind_addIncomingInst_notPHI in * by done. eauto.
    + intros B' (B & HB & ->)%elem_of_addIncoming_term. eauto.
    + intros b J' (J & -> & HJ)%elem_of_blockInsts_addIncoming.
      rewrite isPHI_addIncomingInst, iid_addIncomingInst. eauto.
  - intros F b J (Hu & Ht & Hp) HK Hid. split; [|split].
    + intros b' J' [->|HJ]%elem_of_blockInsts_insertAtBegin; [|eauto].
      unfold operands. rewrite HK. by intros ?%elem_of_nil.
    + intros B' (B & HB & ->)%elem_of_insertAtBegin_term. eauto.
    + intros b' J' [->|HJ]%elem_of_blockInsts_insertAtBegin; eauto.
  - intros F b J v p (Hu & Ht & Hp) HJ HK ->.
    destruct (Hu b J HJ) as [HK'|(v' & HK' & Hv')].
    + unfold operands. rewrite HK. left.
    + congruence.
    + congruence.
  - intros F b J v (Hu & Ht & Hp) HJ HP Hv ->.
    destruct (Hu b J HJ Hv) as [HK|(v' & HK & _)];
      unfold isPHI in HP; by rewrite HK in HP.
  - intros F b J (Hu & Ht & Hp) HJ HP [= Heq]. by eapply Hp.
Qed.

(** ** Every alloca of the list meets its end *)

Lemma QueuePhiNode_Allocas P BB AllocaNo V :
  Allocas (QueuePhiNode P BB AllocaNo V).1.1 = Allocas P.
Proof.
  unfold QueuePhiNode. destruct (NewPhiNodes P !! _); [done|].
  destruct (Allocas P !! AllocaNo); [|done]. simpl.
  unfold getNumPreds. by destruct (BBNumPreds P !! BB) as [[|?]|].
Qed.

Lemma queuePhis_Allocas P AllocaNum l : Allocas (queuePhis P AllocaNum l) = Allocas P.
Proof.
  unfold queuePhis. change (Allocas P) with (Allocas (P, 0).1).
  generalize (P, 0). induction l as [|BB l IH]; intros acc; cbn [fold_left]; [done|].
  by rewrite IH, QueuePhiNode_Allocas.
Qed.

Lemma rewriteSingleStoreAlloca_true F AI Info LBI :
  (rewriteSingleStoreAlloca F AI Info LBI).2 = true ->
  exists F1, (rewriteSingleStoreAlloca F AI Info LBI).1.1.1
             = eraseFromParent F1 (a_id AI).
Proof.
  unfold rewriteSingleStoreAlloca. destruct (OnlyStore Info) as [OS|]; [|done].
  destruct (ss_UsingBlocks _); [|done]. simpl. eauto.
Qed.

Lemma promoteSingleBlockAlloca_true F AI Info LBI :
  (promoteSingleBlockAlloca F AI Info LBI).2 = true ->
  exists F1, (promoteSingleBlockAlloca F AI Info LBI).1.1
             = eraseFromParent F1 (a_id AI).
Proof.
  unfold promoteSingleBlockAlloca. destruct (singleBlockLoads _ _ _ _).2 eqn:E.
  - simpl. eauto.
  - by rewrite E.
Qed.

(** A round of the loop either removes [AI] from the list, having erased
    it, or keeps the list and moves on. *)
Lemma processAlloca_cases s AI s' :
  processAlloca s AI = Some s' ->
  (exists F1, Fn (ls_P s') = eraseFromParent F1 (a_id AI)
              /\ Allocas (ls_P s') = swapRemove (Allocas (ls_P s)) (ls_AllocaNum s)
              /\ ls_AllocaNum s' = ls_AllocaNum s)
  \/ (Allocas (ls_P s') = Allocas (ls_P s)
      /\ ls_AllocaNum s' = S (ls_AllocaNum s)).
Proof.
  unfold processAlloca.
  destruct (use_empty _ _).
  { intros [= <-]. left. simpl. eauto. }
  match goal with |- context [if ?c then rewriteSingleStoreAlloca ?a ?b ?i ?l else ?e] =>
    set (r1 := if c then rewriteSingleStoreAlloca a b i l else e) end.
  destruct (r1.2) eqn:E1.
  { intros [= <-]. left. simpl. subst r1.
    case_bool_decide; [|done].
    destruct (rewriteSingleStoreAlloca_true _ _ _ _ E1) as [F1 ->]. eauto. }
  match goal with |- context [if ?c then promoteSingleBlockAlloca ?a ?b ?i ?l else ?e] =>
    set (r2 := if c then promoteSingleBlockAlloca a b i l else e) end.
  destruct (r2.2) eqn:E2.
  { intros [= <-]. left. simpl. subst r2.
    destruct (OnlyUsedInOneBlock _); [|done].
    destruct (promoteSingleBlockAlloca_true _ _ _ _ E2) as [F1 ->]. eauto. }
  destruct (ComputeLiveInBlocks _ _ _ _); [|done].
  intros [= <-]. right. simpl. by rewrite queuePhis_Allocas.
Qed.

Lemma elem_of_swapRemove {A} (l : list A) (i : nat) (x y : A) :
  x ∈ l -> l !! i = Some y -> x <> y -> x ∈ swapRemove l i.
Proof.
  intros Hx Hi Hne. unfold swapRemove.
  destruct (last l) as [z|] eqn:Hl; [|done].
  apply list_elem_of_lookup in Hx as [j Hj].
  assert (j <> i) by (intros ->; congruence).
  pose proof (lookup_lt_Some _ _ _ Hj) as Hjl.
  pose proof (lookup_lt_Some _ _ _ Hi) as Hil.
  rewrite last_lookup in Hl.
  destruct (decide (j = pred (length l))) as [->|Hjn].
  - (* x is the last element: it moved to position i *)
    rewrite Hl in Hj. injection Hj as ->.
    apply list_elem_of_lookup. exists i.
    rewrite lookup_take_lt by lia. by rewrite list_lookup_insert_eq.
  - apply list_elem_of_lookup. exists j.
    rewrite lookup_take_lt by lia. by rewrite list_lookup_insert_ne.
Qed.

Lemma updatePhis_Allocas Pred n l acc :
  Allocas (fold_left (updatePhi Pred n) l acc).1 = Allocas acc.1.
Proof.
  revert acc. induction l as [|J l IH]; intros acc; cbn [fold_left]; [done|].
  by rewrite IH.
Qed.

Lemma populatePhis_Allocas P BB Pred vals :
  Allocas (populatePhis P BB Pred vals).1 = Allocas P.
Proof.
  unfold populatePhis. destruct (blockInsts (Fn P) BB) as [|APN rest]; [done|].
  destruct (isPHI APN && _); [|done]. by rewrite updatePhis_Allocas.
Qed.

Lemma renameInst_Allocas BB acc i : Allocas (renameInst BB acc i).1 = Allocas acc.1.
Proof.
  unfold renameInst. destruct (findInBlock _ _ _) as [J|]; [|done].
  destruct (ikind J); try done.
  - destruct (asAllocaId _ _); [|done]. by destruct (AllocaLookup _ !! _).
  - destruct (asAllocaId _ _); [|done]. by destruct (AllocaLookup _ !! _).
Qed.

Lemma renameBody_Allocas P BB vals : Allocas (renameBody P BB vals).1 = Allocas P.
Proof.
  unfold renameBody. generalize (iid <$> blockInsts (Fn P) BB).
  intros l. change (Allocas P) with (Allocas (markVisited P BB, vals).1).
  generalize (markVisited P BB, vals).
  induction l as [|i l IH]; intros acc; cbn [fold_left]; [done|].
  by rewrite IH, renameInst_Allocas.
Qed.

Lemma RenamePassStep_Allocas P d wl :
  Allocas (RenamePassStep P d wl).1.1 = Allocas P.
Proof.
  unfold RenamePassStep. case_bool_decide.
  - cbn [fst snd]. by rewrite populatePhis_Allocas.
  - destruct (firstOccurrences _ _); cbn [fst snd];
      by rewrite renameBody_Allocas, populatePhis_Allocas.
Qed.

Lemma RenameLoop_Allocas fuel P d wl P' :
  RenameLoop fuel P d wl = Some P' -> Allocas P' = Allocas P.
Proof.
  revert P d wl. induction fuel as [|fuel IH]; intros P d wl; [done|]. simpl.
  pose proof (RenamePassStep_Allocas P d wl) as HA.
  destruct ((RenamePassStep P d wl).1.2) as [d'|].
  - intros H%IH. congruence.
  - destruct ((RenamePassStep P d wl).2) as [|d' wl2].
    + intros [= <-]. done.
    + intros H%IH. congruence.
Qed.

(** The stages of [run]. *)
Lemma run_stages P P' :
  run P = Some P' ->
  exists s, allocaLoop (length (Allocas P)) (mkLoop P Info_clear ∅ 0) = Some s
    /\ ((Allocas (ls_P s) = [] /\ P' = ls_P s)
        \/ exists P2 P4,
            Allocas (ls_P s) <> []
            /\ RenameLoop (numEdges (Fn (ls_P s)) + 1) (ls_P s)
                 (0, None, (fun A => VUndef (a_allocated A)) <$> Allocas (ls_P s)) []
               = Some P2
            /\ simplifyLoop (size (NewPhiNodes P2) + 1)
                 (mkPass (fold_left eraseAlloca (Allocas P2) (Fn P2))
                         (nextId P2) (Allocas P2) (AllocaLookup P2)
                         (NewPhiNodes P2) (PhiToAllocaMap P2) ∅ (BBNumPreds P2))
               = Some P4
            /\ Fn P' = Fn (fold_left fillEntry (map_to_list (NewPhiNodes P4)) P4)).
Proof.
  unfold run. destruct (allocaLoop _ _) as [s|]; [|done].
  intros H. exists s. split; [done|].
  destruct (Allocas (ls_P s)) as [|A As] eqn:EA.
  { left. by injection H as <-. }
  right. destruct (RenameLoop _ _ _ _) as [P2|] eqn:ER; [|done].
  destruct (simplifyLoop _ _) as [P4|] eqn:ES; [|done].
  injection H as <-. exists P2, P4. by repeat split.
Qed.

Lemma True_PassInvariant okId :
  PassInvariant (fun _ => True) (fun _ => True) okId.
Proof. by split. Qed.

Section Coverage.

Variable a : InstId.
Variables Pre Post : Func -> Prop.
Variable safe : Value -> Prop.
Hypothesis HPre : PassInvariant Pre safe (fun i => i <> a).
Hypothesis HPost : PassInvariant Post safe (fun i => i <> a).
Hypothesis establish_alloca :
  forall s AI s',
    Allocas (ls_P s) !! ls_AllocaNum s = Some AI -> a_id AI = a ->
    Pre (Fn (ls_P s)) -> processAlloca s AI = Some s' ->
    ls_AllocaNum s' = ls_AllocaNum s -> Post (Fn (ls_P s')).
Hypothesis establish_erase :
  forall F A, a_id A = a -> Pre F -> Post (eraseAlloca F A).

Local Abbreviation fresh P := (forall i, nextId P <= i -> i <> a).
Local Abbreviation pending P :=
  ((exists A, A ∈ Allocas P /\ a_id A = a) /\ Pre (Fn P)).

Lemma processAlloca_covers s AI s' :
  Allocas (ls_P s) !! ls_AllocaNum s = Some AI ->
  fresh (ls_P s) -> pending (ls_P s) \/ Post (Fn (ls_P s)) ->
  processAlloca s AI = Some s' ->
  fresh (ls_P s') /\ (pending (ls_P s') \/ Post (Fn (ls_P s'))).
Proof.
  intros HAI Hfresh Hcase Hstep.
  assert (fresh (ls_P s')) as Hfresh'.
  { eapply (processAlloca_PInv _ _ _ (True_PassInvariant (fun i => i <> a))
              s AI s' (conj Logic.I Hfresh) Hstep). }
  split; [done|].
  destruct Hcase as [[(A & HA & Ha) HPreF]|HPostF].
  2:{ right. by eapply (processAlloca_PInv _ _ _ HPost s AI s'). }
  assert (Pre (Fn (ls_P s'))) as HPre'
      by (by eapply (processAlloca_PInv _ _ _ HPre s AI s')).
  destruct (processAlloca_cases s AI s' Hstep) as [(F1 & HF & HAs & Hnum)|[HAs Hnum]].
  - destruct (decide (a_id AI = a)) as [Heq|Hne].
    + right. by eapply establish_alloca.
    + left. split; [|done]. exists A. split; [|done].
      rewrite HAs. eapply elem_of_swapRemove; [done|done|]. congruence.
  - left. split; [|done]. exists A. by rewrite HAs.
Qed.

Lemma allocaLoop_covers n s s' :
  fresh (ls_P s) -> pending (ls_P s) \/ Post (Fn (ls_P s)) ->
  allocaLoop n s = Some s' ->
  fresh (ls_P s') /\ (pending (ls_P s') \/ Post (Fn (ls_P s'))).
Proof.
  revert s. induction n as [|n IH]; intros s Hf Hc; simpl.
  { by intros [= <-]. }
  destruct (Allocas (ls_P s) !! ls_AllocaNum s) as [AI|] eqn:EAI; [|by intros [= <-]].
  destruct (processAlloca s AI) as [s1|] eqn:E; [|done].
  destruct (processAlloca_covers s AI s1 EAI Hf Hc E) as [Hf1 Hc1].
  by apply IH.
Qed.

Lemma eraseAllocas_covers l F :
  ((exists A, A ∈ l /\ a_id A = a) /\ Pre F) \/ Post F ->
  Post (fold_left eraseAlloca l F).
Proof.
  revert F. induction l as [|A' l IH]; intros F; simpl.
  { intros [[(A & HA%elem_of_nil & _) _]|?]; done. }
  intros [[(A & HA & Ha) HPreF]|HPostF]; apply IH.
  - destruct (decide (a_id A' = a)) as [Heq|Hne].
    + right. by apply establish_erase.
    + left. split; [|by apply (eraseAlloca_Inv _ _ _ HPre)].
      exists A. split; [|done].
      apply elem_of_cons in HA as [->|?]; done.
  - right. by apply (eraseAlloca_Inv _ _ _ HPost).
Qed.

Lemma run_covers P P' :
  fresh P -> pending P -> run P = Some P' -> Post (Fn P').
Proof.
  intros Hf Hp (s & Hloop & Hrest)%run_stages.
  apply allocaLoop_covers in Hloop as [Hf1 Hc1]; [|done|by left].
  destruct Hrest as [[HA ->]|(P2 & P4 & HA & HR & HS & ->)].
  { destruct Hc1 as [[(A & HAin & _) _]|?]; [|done].
    rewrite HA in HAin. by apply elem_of_nil in HAin. }
  pose proof (RenameLoop_Allocas _ _ _ _ _ HR) as HA2.
  assert (forall (Inv : Func -> Prop), PassInvariant Inv safe (fun i => i <> a) ->
            Inv (Fn (ls_P s)) -> Inv (Fn P2) /\ fresh P2) as Hren.
  { intros Inv HInv HF.
    eapply (RenameLoop_PInv _ _ _ HInv _ _ _ _ _ (conj HF Hf1)); [| |done].
    - cbn [snd]. apply Forall_fmap, Forall_forall. intros x _.
      apply (pi_undef _ _ _ HInv).
    - done. }
  assert (Post (fold_left eraseAlloca (Allocas P2) (Fn P2)) /\ fresh P2) as [HP3 Hf2].
  { destruct Hc1 as [[HAin HPreF]|HPostF].
    - destruct (Hren Pre HPre HPreF) as [HPre2 Hf2]. split; [|done].
      apply eraseAllocas_covers. left. by rewrite HA2.
    - destruct (Hren Post HPost HPostF) as [HPost2 Hf2]. split; [|done].
      apply eraseAllocas_covers. by right. }
  eapply (simplifyLoop_PInv _ _ _ HPost) in HS; [|by split].
  by apply (fillEntries_PInv _ _ _ HPost).
Qed.

End Coverage.

(** ** The driver *)

Lemma asAlloca_substInst old new J : asAlloca (substInst old new J) = asAlloca J.
Proof. unfold asAlloca, substInst. simpl. by destruct (ikind J). Qed.

Lemma asAlloca_addIncomingInst pn v p J : asAlloca (addIncomingInst pn v p J) = asAlloca J.
Proof.
  unfold addIncomingInst. case_bool_decide; [|done].
  unfold asAlloca. by destruct (ikind J) eqn:E; simpl; rewrite ?E.
Qed.

Lemma omap_asAlloca_ext (f : Instruction -> Instruction) (l : list Instruction) :
  (forall J, asAlloca (f J) = asAlloca J) ->
  omap asAlloca (f <$> l) = omap asAlloca l.
Proof.
  intros Hf. induction l as [|J l IH]; [done|]. csimpl.
  by rewrite Hf, IH.
Qed.

Lemma omap_asAlloca_filter i (l : list Instruction) :
  omap asAlloca (List.filter (fun J => negb (bool_decide (iid J = i))) l)
  = List.filter (fun A => negb (bool_decide (a_id A = i))) (omap asAlloca l).
Proof.
  induction l as [|J l IH]; [done|]. csimpl.
  assert (forall A, asAlloca J = Some A -> a_id A = iid J) as Hid.
  { intros A. unfold asAlloca. destruct (ikind J); intros; by simplify_eq. }
  case_bool_decide as Hi; csimpl; destruct (asAlloca J) as [A|] eqn:EA; csimpl;
    rewrite ?IH; try done.
  - rewrite (Hid A eq_refl), bool_decide_eq_true_2 by done. done.
  - rewrite (Hid A eq_refl), bool_decide_eq_false_2 by done. done.
Qed.

Lemma filter_filter_bool {A} (f g : A -> bool) (l : list A) :
  List.filter f (List.filter g l) = List.filter (fun x => f x && g x) l.
Proof.
  induction l as [|x l IH]; [done|]. simpl.
  destruct (g x); simpl; [destruct (f x); simpl; by rewrite IH|].
  by rewrite andb_false_r.
Qed.

Lemma entryAllocas_PassInvariant L :
  PassInvariant (fun F => exists keep, entryAllocas F = List.filter keep L)
                (fun _ => True) (fun _ => True).
Proof.
  unfold entryAllocas. split; try done.
  - intros F old new [keep H] _. exists keep.
    rewrite blockInsts_rauw, omap_asAlloca_ext; [done|]. apply asAlloca_substInst.
  - intros F i [keep H]. eexists.
    by rewrite blockInsts_erase, omap_asAlloca_filter, H, filter_filter_bool.
  - intros F pn v p [keep H] _. exists keep.
    rewrite blockInsts_addIncoming, omap_asAlloca_ext; [done|].
    apply asAlloca_addIncomingInst.
  - intros F b J [keep H] HK _. exists keep.
    rewrite blockInsts_insertAtBegin. case_bool_decide; [|done].
    csimpl. unfold asAlloca at 1. by rewrite HK.
Qed.

Lemma length_filter_lt {A} (f : A -> bool) (l : list A) (x : A) :
  x ∈ l -> f x = false -> length (List.filter f l) < length l.
Proof.
  induction l as [|y l IH]; [by intros ?%elem_of_nil|].
  intros [->|Hx]%elem_of_cons Hf; simpl.
  - rewrite Hf. pose proof (length_filter_le f l). lia.
  - specialize (IH Hx Hf). destruct (f y); simpl; lia.
Qed.

(** The pass erases every alloca it was given. *)
Lemma run_absent P P' A :
  A ∈ Allocas P -> (forall i, nextId P <= i -> i <> a_id A) ->
  run P = Some P' -> absent (a_id A) (Fn P').
Proof.
  intros HA Hfresh Hrun.
  eapply (run_covers (a_id A) (fun _ => True) (absent (a_id A)) (fun _ => True)
            (True_PassInvariant _) (absent_PassInvariant _)); [| | |split|exact Hrun];
    eauto.
  - intros s AI s' _ Ha _ Hstep Hnum.
    destruct (processAlloca_cases s AI s' Hstep) as [(F1 & -> & _)|[_ ?]]; [|lia].
    rewrite Ha. apply absent_erase.
  - intros F A' <- _. unfold eraseAlloca. apply absent_erase.
Qed.

Lemma newPass_fresh F As A i :
  A ∈ As -> nextId (newPass F As) <= i -> i <> a_id A.
Proof.
  simpl. intros HA Hi.
  assert (a_id A <= max_list (funcIds F ++ (a_id <$> As))); [|lia].
  apply max_list_elem_of_le, elem_of_app. right.
  apply list_elem_of_fmap. eauto.
Qed.

Lemma PromoteMemToReg_absent F As F' A :
  A ∈ As -> PromoteMemToReg F As = Some F' -> absent (a_id A) F'.
Proof.
  intros HA. unfold PromoteMemToReg. destruct As as [|A0 As0]; [by apply elem_of_nil in HA|].
  destruct (run _) as [P'|] eqn:E; [|done]. intros [= <-].
  eapply run_absent; [| |done]; [done|].
  intros i. by apply newPass_fresh.
Qed.

Lemma PromoteMemToReg_entryAllocas F As F' :
  PromoteMemToReg F As = Some F' ->
  exists keep, entryAllocas F' = List.filter keep (entryAllocas F).
Proof.
  intros H.
  eapply (PromoteMemToReg_Inv _ _ _ (entryAllocas_PassInvariant (entryAllocas F)));
    [|done|done].
  exists (fun _ => true). clear. induction (entryAllocas F) as [|x l IH]; [done|].
  simpl. by rewrite <- IH.
Qed.

Lemma elem_of_promotableAllocas F A :
  A ∈ promotableAllocas F -> A ∈ entryAllocas F /\ isAllocaPromotable F A = true.
Proof. unfold promotableAllocas. by rewrite elem_of_filter_bool. Qed.

Lemma PromoteMemToReg_decreases F A As F' :
  promotableAllocas F = A :: As ->
  PromoteMemToReg F (A :: As) = Some F' ->
  length (entryAllocas F') < length (entryAllocas F).
Proof.
  intros HAs Hp.
  destruct (PromoteMemToReg_entryAllocas _ _ _ Hp) as [keep Hk].
  assert (A ∈ entryAllocas F) as HA.
  { apply elem_of_promotableAllocas. rewrite HAs. left. }
  rewrite Hk. apply (length_filter_lt _ _ A HA).
  destruct (keep A) eqn:EK; [|done]. exfalso.
  assert (A ∈ entryAllocas F') as HA'.
  { rewrite Hk. by apply elem_of_filter_bool. }
  unfold entryAllocas in HA'. apply list_elem_of_omap in HA' as (J & HJ & HJA).
  eapply (PromoteMemToReg_absent F (A :: As) F' A); [left|done|done|].
  unfold asAlloca in HJA. destruct (ikind J); by simplify_eq.
Qed.

Lemma promoteLoop_total fuel F c :
  length (entryAllocas F) < fuel -> is_Some (promoteLoop fuel F c).
Proof.
  revert F c. induction fuel as [|fuel IH]; intros F c Hf; [lia|]. cbn [promoteLoop].
  destruct (promotableAllocas F) as [|A As] eqn:EA; [done|].
  destruct (PromoteMemToReg_total F (A :: As)) as [F' HF']. rewrite HF'.
  apply IH. pose proof (PromoteMemToReg_decreases F A As F' EA HF'). lia.
Qed.

Lemma promoteLoop_done fuel F c F' c' :
  promoteLoop fuel F c = Some (F', c') -> promotableAllocas F' = [].
Proof.
  revert F c. induction fuel as [|fuel IH]; intros F c; [done|]. cbn [promoteLoop].
  destruct (promotableAllocas F) as [|A As] eqn:EA.
  - by intros [= <- <-].
  - destruct (PromoteMemToReg _ _); [|done]. apply IH.
Qed.

Lemma length_omap_le {A B} (f : A -> option B) (l : list A) :
  length (omap f l) <= length l.
Proof. induction l as [|x l IH]; [done|]. csimpl. destruct (f x); simpl; lia. Qed.

Lemma promoteMemoryToRegister_total F : is_Some (promoteMemoryToRegister F).
Proof.
  apply promoteLoop_total. unfold entryAllocas.
  pose proof (length_omap_le asAlloca (blockInsts F 0)). lia.
Qed.

(** C9.  The driver ends on every function, and a second run on its result
    finds no promotable alloca in the entry block: it returns false and the
    function it returns is the function it was given. *)
Theorem promoteMemoryToRegister_idempotent (F : Func) :
  exists F' Changed,
    promoteMemoryToRegister F = Some (F', Changed)
    /\ promoteMemoryToRegister F' = Some (F', false).
Proof.
  destruct (promoteMemoryToRegister_total F) as [[F' c] H].
  exists F', c. split; [done|].
  apply promoteLoop_done in H.
  unfold promoteMemoryToRegister. cbn [promoteLoop]. by rewrite H.
Qed.

Lemma promoteLoop_cfg fuel F c F' c' :
  promoteLoop fuel F c = Some (F', c') -> cfg F' = cfg F.
Proof.
  revert F c. induction fuel as [|fuel IH]; intros F c; [done|]. cbn [promoteLoop].
  destruct (promotableAllocas F) as [|A As] eqn:EA.
  - by intros [= <- <-].
  - destruct (PromoteMemToReg _ _) as [F1|] eqn:E1; [|done].
    intros H%IH. rewrite H.
    by eapply (PromoteMemToReg_Inv _ _ _ (cfg_PassInvariant (cfg F))).
Qed.

(** ** An alloca without users *)

(** C10.  An alloca of the list that has no users is erased on the spot and
    leaves the list; nothing else happens on its account: the phi registry,
    the lookup maps, [Info], the index cache and [AllocaNum] stay as they
    are, and the function loses the instructions with the identity of the
    alloca and nothing else (every other instruction stays where it is, as
    it is, and so does every terminator). *)
Theorem unused_alloca_erased (s : AllocaLoopState) (AI : AllocaInst) :
  users (Fn (ls_P s)) (a_id AI) = [] ->
  let P := ls_P s in
  let F' := eraseFromParent (Fn P) (a_id AI) in
  processAlloca s AI
  = Some (mkLoop (mkPass F' (nextId P) (swapRemove (Allocas P) (ls_AllocaNum s))
                         (AllocaLookup P) (NewPhiNodes P) (PhiToAllocaMap P)
                         (Visited P) (BBNumPreds P))
                 (ls_Info s) (ls_LBI s) (ls_AllocaNum s))
  /\ (forall b, blockInsts F' b
                = List.filter (fun J => negb (bool_decide (iid J = a_id AI)))
                              (blockInsts (Fn P) b))
  /\ term <$> F' = term <$> Fn P.
Proof.
  intros Hu. cbn zeta. split; [|split].
  - unfold processAlloca. by rewrite (proj2 (use_empty_true _ _) Hu).
  - intros b. apply blockInsts_erase.
  - unfold eraseFromParent. rewrite <- list_fmap_compose. by apply list_fmap_ext.
Qed.

(** ** No load, no store and no cell after the pass *)

Lemma users_nil_unused F a : users F a = [] -> unused a F.
Proof.
  intros Hu. split.
  - intros b J HJ Hin.
    assert ((b, UInst J) ∈ users F a) as H by (by apply elem_of_users_inst).
    rewrite Hu in H. by apply elem_of_nil in H.
  - intros B HB Hin. apply list_elem_of_lookup in HB as [b HB].
    assert ((b, UTerm (term B)) ∈ users F a) as H
        by (apply elem_of_users_term; eauto).
    rewrite Hu in H. by apply elem_of_nil in H.
Qed.

Lemma substValue_self_ne a new v : new <> VInst a -> substValue a new v <> VInst a.
Proof. intros. unfold substValue. by case_bool_decide. Qed.

Lemma unused_rauw_self F a new : new <> VInst a -> unused a (replaceAllUsesWith F a new).
Proof.
  intros Hnew. split.
  - intros b J' (J & -> & HJ)%elem_of_blockInsts_rauw.
    rewrite operands_substInst. intros (v & Hv & _)%list_elem_of_fmap.
    symmetry in Hv. by apply substValue_self_ne in Hv.
  - intros B' (B & HB & ->)%elem_of_rauw_term.
    intros (v & Hv & _)%list_elem_of_fmap.
    symmetry in Hv. by apply substValue_self_ne in Hv.
Qed.

Lemma unused_erase F a i : unused a F -> unused a (eraseFromParent F i).
Proof.
  intros [Hi Ht]. split.
  - intros b J [HJ _]%elem_of_blockInsts_erase. eauto.
  - intros B' (B & HB & ->)%elem_of_erase_term. eauto.
Qed.

Lemma eraseAlloca_gone F A : unused (a_id A) (eraseAlloca F A) /\ absent (a_id A) (eraseAlloca F A).
Proof.
  unfold eraseAlloca. split; [|apply absent_erase].
  apply unused_erase. destruct (use_empty F (a_id A)) eqn:E; simpl.
  - by apply users_nil_unused, use_empty_true.
  - by apply unused_rauw_self.
Qed.

(** *** The single-store path *)

Lemma ss_bail_UsingBlocks b st : ss_UsingBlocks (ss_bail b st) <> [].
Proof. unfold ss_bail. simpl. by destruct (ss_UsingBlocks st). Qed.

Lemma ss_storeIndex_UsingBlocks OS st :
  ss_UsingBlocks (ss_storeIndex OS st) = ss_UsingBlocks st.
Proof. unfold ss_storeIndex. by case_bool_decide. Qed.

(** A round of the loop leaves the state as it is (the user is the store),
    bails out, or rewrites the load. *)
Lemma singleStoreUser_cases OS g st bu :
  let st' := singleStoreUser OS g st bu in
  (userId bu.2 = OS.2 /\ st' = st)
  \/ (ss_UsingBlocks st' <> [] /\ ss_F st' = ss_F st)
  \/ (userId bu.2 <> OS.2
      /\ ss_UsingBlocks st' = ss_UsingBlocks st
      /\ exists v, (v = storedValue (ss_F st) OS.2 \/ exists ty, v = VPoison ty)
                   /\ ss_F st' = eraseFromParent
                                   (replaceAllUsesWith (ss_F st) (userId bu.2) v)
                                   (userId bu.2)).
Proof.
  cbn zeta. unfold singleStoreUser.
  assert (forall st0, ss_F st0 = ss_F st -> ss_UsingBlocks st0 = ss_UsingBlocks st ->
     ss_UsingBlocks (ss_rewrite OS bu.2 st0) = ss_UsingBlocks st
     /\ exists v, (v = storedValue (ss_F st) OS.2 \/ exists ty, v = VPoison ty)
                  /\ ss_F (ss_rewrite OS bu.2 st0)
                     = eraseFromParent
                         (replaceAllUsesWith (ss_F st) (userId bu.2) v)
                         (userId bu.2)) as Hrw.
  { intros st0 HF HU. unfold ss_rewrite. simpl. rewrite HF. split; [done|].
    case_bool_decide; eauto. }
  case_bool_decide as Hos; [by left|right].
  destruct (negb g); [|right; split; [done|]; by apply Hrw].
  case_bool_decide.
  - case_bool_decide.
    + left. split; [apply ss_bail_UsingBlocks|]. simpl. apply ss_storeIndex_F.
    + right. split; [done|]. apply Hrw; simpl.
      * apply ss_storeIndex_F.
      * apply ss_storeIndex_UsingBlocks.
  - destruct (negb (DT_dominates _ _)).
    + left. split; [apply ss_bail_UsingBlocks|done].
    + right. split; [done|]. by apply Hrw.
Qed.

Lemma singleStoreUser_UsingBlocks OS g st bu :
  ss_UsingBlocks st <> [] -> ss_UsingBlocks (singleStoreUser OS g st bu) <> [].
Proof.
  intros Hne. destruct (singleStoreUser_cases OS g st bu) as [[_ ->]|[[H _]|(_ & H & _)]];
    [done|done|]. cbn zeta in H. by rewrite H.
Qed.

Lemma singleStoreFold_UsingBlocks OS g us st :
  ss_UsingBlocks st <> [] -> ss_UsingBlocks (fold_left (singleStoreUser OS g) us st) <> [].
Proof.
  revert st. induction us as [|bu us IH]; intros st H; cbn [fold_left]; [done|].
  by apply IH, singleStoreUser_UsingBlocks.
Qed.

(** When the loop ends with no bail-out, an instruction that still has the
    cell among its operands was there from the start, with the cell among
    its operands, and is the store or none of the users gone through. *)
Lemma singleStoreFold_refs a OS g us st b J :
  cellOK a (ss_F st) ->
  ss_UsingBlocks (fold_left (singleStoreUser OS g) us st) = [] ->
  J ∈ blockInsts (ss_F (fold_left (singleStoreUser OS g) us st)) b ->
  VInst a ∈ operands J ->
  (exists J0, J0 ∈ blockInsts (ss_F st) b /\ iid J0 = iid J /\ VInst a ∈ operands J0)
  /\ (iid J = OS.2 \/ forall bu, bu ∈ us -> userId bu.2 <> iid J).
Proof.
  revert st. induction us as [|bu us IH]; intros st HOK HU HJ Hin; cbn [fold_left] in *.
  { split; [eauto|]. right. by intros bu ?%elem_of_nil. }
  pose proof (singleStoreUser_Inv _ _ _ (cellOK_PassInvariant a) OS g st bu HOK) as HOK1.
  destruct (IH _ HOK1 HU HJ Hin) as [(J1 & HJ1 & Hid1 & Hin1) Hrest].
  destruct (singleStoreUser_cases OS g st bu) as [[Hos Hst]|[[Hne _]|(Hos & _ & v & Hv & HF)]];
    cbn zeta in *.
  - rewrite Hst in *. split; [eauto|].
    destruct Hrest as [?|Hrest]; [by left|].
    destruct (decide (iid J = OS.2)); [by left|right].
    intros bu' [->|?]%elem_of_cons; [congruence|eauto].
  - exfalso. by eapply singleStoreFold_UsingBlocks.
  - rewrite HF in HJ1.
    apply elem_of_blockInsts_erase in HJ1 as [HJ1 Hne1].
    apply elem_of_blockInsts_rauw in HJ1 as (J0 & -> & HJ0).
    assert (v <> VInst a) as Hva.
    { destruct Hv as [->|[ty ->]]; [|done].
      apply (storedValue_safe _ _ _ (cellOK_PassInvariant a)). done. }
    rewrite operands_substInst in Hin1.
    apply elem_of_subst in Hin1 as [Hin0 _]; [|done].
    split; [exists J0; by repeat split|].
    destruct Hrest as [?|Hrest]; [by left|right].
    intros bu' [->|?]%elem_of_cons; [|eauto].
    simpl in *. congruence.
Qed.

Lemma rewriteSingleStoreAlloca_gone F AI Info LBI :
  cellOK (a_id AI) F ->
  (rewriteSingleStoreAlloca F AI Info LBI).2 = true ->
  unused (a_id AI) (rewriteSingleStoreAlloca F AI Info LBI).1.1.1
  /\ absent (a_id AI) (rewriteSingleStoreAlloca F AI Info LBI).1.1.1.
Proof.
  intros HOK. unfold rewriteSingleStoreAlloca.
  destruct (OnlyStore Info) as [OS|]; [|done].
  set (g := negb _). set (st0 := mkSS F LBI [] (-1)).
  destruct (ss_UsingBlocks (fold_left (singleStoreUser OS g) (users F (a_id AI)) st0))
    eqn:EU; [|done].
  intros _. simpl. split; [|apply absent_erase].
  pose proof (singleStoreFold_Inv _ _ _ (cellOK_PassInvariant (a_id AI)) OS g
                (users F (a_id AI)) st0 HOK) as (_ & Ht & _).
  split.
  - intros b J [[HJ Hos]%elem_of_blockInsts_erase _]%elem_of_blockInsts_erase Hin.
    destruct (singleStoreFold_refs (a_id AI) OS g _ st0 b J HOK EU HJ Hin)
      as [(J0 & HJ0 & Hid & Hin0) [?|Hnone]]; [done|].
    apply (Hnone (b, UInst J0)); [|done].
    by apply elem_of_users_inst.
  - intros B' (B1 & HB1 & ->)%elem_of_erase_term.
    apply elem_of_erase_term in HB1 as (B & HB & ->). by apply Ht.
Qed.

(** *** The single-block path *)

Lemma eraseUsers_blockInsts F LBI a b J :
  J ∈ blockInsts (eraseUsers F LBI a).1 b
  <-> J ∈ blockInsts F b /\ forall bu, bu ∈ users F a -> userId bu.2 <> iid J.
Proof.
  unfold eraseUsers.
  assert (forall (l : list (BlockId * User)) (acc : Func * gmap InstId nat),
    J ∈ blockInsts (fold_left (fun acc bu =>
           (eraseFromParent acc.1 (userId bu.2), deleteValue acc.2 (userId bu.2)))
           l acc).1 b
    <-> J ∈ blockInsts acc.1 b /\ forall bu, bu ∈ l -> userId bu.2 <> iid J) as H.
  { induction l as [|bu l IH]; intros acc; simpl.
    - split; [intros ?; split; [done|by intros ? ?%elem_of_nil]|by intros [? _]].
    - rewrite IH. simpl. rewrite elem_of_blockInsts_erase. split.
      + intros [[? ?] Hl]. split; [done|].
        intros bu' [->|?]%elem_of_cons; [congruence|eauto].
      + intros [? Hl]. split; [split; [done|]|].
        * intros Heq. eapply (Hl bu); [left|done].
        * intros bu' ?. apply Hl. by right. }
  apply H.
Qed.

Lemma eraseUsers_term F LBI a B' :
  B' ∈ (eraseUsers F LBI a).1 -> exists B, B ∈ F /\ term B' = term B.
Proof.
  unfold eraseUsers. generalize (users F a). intros l.
  change F with (F, LBI).1 at 2. generalize (F, LBI).
  induction l as [|bu l IH]; intros acc; simpl; [eauto|].
  intros (B1 & HB1 & ->)%IH. simpl in HB1.
  by apply elem_of_erase_term in HB1.
Qed.

Lemma promoteSingleBlockAlloca_gone F AI Info LBI :
  cellOK (a_id AI) F ->
  (promoteSingleBlockAlloca F AI Info LBI).2 = true ->
  unused (a_id AI) (promoteSingleBlockAlloca F AI Info LBI).1.1
  /\ absent (a_id AI) (promoteSingleBlockAlloca F AI Info LBI).1.1.
Proof.
  intros HOK. unfold promoteSingleBlockAlloca.
  set (c := fold_left _ _ _).
  pose proof (singleBlockLoads_Inv _ _ _ (cellOK_PassInvariant (a_id AI))
                (merge_sort index_le c.1) (users F (a_id AI)) F c.2 HOK) as (_ & Ht & _).
  destruct (singleBlockLoads _ _ _ _) as [[F1 LBI2] ok]. simpl in *.
  destruct ok; simpl; [intros _|done].
  split; [|apply absent_erase]. split.
  - intros b J [[HJ Hl]%eraseUsers_blockInsts _]%elem_of_blockInsts_erase Hin.
    apply (Hl (b, UInst J)); [|done]. by apply elem_of_users_inst.
  - intros B' (B1 & HB1 & ->)%elem_of_erase_term.
    apply eraseUsers_term in HB1 as (B & HB & ->). by apply Ht.
Qed.

Lemma processAlloca_gone s AI s' :
  cellOK (a_id AI) (Fn (ls_P s)) ->
  processAlloca s AI = Some s' ->
  ls_AllocaNum s' = ls_AllocaNum s ->
  unused (a_id AI) (Fn (ls_P s')) /\ absent (a_id AI) (Fn (ls_P s')).
Proof.
  intros HOK. unfold processAlloca.
  destruct (use_empty _ _) eqn:EU.
  { intros [= <-] _. simpl. split; [|apply absent_erase].
    by apply unused_erase, users_nil_unused, use_empty_true. }
  match goal with |- context [if ?c then rewriteSingleStoreAlloca ?a ?b ?i ?l else ?e] =>
    set (r1 := if c then rewriteSingleStoreAlloca a b i l else e) end.
  assert (cellOK (a_id AI) r1.1.1.1) as HOK1.
  { subst r1. case_bool_decide; [|done].
    by apply (rewriteSingleStoreAlloca_Inv _ _ _ (cellOK_PassInvariant _)). }
  destruct (r1.2) eqn:E1.
  { intros [= <-] _. simpl. subst r1. case_bool_decide; [|done].
    by apply rewriteSingleStoreAlloca_gone. }
  match goal with |- context [if ?c then promoteSingleBlockAlloca ?a ?b ?i ?l else ?e] =>
    set (r2 := if c then promoteSingleBlockAlloca a b i l else e) end.
  destruct (r2.2) eqn:E2.
  { intros [= <-] _. simpl. subst r2.
    destruct (OnlyUsedInOneBlock _); [|done].
    by apply promoteSingleBlockAlloca_gone. }
  destruct (ComputeLiveInBlocks _ _ _ _); [|done].
  intros [= <-]. simpl. lia.
Qed.

Lemma run_gone P P' A :
  A ∈ Allocas P -> (forall i, nextId P <= i -> i <> a_id A) ->
  cellOK (a_id A) (Fn P) ->
  run P = Some P' -> unused (a_id A) (Fn P') /\ absent (a_id A) (Fn P').
Proof.
  intros HA Hfresh HOK Hrun.
  eapply (run_covers (a_id A) (cellOK (a_id A))
            (fun F => unused (a_id A) F /\ absent (a_id A) F)
            (fun v => v <> VInst (a_id A))
            (cellOK_PassInvariant _) (gone_PassInvariant _)); [| | |split|exact Hrun];
    eauto.
  - intros s AI s' _ Ha HOK' Hstep Hnum. rewrite <- Ha in *.
    by eapply processAlloca_gone.
  - intros F A' <- _. apply eraseAlloca_gone.
Qed.

(** *** From the promotability filter to the invariant of a cell *)

Lemma NoDup_fmap_eq {A B} (f : A -> B) (l : list A) (x y : A) :
  NoDup (f <$> l) -> x ∈ l -> y ∈ l -> f x = f y -> x = y.
Proof.
  induction l as [|z l IH]; [by intros _ ?%elem_of_nil|].
  rewrite fmap_cons, NoDup_cons.
  intros [Hz Hnd] [->|Hx]%elem_of_cons [->|Hy]%elem_of_cons Hf; [done| | |eauto].
  - exfalso. apply Hz. rewrite Hf. apply list_elem_of_fmap. eauto.
  - exfalso. apply Hz. rewrite <- Hf. apply list_elem_of_fmap. eauto.
Qed.

Lemma uniqueIds_eq F b J b' J' :
  uniqueIds F -> J ∈ blockInsts F b -> J' ∈ blockInsts F b' -> iid J = iid J' -> J = J'.
Proof.
  intros Hnd HJ HJ' Hid. unfold uniqueIds in Hnd.
  apply (NoDup_fmap_eq iid (allInsts F).*2 J J' Hnd); [| |done];
    apply list_elem_of_fmap; eexists (_, _); (split; [done|]);
    by apply elem_of_allInsts.
Qed.

Lemma promotable_cellOK F A :
  uniqueIds F -> (exists b J, J ∈ blockInsts F b /\ asAlloca J = Some A) ->
  isAllocaPromotable F A = true -> cellOK (a_id A) F.
Proof.
  intros Hnd (b0 & J0 & HJ0 & HA) [Hu Ht]%isAllocaPromotable_iff.
  split; [|split; [done|]].
  - intros b J HJ Hin. destruct (Hu b J HJ Hin) as [(p & HK & _)|(v & p & HK & Hv & _)].
    + left. unfold operands in Hin. rewrite HK in Hin.
      apply list_elem_of_singleton in Hin. congruence.
    + right. exists v. unfold operands in Hin. rewrite HK in Hin.
      apply elem_of_cons in Hin as [Hin|Hin]; [congruence|].
      apply list_elem_of_singleton in Hin. split; congruence.
  - intros b J HJ HP Hid.
    assert (iid J0 = a_id A) as Hid0.
    { unfold asAlloca in HA. destruct (ikind J0); by simplify_eq. }
    assert (J = J0) as -> by (eapply uniqueIds_eq; [done..|congruence]).
    unfold asAlloca in HA. unfold isPHI in HP. by destruct (ikind J0).
Qed.

(** C1.  On a function whose instructions have identities of their own,
    given allocas of the function that the promotability filter accepts,
    the pass returns a function in which, for every one of them, no
    instruction has the cell among its operands (so no load from it and no
    store to it is left), no terminator uses it, and no instruction is the
    cell; whichever path handled the cell. *)
Theorem promoted_cells_are_gone (F : Func) (As : list AllocaInst) :
  uniqueIds F ->
  allocasOf F As ->
  (forall A, A ∈ As -> isAllocaPromotable F A = true) ->
  exists F',
    PromoteMemToReg F As = Some F'
    /\ forall A, A ∈ As ->
         (forall b J, J ∈ blockInsts F' b ->
                      iid J <> a_id A /\ VInst (a_id A) ∉ operands J)
         /\ (forall B, B ∈ F' -> VInst (a_id A) ∉ tops (term B)).
Proof.
  intros Hnd Hof Hprom.
  destruct (PromoteMemToReg_total F As) as [F' HF'].
  exists F'. split; [done|]. intros A HA.
  assert (unused (a_id A) F' /\ absent (a_id A) F') as [[Hi Ht] Ha].
  { unfold PromoteMemToReg in HF'.
    destruct As as [|A0 As0]; [by apply elem_of_nil in HA|].
    destruct (run _) as [P'|] eqn:E; [|done]. injection HF' as <-.
    eapply (run_gone (newPass F (A0 :: As0)) P' A); [done| | |done].
    - intros i. by apply newPass_fresh.
    - apply promotable_cellOK; auto. }
  split; [|done]. intros b J HJ. split; [by eapply Ha|by eapply Hi].
Qed.

(** ** The phis of a block take their operands edge by edge *)

Lemma addEntries_nil J : addEntries [] J = J.
Proof.
  unfold addEntries. destruct J as [i nm ty k]. simpl.
  destruct k; try done. by rewrite app_nil_r.
Qed.

Lemma addEntries_app es es' J :
  addEntries es' (addEntries es J) = addEntries (es ++ es') J.
Proof.
  unfold addEntries. destruct (ikind J) eqn:E; simpl; rewrite ?E; try done.
  by rewrite app_assoc.
Qed.

Lemma addIncomingInst_addEntries pn v p J :
  addIncomingInst pn v p J = if bool_decide (iid J = pn) then addEntries [(v, p)] J else J.
Proof. done. Qed.

Lemma iid_addEntries es J : iid (addEntries es J) = iid J.
Proof. unfold addEntries. by destruct (ikind J). Qed.

Lemma incomingOf_addEntries es J :
  isPHI J = true -> incomingOf (addEntries es J) = incomingOf J ++ es.
Proof. unfold isPHI, addEntries, incomingOf. by destruct (ikind J). Qed.

Lemma blockInsts_addIncomingN F pn v p n b :
  blockInsts (addIncomingN F pn v p n) b
  = (fun J => if bool_decide (iid J = pn) then addEntries (replicate n (v, p)) J else J)
      <$> blockInsts F b.
Proof.
  unfold addIncomingN. induction n as [|n IH]; simpl.
  - rewrite <- (list_fmap_id (blockInsts F b)) at 1. apply list_fmap_ext.
    intros _ J _. simpl. case_bool_decide; by rewrite ?addEntries_nil.
  - rewrite blockInsts_addIncoming, IH, <- list_fmap_compose.
    apply list_fmap_ext. intros _ J _. simpl.
    rewrite addIncomingInst_addEntries.
    destruct (decide (iid J = pn)) as [Hid|Hid].
    + rewrite !(bool_decide_eq_true_2 (iid J = pn)) by done.
      rewrite iid_addEntries, bool_decide_eq_true_2 by done.
      rewrite addEntries_app. f_equal.
      change ((v, p) :: replicate n (v, p)) with (replicate (S n) (v, p)).
      by rewrite <- replicate_S_end.
    + by rewrite !(bool_decide_eq_false_2 (iid J = pn)) by done.
Qed.

Lemma phiRun_app n phis rest :
  Forall (fun J => isPHI J = true /\ getNumOperands J = n) phis ->
  phiRun n (phis ++ rest) = phis ++ phiRun n rest.
Proof.
  induction 1 as [|J phis [HP Hn] _ IH]; [done|]. simpl.
  rewrite HP, bool_decide_eq_true_2 by done. simpl. by rewrite IH.
Qed.

(** The loop over the phis, on a function whose instructions have
    identities of their own: the phis walked take their entries, the other
    instructions of the block stay. *)
Lemma updatePhis_spec Pred NumEdges phis :
  forall P vals done rest BB,
    NoDup (iid <$> (done ++ phis ++ rest)) ->
    blockInsts (Fn P) BB = done ++ phis ++ rest ->
    Forall (fun J => isPHI J = true /\ is_Some (PhiToAllocaMap P !! iid J)) phis ->
    NoDup (cellOf P <$> phis) ->
    let r := fold_left (updatePhi Pred NumEdges) phis (P, vals) in
    blockInsts (Fn r.1) BB
    = done
        ++ ((fun J => addEntries (replicate NumEdges (valueAt vals (cellOf P J), Pred)) J)
              <$> phis)
        ++ rest
    /\ (forall J, J ∈ phis -> cellOf P J < length vals ->
                  r.2 !! cellOf P J = Some (VInst (iid J)))
    /\ (forall c, (forall J, J ∈ phis -> cellOf P J <> c) -> r.2 !! c = vals !! c)
    /\ PhiToAllocaMap r.1 = PhiToAllocaMap P.
Proof.
  induction phis as [|J phis IH]; intros P vals done rest BB Hnd HB Hall Hcells;
    cbn [fold_left]; cbn zeta.
  { simpl. split; [done|]. split; [by intros ? ?%elem_of_nil|]. done. }
  apply Forall_cons in Hall as [[HP [c Hc]] Hall].
  rewrite fmap_cons in Hcells. apply NoDup_cons in Hcells as [HcJ Hcells].
  set (P1 := (updatePhi Pred NumEdges (P, vals) J).1).
  set (vals1 := (updatePhi Pred NumEdges (P, vals) J).2).
  assert (PhiToAllocaMap P1 = PhiToAllocaMap P) as Hmap.
  { subst P1. unfold updatePhi. simpl. rewrite Hc. simpl. by apply insert_id. }
  assert (forall K, cellOf P1 K = cellOf P K) as HcellOf.
  { intros K. unfold cellOf. by rewrite Hmap. }
  assert (cellOf P J = c) as HcJc by (unfold cellOf; by rewrite Hc).
  assert (blockInsts (Fn P1) BB
          = (done ++ [addEntries (replicate NumEdges (valueAt vals c, Pred)) J])
              ++ phis ++ rest) as HB1.
  { subst P1. unfold updatePhi. simpl. rewrite Hc. simpl.
    rewrite blockInsts_addIncomingN, HB.
    rewrite !fmap_app, fmap_cons, <- !app_assoc. simpl.
    rewrite bool_decide_eq_true_2 by done.
    assert (forall l : list Instruction, iid J ∉ iid <$> l ->
              (fun K => if bool_decide (iid K = iid J)
                        then addEntries (replicate NumEdges (valueAt vals c, Pred)) K
                        else K) <$> l = l) as Hother.
    { intros l Hl. rewrite <- (list_fmap_id l) at 2. apply list_fmap_ext.
      intros i K HK. simpl. rewrite bool_decide_eq_false_2; [done|].
      intros Heq. apply Hl. rewrite <- Heq. apply list_elem_of_fmap.
      exists K. split; [done|]. by eapply list_elem_of_lookup_2. }
    rewrite !fmap_app, fmap_cons in Hnd.
    apply NoDup_app in Hnd as (_ & Hd & Hnd).
    apply NoDup_cons in Hnd as [Hr _].
    change (iid J ∉ (iid <$> phis) ++ (iid <$> rest)) in Hr.
    rewrite <- fmap_app in Hr.
    rewrite (Hother done).
    2:{ intros Hin. apply (Hd _ Hin). left. }
    rewrite <- fmap_app, (Hother (phis ++ rest)) by done. done. }
  destruct (IH P1 vals1 (done ++ [addEntries (replicate NumEdges (valueAt vals c, Pred)) J])
              rest BB) as (HBr & Hv1 & Hv2 & Hm).
  { rewrite <- app_assoc. cbn [app].
    rewrite fmap_app, fmap_cons, iid_addEntries.
    change ((J :: phis) ++ rest) with (J :: (phis ++ rest)) in Hnd.
    by rewrite fmap_app, fmap_cons in Hnd. }
  { done. }
  { eapply Forall_impl; [done|]. intros K [? ?]. by rewrite Hmap. }
  { erewrite list_fmap_ext; [done|]. intros; apply HcellOf. }
  rewrite (surjective_pairing (updatePhi Pred NumEdges (P, vals) J)).
  fold P1 vals1.
  assert (vals1 = <[c := VInst (iid J)]> vals) as Hvals1.
  { subst vals1. unfold updatePhi. simpl. by rewrite Hc. }
  split; [|split; [|split]].
  - rewrite HBr, <- app_assoc. simpl. f_equal. f_equal. f_equal.
    + by rewrite HcJc.
    + f_equal. apply list_fmap_ext. intros i K HK. simpl.
      rewrite HcellOf. f_equal. f_equal. f_equal.
      unfold valueAt. rewrite Hvals1, list_lookup_insert_ne; [done|].
      intros Heq. apply HcJ. rewrite HcJc, Heq.
      apply list_elem_of_fmap. exists K. split; [done|].
      by eapply list_elem_of_lookup_2.
  - intros K [->|HK]%elem_of_cons Hlt.
    + rewrite Hv2.
      * rewrite Hvals1, HcJc. apply list_lookup_insert_eq. by rewrite <- HcJc.
      * intros K HK. rewrite HcellOf. intros Heq. apply HcJ.
        rewrite <- Heq. apply list_elem_of_fmap. eauto.
    + rewrite <- HcellOf. apply Hv1; [done|].
      rewrite HcellOf, Hvals1, length_insert. done.
  - intros c' Hc'. rewrite Hv2.
    + rewrite Hvals1, list_lookup_insert_ne; [done|].
      rewrite <- HcJc. apply Hc'. left.
    + intros K HK. rewrite HcellOf. apply Hc'. by right.
  - by rewrite Hm.
Qed.

Lemma uniqueIds_block F b : uniqueIds F -> NoDup (iid <$> blockInsts F b).
Proof.
  unfold uniqueIds, allInsts, blockInsts. intros Hnd.
  destruct (F !! b) as [B|] eqn:EB; [|constructor].
  apply take_drop_middle in EB. rewrite <- EB in Hnd.
  rewrite imap_app, join_app, !fmap_app in Hnd.
  apply NoDup_app in Hnd as (_ & _ & Hnd).
  rewrite imap_cons in Hnd. simpl in Hnd. rewrite !fmap_app in Hnd.
  apply NoDup_app in Hnd as (Hnd & _ & _).
  rewrite <- !list_fmap_compose in Hnd. exact Hnd.
Qed.

(** C5.  When the renaming walk goes over the edge from [Pred] into [BB],
    and the phis the pass inserted in [BB] stand at the head of the block
    (registered, all with the same number [n] of operands, each for a cell
    of its own, and followed by no further phi with [n] operands), every one
    of them takes the entry [(IncomingVals[c], Pred)] once per successor slot
    of [Pred] that names [BB], and becomes the current value of its cell [c];
    the rest of the block stays.  A switch with two slots for [BB] gives the
    entry twice. *)
Theorem populatePhis_appends_per_edge
    (P : PromoteMem2Reg) (BB Pred : BlockId) (IncomingVals : list Value)
    (phis rest : list Instruction) (n : nat) :
  uniqueIds (Fn P) ->
  blockInsts (Fn P) BB = phis ++ rest ->
  phis <> [] ->
  Forall (fun J => isPHI J = true /\ getNumOperands J = n
                   /\ is_Some (PhiToAllocaMap P !! iid J)) phis ->
  phiRun n rest = [] ->
  NoDup (cellOf P <$> phis) ->
  let NumEdges := edgeCount (Fn P) Pred BB in
  let r := populatePhis P BB (Some Pred) IncomingVals in
  blockInsts (Fn r.1) BB
  = ((fun J => addEntries
                 (replicate NumEdges (valueAt IncomingVals (cellOf P J), Pred)) J)
       <$> phis) ++ rest
  /\ (forall J, J ∈ phis -> cellOf P J < length IncomingVals ->
                r.2 !! cellOf P J = Some (VInst (iid J)))
  /\ (forall c, (forall J, J ∈ phis -> cellOf P J <> c) ->
                r.2 !! c = IncomingVals !! c).
Proof.
  intros Hnd HB Hne Hall Hrest Hcells. cbn zeta.
  destruct phis as [|APN phis']; [done|]. clear Hne.
  unfold populatePhis. rewrite HB. cbn [app].
  pose proof Hall as Hall0.
  apply Forall_cons in Hall as [(HP & Hn & Hreg) Hall].
  rewrite HP, Hn. cbn [andb]. rewrite bool_decide_eq_true_2 by done.
  rewrite phiRun_app, Hrest, app_nil_r.
  2:{ eapply Forall_impl; [done|]. by intros K (? & ? & ?). }
  destruct (updatePhis_spec Pred (edgeCount (Fn P) Pred BB) (APN :: phis')
              P IncomingVals [] rest BB) as (H1 & H2 & H3 & _).
  - rewrite app_nil_l, <- HB. by apply uniqueIds_block.
  - done.
  - eapply Forall_impl; [done|]. by intros K (? & ? & ?).
  - done.
  - cbn zeta in *. simpl in H1. unfold edgeCount in *. eauto.
Qed.

(** ** Identities, places in a block, and the index cache *)

Lemma indexOf_lookup i l : i ∈ l -> l !! indexOf i l = Some i.
Proof.
  induction l as [|x l IH]; [by intros ?%elem_of_nil|]. simpl.
  case_bool_decide as Hx; [by subst|].
  intros [->|Hin]%elem_of_cons; [done|]. by apply IH.
Qed.


Lemma indexOf_sublist l' l i j :
  sublist l' l -> NoDup l -> i ∈ l' -> j ∈ l' ->
  indexOf i l' < indexOf j l' <-> indexOf i l < indexOf j l.
Proof.
  induction 1 as [|x l1 l2 Hsub IH|x l1 l2 Hsub IH]; intros Hnd Hi Hj.
  - by apply elem_of_nil in Hi.
  - apply NoDup_cons in Hnd as [_ Hnd]. simpl.
    destruct (decide (x = i)) as [Hxi|Hxi], (decide (x = j)) as [Hxj|Hxj].
    + rewrite !bool_decide_eq_true_2 by done. lia.
    + rewrite bool_decide_eq_true_2, bool_decide_eq_false_2 by done. lia.
    + rewrite bool_decide_eq_false_2, bool_decide_eq_true_2 by done. lia.
    + rewrite !bool_decide_eq_false_2 by done.
      apply elem_of_cons in Hi as [?|Hi]; [done|].
      apply elem_of_cons in Hj as [?|Hj]; [done|].
      specialize (IH Hnd Hi Hj). lia.
  - apply NoDup_cons in Hnd as [Hx Hnd]. simpl.
    assert (x <> i) by (intros ->; apply Hx; by eapply elem_of_sublist).
    assert (x <> j) by (intros ->; apply Hx; by eapply elem_of_sublist).
    rewrite !bool_decide_eq_false_2 by done.
    specialize (IH Hnd Hi Hj). lia.
Qed.

Lemma sublist_filter_bool {A} (f : A -> bool) (l : list A) :
  sublist (List.filter f l) l.
Proof.
  induction l as [|x l IH]; simpl; [constructor|].
  destruct (f x); by constructor.
Qed.

Lemma sublist_join {A} (ls ls' : list (list A)) :
  Forall2 sublist ls ls' -> sublist (mjoin ls) (mjoin ls').
Proof. induction 1; simpl; [constructor|]. by apply sublist_app. Qed.

(** The identities of a function, block by block. *)
Lemma allInsts_ids F :
  iid <$> (allInsts F).*2 = mjoin ((fun B => iid <$> insts B) <$> F).
Proof.
  unfold allInsts.
  assert (forall n, iid <$> (mjoin (imap (fun b B => (fun J => (n + b, J)) <$> insts B) F)).*2
                    = mjoin ((fun B => iid <$> insts B) <$> F)) as H.
  { induction F as [|B F IH]; intros n; [done|]. simpl.
    rewrite !fmap_app. f_equal.
    - rewrite <- !list_fmap_compose. by apply list_fmap_ext.
    - etransitivity; [|apply (IH (S n))]. f_equal. f_equal. f_equal.
      apply imap_ext. intros i B' _. simpl. apply list_fmap_ext.
      intros _ J _. f_equal. lia. }
  apply (H 0).
Qed.

Lemma uniqueIds_rauw F old new :
  uniqueIds F -> uniqueIds (replaceAllUsesWith F old new).
Proof.
  unfold uniqueIds. rewrite !allInsts_ids. unfold replaceAllUsesWith.
  rewrite <- list_fmap_compose. intros H.
  erewrite list_fmap_ext; [exact H|]. intros _ B _. simpl.
  rewrite <- list_fmap_compose. by apply list_fmap_ext.
Qed.

Lemma filter_bool_fmap {A B} (f : A -> B) (p : B -> bool) (l : list A) :
  List.filter p (f <$> l) = f <$> List.filter (fun x => p (f x)) l.
Proof.
  induction l as [|x l IH]; [done|]. csimpl. rewrite IH. by destruct (p (f x)).
Qed.

Lemma uniqueIds_erase F i : uniqueIds F -> uniqueIds (eraseFromParent F i).
Proof.
  unfold uniqueIds. rewrite !allInsts_ids. unfold eraseFromParent.
  rewrite <- list_fmap_compose. intros H. refine (sublist_NoDup _ _ H _).
  apply sublist_join.
  apply Forall2_fmap, Forall_Forall2_diag, Forall_forall. intros B _. simpl.
  apply fmap_sublist, sublist_filter_bool.
Qed.

Lemma findInst_unique F b J :
  uniqueIds F -> J ∈ blockInsts F b -> findInst F (iid J) = Some (b, J).
Proof.
  intros Hnd HJ. unfold findInst.
  destruct (List.find _ _) as [[b' J']|] eqn:E.
  - apply find_some in E as [Hin Heq]. apply bool_decide_eq_true in Heq.
    apply list_elem_of_In in Hin. simpl in Heq.
    apply elem_of_allInsts in HJ.
    unfold uniqueIds in Hnd. rewrite <- list_fmap_compose in Hnd.
    by rewrite (NoDup_fmap_eq _ _ (b', J') (b, J) Hnd Hin HJ Heq).
  - apply elem_of_allInsts, list_elem_of_In in HJ.
    apply (find_none _ _ E) in HJ. simpl in HJ.
    by rewrite bool_decide_eq_true_2 in HJ.
Qed.

Lemma ids_rauw F old new b :
  iid <$> blockInsts (replaceAllUsesWith F old new) b = iid <$> blockInsts F b.
Proof. rewrite blockInsts_rauw, <- list_fmap_compose. by apply list_fmap_ext. Qed.

Lemma ids_erase F i b :
  iid <$> blockInsts (eraseFromParent F i) b
  = List.filter (fun x => negb (bool_decide (x = i))) (iid <$> blockInsts F b).
Proof. by rewrite blockInsts_erase, filter_bool_fmap. Qed.

Lemma position_rauw F old new b i :
  position (replaceAllUsesWith F old new) b i = position F b i.
Proof. unfold position. by rewrite ids_rauw. Qed.

Lemma elem_of_ids F b J : J ∈ blockInsts F b -> iid J ∈ iid <$> blockInsts F b.
Proof. intros. apply list_elem_of_fmap. eauto. Qed.

(** Erasing an instruction leaves the others in their order. *)
Lemma position_erase F x b i j :
  uniqueIds F -> i <> x -> j <> x ->
  i ∈ iid <$> blockInsts F b -> j ∈ iid <$> blockInsts F b ->
  position (eraseFromParent F x) b i < position (eraseFromParent F x) b j
  <-> position F b i < position F b j.
Proof.
  intros Hnd Hi Hj Hini Hinj. unfold position. rewrite ids_erase.
  apply indexOf_sublist.
  - apply sublist_filter_bool.
  - by apply uniqueIds_block.
  - apply elem_of_filter_bool. split; [done|].
    by rewrite negb_true_iff, bool_decide_eq_false.
  - apply elem_of_filter_bool. split; [done|].
    by rewrite negb_true_iff, bool_decide_eq_false.
Qed.

(** *** The scan of a block *)

Lemma numberBlock_other F l n LBI i :
  i ∉ iid <$> l -> numberBlock F l n LBI !! i = LBI !! i.
Proof.
  revert n LBI. induction l as [|J l IH]; intros n LBI Hi; [done|].
  rewrite fmap_cons, not_elem_of_cons in Hi. destruct Hi as [Hne Hi]. simpl.
  destruct (isInterestingInstruction F J).
  - rewrite IH by done. by apply lookup_insert_ne.
  - by apply IH.
Qed.

Lemma numberBlock_position F l J n LBI :
  NoDup (iid <$> l) -> J ∈ l -> isInterestingInstruction F J = true ->
  numberBlock F l n LBI !! iid J
  = Some (n + length (List.filter (isInterestingInstruction F)
                                  (take (indexOf (iid J) (iid <$> l)) l))).
Proof.
  revert n LBI. induction l as [|x l IH]; intros n LBI Hnd HJ Hint.
  { by apply elem_of_nil in HJ. }
  rewrite fmap_cons in Hnd. apply NoDup_cons in Hnd as [Hx Hnd].
  cbn [numberBlock fmap list_fmap indexOf].
  destruct (decide (iid x = iid J)) as [Heq|Hne].
  - assert (x = J) as ->.
    { apply elem_of_cons in HJ as [->|HJ]; [done|].
      exfalso. apply Hx. rewrite Heq. apply list_elem_of_fmap. eauto. }
    rewrite bool_decide_eq_true_2 by done. rewrite Hint. simpl.
    rewrite numberBlock_other by done. rewrite lookup_insert_eq. f_equal. lia.
  - apply elem_of_cons in HJ as [->|HJ]; [done|].
    rewrite bool_decide_eq_false_2 by done. cbn [take List.filter].
    destruct (isInterestingInstruction F x).
    + rewrite (IH (S n)) by done. simpl. f_equal. lia.
    + by rewrite (IH n).
Qed.

Lemma filter_take_lt {A} (f : A -> bool) (l : list A) (p q : nat) (x : A) :
  l !! p = Some x -> f x = true -> p < q ->
  length (List.filter f (take p l)) < length (List.filter f (take q l)).
Proof.
  revert p q. induction l as [|y l IH]; intros p q Hp Hx Hlt; [done|].
  destruct q as [|q]; [lia|]. destruct p as [|p].
  - simpl in Hp. injection Hp as ->. simpl. rewrite Hx. simpl. lia.
  - simpl in Hp. simpl. specialize (IH p q Hp Hx ltac:(lia)).
    destruct (f y); simpl; lia.
Qed.

Lemma indexOf_fmap_lookup (l : list Instruction) J :
  NoDup (iid <$> l) -> J ∈ l -> l !! indexOf (iid J) (iid <$> l) = Some J.
Proof.
  intros Hnd HJ.
  assert (iid J ∈ iid <$> l) as Hin by (apply list_elem_of_fmap; eauto).
  apply indexOf_lookup in Hin. rewrite list_lookup_fmap in Hin.
  destruct (l !! _) as [J'|] eqn:E; [|done]. simpl in Hin. injection Hin as Hid.
  f_equal. apply (NoDup_fmap_eq iid l J' J Hnd); [|done..].
  by eapply list_elem_of_lookup_2.
Qed.

Lemma cellOK_accessesNumbered F a b :
  cellOK a F -> isAllocaValue F (VInst a) = true -> accessesNumbered F a b.
Proof.
  intros (Hu & _ & _) Ha J HJ Hin. unfold isInterestingInstruction.
  by destruct (Hu b J HJ Hin) as [->|(v & -> & _)].
Qed.



(** *** A load of the cell is replaced and goes *)

Lemma elem_of_replaced F LI v b J' :
  J' ∈ blockInsts (eraseFromParent (replaceAllUsesWith F LI v) LI) b
  <-> exists J, J' = substInst LI v J /\ J ∈ blockInsts F b /\ iid J <> LI.
Proof.
  rewrite elem_of_blockInsts_erase, elem_of_blockInsts_rauw. split.
  - intros [(J & -> & HJ) Hne]. eauto.
  - intros (J & -> & HJ & Hne). eauto.
Qed.

Lemma position_replaced F LI v b i j :
  uniqueIds F -> i <> LI -> j <> LI ->
  i ∈ iid <$> blockInsts F b -> j ∈ iid <$> blockInsts F b ->
  position (eraseFromParent (replaceAllUsesWith F LI v) LI) b i
  < position (eraseFromParent (replaceAllUsesWith F LI v) LI) b j
  <-> position F b i < position F b j.
Proof.
  intros Hnd Hi Hj Hini Hinj.
  rewrite position_erase; [|by apply uniqueIds_rauw|done|done|by rewrite ids_rauw..].
  by rewrite !position_rauw.
Qed.

Lemma LBIordered_replaced F LBI a b LI v :
  uniqueIds F -> v <> VInst a -> LBIordered F LBI a b ->
  LBIordered (eraseFromParent (replaceAllUsesWith F LI v) LI) (deleteValue LBI LI) a b.
Proof.
  intros Hnd Hv Hord J1' J2' n1 n2.
  intros (J1 & -> & H1 & Hne1)%elem_of_replaced (J2 & -> & H2 & Hne2)%elem_of_replaced.
  rewrite !operands_substInst.
  intros [Hu1 _]%elem_of_subst [Hu2 _]%elem_of_subst; [|done..].
  unfold deleteValue. simpl. rewrite !lookup_delete_ne by done.
  intros E1 E2 Hlt. apply (Hord J1 J2); [done..|].
  apply position_replaced in Hlt; [done..| |]; by apply elem_of_ids.
Qed.

Lemma LBIfull_replaced F LBI a b LI v :
  v <> VInst a -> LBIfull F LBI a b ->
  LBIfull (eraseFromParent (replaceAllUsesWith F LI v) LI) (deleteValue LBI LI) a b.
Proof.
  intros Hv Hf J' (J & -> & HJ & Hne)%elem_of_replaced.
  rewrite operands_substInst. intros [Hu _]%elem_of_subst; [|done].
  unfold deleteValue. simpl. rewrite lookup_delete_ne by done. by apply Hf.
Qed.

Lemma LBInone_replaced F LBI a b LI v :
  v <> VInst a -> LBInone F LBI a b ->
  LBInone (eraseFromParent (replaceAllUsesWith F LI v) LI) (deleteValue LBI LI) a b.
Proof.
  intros Hv Hf J' (J & -> & HJ & Hne)%elem_of_replaced.
  rewrite operands_substInst. intros [Hu _]%elem_of_subst; [|done].
  unfold deleteValue. simpl. rewrite lookup_delete_ne by done. by apply Hf.
Qed.

Lemma LBIconsistent_replaced F LBI a b LI v :
  uniqueIds F -> v <> VInst a -> LBIconsistent F LBI a b ->
  LBIconsistent (eraseFromParent (replaceAllUsesWith F LI v) LI)
                (deleteValue LBI LI) a b.
Proof.
  intros Hnd Hv [Hord [Hf|Hn]]; (split; [by apply LBIordered_replaced|]);
    [left; by apply LBIfull_replaced|right; by apply LBInone_replaced].
Qed.

(** ** The loop that folds trivial phis *)







(** ** The single-store rewrite *)

Lemma isAllocaValue_Some F a :
  isAllocaValue F (VInst a) = true ->
  exists b J t, J ∈ blockInsts F b /\ iid J = a /\ ikind J = Alloca t.
Proof.
  unfold isAllocaValue. destruct (findInst F a) as [[b J]|] eqn:E; [|done].
  apply findInst_Some in E as [HJ Hid].
  destruct (ikind J) eqn:EK; try done. eauto 10.
Qed.

Lemma isAllocaValue_unique F a b J t :
  uniqueIds F -> J ∈ blockInsts F b -> iid J = a -> ikind J = Alloca t ->
  isAllocaValue F (VInst a) = true.
Proof.
  intros Hnd HJ <- HK. unfold isAllocaValue.
  by rewrite (findInst_unique F b J), HK.
Qed.














Lemma ssInv_bail F0 a OS st b : ssInv F0 a OS st -> ssInv F0 a OS (ss_bail b st).
Proof. done. Qed.




(** *** The users of a cell *)





Lemma users_cellOK F a b u :
  cellOK a F -> (b, u) ∈ users F a ->
  exists J, u = UInst J /\ J ∈ blockInsts F b
            /\ (ikind J = Load (VInst a)
                \/ exists v, ikind J = Store v (VInst a) /\ v <> VInst a).
Proof.
  intros (Hu & Ht & _) Hin. destruct u as [J|T].
  - apply elem_of_users_inst in Hin as [HJ Hop]. exists J. eauto.
  - apply elem_of_users_term in Hin as (B & HB & -> & Hop).
    exfalso. apply (Ht B); [by eapply list_elem_of_lookup_2|done].
Qed.

(** *** AnalyzeAlloca and the stores *)

Lemma analyzeUser_stores Info bu :
  DefiningBlocks (analyzeUser Info bu)
  = DefiningBlocks Info ++ (if isStoreUser bu then [bu.1] else [])
  /\ OnlyStore (analyzeUser Info bu)
     = if isStoreUser bu then Some (bu.1, userId bu.2) else OnlyStore Info.
Proof.
  unfold analyzeUser, isStoreUser.
  destruct bu as [b [J|T]]; simpl.
  - destruct (ikind J); simpl; rewrite ?app_nil_r;
      destruct (OnlyUsedInOneBlock Info); simpl; try done;
      destruct (OnlyBlock Info); simpl; try done; by case_bool_decide.
  - rewrite app_nil_r.
    destruct (OnlyUsedInOneBlock Info); simpl; try done;
      destruct (OnlyBlock Info); simpl; try done; by case_bool_decide.
Qed.

Lemma analyze_stores us :
  forall Info,
    DefiningBlocks (fold_left analyzeUser us Info)
    = DefiningBlocks Info ++ (List.filter isStoreUser us).*1
    /\ OnlyStore (fold_left analyzeUser us Info)
       = match last (List.filter isStoreUser us) with
         | Some bu => Some (bu.1, userId bu.2)
         | None => OnlyStore Info
         end.
Proof.
  induction us as [|bu us IH]; intros Info.
  { simpl. by rewrite app_nil_r. }
  cbn [fold_left List.filter].
  destruct (IH (analyzeUser Info bu)) as [HD HO].
  destruct (analyzeUser_stores Info bu) as [HD1 HO1].
  rewrite HD, HO, HD1, HO1. destruct (isStoreUser bu).
  - split; [by rewrite <- app_assoc|]. cbn [last].
    destruct (List.filter isStoreUser us) as [|x l] eqn:E; [done|].
    change (last (bu :: x :: l)) with (last (x :: l)).
    destruct (last (x :: l)) eqn:EL; [done|]. by apply last_None in EL.
  - by rewrite app_nil_r.
Qed.



Lemma LBIconsistent_empty F a b : LBIconsistent F ∅ a b.
Proof. split; [|by right]. by intros J1 J2 n1 n2 _ _ _ _ ?. Qed.

(** ** The single-block rewrite *)

(** *** Sorting and searching the stores *)





#[local] Instance index_le_total : Total index_le.
Proof. intros p q. unfold index_le. lia. Qed.

#[local] Instance index_le_trans : Transitive index_le.
Proof. intros p q r. unfold index_le. lia. Qed.

Lemma index_lt_eq (l : list (nat * InstId)) p q :
  StronglySorted index_lt l -> p ∈ l -> q ∈ l -> p.1 = q.1 -> p = q.
Proof.
  induction 1 as [|y l Hl IH Hy]; [by intros ?%elem_of_nil|].
  rewrite Forall_forall in Hy. unfold index_lt in Hy.
  intros [->|Hp]%elem_of_cons [->|Hq]%elem_of_cons Heq; [done| | |by apply IH].
  - specialize (Hy q Hq). lia.
  - specialize (Hy p Hp). lia.
Qed.

Lemma index_lt_Sorted (l : list (nat * InstId)) :
  StronglySorted index_lt l -> Sorted index_le l.
Proof.
  intros H. apply StronglySorted_Sorted.
  induction H as [|y l Hl IH Hy]; constructor; [done|].
  eapply Forall_impl; [done|]. unfold index_lt, index_le. simpl. lia.
Qed.


(** Sorting a list whose indices go up already leaves it as it is. *)
Lemma merge_sort_sorted (l : list (nat * InstId)) :
  StronglySorted index_lt l -> merge_sort index_le l = l.
Proof.
  intros H. apply (Sorted_unique_strong index_le).
  - intros p q Hp Hq H1 H2. rewrite merge_sort_Permutation in Hp.
    apply (index_lt_eq l); [done..|]. unfold index_le in *. lia.
  - apply Sorted_merge_sort, _.
  - by apply index_lt_Sorted.
  - apply merge_sort_Permutation.
Qed.




(** *** The users of a cell that is used in one block *)










(** *** Collecting the stores *)




(** *** The loop over the loads *)




Lemma sb_replace_eq F LBI J v :
  sb_replace F LBI J v = (replaceLoadWith v F (UInst J), deleteValue LBI (iid J)).
Proof. done. Qed.




(** *** Erasing the stores *)



Lemma eraseUsers_fold F LBI a :
  (eraseUsers F LBI a).1
  = fold_left eraseFromParent (userId <$> (users F a).*2) F.
Proof.
  unfold eraseUsers. generalize (users F a). intros l. revert F LBI.
  induction l as [|bu l IH]; intros F LBI; [done|]. simpl. by rewrite IH.
Qed.



(** ** The phis the pass inserts *)

(** *** What replacing and erasing keep *)

Lemma shrinks_trans F1 F2 F3 : shrinks F1 F2 -> shrinks F2 F3 -> shrinks F1 F3.
Proof. intros H12 H23. induction H23; [done|by constructor..]. Qed.

Lemma shrinks_preserves (Q : Func -> Prop) F F' :
  (forall F old new, Q F -> Q (replaceAllUsesWith F old new)) ->
  (forall F i, Q F -> Q (eraseFromParent F i)) ->
  shrinks F F' -> Q F -> Q F'.
Proof. intros Hr He H HQ. induction H; auto. Qed.

Lemma incomingOf_substInst old new J :
  (incomingOf (substInst old new J)).*2 = (incomingOf J).*2.
Proof.
  unfold incomingOf, substInst. simpl. destruct (ikind J); simpl; try done.
  rewrite <- list_fmap_compose. by apply list_fmap_ext.
Qed.

Lemma getNumOperands_substInst old new J :
  getNumOperands (substInst old new J) = getNumOperands J.
Proof. unfold getNumOperands. by rewrite operands_substInst, length_fmap. Qed.

Lemma getNumOperands_phi J :
  isPHI J = true -> getNumOperands J = length (incomingOf J).
Proof.
  unfold isPHI, getNumOperands, operands, incomingOf.
  destruct (ikind J); try done. by rewrite length_fmap.
Qed.

Lemma oldPhisFull_rauw n0 F0 F old new :
  oldPhisFull n0 F0 F -> oldPhisFull n0 F0 (replaceAllUsesWith F old new).
Proof.
  intros H b J' (J & -> & HJ)%elem_of_blockInsts_rauw. simpl.
  rewrite isPHI_substInst, getNumOperands_substInst. by apply H.
Qed.

Lemma oldPhisFull_erase n0 F0 F i :
  oldPhisFull n0 F0 F -> oldPhisFull n0 F0 (eraseFromParent F i).
Proof. intros H b J [HJ _]%elem_of_blockInsts_erase. by apply H. Qed.

Lemma newAtHead_rauw n0 F old new :
  newAtHead n0 F -> newAtHead n0 (replaceAllUsesWith F old new).
Proof.
  intros H b. destruct (H b) as (news & olds & HB & Hn & Ho).
  exists (substInst old new <$> news), (substInst old new <$> olds).
  rewrite blockInsts_rauw, HB, fmap_app. split; [done|].
  rewrite !Forall_fmap. split.
  - eapply Forall_impl; [done|]. intros J [? ?]. simpl. by rewrite isPHI_substInst.
  - eapply Forall_impl; [done|]. by intros J ?.
Qed.

Lemma Forall_filter_bool {A} (P : A -> Prop) (f : A -> bool) (l : list A) :
  Forall P l -> Forall P (List.filter f l).
Proof.
  intros H. apply Forall_forall. intros x [Hx _]%elem_of_filter_bool.
  rewrite Forall_forall in H. by apply H.
Qed.

Lemma newAtHead_erase n0 F i : newAtHead n0 F -> newAtHead n0 (eraseFromParent F i).
Proof.
  intros H b. destruct (H b) as (news & olds & HB & Hn & Ho).
  exists (List.filter (fun J => negb (bool_decide (iid J = i))) news),
         (List.filter (fun J => negb (bool_decide (iid J = i))) olds).
  rewrite blockInsts_erase, HB, List.filter_app. split; [done|].
  split; by apply Forall_filter_bool.
Qed.

Lemma newPhisFrom_rauw n0 F0 D F old new :
  newPhisFrom n0 F0 D F -> newPhisFrom n0 F0 D (replaceAllUsesWith F old new).
Proof.
  intros H b J' (J & -> & HJ)%elem_of_blockInsts_rauw. simpl.
  rewrite incomingOf_substInst. by apply H.
Qed.

Lemma newPhisFrom_erase n0 F0 D F i :
  newPhisFrom n0 F0 D F -> newPhisFrom n0 F0 D (eraseFromParent F i).
Proof. intros H b J [HJ _]%elem_of_blockInsts_erase. by apply H. Qed.

Lemma phiBase_shrinks n0 F0 F F' :
  shrinks F F' -> phiBase n0 F0 F -> phiBase n0 F0 F'.
Proof.
  apply (shrinks_preserves (phiBase n0 F0)).
  - intros G old new (Hc & Hu & Ho & Hh). split; [|split; [|split]].
    + by rewrite cfg_rauw.
    + by apply uniqueIds_rauw.
    + by apply oldPhisFull_rauw.
    + by apply newAtHead_rauw.
  - intros G i (Hc & Hu & Ho & Hh). split; [|split; [|split]].
    + by rewrite cfg_erase.
    + by apply uniqueIds_erase.
    + by apply oldPhisFull_erase.
    + by apply newAtHead_erase.
Qed.

Lemma phiFrame_shrinks n0 F0 D F F' :
  shrinks F F' -> phiFrame n0 F0 D F -> phiFrame n0 F0 D F'.
Proof.
  intros Hs [Hb Hn]. split; [by eapply phiBase_shrinks|].
  revert Hn. apply (shrinks_preserves (newPhisFrom n0 F0 D)); [|..|done].
  - intros G old new. apply newPhisFrom_rauw.
  - intros G i. apply newPhisFrom_erase.
Qed.

(** The identities of the instructions of a function that shrank were
    there before. *)
Lemma shrinks_ids F F' b J' :
  shrinks F F' -> J' ∈ blockInsts F' b -> exists J, J ∈ blockInsts F b /\ iid J' = iid J.
Proof.
  intros H. revert J'. induction H as [|F' old new H IH|F' i H IH]; intros J' HJ'.
  - eauto.
  - apply elem_of_blockInsts_rauw in HJ' as (J & -> & HJ). by apply IH in HJ.
  - apply elem_of_blockInsts_erase in HJ' as [HJ _]. by apply IH.
Qed.

(** *** Adding entries to phis *)

Lemma blockInsts_mapInsts g F b : blockInsts (mapInsts g F) b = g <$> blockInsts F b.
Proof.
  unfold blockInsts, mapInsts. rewrite list_lookup_fmap. by destruct (F !! b).
Qed.

Lemma cfg_mapInsts g F : cfg (mapInsts g F) = cfg F.
Proof.
  unfold cfg, mapInsts. rewrite <- list_fmap_compose. by apply list_fmap_ext.
Qed.

Lemma mapInsts_ext g h F :
  (forall J, g J = h J) -> mapInsts g F = mapInsts h F.
Proof.
  intros H. unfold mapInsts. apply list_fmap_ext. intros _ B _. f_equal.
  by apply list_fmap_ext.
Qed.

Lemma mapInsts_compose g h F : mapInsts g (mapInsts h F) = mapInsts (g ∘ h) F.
Proof.
  unfold mapInsts. rewrite <- list_fmap_compose. apply list_fmap_ext.
  intros _ B _. simpl. by rewrite <- list_fmap_compose.
Qed.

Lemma mapInsts_id F : mapInsts (fun J => J) F = F.
Proof.
  unfold mapInsts. rewrite <- (list_fmap_id F) at 2. apply list_fmap_ext.
  intros _ [js t] _. simpl. by rewrite list_fmap_id.
Qed.

Lemma addIncoming_addTo F pn v p :
  addIncoming F pn v p = addTo (fun i => if bool_decide (i = pn) then [(v, p)] else []) F.
Proof.
  unfold addIncoming, addTo, mapInsts. apply list_fmap_ext. intros _ B _. f_equal.
  apply list_fmap_ext. intros _ J _. rewrite addIncomingInst_addEntries.
  case_bool_decide; [done|]. by rewrite addEntries_nil.
Qed.

Lemma addTo_addTo X Y F :
  addTo Y (addTo X F) = addTo (fun i => X i ++ Y i) F.
Proof.
  unfold addTo. rewrite mapInsts_compose. apply mapInsts_ext. intros J. simpl.
  by rewrite iid_addEntries, addEntries_app.
Qed.

Lemma addTo_nil F : addTo (fun _ => []) F = F.
Proof.
  unfold addTo. rewrite <- (mapInsts_id F) at 2. apply mapInsts_ext.
  intros J. apply addEntries_nil.
Qed.

Lemma addTo_ext X Y F : (forall i, X i = Y i) -> addTo X F = addTo Y F.
Proof. intros H. apply mapInsts_ext. intros J. by rewrite H. Qed.

Lemma isPHI_addEntries es J : isPHI (addEntries es J) = isPHI J.
Proof.
  unfold isPHI, addEntries. destruct (ikind J) eqn:E; simpl; by rewrite ?E.
Qed.

Lemma addEntries_notPHI es J : isPHI J = false -> addEntries es J = J.
Proof. unfold isPHI, addEntries. by destruct (ikind J). Qed.

Lemma elem_of_blockInsts_addTo X F b J' :
  J' ∈ blockInsts (addTo X F) b
  <-> exists J, J' = addEntries (X (iid J)) J /\ J ∈ blockInsts F b.
Proof. unfold addTo. rewrite blockInsts_mapInsts. apply list_elem_of_fmap. Qed.

Lemma ids_addTo X F b :
  iid <$> blockInsts (addTo X F) b = iid <$> blockInsts F b.
Proof.
  unfold addTo. rewrite blockInsts_mapInsts, <- list_fmap_compose.
  apply list_fmap_ext. intros _ J _. simpl. apply iid_addEntries.
Qed.

Lemma uniqueIds_addTo X F : uniqueIds F -> uniqueIds (addTo X F).
Proof.
  unfold uniqueIds. rewrite !allInsts_ids. unfold addTo, mapInsts.
  rewrite <- list_fmap_compose. intros H.
  erewrite list_fmap_ext; [exact H|]. intros _ B _. simpl.
  rewrite <- list_fmap_compose. apply list_fmap_ext. intros _ J _. simpl.
  apply iid_addEntries.
Qed.

Lemma newAtHead_new n0 F b J :
  newAtHead n0 F -> J ∈ blockInsts F b -> n0 <= iid J -> isPHI J = true.
Proof.
  intros Hh HJ Hge. destruct (Hh b) as (news & olds & HB & Hnew & Hold).
  rewrite HB in HJ. apply elem_of_app in HJ as [HJ|HJ].
  - rewrite Forall_forall in Hnew. by apply Hnew.
  - rewrite Forall_forall in Hold. specialize (Hold J HJ). lia.
Qed.

(** Entries for phis of the pass only. *)
Lemma phiBase_addTo n0 F0 X F :
  phiBase n0 F0 F -> (forall i, i < n0 -> X i = []) -> phiBase n0 F0 (addTo X F).
Proof.
  intros (Hc & Hu & Ho & Hh) HX. split; [|split; [|split]].
  - unfold addTo. by rewrite cfg_mapInsts.
  - by apply uniqueIds_addTo.
  - intros b J' (J & -> & HJ)%elem_of_blockInsts_addTo.
    rewrite iid_addEntries, isPHI_addEntries. intros Hlt HP.
    rewrite (HX _ Hlt), addEntries_nil. by apply Ho.
  - intros b. destruct (Hh b) as (news & olds & HB & Hnew & Hold).
    exists ((fun J => addEntries (X (iid J)) J) <$> news),
           ((fun J => addEntries (X (iid J)) J) <$> olds).
    unfold addTo. rewrite blockInsts_mapInsts, HB, fmap_app. split; [done|].
    rewrite !Forall_fmap. split.
    + eapply Forall_impl; [done|]. intros J [? ?]. simpl.
      by rewrite iid_addEntries, isPHI_addEntries.
    + eapply Forall_impl; [done|]. intros J ?. simpl. by rewrite iid_addEntries.
Qed.

(** Entries that carry the phis of the pass from the edges of the blocks
    [D] to those of [D']. *)
Lemma phiFrame_addTo n0 F0 D D' X F :
  phiFrame n0 F0 D F ->
  (forall i, i < n0 -> X i = []) ->
  (forall b J, J ∈ blockInsts F b -> n0 <= iid J ->
               edgesFrom F0 (D b) b ++ (X (iid J)).*2 = edgesFrom F0 (D' b) b) ->
  phiFrame n0 F0 D' (addTo X F).
Proof.
  intros [Hb Hn] HX HD. split; [by apply phiBase_addTo|].
  intros b J' (J & -> & HJ)%elem_of_blockInsts_addTo.
  rewrite iid_addEntries. intros Hge.
  destruct Hb as (_ & _ & _ & Hh).
  rewrite incomingOf_addEntries, fmap_app by (by eapply newAtHead_new).
  rewrite (Hn b J HJ Hge). by apply HD.
Qed.

(** *** What the stages of the pass do to the function *)

Lemma registered_shrinks n0 F0 P P' :
  registered n0 F0 P -> shrinks (Fn P) (Fn P') -> sameRegistry P P' ->
  registered n0 F0 P'.
Proof.
  intros (H1 & H2 & H3 & H4 & H5 & H6) Hs (En & EN & EP & EB).
  unfold registered. rewrite En, EN, EP, EB.
  split; [|split; [done|split; [done|split; [done|split; [|done]]]]].
  - intros b J' HJ' Hge. destruct (shrinks_ids _ _ _ _ Hs HJ') as (J & HJ & Hid).
    rewrite Hid. apply (H1 b J HJ). by rewrite <- Hid.
  - intros b J' HJ'. destruct (shrinks_ids _ _ _ _ Hs HJ') as (J & HJ & Hid).
    rewrite Hid. by apply (H5 b J).
Qed.

Lemma sameRegistry_refl P : sameRegistry P P.
Proof. done. Qed.

Lemma sameRegistry_trans P1 P2 P3 :
  sameRegistry P1 P2 -> sameRegistry P2 P3 -> sameRegistry P1 P3.
Proof.
  intros (? & ? & ? & ?) (? & ? & ? & ?). repeat split; congruence.
Qed.

(** The single-store rewrite. *)
Lemma singleStoreFold_shrinks OS g us :
  forall st, shrinks (ss_F st) (ss_F (fold_left (singleStoreUser OS g) us st)).
Proof.
  induction us as [|bu us IH]; intros st; cbn [fold_left]; [constructor|].
  eapply shrinks_trans; [|apply IH].
  destruct (singleStoreUser_cases OS g st bu) as [[_ ->]|[[_ ->]|(_ & _ & v & _ & ->)]];
    repeat constructor.
Qed.

Lemma rewriteSingleStoreAlloca_shrinks F AI Info LBI :
  shrinks F (rewriteSingleStoreAlloca F AI Info LBI).1.1.1.
Proof.
  unfold rewriteSingleStoreAlloca. destruct (OnlyStore Info) as [OS|]; [|constructor].
  cbn zeta.
  pose proof (singleStoreFold_shrinks OS (negb (isInstruction (storedValue F OS.2)))
                (users F (a_id AI)) (mkSS F LBI [] (-1))) as H.
  simpl in H. destruct (ss_UsingBlocks _); simpl; [|done]. by repeat constructor.
Qed.

(** The single-block rewrite. *)
Lemma singleBlockLoads_shrinks SBI us :
  forall F LBI, shrinks F (singleBlockLoads SBI F LBI us).1.1.
Proof.
  induction us as [|[b u] us IH]; intros F LBI; [constructor|].
  cbn [singleBlockLoads snd fst]. destruct u as [J|T]; [|apply IH].
  destruct (ikind J); try apply IH. cbn zeta.
  destruct (sb_value _ _ _ _) as [v|]; [|constructor].
  eapply shrinks_trans; [|apply IH]. rewrite sb_replace_eq. simpl.
  unfold replaceLoadWith. by repeat constructor.
Qed.

Lemma erase_fold_shrinks l : forall F, shrinks F (fold_left eraseFromParent l F).
Proof.
  induction l as [|i l IH]; intros F; simpl; [constructor|].
  eapply shrinks_trans; [|apply IH]. by repeat constructor.
Qed.

Lemma promoteSingleBlockAlloca_shrinks F AI Info LBI :
  shrinks F (promoteSingleBlockAlloca F AI Info LBI).1.1.
Proof.
  unfold promoteSingleBlockAlloca. cbn zeta.
  match goal with |- context [singleBlockLoads ?S ?G ?L ?us] =>
    pose proof (singleBlockLoads_shrinks S us G L) as H;
    set (r := singleBlockLoads S G L us) in * end.
  destruct (r.2); [|done]. cbn [fst snd]. constructor.
  rewrite eraseUsers_fold. eapply shrinks_trans; [done|]. apply erase_fold_shrinks.
Qed.

(** The loop over the instructions of a block. *)
Lemma renameInst_shrinks BB acc i :
  shrinks (Fn acc.1) (Fn (renameInst BB acc i).1)
  /\ sameRegistry acc.1 (renameInst BB acc i).1
  /\ Visited (renameInst BB acc i).1 = Visited acc.1.
Proof.
  unfold renameInst. destruct (findInBlock _ _ _) as [J|]; [|by repeat constructor].
  destruct (ikind J); try by repeat constructor.
  - destruct (asAllocaId _ _); [|by repeat constructor].
    destruct (AllocaLookup _ !! _); [|by repeat constructor].
    simpl. by repeat constructor.
  - destruct (asAllocaId _ _); [|by repeat constructor].
    destruct (AllocaLookup _ !! _); [|by repeat constructor].
    simpl. by repeat constructor.
Qed.

Lemma renameInsts_shrinks BB l :
  forall acc,
    shrinks (Fn acc.1) (Fn (fold_left (renameInst BB) l acc).1)
    /\ sameRegistry acc.1 (fold_left (renameInst BB) l acc).1
    /\ Visited (fold_left (renameInst BB) l acc).1 = Visited acc.1.
Proof.
  induction l as [|i l IH]; intros acc; cbn [fold_left]; [by repeat constructor|].
  destruct (renameInst_shrinks BB acc i) as (H1 & H2 & H3).
  destruct (IH (renameInst BB acc i)) as (H1' & H2' & H3').
  split; [by eapply shrinks_trans|]. split; [by eapply sameRegistry_trans|].
  congruence.
Qed.

Lemma renameBody_shrinks P BB vals :
  shrinks (Fn P) (Fn (renameBody P BB vals).1)
  /\ sameRegistry P (renameBody P BB vals).1
  /\ Visited (renameBody P BB vals).1 = {[BB]} ∪ Visited P.
Proof.
  unfold renameBody.
  by destruct (renameInsts_shrinks BB (iid <$> blockInsts (Fn P) BB)
                 (markVisited P BB, vals)) as (H1 & H2 & H3).
Qed.

(** The allocas go. *)
Lemma eraseAllocas_shrinks l : forall F, shrinks F (fold_left eraseAlloca l F).
Proof.
  induction l as [|A l IH]; intros F; simpl; [constructor|].
  eapply shrinks_trans; [|apply IH]. unfold eraseAlloca.
  destruct (negb _); by repeat constructor.
Qed.

(** The trivial phis go, each with its entry of [NewPhiNodes]. *)
Lemma simplifyPass_registered (n0 : nat) (F0 : Func)
    (M0 : gmap (nat * nat) InstId) (l : list (nat * nat * InstId)) :
  (forall e, e ∈ l -> M0 !! e.1 = Some e.2) ->
  forall (P : PromoteMem2Reg) (flag : bool),
    NewPhiNodes P ⊆ M0 -> registered n0 F0 P ->
    let r := fold_left simplifyEntry l (P, flag) in
    shrinks (Fn P) (Fn r.1) /\ registered n0 F0 r.1.
Proof.
  intros Hl. induction l as [|e l IH]; intros P flag Hsub Hreg; cbn [fold_left].
  { simpl. split; [apply shrinks_refl|done]. }
  cbn zeta. rewrite simplifyEntry_eq.
  destruct (simplifyPHINode _ _ _) as [V|] eqn:E.
  2:{ apply IH; [|done..]. intros e' He'. apply Hl. by right. }
  match goal with |- context [fold_left simplifyEntry l (?Q, true)] => set (P1 := Q) end.
  assert (shrinks (Fn P) (Fn P1)) as Hs1 by (subst P1; simpl; by repeat constructor).
  assert (registered n0 F0 P1) as Hreg1.
  { destruct Hreg as (H1 & H2 & H3 & H4 & H5 & H6).
    split; [|split; [done|split; [|split; [done|split; [|done]]]]].
    - intros b J' HJ' Hge. subst P1. simpl in *.
      apply elem_of_replaced in HJ' as (J & -> & HJ & Hne). simpl.
      destruct (H1 b J HJ Hge) as [HP [k Hk]]. split; [done|]. exists k.
      rewrite lookup_delete_ne; [done|]. intros <-.
      pose proof (lookup_weaken _ _ _ _ Hk Hsub) as Hk0.
      rewrite (Hl e) in Hk0 by left. congruence.
    - intros k i Hk. subst P1. simpl in Hk.
      apply lookup_delete_Some in Hk as [_ Hk]. by eapply H3.
    - intros b J' HJ'. destruct (shrinks_ids _ _ _ _ Hs1 HJ') as (J & HJ & ->).
      subst P1. simpl. by eapply H5. }
  assert (forall e', e' ∈ l -> M0 !! e'.1 = Some e'.2) as Hl'.
  { intros e' He'. apply Hl. by right. }
  destruct (IH Hl' P1 true) as [Hs Hr]; [|done|].
  { subst P1. simpl. etrans; [apply delete_subseteq|done]. }
  split; [by eapply shrinks_trans|done].
Qed.

Lemma simplifyLoop_registered n0 F0 fuel :
  forall P P',
    simplifyLoop fuel P = Some P' -> registered n0 F0 P ->
    shrinks (Fn P) (Fn P') /\ registered n0 F0 P'.
Proof.
  induction fuel as [|fuel IH]; intros P P' H Hreg; [done|]. simpl in H.
  assert (forall e, e ∈ map_to_list (NewPhiNodes P) -> NewPhiNodes P !! e.1 = Some e.2)
    as Hl.
  { intros [k i] He. by apply elem_of_map_to_list in He. }
  pose proof (simplifyPass_registered n0 F0 (NewPhiNodes P)
                (map_to_list (NewPhiNodes P)) Hl P false (reflexivity _) Hreg)
    as [Hs1 Hr1].
  cbn zeta in Hs1, Hr1.
  destruct (fold_left simplifyEntry _ _).2.
  - destruct (IH _ _ H Hr1) as [Hs2 Hr2]. split; [by eapply shrinks_trans|done].
  - injection H as <-. done.
Qed.

(** The phis take their entries. *)
Lemma addIncomingN_addTo F pn v p n :
  addIncomingN F pn v p n
  = addTo (fun i => if bool_decide (i = pn) then replicate n (v, p) else []) F.
Proof.
  unfold addIncomingN. induction n as [|n IH]; simpl.
  - rewrite <- (addTo_nil F) at 1. apply addTo_ext. intros i. by case_bool_decide.
  - rewrite IH, addIncoming_addTo, addTo_addTo. apply addTo_ext. intros i.
    case_bool_decide; [|done].
    change ((v, p) :: replicate n (v, p)) with (replicate (S n) (v, p)).
    by rewrite replicate_S_end.
Qed.

Lemma addPoison_addTo Preds PN :
  forall F,
    addPoison Preds F PN
    = addTo (fun i => if bool_decide (i = iid PN)
                      then (fun p => (VPoison (ity PN), p)) <$> Preds else []) F.
Proof.
  unfold addPoison. induction Preds as [|p Preds IH]; intros F; simpl.
  - rewrite <- (addTo_nil F) at 1. apply addTo_ext. intros i. by case_bool_decide.
  - rewrite IH, addIncoming_addTo, addTo_addTo. apply addTo_ext. intros i.
    by case_bool_decide.
Qed.

Lemma updatePhis_addTo Pred n T :
  forall P vals,
    let r := fold_left (updatePhi Pred n) T (P, vals) in
    exists X,
      Fn r.1 = addTo X (Fn P)
      /\ (forall i, i ∉ iid <$> T -> X i = [])
      /\ (NoDup (iid <$> T) -> forall i, i ∈ iid <$> T -> (X i).*2 = replicate n Pred)
      /\ nextId r.1 = nextId P /\ NewPhiNodes r.1 = NewPhiNodes P
      /\ BBNumPreds r.1 = BBNumPreds P /\ Visited r.1 = Visited P
      /\ (forall i, is_Some (PhiToAllocaMap r.1 !! i)
                    <-> is_Some (PhiToAllocaMap P !! i) \/ i ∈ iid <$> T).
Proof.
  induction T as [|J T IH]; intros P vals; cbn [fold_left]; cbn zeta.
  { exists (fun _ => []). rewrite addTo_nil. simpl.
    split; [done|]. split; [done|]. split; [by intros _ i ?%elem_of_nil|].
    do 4 (split; [done|]). intros i. split; [by left|].
    by intros [?|?%elem_of_nil]. }
  destruct (IH (updatePhi Pred n (P, vals) J).1 (updatePhi Pred n (P, vals) J).2)
    as (X & HF & Hout & Hin & H1 & H2 & H3 & H4 & H5).
  rewrite <- surjective_pairing in HF, H1, H2, H3, H4, H5.
  cbn zeta in *.
  set (r := fold_left (updatePhi Pred n) T (updatePhi Pred n (P, vals) J)) in *.
  set (XJ := fun i => if bool_decide (i = iid J)
                      then replicate n (valueAt vals (default 0 (PhiToAllocaMap P !! iid J)),
                                        Pred)
                      else []).
  exists (fun i => XJ i ++ X i).
  split; [|split; [|split; [|split; [done|split; [done|split; [done|split; [done|]]]]]]].
  - rewrite HF. unfold updatePhi. simpl. by rewrite addIncomingN_addTo, addTo_addTo.
  - intros i Hi. rewrite fmap_cons, not_elem_of_cons in Hi. destruct Hi as [Hne Hi].
    subst XJ. simpl. rewrite bool_decide_eq_false_2 by done. by apply Hout.
  - intros Hnd i Hi. rewrite fmap_cons in Hnd, Hi.
    apply NoDup_cons in Hnd as [HJ Hnd]. rewrite fmap_app. subst XJ. simpl.
    destruct (decide (i = iid J)) as [->|Hne].
    + rewrite bool_decide_eq_true_2 by done. rewrite (Hout _ HJ), app_nil_r.
      by rewrite fmap_replicate.
    + rewrite bool_decide_eq_false_2 by done. simpl.
      apply elem_of_cons in Hi as [?|Hi]; [done|]. by apply Hin.
  - intros i. rewrite H5. unfold updatePhi. simpl. rewrite lookup_insert_is_Some.
    rewrite elem_of_cons. split.
    + intros [[Heq|[_ ?]]|?]; auto.
    + intros [?|[->|?]]; auto. destruct (decide (iid J = i)); auto.
Qed.

Lemma fillPhis_addTo Preds T :
  forall F,
    exists X,
      fold_left (addPoison Preds) T F = addTo X F
      /\ (forall i, i ∉ iid <$> T -> X i = [])
      /\ (NoDup (iid <$> T) -> forall J, J ∈ T ->
            X (iid J) = (fun p => (VPoison (ity J), p)) <$> Preds).
Proof.
  induction T as [|J T IH]; intros F; cbn [fold_left].
  { exists (fun _ => []). rewrite addTo_nil. repeat split; try done.
    by intros ? ? ?%elem_of_nil. }
  destruct (IH (addPoison Preds F J)) as (X & HF & Hout & Hin).
  set (XJ := fun i => if bool_decide (i = iid J)
                      then (fun p => (VPoison (ity J), p)) <$> Preds else []).
  exists (fun i => XJ i ++ X i). repeat split.
  - by rewrite HF, addPoison_addTo, addTo_addTo.
  - intros i Hi. rewrite fmap_cons, not_elem_of_cons in Hi. destruct Hi as [Hne Hi].
    subst XJ. simpl. rewrite bool_decide_eq_false_2 by done. by apply Hout.
  - intros Hnd K HK. rewrite fmap_cons in Hnd. apply NoDup_cons in Hnd as [HJ Hnd].
    subst XJ. simpl. apply elem_of_cons in HK as [->|HK].
    + rewrite bool_decide_eq_true_2 by done. by rewrite (Hout _ HJ), app_nil_r.
    + rewrite bool_decide_eq_false_2.
      * simpl. by apply Hin.
      * intros Heq. apply HJ. rewrite <- Heq. apply list_elem_of_fmap. eauto.
Qed.

(** *** The loop over the allocas: phis are inserted, with no entry *)

Lemma funcIds_elem F b J : J ∈ blockInsts F b -> iid J ∈ funcIds F.
Proof.
  intros (B & HB & HJ)%elem_of_blockInsts. unfold funcIds.
  apply list_elem_of_join. exists (blockIds B). split.
  - unfold blockIds. apply elem_of_app. left. apply list_elem_of_join.
    exists (iid J :: mjoin (valueIds <$> operands J)). split; [left|].
    apply list_elem_of_fmap. eauto.
  - apply list_elem_of_fmap. exists B. split; [done|]. by eapply list_elem_of_lookup_2.
Qed.

Lemma join_insert_cons {A} (ls : list (list A)) (b : nat) (lb : list A) (x : A) :
  ls !! b = Some lb -> mjoin (<[b := x :: lb]> ls) ≡ₚ x :: mjoin ls.
Proof.
  intros Hb. rewrite insert_take_drop by (by eapply lookup_lt_Some).
  rewrite <- (take_drop_middle ls b lb Hb) at 3.
  rewrite !join_app. simpl. symmetry. apply Permutation_middle.
Qed.

Lemma uniqueIds_insertAtBegin F b J :
  uniqueIds F -> (forall b' J', J' ∈ blockInsts F b' -> iid J' <> iid J) ->
  uniqueIds (insertAtBegin F b J).
Proof.
  unfold uniqueIds, insertAtBegin. intros Hnd Hfresh.
  destruct (F !! b) as [B|] eqn:EB; [|done].
  rewrite allInsts_ids in *. rewrite list_fmap_insert. cbn [insts fmap].
  change (list_fmap Instruction nat iid (J :: insts B)) with (iid J :: (iid <$> insts B)).
  rewrite (join_insert_cons _ b (iid <$> insts B)) by (by rewrite list_lookup_fmap, EB).
  apply NoDup_cons. split; [|done].
  intros Hin. apply list_elem_of_join in Hin as (l & Hi & Hl).
  apply list_elem_of_fmap in Hl as (B' & -> & HB').
  apply list_elem_of_fmap in Hi as (J' & Hid & HJ').
  apply list_elem_of_lookup in HB' as [b' HB'].
  apply (Hfresh b' J'); [|done]. apply elem_of_blockInsts. eauto.
Qed.

Lemma getNumPreds_registry P BB :
  nextId (getNumPreds P BB).2 = nextId P
  /\ NewPhiNodes (getNumPreds P BB).2 = NewPhiNodes P
  /\ PhiToAllocaMap (getNumPreds P BB).2 = PhiToAllocaMap P
  /\ Allocas (getNumPreds P BB).2 = Allocas P
  /\ Visited (getNumPreds P BB).2 = Visited P.
Proof. unfold getNumPreds. by destruct (BBNumPreds P !! BB) as [[|?]|]. Qed.

Lemma getNumPreds_cache F0 P BB :
  cfg (Fn P) = cfg F0 ->
  (forall b m, BBNumPreds P !! b = Some m -> m = pred_size F0 b + 1) ->
  (getNumPreds P BB).1 = pred_size F0 BB
  /\ forall b m, BBNumPreds (getNumPreds P BB).2 !! b = Some m -> m = pred_size F0 b + 1.
Proof.
  intros Hc HB. unfold getNumPreds. rewrite (cfg_pred_size _ _ BB Hc).
  destruct (BBNumPreds P !! BB) as [[|n]|] eqn:E; simpl.
  - apply HB in E. lia.
  - apply HB in E. split; [lia|done].
  - split; [lia|]. intros b m. destruct (decide (b = BB)) as [->|Hne].
    + rewrite lookup_insert_eq. by intros [= <-].
    + rewrite lookup_insert_ne by done. apply HB.
Qed.

Lemma registered_getNumPreds n0 F0 P BB :
  cfg (Fn P) = cfg F0 -> registered n0 F0 P -> registered n0 F0 (getNumPreds P BB).2.
Proof.
  intros Hc (H1 & H2 & H3 & H4 & H5 & H6).
  destruct (getNumPreds_registry P BB) as (En & EN & EP & _ & _).
  destruct (getNumPreds_cache F0 P BB Hc H4) as [_ H4'].
  unfold registered. rewrite getNumPreds_Fn, En, EN, EP. done.
Qed.

Lemma QueuePhiNode_AInv n0 F0 P BB AllocaNo Version :
  AInv n0 F0 P -> AInv n0 F0 (QueuePhiNode P BB AllocaNo Version).1.1.
Proof.
  intros HA. unfold QueuePhiNode.
  destruct (NewPhiNodes P !! (BB, AllocaNo)) eqn:EN; [done|].
  destruct (Allocas P !! AllocaNo) as [AI|]; [|done]. cbn zeta. cbn [fst].
  destruct HA as [[(Hc & Hu & Ho & Hh) Hn] Hreg].
  pose proof (registered_getNumPreds n0 F0 P BB Hc Hreg) as (H1 & H2 & H3 & H4 & H5 & H6).
  destruct (getNumPreds_registry P BB) as (En & ENew & EP & _ & _).
  rewrite getNumPreds_Fn in *. rewrite En, ENew, EP in *.
  set (PN := mkInst (nextId P)
                    (ST_uniqueName (Fn P) (a_name AI +:+ "." +:+ pretty Version))
                    (a_allocated AI) (PHI [])).
  assert (forall b J, J ∈ blockInsts (insertAtBegin (Fn P) BB PN) b ->
            J = PN \/ J ∈ blockInsts (Fn P) b) as Hin.
  { intros b J. apply elem_of_blockInsts_insertAtBegin. }
  unfold AInv, phiFrame, phiBase, registered.
  cbn [Fn nextId NewPhiNodes PhiToAllocaMap BBNumPreds].
  split; [split; [split; [|split; [|split]]|]|].
  - by rewrite cfg_insertAtBegin.
  - apply uniqueIds_insertAtBegin; [done|]. intros b' J' HJ'. simpl.
    specialize (H5 b' J' HJ'). lia.
  - intros b J [->|HJ]%Hin; [simpl; lia|]. by apply Ho.
  - intros b. destruct (Hh b) as (news & olds & HB & Hnew & Hold).
    rewrite blockInsts_insertAtBegin. case_bool_decide.
    + exists (PN :: news), olds. rewrite HB. split; [done|]. split; [|done].
      constructor; [|done]. simpl. split; [lia|done].
    + by exists news, olds.
  - intros b J [->|HJ]%Hin; [done|]. by apply Hn.
  - split; [|split; [|split; [|split; [|split]]]]; simpl.
    + intros b J [->|HJ]%Hin Hge.
      * simpl. rewrite lookup_insert_eq. split; [done|].
        exists (BB, AllocaNo). by rewrite lookup_insert_eq.
      * destruct (H1 b J HJ Hge) as [HP (k & Hk)]. split.
        -- apply lookup_insert_is_Some. destruct (decide (nextId P = iid J)); auto.
        -- exists k. rewrite lookup_insert_ne; [done|]. intros <-. congruence.
    + intros i [<-|[_ Hi]]%lookup_insert_is_Some; [lia|by apply H2].
    + intros k i [[_ <-]|[_ Hk]]%lookup_insert_Some; [lia|by eapply H3].
    + done.
    + intros b J [->|HJ]%Hin; [simpl; lia|]. specialize (H5 b J HJ). lia.
    + lia.
Qed.

Lemma queuePhis_AInv n0 F0 P AllocaNum PHIBlocks :
  AInv n0 F0 P -> AInv n0 F0 (queuePhis P AllocaNum PHIBlocks).
Proof.
  unfold queuePhis. change P with (P, 0).1 at 1. generalize (P, 0).
  induction PHIBlocks as [|BB l IH]; intros acc HA; cbn [fold_left]; [done|].
  apply IH. simpl. by apply QueuePhiNode_AInv.
Qed.

Lemma AInv_shrinks n0 F0 P P' :
  AInv n0 F0 P -> shrinks (Fn P) (Fn P') -> sameRegistry P P' -> AInv n0 F0 P'.
Proof.
  intros [Hf Hr] Hs Hsame. split.
  - by eapply phiFrame_shrinks.
  - by eapply registered_shrinks.
Qed.

Lemma processAlloca_AInv n0 F0 s AI s' :
  AInv n0 F0 (ls_P s) -> processAlloca s AI = Some s' -> AInv n0 F0 (ls_P s').
Proof.
  intros HA. unfold processAlloca.
  destruct (use_empty _ _).
  { intros [= <-]. simpl. eapply AInv_shrinks; [done| |done]. simpl.
    by repeat constructor. }
  match goal with |- context [if ?c then rewriteSingleStoreAlloca ?a ?b ?i ?l else ?e] =>
    set (r1 := if c then rewriteSingleStoreAlloca a b i l else e) end.
  assert (shrinks (Fn (ls_P s)) r1.1.1.1) as Hs1.
  { subst r1. case_bool_decide; [apply rewriteSingleStoreAlloca_shrinks|constructor]. }
  destruct (r1.2) eqn:E1.
  { intros [= <-]. simpl. eapply AInv_shrinks; [done| |done]. done. }
  match goal with |- context [if ?c then promoteSingleBlockAlloca ?a ?b ?i ?l else ?e] =>
    set (r2 := if c then promoteSingleBlockAlloca a b i l else e) end.
  assert (shrinks (Fn (ls_P s)) r2.1.1) as Hs2.
  { subst r2. destruct (OnlyUsedInOneBlock _); [|done].
    eapply shrinks_trans; [done|]. apply promoteSingleBlockAlloca_shrinks. }
  destruct (r2.2) eqn:E2.
  { intros [= <-]. simpl. eapply AInv_shrinks; [done| |done]. done. }
  destruct (ComputeLiveInBlocks _ _ _ _); [|done].
  intros [= <-]. simpl. apply queuePhis_AInv.
  eapply AInv_shrinks; [done| |done]. done.
Qed.

Lemma allocaLoop_AInv n0 F0 n :
  forall s s', AInv n0 F0 (ls_P s) -> allocaLoop n s = Some s' -> AInv n0 F0 (ls_P s').
Proof.
  induction n as [|n IH]; intros s s' HA; simpl; [by intros [= <-]|].
  destruct (Allocas (ls_P s) !! ls_AllocaNum s) as [AI|]; [|by intros [= <-]].
  destruct (processAlloca s AI) as [s1|] eqn:E; [|done].
  apply IH. by eapply processAlloca_AInv.
Qed.

Lemma newPass_AInv F As :
  uniqueIds F ->
  (forall b J, J ∈ blockInsts F b -> isPHI J = true ->
               getNumOperands J = pred_size F b /\ 0 < pred_size F b) ->
  AInv (nextId (newPass F As)) F (newPass F As).
Proof.
  intros Hu Hphi.
  assert (forall b J, J ∈ blockInsts F b -> iid J < nextId (newPass F As)) as Hlt.
  { intros b J HJ. simpl.
    assert (iid J <= max_list (funcIds F ++ (a_id <$> As))); [|lia].
    apply max_list_elem_of_le, elem_of_app. left. by eapply funcIds_elem. }
  split; [split; [split; [done|split; [done|split]]|]|].
  - intros b J HJ _ HP. by apply Hphi.
  - intros b. exists [], (blockInsts F b). split; [done|]. split; [constructor|].
    apply Forall_forall. intros J HJ. by eapply Hlt.
  - intros b J HJ Hge. specialize (Hlt b J HJ). simpl in *. lia.
  - split; [|split; [|split; [|split; [|split]]]]; simpl; try done.
    + intros b J HJ Hge. specialize (Hlt b J HJ). simpl in *. lia.
    + by intros i [? ?].
Qed.

(** *** The renaming walk: the phis take the entries of the edges *)

Lemma edgeCount_cfg F F' p b : cfg F = cfg F' -> edgeCount F p b = edgeCount F' p b.
Proof. intros H. unfold edgeCount. by rewrite (cfg_successors _ _ p H). Qed.

Lemma join_fmap_bind {A B} (f : A -> list B) (l : list A) :
  mjoin (f <$> l) = l ≫= f.
Proof. induction l as [|x l IH]; [done|]. csimpl. by rewrite IH. Qed.

Lemma predecessors_edgesFrom F b :
  predecessors F b = edgesFrom F (seq 0 (length F)) b.
Proof.
  unfold predecessors, edgesFrom.
  rewrite (imap_ext _ (fun j _ => replicate (edgeCount F j b) j)).
  - by rewrite imap_seq_0, join_fmap_bind.
  - intros j B HB. unfold edgeCount, successors. by rewrite HB.
Qed.

Lemma edgesFrom_app F ps qs b :
  edgesFrom F (ps ++ qs) b = edgesFrom F ps b ++ edgesFrom F qs b.
Proof. apply bind_app. Qed.

Lemma edgesFrom_inside F ps b :
  edgesFrom F ps b
  = edgesFrom F (List.filter (fun p => bool_decide (p < length F)) ps) b.
Proof.
  unfold edgesFrom. induction ps as [|p ps IH]; [done|].
  cbn [List.filter]. rewrite bind_cons, IH.
  case_bool_decide as Hlt; [by rewrite bind_cons|].
  unfold edgeCount at 1, successors. rewrite lookup_ge_None_2 by lia. done.
Qed.

Lemma edgesFrom_submseteq F ps b :
  NoDup ps -> edgesFrom F ps b ⊆+ predecessors F b.
Proof.
  intros Hnd. rewrite edgesFrom_inside, predecessors_edgesFrom. unfold edgesFrom.
  apply bind_submseteq. apply NoDup_submseteq.
  - eapply sublist_NoDup; [exact Hnd|]. apply sublist_filter_bool.
  - intros p [_ Hp]%elem_of_filter_bool. apply bool_decide_eq_true in Hp.
    apply elem_of_seq. lia.
Qed.

Lemma edgesFrom_length F ps b :
  NoDup ps -> length (edgesFrom F ps b) <= pred_size F b.
Proof. intros H. by apply submseteq_length, edgesFrom_submseteq. Qed.

Lemma phiRun_old n0 k olds :
  Forall (fun J => iid J < n0) olds ->
  (forall J, J ∈ olds -> isPHI J = true -> getNumOperands J <> k) ->
  phiRun k olds = [].
Proof.
  intros _ H. destruct olds as [|J olds]; [done|]. simpl.
  destruct (isPHI J) eqn:E; [|done]. simpl.
  rewrite bool_decide_eq_false_2; [done|]. apply H; [left|done].
Qed.

Lemma uniqueIds_block_eq F b b' J J' :
  uniqueIds F -> J ∈ blockInsts F b -> J' ∈ blockInsts F b' -> iid J = iid J' ->
  b = b' /\ J = J'.
Proof.
  intros Hu HJ HJ' Hid.
  pose proof (findInst_unique F b J Hu HJ) as H1.
  pose proof (findInst_unique F b' J' Hu HJ') as H2.
  rewrite Hid, H2 in H1. by injection H1 as -> ->.
Qed.

(** The first part of a pass through [RenamePass]: the phis of the pass
    in [BB], and they only, take the entries of the edges from [Pred]. *)
Lemma populatePhis_frame n0 F0 D P BB Pred vals :
  phiFrame n0 F0 D (Fn P) -> registered n0 F0 P ->
  NoDup (D BB) ->
  match Pred with
  | Some p => (p ∉ D BB) /\ 0 < edgeCount F0 p BB
  | None => D BB = []
  end ->
  let r := populatePhis P BB Pred vals in
  let D' := fun b => if bool_decide (b = BB) then D BB ++ option_list Pred else D b in
  phiFrame n0 F0 D' (Fn r.1) /\ registered n0 F0 r.1 /\ Visited r.1 = Visited P.
Proof.
  intros [Hb Hn] Hreg HndD HPred. cbn zeta.
  pose proof Hb as (Hc & Hu & Ho & Hh).
  pose proof Hreg as (H1 & H2 & H3 & H4 & H5 & H6).
  destruct (Hh BB) as (news & olds & HB & Hnew & Hold).
  assert (forall J, J ∈ blockInsts (Fn P) BB -> n0 <= iid J -> J ∈ news) as Hnews.
  { intros J HJ Hge. rewrite HB in HJ. apply elem_of_app in HJ as [?|HJ]; [done|].
    rewrite Forall_forall in Hold. specialize (Hold J HJ). lia. }
  unfold populatePhis. rewrite HB.
  destruct news as [|APN news'].
  { (* no phi of the pass in the block *)
    cbn [app].
    assert (forall b J, J ∈ blockInsts (Fn P) b -> n0 <= iid J ->
              (incomingOf J).*2
              = edgesFrom F0 (if bool_decide (b = BB) then D BB ++ option_list Pred
                              else D b) b) as Hn'.
    { intros b J HJ Hge. case_bool_decide as Hbb; [|by apply Hn].
      subst b. apply Hnews in HJ; [|done]. by apply elem_of_nil in HJ. }
    destruct olds as [|J0 olds']; [done|].
    rewrite (bool_decide_eq_false_2 (is_Some _)), andb_false_r; [done|].
    intros Hs%H2. apply Forall_cons in Hold as [Hlt _]. lia. }
  (* the phis of the pass stand at the head *)
  cbn [app].
  pose proof Hnew as Hnew0.
  apply Forall_cons in Hnew as [[HgeA HPA] Hnew'].
  assert (APN ∈ blockInsts (Fn P) BB) as HAPN by (rewrite HB; left).
  destruct (H1 BB APN HAPN HgeA) as [HregA _].
  rewrite HPA, (bool_decide_eq_true_2 _ HregA). cbn [andb].
  set (k := getNumOperands APN).
  set (L := edgesFrom F0 (D BB) BB).
  assert (forall J, J ∈ APN :: news' -> isPHI J = true /\ getNumOperands J = length L)
    as Hcount.
  { intros J HJ. rewrite Forall_forall in Hnew0. destruct (Hnew0 J HJ) as [Hge HP].
    split; [done|]. rewrite (getNumOperands_phi J HP).
    rewrite <- (length_fmap snd), (Hn BB J); [done| |done].
    rewrite HB. apply elem_of_app. by left. }
  assert (k = length L) as Hk by (apply Hcount; left).
  assert (k < pred_size F0 BB \/ olds = []
          \/ forall J, J ∈ olds -> isPHI J = false) as Hstop.
  { destruct olds as [|J0 olds']; [by right; left|].
    destruct (existsb isPHI (J0 :: olds')) eqn:Eex.
    - apply existsb_exists in Eex as (J & HJ%list_elem_of_In & HP).
      left. rewrite Forall_forall in Hold.
      destruct (Ho BB J) as [_ Hpos]; [rewrite HB; apply elem_of_app; by right|by apply Hold|done|].
      destruct Pred as [p|].
      + destruct HPred as [Hp Hedge].
        pose proof (edgesFrom_length F0 (D BB ++ [p]) BB) as Hle.
        rewrite edgesFrom_app, length_app in Hle. unfold edgesFrom at 2 in Hle.
        simpl in Hle. rewrite app_nil_r, length_replicate in Hle.
        fold L in Hle. rewrite Hk.
        assert (NoDup (D BB ++ [p])) as Hnd'.
        { apply NoDup_app. split; [done|]. split; [|apply NoDup_singleton].
          intros x Hx ->%list_elem_of_singleton. done. }
        specialize (Hle Hnd'). lia.
      + rewrite Hk. subst L. rewrite HPred. simpl. done.
    - right; right. intros J HJ. destruct (isPHI J) eqn:E; [|done].
      assert (existsb isPHI (J0 :: olds') = true); [|congruence].
      apply existsb_exists. exists J. split; [by apply list_elem_of_In|done]. }
  assert (phiRun k (news' ++ olds) = news') as ->.
  { rewrite phiRun_app.
    - rewrite (phiRun_old n0 k olds Hold), app_nil_r; [done|].
      intros J HJ HP.
      destruct Hstop as [Hlt|[->|Hno]]; [|by apply elem_of_nil in HJ|by rewrite Hno in HP].
      rewrite Forall_forall in Hold.
      destruct (Ho BB J) as [-> _];
        [rewrite HB; apply elem_of_app; by right|by apply Hold|done|lia].
    - apply Forall_forall. intros J HJ. destruct (Hcount J) as [? ?]; [by right|].
      split; [done|]. congruence. }
  match goal with |- context [fold_left (updatePhi ?pr ?ne) ?T (P, vals)] =>
    destruct (updatePhis_addTo pr ne T P vals)
      as (X & HF & Hout & Hin & En & EN & EB & EV & EP);
    set (NumEdges := ne) in *; set (r := fold_left (updatePhi pr ne) T (P, vals)) in *
  end.
  cbn zeta in *.
  assert (NoDup (iid <$> APN :: news')) as HndT.
  { pose proof (uniqueIds_block _ BB Hu) as Hnd. rewrite HB, fmap_app in Hnd.
    by apply NoDup_app in Hnd as [? _]. }
  assert (forall i, i ∈ iid <$> APN :: news' -> n0 <= i) as HgeT.
  { intros i (J & -> & HJ)%list_elem_of_fmap. rewrite Forall_forall in Hnew0.
    by apply Hnew0. }
  split; [|split; [|done]].
  - rewrite HF. apply (phiFrame_addTo n0 F0 D); [done| |].
    + intros i Hlt. apply Hout. intros Hi%HgeT. lia.
    + intros b J HJ Hge.
      destruct (decide (iid J ∈ iid <$> APN :: news')) as [Hi|Hi].
      * rewrite (Hin HndT _ Hi).
        apply list_elem_of_fmap in Hi as (J' & Hid & HJ').
        assert (J' ∈ blockInsts (Fn P) BB) as HJ'B.
        { rewrite HB. apply elem_of_app. by left. }
        destruct (uniqueIds_block_eq _ _ _ _ _ Hu HJ HJ'B Hid) as [-> _].
        rewrite bool_decide_eq_true_2 by done. rewrite edgesFrom_app. f_equal.
        subst NumEdges. destruct Pred as [p|]; simpl.
        -- unfold edgesFrom. simpl. rewrite app_nil_r. f_equal.
           symmetry. by apply edgeCount_cfg.
        -- done.
      * rewrite (Hout _ Hi). simpl. rewrite app_nil_r.
        case_bool_decide as Hbb; [|done]. subst b. exfalso. apply Hi.
        apply list_elem_of_fmap. exists J. split; [done|]. by apply Hnews.
  - unfold registered. rewrite En, EN, EB.
    split; [|split; [|split; [done|split; [done|split; [|done]]]]].
    + intros b J' HJ' Hge. rewrite HF in HJ'.
      apply elem_of_blockInsts_addTo in HJ' as (J & -> & HJ).
      rewrite iid_addEntries in *. destruct (H1 b J HJ Hge) as [HP Hkey].
      split; [|done]. apply EP. by left.
    + intros i [Hi|Hi]%EP; [by apply H2|by apply HgeT].
    + intros b J' HJ'. rewrite HF in HJ'.
      apply elem_of_blockInsts_addTo in HJ' as (J & -> & HJ).
      rewrite iid_addEntries. by eapply H5.
Qed.

(** ** Further properties of the pass *)

(** *** RemoveFromAllocasList *)

Lemma swapRemove_spec {A} (l : list A) (i : nat) :
  i < length l ->
  swapRemove l i ≡ₚ delete i l
  /\ length (swapRemove l i) = length l - 1
  /\ (forall j, j <> i -> j < length l - 1 -> swapRemove l i !! j = l !! j)
  /\ (i < length l - 1 -> swapRemove l i !! i = last l).
Proof.
  intros Hi. unfold swapRemove.
  destruct (last l) as [x|] eqn:El.
  2:{ apply last_None in El. subst l. simpl in Hi. lia. }
  apply last_Some in El as [l' ->].
  rewrite length_app in *. simpl in *.
  replace (length l' + 1 - 1) with (length l') by lia.
  destruct (decide (i < length l')) as [Hlt|Hge].
  - rewrite insert_app_l by done.
    rewrite take_app_length' by (by rewrite length_insert).
    split; [|split; [|split]].
    + rewrite delete_take_drop, insert_take_drop by done.
      rewrite take_app_le by lia. rewrite drop_app_le by lia.
      apply Permutation_app_head. apply Permutation_cons_append.
    + by rewrite length_insert.
    + intros j Hj Hjl. rewrite list_lookup_insert_ne by done.
      by rewrite lookup_app_l.
    + intros _. by apply list_lookup_insert_eq.
  - assert (i = length l') as -> by lia.
    assert (<[length l' := x]> (l' ++ [x]) = l' ++ [x]) as ->.
    { rewrite insert_app_r_alt by lia. by rewrite Nat.sub_diag. }
    rewrite take_app_length.
    split; [|split; [|split]].
    + by rewrite delete_middle, app_nil_r.
    + done.
    + intros j _ Hj. by rewrite lookup_app_l.
    + lia.
Qed.

(** X1.  [RemoveFromAllocasList], called with an index of the list, takes
    the alloca at that index off the list and no other: what is left is the
    list without that entry, up to order.  The last alloca takes the place
    of the one removed, every other alloca stays at its index, and the
    function and the phi registry stay as they are. *)
Theorem RemoveFromAllocasList_removes (P : PromoteMem2Reg) (AllocaIdx : nat) :
  AllocaIdx < length (Allocas P) ->
  let P' := RemoveFromAllocasList P AllocaIdx in
  Allocas P' ≡ₚ delete AllocaIdx (Allocas P)
  /\ length (Allocas P') = length (Allocas P) - 1
  /\ (forall j, j <> AllocaIdx -> j < length (Allocas P) - 1 ->
                Allocas P' !! j = Allocas P !! j)
  /\ (AllocaIdx < length (Allocas P) - 1 ->
      Allocas P' !! AllocaIdx = last (Allocas P))
  /\ Fn P' = Fn P /\ AllocaLookup P' = AllocaLookup P
  /\ NewPhiNodes P' = NewPhiNodes P /\ PhiToAllocaMap P' = PhiToAllocaMap P.
Proof.
  intros Hi. cbn zeta. unfold RemoveFromAllocasList. cbn [Allocas setAllocas].
  destruct (swapRemove_spec (Allocas P) AllocaIdx Hi) as (H1 & H2 & H3 & H4).
  done.
Qed.

(** *** AnalyzeAlloca *)






(** *** LargeBlockInfo *)

Lemma numberBlock_keeps F l n LBI i :
  (forall J, J ∈ l -> isInterestingInstruction F J = true -> iid J <> i) ->
  numberBlock F l n LBI !! i = LBI !! i.
Proof.
  revert n LBI. induction l as [|J l IH]; intros n LBI H; [done|]. simpl.
  destruct (isInterestingInstruction F J) eqn:E.
  - rewrite IH by (intros J' HJ'; apply H; by right).
    apply lookup_insert_ne, H; [left|done].
  - apply IH. intros J' HJ'. apply H. by right.
Qed.

(** X3.  [getInstructionIndex] answers from the cache when the cache holds
    the instruction.  When it does not, it numbers the loads and stores on
    allocas of the whole block: the answer is the number of such
    instructions that stand before the one asked for, every such
    instruction of the block is in the cache with its own number from then
    on (so that asking for any of them leaves the cache as it is), and the
    entries of all other instructions are as they were. *)
Theorem getInstructionIndex_ranks (F : Func) (LBI : gmap InstId nat)
    (b : BlockId) (J : Instruction) :
  uniqueIds F -> J ∈ blockInsts F b -> isInterestingInstruction F J = true ->
  let rank i :=
    length (List.filter (isInterestingInstruction F)
                        (take (position F b i) (blockInsts F b))) in
  let r := getInstructionIndex F LBI b (iid J) in
  match LBI !! iid J with
  | Some n => r = (n, LBI)
  | None =>
      r.1 = rank (iid J)
      /\ (forall J', J' ∈ blockInsts F b -> isInterestingInstruction F J' = true ->
            getInstructionIndex F r.2 b (iid J') = (rank (iid J'), r.2))
      /\ (forall i, (forall J', J' ∈ blockInsts F b ->
                                isInterestingInstruction F J' = true -> iid J' <> i) ->
                    r.2 !! i = LBI !! i)
  end.
Proof.
  intros Hu HJ HI. cbn zeta. unfold getInstructionIndex.
  destruct (LBI !! iid J) as [n|] eqn:E; [done|]. cbn [fst snd].
  pose proof (uniqueIds_block F b Hu) as Hnd.
  assert (forall J', J' ∈ blockInsts F b -> isInterestingInstruction F J' = true ->
            numberBlock F (blockInsts F b) 0 LBI !! iid J'
            = Some (length (List.filter (isInterestingInstruction F)
                              (take (position F b (iid J')) (blockInsts F b))))) as Hall.
  { intros J' HJ' HI'. by rewrite (numberBlock_position F _ J' 0 LBI Hnd HJ' HI'). }
  split; [by rewrite (Hall J HJ HI)|]. split.
  - intros J' HJ' HI'. by rewrite (Hall J' HJ' HI').
  - intros i Hi. by apply numberBlock_keeps.
Qed.

(** *** getNumPreds *)

(** X4.  [getNumPreds] computes the number of predecessors of a block when
    the cache has no count for it, and keeps the count (plus one) in the
    cache; from then on it answers from the cache and leaves the pass
    object as it is, whatever the function has become in the meantime.
    The entries of the other blocks and the function are not touched. *)
Theorem getNumPreds_caches (P : PromoteMem2Reg) (BB : BlockId) :
  let r := getNumPreds P BB in
  ((forall n, BBNumPreds P !! BB <> Some (S n)) -> r.1 = pred_size (Fn P) BB)
  /\ (forall n, BBNumPreds P !! BB = Some (S n) -> r = (n, P))
  /\ BBNumPreds r.2 !! BB = Some (S r.1)
  /\ (forall b, b <> BB -> BBNumPreds r.2 !! b = BBNumPreds P !! b)
  /\ Fn r.2 = Fn P
  /\ (forall F', getNumPreds (setFn r.2 F') BB = (r.1, setFn r.2 F')).
Proof.
  assert (forall Q n, BBNumPreds Q !! BB = Some (S n) -> getNumPreds Q BB = (n, Q))
    as Hhit.
  { intros Q n HQ. unfold getNumPreds. by rewrite HQ. }
  assert ((forall n, BBNumPreds P !! BB <> Some (S n)) ->
          getNumPreds P BB
          = (pred_size (Fn P) BB,
             mkPass (Fn P) (nextId P) (Allocas P) (AllocaLookup P) (NewPhiNodes P)
                    (PhiToAllocaMap P) (Visited P)
                    (<[BB := S (pred_size (Fn P) BB)]> (BBNumPreds P)))) as Hmiss.
  { intros HP. unfold getNumPreds.
    replace (pred_size (Fn P) BB + 1 - 1) with (pred_size (Fn P) BB) by lia.
    replace (pred_size (Fn P) BB + 1) with (S (pred_size (Fn P) BB)) by lia.
    destruct (BBNumPreds P !! BB) as [[|n]|] eqn:E; try done. by destruct (HP n). }
  cbn zeta. split; [intros HP; by rewrite (Hmiss HP)|]. split; [exact (Hhit P)|].
  destruct (BBNumPreds P !! BB) as [[|n]|] eqn:E.
  2:{ rewrite (Hhit P n E). cbn [fst snd]. split; [done|]. split; [done|].
      split; [done|]. intros F'. by apply Hhit. }
  all: rewrite Hmiss by done; cbn [fst snd BBNumPreds Fn].
  all: split; [by rewrite lookup_insert_eq|].
  all: split; [intros b Hb; by rewrite lookup_insert_ne|].
  all: split; [done|].
  all: intros F'; apply Hhit; unfold setFn; cbn [BBNumPreds]; apply lookup_insert_eq.
Qed.

(** *** QueuePhiNode *)

Lemma QueuePhiNode_fresh P BB AllocaNo Version AI :
  Allocas P !! AllocaNo = Some AI ->
  NewPhiNodes P !! (BB, AllocaNo) = None ->
  QueuePhiNode P BB AllocaNo Version
  = (mkPass (insertAtBegin (Fn P) BB
               (mkInst (nextId P)
                       (ST_uniqueName (Fn P) (a_name AI +:+ "." +:+ pretty Version))
                       (a_allocated AI) (PHI [])))
            (S (nextId P)) (Allocas P) (AllocaLookup (getNumPreds P BB).2)
            (<[(BB, AllocaNo) := nextId P]> (NewPhiNodes P))
            (<[nextId P := AllocaNo]> (PhiToAllocaMap P))
            (Visited P) (BBNumPreds (getNumPreds P BB).2),
     S Version, true).
Proof.
  intros HA HN.
  destruct (getNumPreds_registry P BB) as (En & EN & EP & EA & EV).
  pose proof (getNumPreds_Fn P BB) as EF.
  unfold QueuePhiNode. rewrite HN, HA. cbn zeta. cbn [iid].
  by rewrite EF, En, EN, EP, EA, EV.
Qed.

Lemma QueuePhiNode_again P BB AllocaNo Version i :
  NewPhiNodes P !! (BB, AllocaNo) = Some i ->
  QueuePhiNode P BB AllocaNo Version = (P, Version, false).
Proof. intros H. unfold QueuePhiNode. by rewrite H. Qed.

Lemma queuePhis_from P AllocaNum l : queuePhis P AllocaNum l = (queuePhisFrom P AllocaNum 0 l).1.
Proof. done. Qed.

Lemma length_insertAtBegin F b J : length (insertAtBegin F b J) = length F.
Proof. unfold insertAtBegin. destruct (F !! b); [apply length_insert|done]. Qed.

(** The loop from any version on: the phi of the [k]-th block has the
    [k]-th identity and asks for the [k]-th version. *)
Lemma queuePhisFrom_spec AI AllocaNo l :
  forall P V,
    Allocas P !! AllocaNo = Some AI ->
    NoDup l ->
    (forall BB, BB ∈ l ->
       BB < length (Fn P) /\ NewPhiNodes P !! (BB, AllocaNo) = None) ->
    let P' := (queuePhisFrom P AllocaNo V l).1 in
    (queuePhisFrom P AllocaNo V l).2 = V + length l
    /\ nextId P' = nextId P + length l
    /\ cfg (Fn P') = cfg (Fn P)
    /\ (forall b, b ∉ l -> blockInsts (Fn P') b = blockInsts (Fn P) b)
    /\ (forall k BB, l !! k = Some BB ->
          blockInsts (Fn P') BB
          = mkInst (nextId P + k)
                   (ST_uniqueName
                      (Fn (queuePhisFrom P AllocaNo V (take k l)).1)
                      (a_name AI +:+ "." +:+ pretty (V + k)))
                   (a_allocated AI) (PHI [])
            :: blockInsts (Fn P) BB
          /\ NewPhiNodes P' !! (BB, AllocaNo) = Some (nextId P + k)
          /\ PhiToAllocaMap P' !! (nextId P + k) = Some AllocaNo)
    /\ (forall key, key.2 <> AllocaNo \/ key.1 ∉ l ->
          NewPhiNodes P' !! key = NewPhiNodes P !! key)
    /\ (forall i, ~ (nextId P <= i < nextId P + length l) ->
          PhiToAllocaMap P' !! i = PhiToAllocaMap P !! i).
Proof.
  induction l as [|BB l IH]; intros P V HA Hnd Hl; cbn zeta.
  { cbn [queuePhisFrom fold_left fst snd length]. rewrite !Nat.add_0_r.
    split; [done|]. split; [done|]. split; [done|]. split; [done|].
    split; [by intros k BB ?|]. done. }
  apply NoDup_cons in Hnd as [Hnot Hnd].
  destruct (Hl BB) as [HB HN]; [left|].
  pose proof (QueuePhiNode_fresh P BB AllocaNo V AI HA HN) as EQ.
  set (PN := mkInst (nextId P)
               (ST_uniqueName (Fn P) (a_name AI +:+ "." +:+ pretty V))
               (a_allocated AI) (PHI [])) in *.
  match type of EQ with _ = (?p, _, _) => set (P1 := p) in * end.
  assert (forall l', queuePhisFrom P AllocaNo V (BB :: l')
                     = queuePhisFrom P1 AllocaNo (S V) l') as Estep.
  { intros l'. unfold queuePhisFrom. cbn [fold_left fst snd]. by rewrite EQ. }
  assert (forall b, b <> BB -> blockInsts (Fn P1) b = blockInsts (Fn P) b) as Hother.
  { intros b Hb. subst P1. cbn [Fn]. rewrite blockInsts_insertAtBegin.
    rewrite bool_decide_eq_false_2; [done|]. by intros [? _]. }
  assert (blockInsts (Fn P1) BB = PN :: blockInsts (Fn P) BB) as Hhead.
  { subst P1. cbn [Fn]. rewrite blockInsts_insertAtBegin.
    by rewrite bool_decide_eq_true_2. }
  destruct (IH P1 (S V)) as (H1 & H2 & H3 & H4 & H5 & H6 & H7).
  { done. }
  { done. }
  { intros BB' HBB'. destruct (Hl BB') as [HB' HN']; [by right|]. split.
    - subst P1. cbn [Fn]. by rewrite length_insertAtBegin.
    - subst P1. cbn [NewPhiNodes]. rewrite lookup_insert_ne; [done|].
      intros [= ->]. done. }
  cbn zeta in *. rewrite Estep. cbn [length].
  assert (nextId P1 = S (nextId P)) as En1 by done.
  split; [lia|]. split; [lia|].
  split; [rewrite H3; subst P1; cbn [Fn]; apply cfg_insertAtBegin|].
  split.
  { intros b Hb. apply not_elem_of_cons in Hb as [Hb1 Hb2].
    by rewrite H4, Hother. }
  split.
  { intros [|k] BB' Hk.
    - injection Hk as <-. cbn [take]. cbn [queuePhisFrom fold_left fst].
      rewrite !Nat.add_0_r. split; [by rewrite H4, Hhead|]. split.
      + rewrite H6 by (right; done). subst P1. cbn [NewPhiNodes].
        apply lookup_insert_eq.
      + rewrite H7 by lia. subst P1. cbn [PhiToAllocaMap]. apply lookup_insert_eq.
    - cbn [lookup list_lookup] in Hk. change (l !! k = Some BB') in Hk.
      destruct (H5 k BB' Hk) as (Hb & Hn & Hp).
      assert (BB' <> BB) as Hne.
      { intros ->. apply Hnot. by eapply list_elem_of_lookup_2. }
      cbn [take]. rewrite Estep.
      replace (nextId P + S k) with (nextId P1 + k) by lia.
      replace (V + S k) with (S V + k) by lia.
      split; [by rewrite Hb, Hother|]. done. }
  split.
  { intros key Hkey. rewrite H6.
    - subst P1. cbn [NewPhiNodes]. apply lookup_insert_ne.
      intros <-. cbn [fst snd] in Hkey. destruct Hkey as [?|Hk]; [done|].
      apply Hk. left.
    - destruct Hkey as [?|Hk]; [by left|]. right. intros ?. apply Hk. by right. }
  intros i Hi. rewrite H7 by lia. subst P1. cbn [PhiToAllocaMap].
  apply lookup_insert_ne. lia.
Qed.

(** X5.  The loop that queues the phis of an alloca of the list, over
    blocks of the function, each named once, that have no phi for the
    alloca yet: [QueuePhiNode] makes one phi for each block, in the order
    of the list.  The phi of the [k]-th block takes the [k]-th new
    identity and asks for the name of the alloca with the version [k]
    behind it; the name it gets is the one the symbol table gives it in
    the function as it is then, with the phis of the blocks before it in
    place.  It has the allocated type and no entries, and stands before
    what the block held; it is entered in [NewPhiNodes] under the block
    and the alloca, and in [PhiToAllocaMap] under its own identity.
    Blocks that are not in the list, the CFG, and the entries of other
    blocks, allocas and identities are left as they are.  A further call
    for a block of the list answers false and changes nothing: a block
    gets one phi per alloca at most. *)
Theorem QueuePhiNode_registers (P : PromoteMem2Reg) (AllocaNo : nat)
    (AI : AllocaInst) (PHIBlocks : list BlockId) :
  Allocas P !! AllocaNo = Some AI ->
  NoDup PHIBlocks ->
  (forall BB, BB ∈ PHIBlocks ->
     BB < length (Fn P) /\ NewPhiNodes P !! (BB, AllocaNo) = None) ->
  let P' := queuePhis P AllocaNo PHIBlocks in
  nextId P' = nextId P + length PHIBlocks
  /\ cfg (Fn P') = cfg (Fn P)
  /\ (forall b, b ∉ PHIBlocks -> blockInsts (Fn P') b = blockInsts (Fn P) b)
  /\ (forall k BB, PHIBlocks !! k = Some BB ->
        blockInsts (Fn P') BB
        = mkInst (nextId P + k)
                 (ST_uniqueName (Fn (queuePhis P AllocaNo (take k PHIBlocks)))
                                (a_name AI +:+ "." +:+ pretty k))
                 (a_allocated AI) (PHI [])
          :: blockInsts (Fn P) BB
        /\ NewPhiNodes P' !! (BB, AllocaNo) = Some (nextId P + k)
        /\ PhiToAllocaMap P' !! (nextId P + k) = Some AllocaNo)
  /\ (forall key, key.2 <> AllocaNo \/ key.1 ∉ PHIBlocks ->
        NewPhiNodes P' !! key = NewPhiNodes P !! key)
  /\ (forall i, ~ (nextId P <= i < nextId P') ->
        PhiToAllocaMap P' !! i = PhiToAllocaMap P !! i)
  /\ (forall BB Version, BB ∈ PHIBlocks ->
        QueuePhiNode P' BB AllocaNo Version = (P', Version, false)).
Proof.
  intros HA Hnd Hl. cbn zeta. rewrite !queuePhis_from.
  destruct (queuePhisFrom_spec AI AllocaNo PHIBlocks P 0 HA Hnd Hl)
    as (_ & H2 & H3 & H4 & H5 & H6 & H7). cbn zeta in *.
  split; [done|]. split; [done|]. split; [done|]. split.
  { intros k BB Hk. rewrite queuePhis_from. exact (H5 k BB Hk). }
  split; [done|]. split; [by rewrite H2|].
  intros BB V [k Hk]%list_elem_of_lookup. destruct (H5 k BB Hk) as (_ & Hn & _).
  by eapply QueuePhiNode_again.
Qed.

(** *** RenamePass: the walk over the blocks *)

Lemma elem_of_firstOccurrences l V s :
  s ∈ firstOccurrences l V <-> s ∈ l /\ s ∉ V.
Proof.
  revert V. induction l as [|x l IH]; intros V; simpl.
  - split; [by intros ?%elem_of_nil|by intros [?%elem_of_nil _]].
  - case_bool_decide as Hx.
    + rewrite IH, elem_of_cons. split; [by intros [? ?]; split; [right|]|].
      intros [[->|?] ?]; done.
    + rewrite !elem_of_cons, IH. split.
      * intros [->|[? ?]]; [split; [by left|done]|].
        split; [by right|set_solver].
      * intros [[->|?] ?]; [by left|].
        destruct (decide (s = x)) as [->|?]; [by left|]. right. split; [done|set_solver].
Qed.

Lemma NoDup_firstOccurrences l V : NoDup (firstOccurrences l V).
Proof.
  revert V. induction l as [|x l IH]; intros V; simpl; [constructor|].
  case_bool_decide; [apply IH|]. constructor; [|apply IH].
  rewrite elem_of_firstOccurrences. set_solver.
Qed.

Lemma head_firstOccurrences l : head (firstOccurrences l ∅) = head l.
Proof. destruct l as [|x l]; [done|]. simpl. by rewrite bool_decide_eq_false_2 by set_solver. Qed.

(** One pass through the body of [RenamePass], by cases. *)
Lemma RenamePassStep_cases P d wl :
  let BB := d.1.1 in
  let r1 := populatePhis P BB d.1.2 d.2 in
  let r3 := renameBody r1.1 BB r1.2 in
  let r := RenamePassStep P d wl in
  (BB ∈ Visited P /\ r = (r1.1, None, wl))
  \/ ((BB ∉ Visited P) /\ r.1.1 = r3.1
      /\ exists pushed,
          r.2 = pushed ++ wl
          /\ option_list r.1.2 ++ pushed
             ≡ₚ (fun s => (s, Some BB, r3.2))
                  <$> firstOccurrences (successors (Fn P) BB) ∅
          /\ fst ∘ fst <$> r.1.2 = head (successors (Fn P) BB)).
Proof.
  cbn zeta. unfold RenamePassStep. rewrite populatePhis_Visited.
  set (r1 := populatePhis P d.1.1 d.1.2 d.2).
  set (r3 := renameBody r1.1 d.1.1 r1.2).
  assert (cfg (Fn r3.1) = cfg (Fn P)) as Hcfg.
  { subst r3 r1. by rewrite renameBody_cfg, populatePhis_cfg. }
  rewrite (cfg_successors _ _ d.1.1 Hcfg).
  case_bool_decide as HV; [by left|]. right. split; [done|].
  rewrite <- (head_firstOccurrences (successors (Fn P) d.1.1)).
  destruct (firstOccurrences (successors (Fn P) d.1.1) ∅) as [|S1 others];
    cbn [fst snd].
  - split; [done|]. exists []. done.
  - split; [done|]. eexists. split; [done|]. split; [|done].
    cbn [option_list app]. rewrite fmap_cons. constructor.
    symmetry. apply Permutation_rev.
Qed.

Lemma RenamePassStep_pending P d wl :
  let BB := d.1.1 in
  let r1 := populatePhis P BB d.1.2 d.2 in
  let r3 := renameBody r1.1 BB r1.2 in
  let r := RenamePassStep P d wl in
  (BB ∈ Visited P /\ r.1.1 = r1.1 /\ pendingOf r = wl)
  \/ ((BB ∉ Visited P) /\ r.1.1 = r3.1
      /\ pendingOf r
         ≡ₚ ((fun s => (s, Some BB, r3.2))
               <$> firstOccurrences (successors (Fn P) BB) ∅) ++ wl).
Proof.
  cbn zeta. destruct (RenamePassStep_cases P d wl) as [[HV ->]|(HV & H1 & pushed & H2 & H3 & _)].
  - by left.
  - right. split; [done|]. split; [done|]. rewrite <- H3.
    unfold pendingOf. rewrite H2. by destruct ((RenamePassStep P d wl).1.2).
Qed.

(** X6.  A pass through the body of [RenamePass] for a block the walk has
    been in before ends at the [return]: nothing is queued.  On the first
    visit the block is entered in [Visited], and each of its successor
    blocks is queued once, however many successor slots name it: the first
    successor is the block the [goto] goes on with, the others are pushed
    on the worklist over the entries it held, each with the block as its
    predecessor and with the values the block leaves. *)
Theorem RenamePass_queues_each_successor_once (P : PromoteMem2Reg)
    (d : BlockId * option BlockId * list Value)
    (Worklist : list (BlockId * option BlockId * list Value)) :
  let BB := d.1.1 in
  let r1 := populatePhis P BB d.1.2 d.2 in
  let r := RenamePassStep P d Worklist in
  if bool_decide (BB ∈ Visited P)
  then r = (r1.1, None, Worklist) /\ Visited r.1.1 = Visited P
  else
    Visited r.1.1 = {[BB]} ∪ Visited P
    /\ exists pushed,
         r.2 = pushed ++ Worklist
         /\ NoDup (option_list r.1.2 ++ pushed).*1.*1
         /\ (forall s, s ∈ (option_list r.1.2 ++ pushed).*1.*1
                       <-> s ∈ successors (Fn P) BB)
         /\ Forall (fun e => e.1.2 = Some BB /\ e.2 = (renameBody r1.1 BB r1.2).2)
                   (option_list r.1.2 ++ pushed)
         /\ fst ∘ fst <$> r.1.2 = head (successors (Fn P) BB).
Proof.
  cbn zeta.
  destruct (RenamePassStep_cases P d Worklist)
    as [[HV Hr]|(HV & H1 & pushed & H2 & H3 & H4)].
  - rewrite bool_decide_eq_true_2 by done. split; [done|].
    rewrite Hr. cbn [fst]. apply populatePhis_Visited.
  - rewrite bool_decide_eq_false_2 by done. split.
    { rewrite H1. by rewrite renameBody_Visited, populatePhis_Visited. }
    exists pushed. split; [done|].
    set (f := fun s : BlockId =>
                (s, Some d.1.1,
                 (renameBody (populatePhis P d.1.1 d.1.2 d.2).1 d.1.1
                             (populatePhis P d.1.1 d.1.2 d.2).2).2)) in *.
    assert (forall l : list BlockId, (f <$> l).*1.*1 = l) as Hf.
    { intros l. rewrite <- !list_fmap_compose. apply list_fmap_id. }
    split; [|split; [|split; [|done]]].
    + rewrite H3, Hf. apply NoDup_firstOccurrences.
    + intros s. rewrite H3, Hf, elem_of_firstOccurrences.
      split; [by intros [? _]|]. intros ?. split; [done|apply not_elem_of_empty].
    + rewrite H3. apply Forall_fmap, Forall_forall. by intros s _.
Qed.

(** The walk keeps [walkInv]. *)
Lemma RenamePassStep_walkInv F0 P d wl :
  walkInv F0 P (d :: wl) ->
  walkInv F0 (RenamePassStep P d wl).1.1 (pendingOf (RenamePassStep P d wl)).
Proof.
  intros (Hc & Hv & Hp & Hs & H0).
  assert (reachable F0 d.1.1) as Hd by (apply Hp; left).
  destruct (RenamePassStep_pending P d wl) as [(HV & -> & ->)|(HV & -> & Hperm)].
  - split; [by rewrite populatePhis_cfg|]. rewrite populatePhis_Visited.
    split; [done|]. split; [intros e He; apply Hp; by right|]. split.
    + intros p s Hpv Hsp. destruct (Hs p s Hpv Hsp) as [?|Hin]; [by left|].
      rewrite !fmap_cons, elem_of_cons in Hin. destruct Hin as [->|?]; [by left|by right].
    + destruct H0 as [?|Hin]; [by left|].
      rewrite !fmap_cons, elem_of_cons in Hin. destruct Hin as [->|?]; [by left|by right].
  - set (vals := (renameBody _ _ _).2) in Hperm.
    assert (forall s, s ∈ (pendingOf (RenamePassStep P d wl)).*1.*1
                      <-> s ∈ successors F0 d.1.1 \/ s ∈ wl.*1.*1) as Hin.
    { intros s. rewrite Hperm, !fmap_app, elem_of_app.
      rewrite <- !list_fmap_compose.
      rewrite (list_fmap_id (firstOccurrences _ _)), elem_of_firstOccurrences.
      rewrite (cfg_successors _ _ d.1.1 Hc). rewrite !list_fmap_compose.
      split; [intros [[? _]|?]; [by left|by right]|].
      intros [?|?]; [left; split; [done|apply not_elem_of_empty]|by right]. }
    split; [by rewrite renameBody_cfg, populatePhis_cfg|].
    rewrite renameBody_Visited, populatePhis_Visited.
    split; [|split; [|split]].
    + intros b [->%elem_of_singleton|Hb]%elem_of_union; [done|by apply Hv].
    + intros e. rewrite Hperm, elem_of_app.
      intros [(s & -> & [Hsin _]%elem_of_firstOccurrences)%list_elem_of_fmap|He].
      * cbn [fst]. eapply rtc_r; [exact Hd|].
        by rewrite <- (cfg_successors _ _ d.1.1 Hc).
      * apply Hp. by right.
    + intros p s [->%elem_of_singleton|Hpv]%elem_of_union Hsp.
      * right. apply Hin. by left.
      * destruct (Hs p s Hpv Hsp) as [?|Hsin]; [left; set_solver|].
        rewrite !fmap_cons, elem_of_cons in Hsin.
        destruct Hsin as [->|?]; [left; set_solver|]. right. apply Hin. by right.
    + destruct H0 as [?|H0in]; [left; set_solver|].
      rewrite !fmap_cons, elem_of_cons in H0in.
      destruct H0in as [<-|?]; [left; set_solver|]. right. apply Hin. by right.
Qed.

Lemma walkInv_done F0 P :
  walkInv F0 P [] -> forall b, b ∈ Visited P <-> reachable F0 b.
Proof.
  intros (Hc & Hv & Hp & Hs & H0) b. split; [apply Hv|].
  destruct H0 as [H0|H0]; [|by apply elem_of_nil in H0].
  unfold reachable. intros Hr.
  refine (rtc_ind_r (R := fun p s => s ∈ successors F0 p)
            (fun b => b ∈ Visited P) 0 H0 _ b Hr).
  intros p s _ Hps Hpv. destruct (Hs p s Hpv Hps) as [?|Hin]; [done|].
  by apply elem_of_nil in Hin.
Qed.

Lemma RenameLoop_walkInv F0 fuel :
  forall P d wl P',
    walkInv F0 P (d :: wl) -> RenameLoop fuel P d wl = Some P' ->
    forall b, b ∈ Visited P' <-> reachable F0 b.
Proof.
  induction fuel as [|fuel IH]; intros P d wl P' HI; [done|]. cbn [RenameLoop].
  pose proof (RenamePassStep_walkInv F0 P d wl HI) as HI'.
  unfold pendingOf in HI'.
  destruct ((RenamePassStep P d wl).1.2) as [d'|].
  - by apply IH.
  - destruct ((RenamePassStep P d wl).2) as [|d' wl2].
    + intros [= <-]. by apply walkInv_done.
    + by apply IH.
Qed.

(** X7.  Started on the entry block with no block visited, the renaming
    walk ends within the rounds [run] allows it (one more than the function
    has successor slots), and the blocks it has visited then are the blocks
    that can be reached from the entry block along successor slots, and no
    others. *)
Theorem RenamePass_visits_reachable (P : PromoteMem2Reg) (Values : list Value) :
  Visited P = ∅ ->
  exists P',
    RenameLoop (numEdges (Fn P) + 1) P (0, None, Values) [] = Some P'
    /\ forall b, b ∈ Visited P' <-> reachable (Fn P) b.
Proof.
  intros HV.
  destruct (RenameLoop_total_run P (0, None, Values)) as [P' HP'].
  exists P'. split; [done|].
  apply (RenameLoop_walkInv (Fn P) _ _ _ _ _) with (2 := HP').
  split; [done|]. rewrite HV.
  split; [set_solver|]. split.
  { intros e ->%list_elem_of_singleton. apply rtc_refl. }
  split; [set_solver|]. right. cbn. left.
Qed.

(** *** The instructions the pass leaves and the ones it makes *)

Lemma sameShape_refl J : sameShape J J.
Proof. unfold sameShape. by destruct (ikind J). Qed.

Lemma sameShape_substInst J0 J old new :
  sameShape J0 J -> sameShape J0 (substInst old new J).
Proof.
  unfold sameShape. intros (H1 & H2 & H3 & H4). cbn [substInst iid iname ity ikind].
  do 3 (split; [done|]).
  destruct (ikind J0), (ikind J); cbn [substKind]; try done.
  by rewrite length_fmap.
Qed.

Lemma sameShape_addIncomingInst J0 J pn v p :
  sameShape J0 J -> sameShape J0 (addIncomingInst pn v p J).
Proof.
  unfold sameShape, addIncomingInst. intros (H1 & H2 & H3 & H4).
  case_bool_decide; [|done].
  destruct (ikind J) eqn:E; rewrite ?E; done.
Qed.

Lemma Forall2_filter_r {A B} (R : A -> B -> Prop) (f : B -> bool) (l : list A) (k : list B) :
  Forall2 R l k ->
  exists l', sublist l' l /\ Forall2 R l' (List.filter f k).
Proof.
  induction 1 as [|x y l k Hxy _ (l' & Hs & HF)]; [by exists []|].
  cbn [List.filter]. destruct (f y).
  - exists (x :: l'). split; [by constructor|by constructor].
  - exists l'. split; [by constructor|done].
Qed.

Lemma keptInOrder_PassInvariant n0 F0 :
  PassInvariant (keptInOrder n0 F0) (fun _ => True) (fun i => n0 <= i).
Proof.
  split; try done.
  - intros F old new H _ b. destruct (H b) as (news & kept & olds & HB & Hn & Hs & Hk).
    exists (substInst old new <$> news), kept, (substInst old new <$> olds).
    rewrite blockInsts_rauw, HB, fmap_app. split; [done|]. split; [|split; [done|]].
    + apply Forall_fmap. eapply Forall_impl; [exact Hn|].
      intros J [? ?]. split; [done|]. by rewrite isPHI_substInst.
    + apply Forall2_fmap_r. eapply Forall2_impl; [exact Hk|].
      intros J0 J. apply sameShape_substInst.
  - intros F i H b. destruct (H b) as (news & kept & olds & HB & Hn & Hs & Hk).
    destruct (Forall2_filter_r _ (fun J => negb (bool_decide (iid J = i))) _ _ Hk)
      as (kept' & Hs' & Hk').
    exists (List.filter (fun J => negb (bool_decide (iid J = i))) news), kept',
           (List.filter (fun J => negb (bool_decide (iid J = i))) olds).
    rewrite blockInsts_erase, HB, List.filter_app. split; [done|].
    split; [by apply Forall_filter_bool|]. split; [by etrans|done].
  - intros F pn v p H _ b. destruct (H b) as (news & kept & olds & HB & Hn & Hs & Hk).
    exists (addIncomingInst pn v p <$> news), kept, (addIncomingInst pn v p <$> olds).
    rewrite blockInsts_addIncoming, HB, fmap_app. split; [done|]. split; [|split; [done|]].
    + apply Forall_fmap. eapply Forall_impl; [exact Hn|].
      intros J [? ?]. split; [by rewrite iid_addIncomingInst|].
      by rewrite isPHI_addIncomingInst.
    + apply Forall2_fmap_r. eapply Forall2_impl; [exact Hk|].
      intros J0 J. apply sameShape_addIncomingInst.
  - intros F b J H HJ Hid b'. destruct (H b') as (news & kept & olds & HB & Hn & Hs & Hk).
    rewrite blockInsts_insertAtBegin. case_bool_decide.
    + exists (J :: news), kept, olds. rewrite HB. split; [done|].
      split; [|done]. constructor; [|done]. split; [done|].
      unfold isPHI. by rewrite HJ.
    + by exists news, kept, olds.
Qed.

Lemma keptInOrder_refl n0 F : keptInOrder n0 F F.
Proof.
  intros b. exists [], (blockInsts F b), (blockInsts F b).
  split; [done|]. split; [constructor|]. split; [done|].
  apply Forall2_same_length_lookup. split; [done|].
  intros i J J' H1 H2. rewrite H1 in H2. injection H2 as <-. apply sameShape_refl.
Qed.

Lemma max_list_app_l (l k : list nat) : max_list l <= max_list (l ++ k).
Proof. induction l as [|x l IH]; simpl; lia. Qed.

(** X8.  [PromoteMemToReg] makes phis only, and puts them at the head of
    blocks: every block of the function it returns is a run of phis with
    identities the given function does not have, followed by instructions
    of the same block of the given function, in the order they had there;
    each of these is the instruction it was up to its operands (the same
    identity, name, type and opcode, and as many operands, a phi apart).
    The pass does not move an instruction to another block or to another
    place among those that stay. *)
Theorem PromoteMemToReg_inserts_only_phis (F : Func) (As : list AllocaInst) :
  exists F',
    PromoteMemToReg F As = Some F'
    /\ forall b, exists news kept olds,
         blockInsts F' b = news ++ olds
         /\ Forall (fun J => isPHI J = true /\ max_list (funcIds F) < iid J) news
         /\ sublist kept (blockInsts F b)
         /\ Forall2 sameShape kept olds.
Proof.
  destruct (PromoteMemToReg_total F As) as [F' HF']. exists F'. split; [done|].
  pose proof (PromoteMemToReg_Inv _ _ _
                (keptInOrder_PassInvariant (S (max_list (funcIds F ++ (a_id <$> As)))) F)
                F As F' (keptInOrder_refl _ F) (fun i H => H) HF') as H.
  intros b. destruct (H b) as (news & kept & olds & HB & Hn & Hs & Hk).
  exists news, kept, olds. split; [done|]. split; [|done].
  eapply Forall_impl; [exact Hn|]. intros J [Hge ?]. split; [done|].
  pose proof (max_list_app_l (funcIds F) (a_id <$> As)). lia.
Qed.

(** *** simplifyPHINode: what a phi folds to *)

Lemma commonIncoming_result PN ops c hu V hu' :
  commonIncoming PN ops c hu = Some (Some V, hu') ->
  c = Some V \/ (V ∈ ops /\ V <> VInst PN /\ isUndefValue V = false).
Proof.
  revert c hu. induction ops as [|v ops IH]; intros c hu; simpl.
  - intros [= -> _]. by left.
  - case_bool_decide as Hself.
    { intros H'. apply IH in H' as [?|(? & ? & ?)]; [by left|right].
      split; [by right|done]. }
    destruct (isUndefValue v) eqn:Eu.
    { intros H'. apply IH in H' as [?|(? & ? & ?)]; [by left|right].
      split; [by right|done]. }
    destruct c as [c|].
    + case_bool_decide; [done|]. subst c.
      intros H'. apply IH in H' as [?|(? & ? & ?)]; [by left|right].
      split; [by right|done].
    + intros H'. apply IH in H' as [[= <-]|(? & ? & ?)]; right.
      * split; [left|done].
      * split; [by right|done].
Qed.

(** X9.  What [simplifyPHINode] folds a phi to is never the phi itself: it
    is undef of the type of the phi, or it is one of the incoming values of
    the phi, one that is neither the phi nor an undef value; so the
    [replaceAllUsesWith] that follows never replaces a phi by itself. *)
Theorem simplifyPHINode_never_self (F : Func) (PN : InstId)
    (Q_DT : option (Func -> InstId -> InstId -> bool)) (V : Value) :
  simplifyPHINode F PN Q_DT = Some V ->
  V <> VInst PN
  /\ ((exists ty, V = VUndef ty)
      \/ (isUndefValue V = false
          /\ exists b J, findInst F PN = Some (b, J) /\ V ∈ (incomingOf J).*1))
  /\ (forall b J, findInst F PN = Some (b, J) ->
        V = VUndef (ity J)
        \/ (isUndefValue V = false /\ V ∈ (incomingOf J).*1)).
Proof.
  unfold simplifyPHINode, simplifyPHI.
  destruct (findInst F PN) as [[b J]|] eqn:EJ.
  - destruct (commonIncoming PN (incomingOf J).*1 None false) as [[[c|] hu]|] eqn:E;
      [| |done].
    + apply commonIncoming_result in E as [?|(Hin & Hne & Hu)]; [done|].
      intros HV.
      assert (V = c) as ->.
      { destruct hu; [destruct (valueDominatesPHI _ _ _ _)|]; by simplify_eq. }
      split; [done|]. split.
      * right. split; [done|]. by exists b, J.
      * intros b' J' [= <- <-]. by right.
    + intros [= <-]. split; [done|]. split; [left; by eexists|].
      intros b' J' [= <- <-]. by left.
  - simpl. intros [= <-]. split; [done|]. split; [left; by eexists|]. done.
Qed.

(** *** The allocas that are left after the walk *)

Lemma fmap_id_on {A} (f : A -> A) (l : list A) :
  (forall x, x ∈ l -> f x = x) -> f <$> l = l.
Proof.
  induction l as [|x l IH]; intros H; [done|]. csimpl.
  rewrite (H x) by left. rewrite IH; [done|]. intros y Hy. apply H. by right.
Qed.

Lemma substValue_id old new v : v <> VInst old -> substValue old new v = v.
Proof. intros. unfold substValue. by rewrite bool_decide_eq_false_2. Qed.

Lemma substInst_unused old new J :
  VInst old ∉ operands J -> substInst old new J = J.
Proof.
  intros H. destruct J as [i n t k]. unfold substInst, operands in *. simpl in *.
  f_equal. destruct k as [?|p|v p|inc|ops]; simpl in *.
  - done.
  - rewrite substValue_id; [done|]. intros ->. apply H. left.
  - rewrite !substValue_id; [done| |]; intros ->; apply H; [right; left|left].
  - f_equal. apply fmap_id_on. intros [v p] Hin. simpl.
    rewrite substValue_id; [done|]. intros ->. apply H.
    apply list_elem_of_fmap. by exists (VInst old, p).
  - f_equal. apply fmap_id_on. intros v Hin.
    rewrite substValue_id; [done|]. by intros ->.
Qed.

Lemma rauw_unused F old new : unused old F -> replaceAllUsesWith F old new = F.
Proof.
  intros [Hi Ht]. unfold replaceAllUsesWith. apply fmap_id_on.
  intros B HB. destruct B as [l T]. simpl. f_equal.
  - apply fmap_id_on. intros J HJ. apply substInst_unused.
    apply list_elem_of_lookup in HB as [b HB]. apply (Hi b).
    unfold blockInsts. by rewrite HB.
  - destruct T as [i ops succs]. unfold substTerm. simpl. f_equal.
    apply fmap_id_on. intros v Hv. apply substValue_id. intros ->.
    by apply (Ht _ HB).
Qed.

(** X10.  The loop of [run] that removes the allocas after the walk: an
    alloca is erased, and whatever still had it as an operand (users in
    blocks the walk has not been in) has poison of the type of the alloca
    in its place; with or without such users the function is the one
    [replaceAllUsesWith] and [eraseFromParent] give.  Afterwards no
    instruction and no terminator has the alloca as an operand, no
    instruction is the alloca, and the CFG is as it was. *)
Theorem eraseAlloca_replaces_by_poison (F : Func) (A : AllocaInst) :
  eraseAlloca F A
  = eraseFromParent (replaceAllUsesWith F (a_id A) (VPoison (a_type A))) (a_id A)
  /\ unused (a_id A) (eraseAlloca F A)
  /\ absent (a_id A) (eraseAlloca F A)
  /\ cfg (eraseAlloca F A) = cfg F.
Proof.
  split; [|split; [apply eraseAlloca_gone|split; [apply eraseAlloca_gone|]]].
  - unfold eraseAlloca. destruct (use_empty F (a_id A)) eqn:E; [|done]. simpl.
    rewrite rauw_unused; [done|]. by apply users_nil_unused, use_empty_true.
  - unfold eraseAlloca. rewrite cfg_erase. destruct (negb _); [apply cfg_rauw|done].
Qed.

(** *** promoteMemoryToRegister: the result it returns *)

Lemma promoteLoop_changes fuel :
  forall F c F' c',
    promoteLoop fuel F c = Some (F', c') ->
    (promotableAllocas F = [] /\ F' = F /\ c' = c)
    \/ (promotableAllocas F <> [] /\ c' = true
        /\ length (entryAllocas F') < length (entryAllocas F)).
Proof.
  induction fuel as [|fuel IH]; intros F c F' c'; [done|]. cbn [promoteLoop].
  destruct (promotableAllocas F) as [|A As] eqn:EA.
  - intros [= <- <-]. by left.
  - destruct (PromoteMemToReg F (A :: As)) as [F1|] eqn:EP; [|done].
    intros H. right. split; [done|].
    pose proof (PromoteMemToReg_decreases F A As F1 EA EP) as Hd.
    destruct (IH _ _ _ _ H) as [(_ & -> & ->)|(_ & -> & Hlt)]; [done|].
    split; [done|lia].
Qed.

(** X11.  [promoteMemoryToRegister] answers true exactly when the entry
    block of the function it is given holds an alloca the promotability
    filter accepts.  When it answers false, the function is left as it was;
    when it answers true, the entry block of the result holds fewer allocas
    than before.  In both cases the filter accepts no alloca of the entry
    block of the result. *)
Theorem promoteMemoryToRegister_changed (F : Func) :
  exists F' Changed,
    promoteMemoryToRegister F = Some (F', Changed)
    /\ Changed = negb (bool_decide (promotableAllocas F = []))
    /\ (Changed = false -> F' = F)
    /\ (Changed = true -> length (entryAllocas F') < length (entryAllocas F))
    /\ promotableAllocas F' = [].
Proof.
  destruct (promoteMemoryToRegister_total F) as [[F' c] H].
  exists F', c. split; [done|].
  pose proof (promoteLoop_done _ _ _ _ _ H) as Hdone.
  unfold promoteMemoryToRegister in H.
  destruct (promoteLoop_changes _ _ _ _ _ H) as [(HA & -> & ->)|(HA & -> & Hlt)].
  - rewrite bool_decide_eq_true_2 by done. done.
  - rewrite bool_decide_eq_false_2 by done. done.
Qed.

(** *** ComputeLiveInBlocks *)


Lemma swapRemove_take_drop {A} (l : list A) (i : nat) :
  i < length l ->
  take i (swapRemove l i) = take i l /\ drop i (swapRemove l i) ≡ₚ drop (S i) l.
Proof.
  intros Hi. destruct (swapRemove_spec l i Hi) as (Hp & Hlen & Hj & _).
  assert (take i (swapRemove l i) = take i l) as Ht.
  { apply list_eq. intros j. destruct (decide (j < i)).
    - rewrite !lookup_take_lt by done. apply Hj; lia.
    - rewrite !lookup_take_ge by lia. done. }
  split; [done|].
  apply (Permutation_app_inv_l (take i l)).
  rewrite <- Ht at 1. rewrite take_drop, Hp. by rewrite delete_take_drop.
Qed.





(** *** The entries of the phis the pass inserts *)

Lemma pendingOK_Some F0 (D : BlockId -> list BlockId) (V : gset BlockId)
    (pend : list (BlockId * option BlockId * list Value)) :
  (forall e, e ∈ pend ->
     exists p, e.1.2 = Some p /\ p ∈ V /\ (p ∉ D e.1.1) /\ 0 < edgeCount F0 p e.1.1) ->
  NoDup ((fun e => (e.1.2, e.1.1)) <$> pend) ->
  pendingOK F0 D V pend.
Proof.
  intros H Hnd. split; [|done]. intros e He.
  destruct (H e He) as (p & -> & ?). done.
Qed.

Lemma pendingOK_tail F0 (D : BlockId -> list BlockId) (V : gset BlockId) d
    (wl : list (BlockId * option BlockId * list Value)) :
  pendingOK F0 D V (d :: wl) ->
  forall e, e ∈ wl ->
    exists p, e.1.2 = Some p /\ p ∈ V /\ (p ∉ D e.1.1) /\ 0 < edgeCount F0 p e.1.1.
Proof.
  intros [H _] e He. assert (e ∈ d :: wl) as He' by (by right).
  specialize (H e He'). destruct (e.1.2) as [p|]; [by exists p|].
  destruct H as [Heq _]. injection Heq as _ Hnil. subst wl.
  by apply elem_of_nil in He.
Qed.

Lemma edgeCount_pos F p s : s ∈ successors F p -> 0 < edgeCount F p s.
Proof.
  intros Hs. unfold edgeCount.
  assert (s ∈ List.filter (fun s' => bool_decide (s' = s)) (successors F p)) as Hin.
  { apply elem_of_filter_bool. split; [done|]. by apply bool_decide_eq_true. }
  destruct (List.filter _ _); [by apply elem_of_nil in Hin|simpl; lia].
Qed.

(** A pass through the body of [RenamePass] keeps [RInv]. *)
Lemma RenamePassStep_RInv n0 F0 P d wl :
  RInv n0 F0 P (d :: wl) ->
  RInv n0 F0 (RenamePassStep P d wl).1.1 (pendingOf (RenamePassStep P d wl)).
Proof.
  intros (D & HF & HR & HD & Hpend).
  pose proof (pendingOK_tail _ _ _ _ _ Hpend) as Hwl.
  destruct Hpend as [Hd Hnd]. specialize (Hd d (list_elem_of_here _ _)).
  destruct d as [[BB Pred] vals]. cbn [fst snd] in *.
  set (D' := fun b => if bool_decide (b = BB) then D BB ++ option_list Pred else D b).
  assert (match Pred with
          | Some p => (p ∉ D BB) /\ 0 < edgeCount F0 p BB
          | None => D BB = []
          end) as HPred.
  { destruct Pred as [p|]; [tauto|]. by destruct Hd as [_ ?]. }
  destruct (populatePhis_frame n0 F0 D P BB Pred vals HF HR (proj1 (HD BB)) HPred)
    as (HF1 & HR1 & HV1).
  fold D' in HF1.
  assert (forall b, NoDup (D' b) /\ forall p, p ∈ D' b -> p ∈ Visited P) as HD'.
  { intros b. subst D'. cbn beta. case_bool_decide as Hb; [|apply HD].
    destruct (HD BB) as [Hn Hv]. destruct Pred as [p|]; simpl.
    - destruct Hd as (Hp & Hnp & _). split.
      + apply NoDup_app. split; [done|]. split; [|apply NoDup_singleton].
        intros x Hx ->%list_elem_of_singleton. done.
      + intros x [?| ->%list_elem_of_singleton]%elem_of_app; [by apply Hv|done].
    - rewrite app_nil_r. by split. }
  apply NoDup_cons in Hnd as [Hdnot Hndwl]. cbn [fst snd] in Hdnot.
  assert (forall e, e ∈ wl ->
            exists p, e.1.2 = Some p /\ p ∈ Visited P /\ (p ∉ D' e.1.1)
                      /\ 0 < edgeCount F0 p e.1.1) as Hwl'.
  { intros e He. destruct (Hwl e He) as (p & Ep & Hp & Hnp & Hedge).
    exists p. split; [done|]. split; [done|]. split; [|done].
    subst D'. cbn beta. case_bool_decide as Hb; [|done]. rewrite Hb in Hnp.
    intros [?|Hin]%elem_of_app; [done|].
    destruct Pred as [q|]; simpl in Hin; [|by apply elem_of_nil in Hin].
    apply list_elem_of_singleton in Hin as ->. apply Hdnot.
    apply list_elem_of_fmap. exists e. split; [|done]. by rewrite Ep, Hb. }
  destruct (RenamePassStep_pending P (BB, Pred, vals) wl)
    as [(HV & -> & ->)|(HV & -> & Hperm)]; cbn [fst snd] in *.
  - exists D'. split; [done|]. split; [done|]. rewrite HV1. split; [done|].
    by apply pendingOK_Some.
  - set (r1 := populatePhis P BB Pred vals) in *.
    destruct (renameBody_shrinks r1.1 BB r1.2) as (Hs & Hreg & HV3).
    set (r3 := renameBody r1.1 BB r1.2) in *.
    exists D'. split; [by eapply phiFrame_shrinks|].
    split; [by eapply registered_shrinks|]. rewrite HV3, HV1.
    split.
    { intros b. destruct (HD' b) as [? Hv]. split; [done|].
      intros p Hp. apply elem_of_union. right. by apply Hv. }
    assert (cfg (Fn P) = cfg F0) as Hc by apply HF.
    apply pendingOK_Some.
    + intros e. rewrite Hperm, elem_of_app.
      intros [(s & -> & [Hsin _]%elem_of_firstOccurrences)%list_elem_of_fmap|He].
      * cbn [fst snd]. exists BB. split; [done|].
        split; [apply elem_of_union; left; by apply elem_of_singleton|].
        split.
        -- intros Hin. apply HV. by apply (proj2 (HD' s)).
        -- apply edgeCount_pos. by rewrite <- (cfg_successors _ _ BB Hc).
      * destruct (Hwl' e He) as (p & ? & ? & ? & ?). exists p.
        split; [done|]. split; [apply elem_of_union; by right|done].
    + rewrite Hperm, fmap_app. apply NoDup_app. split; [|split; [|done]].
      * rewrite <- list_fmap_compose. apply NoDup_fmap_2; [|apply NoDup_firstOccurrences].
        intros s1 s2 [= ->]. done.
      * intros x (e1 & -> & (s & -> & _)%list_elem_of_fmap)%list_elem_of_fmap.
        cbn [fst snd]. intros (e & He1 & He)%list_elem_of_fmap.
        destruct (Hwl' e He) as (p & Ep & Hp & _).
        rewrite Ep in He1. injection He1 as <- _. done.
Qed.

(** The walk, started from [RInv], ends in a state where the phis of the
    pass in a block hold the entries of the edges from blocks the walk has
    been in. *)
Lemma RenameLoop_RInv n0 F0 fuel :
  forall P d wl P',
    RInv n0 F0 P (d :: wl) -> RenameLoop fuel P d wl = Some P' ->
    exists D, phiFrame n0 F0 D (Fn P') /\ registered n0 F0 P'
              /\ forall b, NoDup (D b) /\ forall p, p ∈ D b -> p ∈ Visited P'.
Proof.
  induction fuel as [|fuel IH]; intros P d wl P' HI; [done|]. cbn [RenameLoop].
  pose proof (RenamePassStep_RInv n0 F0 P d wl HI) as HI'.
  unfold pendingOf in HI'.
  destruct ((RenamePassStep P d wl).1.2) as [d'|].
  - by apply IH.
  - destruct ((RenamePassStep P d wl).2) as [|d' wl2].
    + intros [= <-]. destruct HI' as (D & ? & ? & ? & _). by exists D.
    + by apply IH.
Qed.

(** The state the walk starts in. *)
Lemma AInv_RInv n0 F0 P vals :
  AInv n0 F0 P -> Visited P = ∅ -> RInv n0 F0 P [(0, None, vals)].
Proof.
  intros [HF HR] HV. exists (fun _ => []). split; [done|]. split; [done|].
  split; [intros b; split; [constructor|by intros p ?%elem_of_nil]|].
  split; [|apply NoDup_singleton].
  intros e ->%list_elem_of_singleton. done.
Qed.

(** *** The loop of [run] that fills the phis *)

Lemma lower_bound_elem (S : list nat) (x : nat) :
  StronglySorted le S -> x ∈ S ->
  S !! lower_bound (fun a b => bool_decide (a < b)) S x = Some x.
Proof.
  induction 1 as [|y S' HS IH Hall]; [by intros ?%elem_of_nil|].
  intros Hx. simpl. case_bool_decide as Hlt.
  - simpl. apply IH. apply elem_of_cons in Hx as [->|?]; [lia|done].
  - simpl. f_equal. apply elem_of_cons in Hx as [->|Hx]; [done|].
    rewrite Forall_forall in Hall. specialize (Hall x Hx). lia.
Qed.

Lemma StronglySorted_delete {A} (R : relation A) (S : list A) (i : nat) :
  StronglySorted R S -> StronglySorted R (delete i S).
Proof.
  intros H. revert i.
  induction H as [|y S' HS IH Hall]; intros i; [destruct i; constructor|].
  destruct i as [|i]; simpl; [done|]. constructor; [apply IH|].
  by apply Forall_delete.
Qed.

Lemma removeEntries_spec (L : list nat) :
  forall S, StronglySorted le S -> L ⊆+ S ->
    L ++ fold_left (fun Preds blk =>
                      delete (lower_bound (fun x y => bool_decide (x < y)) Preds blk) Preds)
                   L S ≡ₚ S.
Proof.
  induction L as [|x L IH]; intros S HS Hsub; [done|]. cbn [fold_left app].
  assert (x ∈ S) as Hx by (eapply elem_of_submseteq; [left|done]).
  pose proof (lower_bound_elem S x HS Hx) as Hidx.
  pose proof (delete_Permutation S _ x Hidx) as Hperm.
  rewrite IH.
  - by symmetry.
  - by apply StronglySorted_delete.
  - apply (submseteq_app_inv_l _ _ [x]). simpl. by rewrite <- Hperm.
Qed.

(** The predecessors a phi has no entry for, when its entries are for
    predecessors: with them, the phi has one entry per predecessor slot. *)
Lemma missingPreds_spec F BB SomePHI :
  (incomingOf SomePHI).*2 ⊆+ predecessors F BB ->
  (incomingOf SomePHI).*2 ++ missingPreds F BB SomePHI ≡ₚ predecessors F BB.
Proof.
  intros Hsub. unfold missingPreds.
  rewrite removeEntries_spec.
  - apply merge_sort_Permutation.
  - apply StronglySorted_merge_sort; apply _.
  - by rewrite merge_sort_Permutation.
Qed.

Lemma ity_addEntries es J : ity (addEntries es J) = ity J.
Proof. unfold addEntries. by destruct (ikind J). Qed.

Lemma elem_of_edgesFrom F ps b p : p ∈ edgesFrom F ps b -> p ∈ ps.
Proof.
  unfold edgesFrom. intros (q & Hq & Hin)%list_elem_of_bind.
  by apply elem_of_replicate in Hq as [-> _].
Qed.

Section Fill.

Variables (n0 : nat) (F0 : Func) (D : BlockId -> list BlockId).
Hypothesis HD : forall b, NoDup (D b) /\ forall p, p ∈ D b -> reachable F0 p.

(** A block whose phis hold as many entries as it has predecessor slots is
    complete. *)
Lemma phisWait_complete F rest b J0 :
  phisWait n0 F0 D F rest b ->
  J0 ∈ blockInsts F b -> n0 <= iid J0 ->
  length (incomingOf J0) = pred_size F0 b ->
  phisComplete n0 F0 F b.
Proof.
  intros [Hw _] HJ0 Hge0 Hlen J HJ Hge.
  pose proof (Hw J0 HJ0 Hge0) as H0. pose proof (Hw J HJ Hge) as HJe.
  split.
  - rewrite HJe. apply submseteq_length_Permutation.
    + apply edgesFrom_submseteq, HD.
    + rewrite <- H0, length_fmap, Hlen. done.
  - intros v p Hin Hnr. exfalso. apply Hnr, (proj2 (HD b)).
    apply (elem_of_edgesFrom F0 _ b). rewrite <- HJe.
    apply list_elem_of_fmap. by exists (v, p).
Qed.

(** The blocks the round does not touch stay as they are. *)
Lemma fill_other_blocks P (F' : Func) e rest BB SomePHI :
  uniqueIds (Fn P) ->
  SomePHI ∈ blockInsts (Fn P) BB -> iid SomePHI = e.2 ->
  forall b, b <> BB -> blockInsts F' b = blockInsts (Fn P) b ->
    phisComplete n0 F0 (Fn P) b \/ phisWait n0 F0 D (Fn P) (e :: rest) b ->
    phisComplete n0 F0 F' b \/ phisWait n0 F0 D F' rest b.
Proof.
  intros Hu HS Hid b Hb HB [Hc|[H1 H2]].
  - left. intros J HJ. rewrite HB in HJ. by apply Hc.
  - right. split.
    + intros J HJ. rewrite HB in HJ. by apply H1.
    + intros J HJ Hge. rewrite HB in HJ. specialize (H2 J HJ Hge).
      rewrite fmap_cons, elem_of_cons in H2. destruct H2 as [H2|?]; [|done].
      exfalso. apply Hb.
      assert (J ∈ blockInsts (Fn P) b) as HJb.
      { destruct (blockInsts (Fn P) b); [done|]. injection HJ as ->. left. }
      destruct (uniqueIds_block_eq _ _ _ _ _ Hu HJb HS) as [? _]; [congruence|done].
Qed.

(** A round of the loop keeps [fillInv]. *)
Lemma fillEntry_fillInv P e rest :
  fillInv n0 F0 D P (e :: rest) -> fillInv n0 F0 D (fillEntry P e) rest.
Proof.
  intros (Hb & Hcache & Hrest & Hblocks).
  pose proof Hb as (Hc & Hu & Ho & Hh).
  assert (n0 <= e.2) as Hge by (apply Hrest; left).
  assert (forall e', e' ∈ rest -> n0 <= e'.2) as Hrest'
    by (intros e' He'; apply Hrest; by right).
  (* a round that leaves the function as it is *)
  assert ((forall b J, head (blockInsts (Fn P) b) = Some J -> iid J <> e.2) ->
          forall b, phisComplete n0 F0 (Fn P) b \/ phisWait n0 F0 D (Fn P) rest b)
    as Hskip.
  { intros Hne b. destruct (Hblocks b) as [?|[H1 H2]]; [by left|right].
    split; [done|]. intros J HJ HgeJ. specialize (H2 J HJ HgeJ).
    rewrite fmap_cons, elem_of_cons in H2. destruct H2 as [H2|?]; [|done].
    exfalso. by apply (Hne b J). }
  assert (forall b J, head (blockInsts (Fn P) b) = Some J -> J ∈ blockInsts (Fn P) b)
    as Hhead.
  { intros b J HJ. destruct (blockInsts (Fn P) b); [done|]. injection HJ as ->. left. }
  unfold fillEntry.
  destruct (findInst (Fn P) e.2) as [[BB SomePHI]|] eqn:EF.
  2:{ split; [done|]. split; [done|]. split; [done|]. apply Hskip.
      intros b J HJ Hid. apply Hhead in HJ.
      rewrite <- Hid, (findInst_unique _ _ _ Hu HJ) in EF. done. }
  apply findInst_Some in EF as [HS Hid].
  destruct (blockInsts (Fn P) BB) as [|front tl] eqn:EB; [by apply elem_of_nil in HS|].
  rewrite <- EB in HS.
  case_bool_decide as Hfront.
  { split; [done|]. split; [done|]. split; [done|]. apply Hskip.
    intros b J HJ HidJ. pose proof (Hhead b J HJ) as HJb.
    destruct (uniqueIds_block_eq _ _ _ _ _ Hu HJb HS) as [-> ->]; [congruence|].
    rewrite EB in HJ. injection HJ as ->. done. }
  assert (front = SomePHI) as ->.
  { apply (uniqueIds_eq (Fn P) BB _ BB _ Hu); [rewrite EB; left|done|].
    destruct (decide (iid front = iid SomePHI)); [done|]. by destruct Hfront. }
  clear Hfront.
  destruct (getNumPreds_cache F0 P BB Hc Hcache) as [Hnp Hcache1].
  pose proof (getNumPreds_Fn P BB) as EFn.
  assert (n0 <= iid SomePHI) as HgeS by lia.
  assert (isPHI SomePHI = true) as HPS by (by apply (newAtHead_new n0 (Fn P) BB)).
  rewrite Hnp.
  case_bool_decide as Hcount.
  - (* the phis of the block have all their entries *)
    split; [by rewrite EFn|]. split; [done|]. split; [done|]. rewrite EFn.
    intros b. destruct (decide (b = BB)) as [->|Hne].
    + left. destruct (Hblocks BB) as [?|Hw]; [done|].
      apply (phisWait_complete _ _ _ SomePHI Hw HS HgeS).
      by rewrite <- getNumOperands_phi.
    + apply (fill_other_blocks P (Fn P) e rest BB SomePHI Hu HS Hid b Hne eq_refl).
      apply Hblocks.
  - (* entries are missing *)
    destruct (Hblocks BB) as [Hdone|[Hw1 Hw2]].
    { exfalso. apply Hcount. destruct (Hdone SomePHI HS HgeS) as [Hperm _].
      rewrite (getNumOperands_phi _ HPS), <- (length_fmap snd), Hperm. done. }
    rewrite EFn.
    destruct (Hh BB) as (news & olds & HB & Hnew & Hold).
    set (k := getNumOperands SomePHI).
    set (L := edgesFrom F0 (D BB) BB).
    assert (forall J, J ∈ blockInsts (Fn P) BB -> n0 <= iid J -> J ∈ news) as Hnews.
    { intros J HJ HgeJ. rewrite HB in HJ. apply elem_of_app in HJ as [?|HJ]; [done|].
      rewrite Forall_forall in Hold. specialize (Hold J HJ). lia. }
    assert (forall J, J ∈ news -> J ∈ blockInsts (Fn P) BB /\ n0 <= iid J
                                  /\ isPHI J = true /\ (incomingOf J).*2 = L
                                  /\ getNumOperands J = k) as Hnews'.
    { intros J HJ. rewrite Forall_forall in Hnew. destruct (Hnew J HJ) as [HgeJ HPJ].
      assert (J ∈ blockInsts (Fn P) BB) as HJB by (rewrite HB; apply elem_of_app; by left).
      split; [done|]. split; [done|]. split; [done|].
      split; [by apply Hw1|].
      subst k. rewrite !getNumOperands_phi by done.
      rewrite <- !(length_fmap snd). by rewrite (Hw1 J HJB HgeJ), (Hw1 SomePHI HS HgeS). }
    assert (k = length L) as Hk.
    { subst k. rewrite (getNumOperands_phi _ HPS), <- (length_fmap snd).
      by rewrite (Hw1 SomePHI HS HgeS). }
    assert (phiRun k (blockInsts (Fn P) BB) = news) as Hrun.
    { rewrite HB, phiRun_app.
      - rewrite (phiRun_old n0 k olds Hold), app_nil_r; [done|].
        intros J HJ HP. rewrite Forall_forall in Hold.
        destruct (Ho BB J) as [-> _];
          [rewrite HB; apply elem_of_app; by right|by apply Hold|done|].
        intros Heq. apply Hcount. symmetry. exact Heq.
      - apply Forall_forall. intros J HJ.
        destruct (Hnews' J HJ) as (_ & _ & ? & _ & ?). done. }
    rewrite Hrun.
    set (Preds := missingPreds (Fn P) BB SomePHI).
    assert (L ++ Preds ≡ₚ predecessors F0 BB) as Hfull.
    { subst Preds L. rewrite <- (Hw1 SomePHI HS HgeS).
      rewrite <- (cfg_predecessors _ _ BB Hc). apply missingPreds_spec.
      rewrite (Hw1 SomePHI HS HgeS), (cfg_predecessors _ _ BB Hc).
      apply edgesFrom_submseteq, HD. }
    destruct (fillPhis_addTo Preds news (Fn P)) as (X & HF & Hout & Hin).
    assert (NoDup (iid <$> news)) as Hndn.
    { pose proof (uniqueIds_block _ BB Hu) as Hnd. rewrite HB, fmap_app in Hnd.
      by apply NoDup_app in Hnd as [? _]. }
    specialize (Hin Hndn).
    assert (forall i, i < n0 -> X i = []) as Hlow.
    { intros i Hi. apply Hout. intros (J & -> & HJ)%list_elem_of_fmap.
      destruct (Hnews' J HJ) as (_ & ? & _). lia. }
    rewrite HF. unfold fillInv, setFn. cbn [Fn BBNumPreds].
    split; [by apply phiBase_addTo|]. split; [done|]. split; [done|].
    intros b. destruct (decide (b = BB)) as [->|Hne].
    + left. intros J' (J & -> & HJ)%elem_of_blockInsts_addTo.
      rewrite iid_addEntries, ity_addEntries. intros HgeJ.
      pose proof (Hnews J HJ HgeJ) as HJn.
      destruct (Hnews' J HJn) as (_ & _ & HPJ & HLJ & _).
      rewrite (incomingOf_addEntries _ _ HPJ), (Hin J HJn).
      split.
      * assert (((fun p : BlockId => (VPoison (ity J), p)) <$> Preds).*2 = Preds) as HX.
        { rewrite <- list_fmap_compose. apply list_fmap_id. }
        by rewrite fmap_app, HLJ, HX.
      * intros v p [Hvp|Hvp]%elem_of_app Hnr.
        -- exfalso. apply Hnr, (proj2 (HD BB)).
           apply (elem_of_edgesFrom F0 _ BB). fold L. rewrite <- HLJ.
           apply list_elem_of_fmap. by exists (v, p).
        -- apply list_elem_of_fmap in Hvp as (q & [= -> _] & _). done.
    + apply (fill_other_blocks P _ e rest BB SomePHI Hu HS Hid b Hne); [|apply Hblocks].
      unfold addTo. rewrite blockInsts_mapInsts. apply fmap_id_on. intros J HJ.
      rewrite Hout; [apply addEntries_nil|].
      intros (J' & HidJ & HJ')%list_elem_of_fmap.
      destruct (Hnews' J' HJ') as (HJ'B & _).
      destruct (uniqueIds_block_eq _ _ _ _ _ Hu HJ HJ'B HidJ) as [? _]. done.
Qed.

Lemma fillEntries_fillInv l :
  forall P, fillInv n0 F0 D P l -> fillInv n0 F0 D (fold_left fillEntry l P) [].
Proof.
  induction l as [|e l IH]; intros P HI; [done|]. cbn [fold_left].
  by apply IH, fillEntry_fillInv.
Qed.

(** When the loop has gone over all entries, the phis of the pass are
    complete in every block. *)
Lemma fillInv_done P b : fillInv n0 F0 D P [] -> phisComplete n0 F0 (Fn P) b.
Proof.
  intros (Hb & _ & _ & Hblocks). destruct (Hblocks b) as [?|[_ H2]]; [done|].
  intros J HJ Hge. exfalso.
  destruct Hb as (_ & _ & _ & Hh). destruct (Hh b) as (news & olds & HB & Hnew & Hold).
  destruct news as [|J1 news].
  - rewrite HB in HJ. simpl in HJ. rewrite Forall_forall in Hold.
    specialize (Hold J HJ). lia.
  - apply Forall_cons in Hnew as [[Hge1 _] _].
    assert (iid J1 ∈ ([] : list (nat * nat * InstId)).*2) as Hin
      by (apply H2; [by rewrite HB|done]).
    by apply elem_of_nil in Hin.
Qed.

End Fill.

(** *** The phis of the pass when [PromoteMemToReg] returns *)

Lemma QueuePhiNode_Visited P BB AllocaNo V :
  Visited (QueuePhiNode P BB AllocaNo V).1.1 = Visited P.
Proof.
  unfold QueuePhiNode. destruct (NewPhiNodes P !! _); [done|].
  destruct (Allocas P !! _); [|done]. cbn [fst Visited].
  by destruct (getNumPreds_registry P BB) as (_ & _ & _ & _ & ->).
Qed.

Lemma queuePhis_Visited P AllocaNum l : Visited (queuePhis P AllocaNum l) = Visited P.
Proof.
  unfold queuePhis. change (Visited P) with (Visited (P, 0).1). generalize (P, 0).
  induction l as [|BB l IH]; intros acc; cbn [fold_left]; [done|].
  rewrite IH. cbn [fst]. apply QueuePhiNode_Visited.
Qed.

(** What a round of the loop over the allocas does to the list, to
    [AllocaNum] and to the registry of phis: either the alloca leaves the
    list and no phi is made, or [AllocaNum] goes on. *)
Lemma processAlloca_books s AI s' :
  processAlloca s AI = Some s' ->
  Visited (ls_P s') = Visited (ls_P s)
  /\ ((ls_AllocaNum s' = ls_AllocaNum s
       /\ NewPhiNodes (ls_P s') = NewPhiNodes (ls_P s)
       /\ Allocas (ls_P s') = swapRemove (Allocas (ls_P s)) (ls_AllocaNum s))
      \/ (ls_AllocaNum s' = S (ls_AllocaNum s)
          /\ Allocas (ls_P s') = Allocas (ls_P s))).
Proof.
  unfold processAlloca.
  destruct (use_empty _ _); [intros [= <-]; split; [done|by left]|].
  match goal with |- context [if ?c then rewriteSingleStoreAlloca ?a ?b ?i ?l else ?e] =>
    set (r1 := if c then rewriteSingleStoreAlloca a b i l else e) end.
  destruct (r1.2); [intros [= <-]; split; [done|by left]|].
  match goal with |- context [if ?c then promoteSingleBlockAlloca ?a ?b ?i ?l else ?e] =>
    set (r2 := if c then promoteSingleBlockAlloca a b i l else e) end.
  destruct (r2.2); [intros [= <-]; split; [done|by left]|].
  destruct (ComputeLiveInBlocks _ _ _ _); [|done].
  intros [= <-]. cbn [ls_P ls_AllocaNum].
  rewrite queuePhis_Visited, queuePhis_Allocas. split; [done|by right].
Qed.

Lemma allocaLoop_books n :
  forall s s',
    ls_AllocaNum s <= length (Allocas (ls_P s)) ->
    (ls_AllocaNum s = 0 -> NewPhiNodes (ls_P s) = ∅) ->
    allocaLoop n s = Some s' ->
    Visited (ls_P s') = Visited (ls_P s)
    /\ ls_AllocaNum s' <= length (Allocas (ls_P s'))
    /\ (ls_AllocaNum s' = 0 -> NewPhiNodes (ls_P s') = ∅).
Proof.
  induction n as [|n IH]; intros s s' Hle H0; simpl; [by intros [= <-]|].
  destruct (Allocas (ls_P s) !! ls_AllocaNum s) as [AI|] eqn:EA; [|by intros [= <-]].
  destruct (processAlloca s AI) as [s1|] eqn:E; [|done].
  pose proof (lookup_lt_Some _ _ _ EA) as Hlt.
  destruct (processAlloca_books s AI s1 E) as [HV [(Hn & HN & HAs)|(Hn & HAs)]].
  - intros H. destruct (IH s1 s') as (? & ? & ?); try done.
    + rewrite Hn, HAs. destruct (swapRemove_spec _ _ Hlt) as (_ & -> & _). lia.
    + rewrite Hn, HN. done.
    + split; [congruence|done].
  - intros H. destruct (IH s1 s') as (? & ? & ?); try done.
    + rewrite Hn, HAs. lia.
    + rewrite Hn. lia.
    + split; [congruence|done].
Qed.

Lemma reachable_cfg F F' b : cfg F = cfg F' -> reachable F b -> reachable F' b.
Proof.
  intros Hc Hr. unfold reachable in *.
  refine (rtc_ind_r (R := fun p s => s ∈ successors F p)
            (fun b => rtc (fun p s => s ∈ successors F' p) 0 b) 0 _ _ b Hr).
  - apply rtc_refl.
  - intros p s _ Hps IH. eapply rtc_r; [exact IH|].
    by rewrite <- (cfg_successors _ _ p Hc).
Qed.

Lemma wfPhis_elem F b J :
  wfPhis F -> J ∈ blockInsts F b -> isPHI J = true ->
  getNumOperands J = pred_size F b /\ 0 < pred_size F b.
Proof.
  unfold wfPhis. rewrite Forall_forall. intros H HJ.
  apply (H (b, J)). by apply elem_of_allInsts.
Qed.

(** The phis of the pass are complete when [run] returns. *)
Lemma run_complete F As P' :
  uniqueIds F -> wfPhis F ->
  run (newPass F As) = Some P' ->
  cfg (Fn P') = cfg F
  /\ forall b J, J ∈ blockInsts (Fn P') b -> nextId (newPass F As) <= iid J ->
       isPHI J = true
       /\ (incomingOf J).*2 ≡ₚ predecessors F b
       /\ forall v p, (v, p) ∈ incomingOf J -> ~ reachable F p -> v = VPoison (ity J).
Proof.
  intros Hu Hwf Hrun. set (n0 := nextId (newPass F As)).
  pose proof (newPass_AInv F As Hu (fun b J => wfPhis_elem F b J Hwf)) as HA0.
  fold n0 in HA0.
  destruct (run_stages _ _ Hrun) as (s & Hloop & Hcases).
  pose proof (allocaLoop_AInv n0 F _ (mkLoop (newPass F As) Info_clear ∅ 0) s
                HA0 Hloop) as HA1.
  destruct (allocaLoop_books _ (mkLoop (newPass F As) Info_clear ∅ 0) s
              (Nat.le_0_l _) (fun _ => eq_refl) Hloop)
    as (HV1 & Hle & Hnone).
  cbn [ls_P Visited newPass] in HV1.
  destruct HA1 as [HF1 HR1].
  destruct Hcases as [[Hnil ->]|(P2 & P4 & Hne & Hren & Hsimp & Hfill)].
  - (* every alloca went through a fast path: no phi was made *)
    split; [apply HF1|]. intros b J HJ Hge. exfalso.
    destruct HR1 as (H1 & _). destruct (H1 b J HJ Hge) as [_ (k & Hk)].
    rewrite Hnil in Hle. simpl in Hle. rewrite Hnone in Hk by lia. done.
  - set (P1 := ls_P s) in *.
    set (Values := (fun A => VUndef (a_allocated A)) <$> Allocas P1) in *.
    (* the walk *)
    pose proof (AInv_RInv n0 F P1 Values (conj HF1 HR1) HV1) as HI.
    destruct (RenameLoop_RInv n0 F _ _ _ _ _ HI Hren) as (D & HF2 & HR2 & HD2).
    assert (walkInv F P1 [(0, None, Values)]) as HW.
    { split; [apply HF1|]. rewrite HV1.
      split; [by intros b ?%elem_of_empty|]. split.
      { intros e ->%list_elem_of_singleton. apply rtc_refl. }
      split; [by intros p q ?%elem_of_empty|]. right. cbn. left. }
    pose proof (RenameLoop_walkInv F _ _ _ _ _ HW Hren) as Hvis.
    assert (forall b, NoDup (D b) /\ forall p, p ∈ D b -> reachable F p) as HD.
    { intros b. destruct (HD2 b) as [? Hv]. split; [done|].
      intros p Hp. by apply Hvis, Hv. }
    (* the allocas go, the phis fold *)
    match type of Hsimp with simplifyLoop _ ?p = _ => set (P3 := p) in * end.
    assert (phiFrame n0 F D (Fn P3) /\ registered n0 F P3) as [HF3 HR3].
    { split.
      - eapply phiFrame_shrinks; [|exact HF2]. apply eraseAllocas_shrinks.
      - eapply registered_shrinks; [exact HR2|apply eraseAllocas_shrinks|done]. }
    destruct (simplifyLoop_registered n0 F _ _ _ Hsimp HR3) as [Hs4 HR4].
    pose proof (phiFrame_shrinks _ _ _ _ _ Hs4 HF3) as [HB4 HN4].
    (* the phis are filled *)
    assert (fillInv n0 F D P4 (map_to_list (NewPhiNodes P4))) as HI4.
    { destruct HR4 as (H1 & H2 & H3 & H4 & H5 & H6).
      split; [done|]. split; [done|]. split.
      - intros [k i] Hin%elem_of_map_to_list. by eapply H3.
      - intros b. right. split; [intros J; apply HN4|].
        intros J HJ Hge.
        assert (J ∈ blockInsts (Fn P4) b) as HJb.
        { destruct (blockInsts (Fn P4) b); [done|]. injection HJ as ->. left. }
        destruct (H1 b J HJb Hge) as [_ (k & Hk)].
        apply list_elem_of_fmap. exists (k, iid J). split; [done|].
        by apply elem_of_map_to_list. }
    pose proof (fillEntries_fillInv n0 F D HD _ _ HI4) as HI5.
    rewrite Hfill. split; [apply HI5|].
    intros b J HJ Hge.
    destruct (fillInv_done n0 F D _ b HI5 J HJ Hge) as [Hp Hv].
    split; [|done].
    destruct HI5 as ((_ & _ & _ & Hh) & _). exact (newAtHead_new n0 _ b J Hh HJ Hge).
Qed.

(** C6.  The phis of the pass are complete when it returns.  On a
    function whose instructions have identities of their own and whose
    phis are well formed, every instruction of the function
    [PromoteMemToReg] returns that is not an instruction of the function
    it was given is a phi with one entry for each predecessor slot of its
    block: it has as many entries as the block has predecessors, and its
    incoming blocks are the predecessors of the block, slot by slot.  An
    entry for a predecessor that cannot be reached from the entry block,
    which the renaming walk has not been in, holds poison of the type of
    the phi: these are the entries the loop after the walk fills in. *)
Theorem inserted_phis_are_complete (F : Func) (As : list AllocaInst) :
  uniqueIds F -> wfPhis F ->
  exists F',
    PromoteMemToReg F As = Some F'
    /\ forall b J, J ∈ blockInsts F' b -> absent (iid J) F ->
         isPHI J = true
         /\ getNumOperands J = pred_size F' b
         /\ (incomingOf J).*2 ≡ₚ predecessors F' b
         /\ forall v p, (v, p) ∈ incomingOf J -> ~ reachable F' p ->
                        v = VPoison (ity J).
Proof.
  intros Hu Hwf.
  destruct (PromoteMemToReg_total F As) as [F' HF']. exists F'. split; [done|].
  intros b J HJ Habs.
  (* an instruction that is not one of [F] has an identity of the pass *)
  pose proof (PromoteMemToReg_Inv _ _ _
                (keptInOrder_PassInvariant (S (max_list (funcIds F ++ (a_id <$> As)))) F)
                F As F' (keptInOrder_refl _ F) (fun i H => H) HF') as Hkept.
  assert (nextId (newPass F As) <= iid J) as Hge.
  { destruct (Hkept b) as (news & kept & olds & HB & Hn & Hs & Hk).
    rewrite HB in HJ. apply elem_of_app in HJ as [HJ|HJ].
    - rewrite Forall_forall in Hn. by apply Hn.
    - exfalso. apply list_elem_of_lookup in HJ as [i Hi].
      destruct (Forall2_lookup_r _ _ _ _ _ Hk Hi) as (J0 & HJ0 & Hshape).
      apply (Habs b J0); [|by destruct Hshape as [-> _]].
      eapply elem_of_sublist; [|exact Hs]. by eapply list_elem_of_lookup_2. }
  unfold PromoteMemToReg in HF'. destruct As as [|A As].
  { injection HF' as <-. exfalso. by apply (Habs b J). }
  destruct (run _) as [P'|] eqn:Hrun; [|done]. injection HF' as <-.
  destruct (run_complete F (A :: As) P' Hu Hwf Hrun) as [Hc Hall].
  destruct (Hall b J HJ Hge) as (HP & Hperm & Hv).
  split; [done|].
  split.
  { rewrite (getNumOperands_phi _ HP), <- (length_fmap snd), Hperm.
    unfold pred_size. by rewrite (cfg_predecessors _ _ b Hc). }
  split; [by rewrite (cfg_predecessors _ _ b Hc)|].
  intros v p Hin Hnr. apply (Hv v p Hin). intros Hr. apply Hnr.
  by apply (reachable_cfg F).
Qed.

(** *** The loop over the allocas: which way an alloca goes *)

Lemma getNumPreds_AllocaLookup P BB :
  AllocaLookup (getNumPreds P BB).2 = AllocaLookup P.
Proof. unfold getNumPreds. by destruct (BBNumPreds P !! BB) as [[|?]|]. Qed.

Lemma QueuePhiNode_books P BB AllocaNo V :
  let P' := (QueuePhiNode P BB AllocaNo V).1.1 in
  AllocaLookup P' = AllocaLookup P
  /\ nextId P <= nextId P'
  /\ forall k i, NewPhiNodes P' !! k = Some i ->
       NewPhiNodes P !! k = Some i
       \/ (k = (BB, AllocaNo) /\ nextId P <= i < nextId P').
Proof.
  cbn zeta. unfold QueuePhiNode.
  destruct (NewPhiNodes P !! (BB, AllocaNo)) eqn:EN; [by auto|].
  destruct (Allocas P !! AllocaNo); [|by auto].
  cbn [fst AllocaLookup nextId NewPhiNodes iid].
  destruct (getNumPreds_registry P BB) as (-> & -> & _).
  rewrite getNumPreds_AllocaLookup. split; [done|]. split; [lia|].
  intros k i [[<- <-]|[_ ?]]%lookup_insert_Some; [right; split; [done|lia]|by left].
Qed.

Lemma queuePhis_books AllocaNum l :
  forall P V,
    let P' := (fold_left (fun acc BB => (QueuePhiNode acc.1 BB AllocaNum acc.2).1)
                         l (P, V)).1 in
    AllocaLookup P' = AllocaLookup P
    /\ nextId P <= nextId P'
    /\ forall k i, NewPhiNodes P' !! k = Some i ->
         NewPhiNodes P !! k = Some i
         \/ (k.2 = AllocaNum /\ k.1 ∈ l /\ nextId P <= i < nextId P').
Proof.
  induction l as [|BB l IH]; intros P V; cbn zeta; cbn [fold_left].
  { split; [done|]. split; [done|]. by left. }
  destruct (QueuePhiNode_books P BB AllocaNum V) as (HA & Hn & HN).
  destruct (QueuePhiNode P BB AllocaNum V) as [[P1 V1] c] eqn:EQ. cbn [fst snd] in *.
  destruct (IH P1 V1) as (HA' & Hn' & HN'). cbn zeta in *.
  rewrite EQ. cbn [fst].
  split; [congruence|]. split; [lia|].
  intros k i [Hk|(Hk & Hin & Hi)]%HN'.
  - destruct (HN k i Hk) as [?|[-> Hi]]; [by left|right].
    split; [done|]. split; [left|lia].
  - right. split; [done|]. split; [by right|lia].
Qed.

Lemma QueuePhiNode_cases P BB AllocaNo V :
  QueuePhiNode P BB AllocaNo V = (P, V, false)
  /\ (is_Some (NewPhiNodes P !! (BB, AllocaNo)) \/ Allocas P !! AllocaNo = None)
  \/ exists AI,
       Allocas P !! AllocaNo = Some AI
       /\ NewPhiNodes P !! (BB, AllocaNo) = None
       /\ QueuePhiNode P BB AllocaNo V
          = (mkPass (insertAtBegin (Fn P) BB
                       (mkInst (nextId P)
                               (ST_uniqueName (Fn P)
                                  (a_name AI +:+ "." +:+ pretty V))
                               (a_allocated AI) (PHI [])))
                    (S (nextId P)) (Allocas P) (AllocaLookup (getNumPreds P BB).2)
                    (<[(BB, AllocaNo) := nextId P]> (NewPhiNodes P))
                    (<[nextId P := AllocaNo]> (PhiToAllocaMap P))
                    (Visited P) (BBNumPreds (getNumPreds P BB).2),
             S V, true).
Proof.
  destruct (NewPhiNodes P !! (BB, AllocaNo)) as [i|] eqn:EN.
  { left. split; [by eapply QueuePhiNode_again|]. left. by eexists. }
  destruct (Allocas P !! AllocaNo) as [AI|] eqn:EA.
  - right. exists AI. split; [done|]. split; [done|]. by apply QueuePhiNode_fresh.
  - left. split; [|by right]. unfold QueuePhiNode. by rewrite EN, EA.
Qed.

(** What the loop that queues the phis leaves in place. *)
Lemma queuePhisFrom_keeps AllocaNo l :
  forall P V,
    let P' := (queuePhisFrom P AllocaNo V l).1 in
    nextId P <= nextId P'
    /\ length (Fn P') = length (Fn P)
    /\ (forall i, i < nextId P -> PhiToAllocaMap P' !! i = PhiToAllocaMap P !! i)
    /\ (forall b J, J ∈ blockInsts (Fn P) b -> J ∈ blockInsts (Fn P') b).
Proof.
  induction l as [|BB l IH]; intros P V; cbn zeta.
  { cbn [queuePhisFrom fold_left fst]. done. }
  unfold queuePhisFrom. cbn [fold_left fst snd]. fold (queuePhisFrom).
  destruct (QueuePhiNode_cases P BB AllocaNo V) as [[-> _]|(AI & HA & HN & ->)];
    cbn [fst snd].
  { apply (IH P V). }
  match goal with |- context [fold_left _ l (?p, _)] => set (P1 := p) end.
  destruct (IH P1 (S V)) as (H1 & H2 & H3 & H4). cbn zeta in *.
  unfold queuePhisFrom in *.
  split; [subst P1; cbn [nextId] in *; lia|].
  split; [rewrite H2; subst P1; cbn [Fn]; apply length_insertAtBegin|].
  split.
  - intros i Hi. rewrite H3 by (subst P1; cbn [nextId]; lia).
    subst P1. cbn [PhiToAllocaMap]. apply lookup_insert_ne. lia.
  - intros b J HJ. apply H4. subst P1. cbn [Fn].
    rewrite blockInsts_insertAtBegin. case_bool_decide; [by right|done].
Qed.

(** What the loop that queues the phis of an alloca of the list enters
    in the registry: an entry for each block named, and no other. *)
Lemma queuePhisFrom_registry AI AllocaNo l :
  forall P V,
    Allocas P !! AllocaNo = Some AI ->
    let P' := (queuePhisFrom P AllocaNo V l).1 in
    (forall key, is_Some (NewPhiNodes P' !! key)
       <-> is_Some (NewPhiNodes P !! key) \/ (key.2 = AllocaNo /\ key.1 ∈ l))
    /\ (forall key i, NewPhiNodes P !! key = Some i -> NewPhiNodes P' !! key = Some i)
    /\ (forall key i,
          NewPhiNodes P' !! key = Some i -> NewPhiNodes P !! key = None ->
          nextId P <= i < nextId P'
          /\ PhiToAllocaMap P' !! i = Some AllocaNo
          /\ (key.1 < length (Fn P) ->
              exists J, J ∈ blockInsts (Fn P') key.1 /\ iid J = i
                        /\ ikind J = PHI [] /\ ity J = a_allocated AI)).
Proof.
  induction l as [|BB l IH]; intros P V HA; cbn zeta.
  { cbn [queuePhisFrom fold_left fst]. split.
    - intros key. split; [by left|]. intros [?|[_ ?%elem_of_nil]]; done.
    - split; [done|]. intros key i H1 H2. by rewrite H1 in H2. }
  unfold queuePhisFrom. cbn [fold_left fst snd]. fold (queuePhisFrom).
  destruct (QueuePhiNode_cases P BB AllocaNo V) as [[-> Hreg]|(AI' & HA' & HN & ->)];
    cbn [fst snd].
  { destruct Hreg as [Hreg|Hreg]; [|by rewrite HA in Hreg].
    destruct (IH P V HA) as (H1 & H2 & H3). cbn zeta in *. unfold queuePhisFrom in *.
    split; [|by split].
    intros [k1 k2]. rewrite H1. cbn [fst snd]. split.
    - intros [?|[? ?]]; [by left|right]. split; [done|by right].
    - intros [?|[Hk Hin]]; [by left|].
      apply elem_of_cons in Hin as [Hin|Hin]; [left; by subst|right; by split]. }
  rewrite HA in HA'. injection HA' as <-.
  match goal with |- context [fold_left _ l (?p, _)] => set (P1 := p) end.
  destruct (IH P1 (S V)) as (H1 & H2 & H3); [done|]. cbn zeta in *.
  destruct (queuePhisFrom_keeps AllocaNo l P1 (S V)) as (K1 & K2 & K3 & K4).
  cbn zeta in *. unfold queuePhisFrom in *.
  assert (forall key, NewPhiNodes P1 !! key
                      = if decide (key = (BB, AllocaNo)) then Some (nextId P)
                        else NewPhiNodes P !! key) as HP1.
  { intros key. subst P1. cbn [NewPhiNodes]. destruct (decide _) as [->|Hne].
    - apply lookup_insert_eq.
    - by apply lookup_insert_ne. }
  split.
  { intros [k1 k2]. rewrite H1, HP1. cbn [fst snd].
    destruct (decide _) as [[= -> ->]|Hne].
    - split; [|by eauto]. intros _. right. split; [done|left].
    - split.
      + intros [?|[? ?]]; [by left|right]. split; [done|by right].
      + intros [?|[Hk Hin]]; [by left|].
        apply elem_of_cons in Hin as [Hin|Hin]; [|right; by split].
        exfalso. apply Hne. by subst. }
  split.
  { intros key i Hk. apply H2. rewrite HP1. destruct (decide _) as [->|Hne]; [|done].
    by rewrite HN in Hk. }
  intros key i Hk' Hk.
  destruct (NewPhiNodes P1 !! key) as [i'|] eqn:E1.
  - pose proof (H2 key i' E1) as Hi'. rewrite Hk' in Hi'. injection Hi' as <-.
    rewrite HP1 in E1. destruct (decide _) as [->|Hne]; [|by rewrite Hk in E1].
    injection E1 as <-. cbn [fst].
    assert (nextId P1 = S (nextId P)) as En by done.
    split; [lia|]. split.
    + rewrite K3 by lia. subst P1. cbn [PhiToAllocaMap]. apply lookup_insert_eq.
    + intros HB. eexists (mkInst (nextId P) _ (a_allocated AI) (PHI [])).
      split; [|done]. apply K4. subst P1. cbn [Fn].
      rewrite blockInsts_insertAtBegin, bool_decide_eq_true_2 by done. left.
  - destruct (H3 key i Hk' E1) as (Hi & Hp & HJ).
    assert (nextId P1 = S (nextId P)) as En by done.
    split; [lia|]. split; [done|]. intros HB. apply HJ.
    subst P1. cbn [Fn]. by rewrite length_insertAtBegin.
Qed.

(** X14.  A round of the loop over the allocas, for the alloca the loop is
    at, goes one of two ways, and which one is settled by three tests: the
    alloca has no users, or it has one defining block and the single-store
    rewrite answers true, or (on what the single-store rewrite, if it ran,
    has left) it is used in one block only and the single-block rewrite
    answers true.  When one of them holds, the alloca is done with on the
    spot: the function is the one the test that held has left, the alloca
    is not in it any more and leaves the list (the last alloca takes its
    place), [AllocaNum] stays, and no phi and no lookup entry is made.
    When none holds, the alloca is left to the renaming walk: it stays in
    the list and is entered in [AllocaLookup] under its index,
    [AllocaNum] goes on, the live-in blocks are computed from the defining
    blocks the analysis found, and the registry of phis gets an entry for
    this alloca in every block the IDF calculator names for these two
    sets, and no other: the entries it had stay, and each new one is a
    phi of the allocated type, without entries, with an identity the pass
    had not given out, that stands in its block and is entered in
    [PhiToAllocaMap] under the alloca. *)
Theorem processAlloca_dispatch (s : AllocaLoopState) (AI : AllocaInst) :
  Allocas (ls_P s) !! ls_AllocaNum s = Some AI ->
  let P := ls_P s in
  let N := ls_AllocaNum s in
  let Info1 := AnalyzeAlloca (Fn P) AI in
  let r1 := if bool_decide (length (DefiningBlocks Info1) = 1)
            then rewriteSingleStoreAlloca (Fn P) AI Info1 (ls_LBI s)
            else (Fn P, Info1, ls_LBI s, false) in
  let r2 := if OnlyUsedInOneBlock r1.1.1.2
            then promoteSingleBlockAlloca r1.1.1.1 AI r1.1.1.2 r1.1.2
            else (r1.1.1.1, r1.1.2, false) in
  exists s',
    processAlloca s AI = Some s'
    /\ let P' := ls_P s' in
       if use_empty (Fn P) (a_id AI) || r1.2 || r2.2
       then
         ls_AllocaNum s' = N
         /\ Allocas P' = swapRemove (Allocas P) N
         /\ Fn P' = (if use_empty (Fn P) (a_id AI)
                     then eraseFromParent (Fn P) (a_id AI)
                     else if r1.2 then r1.1.1.1 else r2.1.1)
         /\ absent (a_id AI) (Fn P')
         /\ NewPhiNodes P' = NewPhiNodes P /\ PhiToAllocaMap P' = PhiToAllocaMap P
         /\ AllocaLookup P' = AllocaLookup P /\ nextId P' = nextId P
       else
         ls_AllocaNum s' = S N
         /\ Allocas P' = Allocas P
         /\ AllocaLookup P' = <[a_id AI := N]> (AllocaLookup P)
         /\ exists LiveInBlocks,
             let DefBlocks : gset BlockId := list_to_set (DefiningBlocks r1.1.1.2) in
             ComputeLiveInBlocks r2.1.1 AI r1.1.1.2 DefBlocks = Some LiveInBlocks
             /\ let PHIBlocks := IDF_calculate DefBlocks LiveInBlocks in
                (forall key, is_Some (NewPhiNodes P' !! key)
                   <-> is_Some (NewPhiNodes P !! key)
                       \/ (key.2 = N /\ key.1 ∈ PHIBlocks))
                /\ (forall key i, NewPhiNodes P !! key = Some i ->
                                  NewPhiNodes P' !! key = Some i)
                /\ (forall key i,
                      NewPhiNodes P' !! key = Some i ->
                      NewPhiNodes P !! key = None ->
                      nextId P <= i < nextId P'
                      /\ PhiToAllocaMap P' !! i = Some N
                      /\ (key.1 < length (Fn P') ->
                          exists J, J ∈ blockInsts (Fn P') key.1 /\ iid J = i
                                    /\ ikind J = PHI []
                                    /\ ity J = a_allocated AI)).
Proof.
  intros HAI. cbn zeta.
  destruct (processAlloca_total s AI) as [s' Hs']. exists s'. split; [done|].
  revert Hs'. unfold processAlloca. cbn zeta.
  destruct (use_empty _ _); cbn [orb].
  { intros [= <-]. cbn. split; [done|]. split; [done|]. split; [done|].
    split; [apply absent_erase|done]. }
  match goal with |- context [if ?c then rewriteSingleStoreAlloca ?a ?b ?i ?l else ?e] =>
    set (r1 := if c then rewriteSingleStoreAlloca a b i l else e) end.
  destruct (r1.2) eqn:E1; cbn [orb].
  { intros [= <-]. cbn. split; [done|]. split; [done|]. split; [done|].
    split; [|done].
    subst r1. case_bool_decide; [|done].
    destruct (rewriteSingleStoreAlloca_true _ _ _ _ E1) as [F1 ->]. apply absent_erase. }
  match goal with |- context [if ?c then promoteSingleBlockAlloca ?a ?b ?i ?l else ?e] =>
    set (r2 := if c then promoteSingleBlockAlloca a b i l else e) end.
  destruct (r2.2) eqn:E2.
  { intros [= <-]. cbn. split; [done|]. split; [done|]. split; [done|].
    split; [|done].
    subst r2. destruct (OnlyUsedInOneBlock _); [|done].
    destruct (promoteSingleBlockAlloca_true _ _ _ _ E2) as [F1 ->]. apply absent_erase. }
  destruct (ComputeLiveInBlocks _ _ _ _) as [Live|] eqn:EL; [|done].
  intros [= <-]. cbn [ls_P ls_AllocaNum].
  split; [done|]. split; [by rewrite queuePhis_Allocas|].
  match goal with |- context [queuePhis ?p ?n ?l] =>
    destruct (queuePhis_books n l p 0) as (HA & _ & _);
    destruct (queuePhisFrom_registry AI n l p 0 HAI) as (H1 & H2 & H3);
    destruct (queuePhisFrom_keeps n l p 0) as (_ & K2 & _)
  end.
  cbn zeta in *. rewrite !queuePhis_from.
  split; [unfold queuePhisFrom; by rewrite HA|].
  exists Live. split; [done|]. cbn [NewPhiNodes nextId Fn] in *. split.
  { intros key. rewrite H1. by setoid_rewrite merge_sort_Permutation. }
  split; [done|].
  intros key i Hk Hn. destruct (H3 key i Hk Hn) as (Hi & Hp & HJ).
  split; [done|]. split; [done|]. intros HB. apply HJ. by rewrite <- K2.
Qed.

(** *** The instructions the pass has no business with *)

Lemma cellsOK_PassInvariant AS :
  PassInvariant (cellsOK AS) (notCell AS) (fun i => i ∉ AS).
Proof.
  split.
  - intros F old new H Hnew a Ha.
    apply (pi_rauw _ _ _ (cellOK_PassInvariant a)); [by apply H|by apply Hnew].
  - intros F i H a Ha. apply (pi_erase _ _ _ (cellOK_PassInvariant a)). by apply H.
  - intros F pn v p H Hv a Ha.
    apply (pi_addIncoming _ _ _ (cellOK_PassInvariant a)); [by apply H|by apply Hv].
  - intros F b J H HK Hid a Ha.
    apply (pi_insert _ _ _ (cellOK_PassInvariant a)); [by apply H|done|].
    intros Heq. by rewrite Heq in Hid.
  - by intros ty a _.
  - by intros ty a _.
  - intros F b J v p H HJ HK a Ha.
    by apply (pi_storeval _ _ _ (cellOK_PassInvariant a) F b J v p (H a Ha)).
  - intros F b J v H HJ HP Hv a Ha.
    by apply (pi_phiop _ _ _ (cellOK_PassInvariant a) F b J v (H a Ha)).
  - intros F b J H HJ HP a Ha.
    by apply (pi_phiid _ _ _ (cellOK_PassInvariant a) F b J (H a Ha)).
Qed.

Lemma max_list_app_r (l k : list nat) : max_list k <= max_list (l ++ k).
Proof. induction l as [|x l IH]; simpl; lia. Qed.

Section Keep.

Variable AS : list InstId.
Variable b0 : BlockId.
Variable J0 : Instruction.
Hypothesis Hi0 : iid J0 ∉ AS.

Let HC := cellsOK_PassInvariant AS.

Section Bound.

Variable n : nat.

Lemma K_rauw F old new :
  KInv AS b0 J0 n F -> notCell AS new -> KInv AS b0 J0 n (replaceAllUsesWith F old new).
Proof.
  intros (Hc & [(J & HJ & Hs) Hk] & [Hu Hb]) Hnew.
  split; [by apply (pi_rauw _ _ _ HC)|]. split; [split|split].
  - exists (substInst old new J). split; [|by apply sameShape_substInst].
    apply elem_of_blockInsts_rauw. eauto.
  - intros b J' a (J1 & -> & HJ1)%elem_of_blockInsts_rauw Hid Ha.
    rewrite operands_substInst. intros [Hin _]%elem_of_subst; [|by apply Hnew].
    by apply (Hk b J1 a).
  - by apply uniqueIds_rauw.
  - intros b J' (J1 & -> & HJ1)%elem_of_blockInsts_rauw. exact (Hb b J1 HJ1).
Qed.

Lemma K_erase F i :
  KInv AS b0 J0 n F -> i <> iid J0 -> KInv AS b0 J0 n (eraseFromParent F i).
Proof.
  intros (Hc & [(J & HJ & Hs) Hk] & [Hu Hb]) Hi.
  split; [by apply (pi_erase _ _ _ HC)|]. split; [split|split].
  - exists J. split; [|done]. apply elem_of_blockInsts_erase. split; [done|].
    destruct Hs as [-> _]. congruence.
  - intros b J' a [HJ' _]%elem_of_blockInsts_erase. by apply (Hk b).
  - by apply uniqueIds_erase.
  - intros b J' [HJ' _]%elem_of_blockInsts_erase. by apply (Hb b).
Qed.

Lemma K_addIncoming F pn v p :
  KInv AS b0 J0 n F -> notCell AS v -> KInv AS b0 J0 n (addIncoming F pn v p).
Proof.
  intros (Hc & [(J & HJ & Hs) Hk] & [Hu Hb]) Hv.
  split; [by apply (pi_addIncoming _ _ _ HC)|]. split; [split|split].
  - exists (addIncomingInst pn v p J). split; [|by apply sameShape_addIncomingInst].
    apply elem_of_blockInsts_addIncoming. eauto.
  - intros b J' a (J1 & -> & HJ1)%elem_of_blockInsts_addIncoming Hid Ha.
    rewrite iid_addIncomingInst in Hid.
    intros [Hin|Heq]%operands_addIncomingInst; [by apply (Hk b J1 a)|].
    exact (Hv a Ha (eq_sym Heq)).
  - rewrite addIncoming_addTo. by apply uniqueIds_addTo.
  - intros b J' (J1 & -> & HJ1)%elem_of_blockInsts_addIncoming.
    rewrite iid_addIncomingInst. exact (Hb b J1 HJ1).
Qed.

Lemma K_insert F b J :
  KInv AS b0 J0 n F -> ikind J = PHI [] -> iid J ∉ AS -> iid J = n ->
  KInv AS b0 J0 (S n) (insertAtBegin F b J).
Proof.
  intros (Hc & [(J1 & HJ1 & Hs) Hk] & [Hu Hb]) HK Hid Hn.
  split; [by apply (pi_insert _ _ _ HC)|]. split; [split|split].
  - exists J1. split; [|done]. rewrite blockInsts_insertAtBegin.
    case_bool_decide; [by right|done].
  - intros b' J' a [->|HJ']%elem_of_blockInsts_insertAtBegin ? Ha; [|by apply (Hk b')].
    unfold operands. rewrite HK. apply not_elem_of_nil.
  - apply uniqueIds_insertAtBegin; [done|].
    intros b' J' HJ'. pose proof (Hb b' J' HJ'). lia.
  - intros b' J' [->|HJ']%elem_of_blockInsts_insertAtBegin; [lia|].
    pose proof (Hb b' J' HJ'). lia.
Qed.

Lemma K_operand F b J a :
  KInv AS b0 J0 n F -> J ∈ blockInsts F b -> a ∈ AS -> VInst a ∈ operands J ->
  iid J <> iid J0.
Proof. intros (_ & [_ Hk] & _) HJ Ha Hin Hid. by apply (Hk b J a). Qed.

Lemma K_user F a bu :
  KInv AS b0 J0 n F -> a ∈ AS -> bu ∈ users F a -> userId bu.2 <> iid J0.
Proof.
  intros HK Ha Hbu. destruct bu as [b u].
  destruct (users_cellOK F a b u (proj1 HK a Ha) Hbu) as (J & -> & HJ & _).
  apply elem_of_users_inst in Hbu as [_ Hin]. by apply (K_operand F b J a).
Qed.

Lemma K_users F a :
  KInv AS b0 J0 n F -> a ∈ AS -> Forall (fun bu => userId bu.2 <> iid J0) (users F a).
Proof. intros HK Ha. apply Forall_forall. intros bu. by apply K_user. Qed.

Lemma K_storedValue F s : KInv AS b0 J0 n F -> notCell AS (storedValue F s).
Proof. intros [Hc _]. by apply (storedValue_safe _ _ _ HC). Qed.

Lemma K_rauw_erase F i v :
  KInv AS b0 J0 n F -> notCell AS v -> i <> iid J0 ->
  KInv AS b0 J0 n (eraseFromParent (replaceAllUsesWith F i v) i).
Proof. intros. apply K_erase; [by apply K_rauw|done]. Qed.

(** *** The fast paths *)

Lemma ss_rewrite_K OS u st :
  KInv AS b0 J0 n (ss_F st) -> userId u <> iid J0 ->
  KInv AS b0 J0 n (ss_F (ss_rewrite OS u st)).
Proof.
  intros H Hu. unfold ss_rewrite. simpl. apply K_rauw_erase; [done| |done].
  case_bool_decide; [by intros a _|]. by apply K_storedValue.
Qed.

Lemma singleStoreUser_K OS g st bu :
  KInv AS b0 J0 n (ss_F st) -> userId bu.2 <> iid J0 ->
  KInv AS b0 J0 n (ss_F (singleStoreUser OS g st bu)).
Proof.
  intros HF Hu. unfold singleStoreUser.
  case_bool_decide; [done|].
  destruct (negb g); [|by apply ss_rewrite_K].
  case_bool_decide.
  - case_bool_decide; simpl; [by rewrite ss_storeIndex_F|].
    apply ss_rewrite_K; [|done]. simpl. by rewrite ss_storeIndex_F.
  - destruct (negb (DT_dominates _ _)); [done|]. by apply ss_rewrite_K.
Qed.

Lemma singleStoreFold_K OS g us st :
  Forall (fun bu => userId bu.2 <> iid J0) us ->
  KInv AS b0 J0 n (ss_F st) ->
  KInv AS b0 J0 n (ss_F (fold_left (singleStoreUser OS g) us st)).
Proof.
  revert st. induction us as [|bu us IH]; intros st Hus H; cbn [fold_left]; [done|].
  apply Forall_cons in Hus as [Hu Hus]. apply IH; [done|]. by apply singleStoreUser_K.
Qed.

Lemma rewriteSingleStoreAlloca_K F AI Info LBI :
  KInv AS b0 J0 n F -> a_id AI ∈ AS ->
  (forall OS, OnlyStore Info = Some OS -> OS.2 <> iid J0) ->
  KInv AS b0 J0 n (rewriteSingleStoreAlloca F AI Info LBI).1.1.1.
Proof.
  intros HF Ha HOS. unfold rewriteSingleStoreAlloca.
  destruct (OnlyStore Info) as [OS|]; [|done].
  pose proof (singleStoreFold_K OS (negb (isInstruction (storedValue F OS.2)))
                (users F (a_id AI)) (mkSS F LBI [] (-1))
                (K_users F _ HF Ha) HF) as H.
  destruct (ss_UsingBlocks _); simpl; [|done].
  apply K_erase; [apply K_erase; [done|by apply HOS]|].
  intros Heq. apply Hi0. by rewrite <- Heq.
Qed.

Lemma AnalyzeAlloca_OnlyStore_K F AI OS :
  KInv AS b0 J0 n F -> a_id AI ∈ AS ->
  OnlyStore (AnalyzeAlloca F AI) = Some OS -> OS.2 <> iid J0.
Proof.
  intros HF Ha. unfold AnalyzeAlloca.
  destruct (analyze_stores (users F (a_id AI)) Info_clear) as [_ ->].
  destruct (last _) as [bu|] eqn:E; [|done]. intros [= <-]. simpl.
  apply last_Some_elem_of in E. apply elem_of_filter_bool in E as [E _].
  by apply (K_user F (a_id AI)).
Qed.

Lemma sb_replace_K F LBI J v :
  KInv AS b0 J0 n F -> notCell AS v -> iid J <> iid J0 ->
  KInv AS b0 J0 n (sb_replace F LBI J v).1.
Proof.
  intros HF Hv Hi. unfold sb_replace. simpl. apply K_rauw_erase; [done| |done].
  case_bool_decide; [by intros a _|done].
Qed.

Lemma singleBlockLoads_K SBI us F LBI :
  Forall (fun bu => userId bu.2 <> iid J0) us ->
  KInv AS b0 J0 n F -> KInv AS b0 J0 n (singleBlockLoads SBI F LBI us).1.1.
Proof.
  revert F LBI. induction us as [|bu us IH]; intros F LBI Hus HF; simpl; [done|].
  apply Forall_cons in Hus as [Hu Hus].
  destruct (bu.2) as [J|T]; [|by apply IH].
  destruct (ikind J); try by apply IH.
  destruct (sb_value _ _ _ _) as [v|] eqn:Ev; [|done].
  apply IH; [done|]. apply (sb_replace_K F LBI J v HF); [|done].
  eapply (sb_value_safe _ _ _ HC); [apply HF|done].
Qed.

Lemma eraseUsers_K F LBI a :
  KInv AS b0 J0 n F -> a ∈ AS -> KInv AS b0 J0 n (eraseUsers F LBI a).1.
Proof.
  intros HF Ha. unfold eraseUsers.
  pose proof (K_users F a HF Ha) as Hus. revert Hus.
  generalize (users F a). intros l.
  assert (KInv AS b0 J0 n (F, LBI).1) as H by done. revert H.
  generalize (F, LBI). induction l as [|bu l IH]; intros acc H Hus; simpl; [done|].
  apply Forall_cons in Hus as [Hu Hus]. apply IH; [|done]. simpl. by apply K_erase.
Qed.

Lemma promoteSingleBlockAlloca_K F AI Info LBI :
  KInv AS b0 J0 n F -> a_id AI ∈ AS ->
  KInv AS b0 J0 n (promoteSingleBlockAlloca F AI Info LBI).1.1.
Proof.
  intros HF Ha. unfold promoteSingleBlockAlloca.
  set (c := fold_left _ _ _).
  pose proof (singleBlockLoads_K (merge_sort index_le c.1) (users F (a_id AI))
                F c.2 (K_users F _ HF Ha) HF) as H.
  destruct (singleBlockLoads _ _ _ _) as [[F1 LBI2] ok]. simpl in *.
  destruct ok; [|done]. simpl.
  apply K_erase; [by apply eraseUsers_K|].
  intros Heq. apply Hi0. by rewrite <- Heq.
Qed.

(** *** Cleanup *)

Lemma addIncomingN_K F pn v p k :
  KInv AS b0 J0 n F -> notCell AS v -> KInv AS b0 J0 n (addIncomingN F pn v p k).
Proof.
  intros HF Hv. unfold addIncomingN. induction k as [|k IH]; simpl; [done|].
  by apply K_addIncoming.
Qed.

Lemma eraseAlloca_K F A :
  KInv AS b0 J0 n F -> a_id A ∈ AS -> KInv AS b0 J0 n (eraseAlloca F A).
Proof.
  intros HF Ha. unfold eraseAlloca. apply K_erase.
  - destruct (negb _); [|done]. apply K_rauw; [done|]. by intros a _.
  - intros Heq. apply Hi0. by rewrite <- Heq.
Qed.

Lemma eraseAllocas_K l F :
  KInv AS b0 J0 n F -> (forall A, A ∈ l -> a_id A ∈ AS) ->
  KInv AS b0 J0 n (fold_left eraseAlloca l F).
Proof.
  revert F. induction l as [|A l IH]; intros F HF Hl; simpl; [done|].
  apply IH; [apply eraseAlloca_K; [done|]; apply Hl; left|].
  intros A' HA'. apply Hl. by right.
Qed.

Lemma addPoison_K Preds F PN :
  KInv AS b0 J0 n F -> KInv AS b0 J0 n (addPoison Preds F PN).
Proof.
  unfold addPoison. revert F.
  induction Preds as [|Pred Preds IH]; intros F HF; simpl; [done|].
  apply IH. apply K_addIncoming; [done|]. by intros a _.
Qed.

Lemma fillPhis_K Preds phis F :
  KInv AS b0 J0 n F -> KInv AS b0 J0 n (fold_left (addPoison Preds) phis F).
Proof.
  revert F. induction phis as [|PN phis IH]; intros F HF; simpl; [done|].
  by apply IH, addPoison_K.
Qed.

End Bound.

(** *** Phi placement *)

Lemma swapRemove_subset {A} (l : list A) (i : nat) (x : A) :
  x ∈ swapRemove l i -> x ∈ l.
Proof.
  unfold swapRemove. destruct (last l) as [z|] eqn:El; [|done].
  intros (j & Hj & _)%elem_of_take.
  destruct (decide (j = i)) as [->|Hne].
  - pose proof (lookup_lt_Some _ _ _ Hj) as Hlt. rewrite length_insert in Hlt.
    rewrite list_lookup_insert_eq in Hj by done.
    injection Hj as <-. by apply last_Some_elem_of.
  - rewrite list_lookup_insert_ne in Hj by done. by eapply list_elem_of_lookup_2.
Qed.

Lemma KPass_setFn P F :
  KPass AS b0 J0 P -> KInv AS b0 J0 (nextId P) F -> KPass AS b0 J0 (setFn P F).
Proof. intros (_ & ? & ? & ? & ?) HF. by split. Qed.

Lemma KPass_remove P i :
  KPass AS b0 J0 P -> KPass AS b0 J0 (RemoveFromAllocasList P i).
Proof.
  intros (? & ? & HA & ? & ?). split; [done|]. split; [done|]. split; [|done].
  simpl. intros A HA'%swapRemove_subset. by apply HA.
Qed.

Lemma getNumPreds_K P BB : KPass AS b0 J0 P -> KPass AS b0 J0 (getNumPreds P BB).2.
Proof. unfold getNumPreds. by destruct (BBNumPreds P !! BB) as [[|?]|]. Qed.

Lemma QueuePhiNode_K P BB AllocaNo Version :
  KPass AS b0 J0 P -> KPass AS b0 J0 (QueuePhiNode P BB AllocaNo Version).1.1.
Proof.
  intros HP. unfold QueuePhiNode.
  destruct (NewPhiNodes P !! _) eqn:EN; [done|].
  destruct (Allocas P !! AllocaNo) as [AI|]; [|done]. cbn [fst].
  destruct (getNumPreds_K P BB HP) as (HF & Hn & HA & HL & HN).
  destruct (Hn (nextId (getNumPreds P BB).2)) as [Hn1 Hn2]; [done|].
  split; [|split; [|split; [done|split; [done|]]]]; cbn [Fn nextId NewPhiNodes iid].
  - by apply K_insert.
  - intros i Hi. apply Hn. lia.
  - intros k i [[_ <-]|[_ Hk]]%lookup_insert_Some; [done|]. by eapply HN.
Qed.

Lemma queuePhis_K P AllocaNum PHIBlocks :
  KPass AS b0 J0 P -> KPass AS b0 J0 (queuePhis P AllocaNum PHIBlocks).
Proof.
  unfold queuePhis. generalize 0 as Version.
  revert P. induction PHIBlocks as [|BB l IH]; intros P Version HP; simpl; [done|].
  destruct (QueuePhiNode P BB AllocaNum Version) as [[P' V'] ok] eqn:E.
  simpl. apply IH.
  pose proof (QueuePhiNode_K P BB AllocaNum Version HP) as H.
  by rewrite E in H.
Qed.

Lemma processAlloca_K s AI s' :
  KPass AS b0 J0 (ls_P s) -> AI ∈ Allocas (ls_P s) ->
  processAlloca s AI = Some s' -> KPass AS b0 J0 (ls_P s').
Proof.
  intros HP HAI. pose proof HP as (HF & Hn & HA & HL & HN).
  pose proof (HA AI HAI) as Ha.
  assert (a_id AI <> iid J0) as Hne by (intros Heq; apply Hi0; by rewrite <- Heq).
  unfold processAlloca.
  destruct (use_empty _ _).
  { intros [= <-]. cbn [ls_P]. apply KPass_remove, KPass_setFn; [done|].
    by apply K_erase. }
  set (Info1 := AnalyzeAlloca _ AI).
  set (r1 := if bool_decide (length (DefiningBlocks Info1) = 1)
             then rewriteSingleStoreAlloca _ AI Info1 _
             else (_, Info1, _, false)).
  assert (KInv AS b0 J0 (nextId (ls_P s)) r1.1.1.1) as H1.
  { subst r1. case_bool_decide; [|done].
    apply rewriteSingleStoreAlloca_K; [done|done|].
    intros OS. by apply (AnalyzeAlloca_OnlyStore_K (nextId (ls_P s))). }
  destruct (r1.2).
  { intros [= <-]. cbn [ls_P]. by apply KPass_remove, KPass_setFn. }
  set (r2 := if OnlyUsedInOneBlock r1.1.1.2
             then promoteSingleBlockAlloca r1.1.1.1 AI r1.1.1.2 r1.1.2
             else (r1.1.1.1, r1.1.2, false)).
  assert (KInv AS b0 J0 (nextId (ls_P s)) r2.1.1) as H2.
  { subst r2. destruct (OnlyUsedInOneBlock _); [|done].
    by apply promoteSingleBlockAlloca_K. }
  destruct (r2.2).
  { intros [= <-]. cbn [ls_P]. by apply KPass_remove, KPass_setFn. }
  destruct (ComputeLiveInBlocks _ _ _ _) as [LiveIn|]; [|done].
  intros [= <-]. cbn [ls_P]. apply queuePhis_K.
  split; [done|]. split; [done|]. split; [done|]. split; [|done].
  cbn [AllocaLookup]. intros a n [[<- _]|[_ Hl]]%lookup_insert_Some; [done|].
  by eapply HL.
Qed.

Lemma allocaLoop_K n s s' :
  KPass AS b0 J0 (ls_P s) -> allocaLoop n s = Some s' -> KPass AS b0 J0 (ls_P s').
Proof.
  revert s. induction n as [|n IH]; intros s HP; simpl.
  { by intros [= <-]. }
  destruct (Allocas (ls_P s) !! ls_AllocaNum s) as [AI|] eqn:EA; [|by intros [= <-]].
  destruct (processAlloca s AI) as [s1|] eqn:E; [|done].
  apply IH. eapply processAlloca_K; [done| |done]. by eapply list_elem_of_lookup_2.
Qed.

(** *** Renaming *)

Lemma updatePhis_K Pred NumEdges l acc :
  Forall (fun J => notCell AS (VInst (iid J))) l ->
  KPass AS b0 J0 acc.1 -> Forall (notCell AS) acc.2 ->
  KPass AS b0 J0 (fold_left (updatePhi Pred NumEdges) l acc).1
  /\ Forall (notCell AS) (fold_left (updatePhi Pred NumEdges) l acc).2.
Proof.
  revert acc. induction l as [|APN l IH]; intros acc Hl HP Hv; cbn [fold_left]; [done|].
  apply Forall_cons in Hl as [HA Hl]. destruct HP as (HF & Hn & HAl & HL & HN).
  apply IH; [done| |].
  - unfold updatePhi. simpl. split; [|done].
    apply addIncomingN_K; [done|]. by apply (valueAt_safe _ _ _ HC).
  - unfold updatePhi. simpl. by apply Forall_insert.
Qed.

Lemma populatePhis_K P BB Pred vals :
  KPass AS b0 J0 P -> Forall (notCell AS) vals ->
  KPass AS b0 J0 (populatePhis P BB Pred vals).1
  /\ Forall (notCell AS) (populatePhis P BB Pred vals).2.
Proof.
  intros HP Hv. unfold populatePhis.
  destruct (blockInsts (Fn P) BB) as [|APN rest] eqn:E; [done|].
  destruct (isPHI APN) eqn:EP; cbn [andb]; [|done].
  case_bool_decide; [|done].
  apply updatePhis_K; [|done|done].
  apply Forall_cons. split.
  - apply (pi_phiid _ _ _ HC (Fn P) BB); [apply HP| |done]. rewrite E. left.
  - apply Forall_forall. intros J HJ.
    apply (pi_phiid _ _ _ HC (Fn P) BB); [apply HP| |].
    + rewrite E. right. eapply elem_of_sublist; [done|]. apply phiRun_sublist.
    + pose proof (phiRun_isPHI (getNumOperands APN) rest) as H'.
      rewrite Forall_forall in H'. by apply H'.
Qed.

Lemma asAllocaId_Some F p a : asAllocaId F p = Some a -> p = VInst a.
Proof.
  unfold asAllocaId. destruct p; try done.
  destruct (isAllocaValue _ _); [|done]. by intros [= ->].
Qed.

Lemma renameInst_K BB acc i :
  KPass AS b0 J0 acc.1 -> Forall (notCell AS) acc.2 ->
  KPass AS b0 J0 (renameInst BB acc i).1 /\ Forall (notCell AS) (renameInst BB acc i).2.
Proof.
  intros HP Hv. pose proof HP as (HF & Hn & HAl & HL & HN). unfold renameInst.
  destruct (findInBlock (Fn acc.1) BB i) as [J|] eqn:E; [|done].
  apply findInBlock_Some in E as [HJ Hid].
  destruct (ikind J) as [t|p|v p|inc|ops] eqn:EK; try done.
  - destruct (asAllocaId _ p) as [Src|] eqn:EA; [|done].
    apply asAllocaId_Some in EA as ->.
    destruct (AllocaLookup acc.1 !! _) eqn:EL; [|done]. cbn [fst snd].
    split; [|done]. apply KPass_setFn; [done|].
    apply K_rauw_erase; [done|by apply (valueAt_safe _ _ _ HC)|].
    rewrite <- Hid. apply (K_operand _ (Fn acc.1) BB J Src HF HJ); [by eapply HL|].
    unfold operands. rewrite EK. left.
  - destruct (asAllocaId _ p) as [Dest|] eqn:EA; [|done].
    apply asAllocaId_Some in EA as ->.
    destruct (AllocaLookup acc.1 !! _) eqn:EL; [|done]. cbn [fst snd].
    split.
    + apply KPass_setFn; [done|]. apply K_erase; [done|].
      rewrite <- Hid. apply (K_operand _ (Fn acc.1) BB J Dest HF HJ); [by eapply HL|].
      unfold operands. rewrite EK. right. left.
    + apply Forall_insert; [done|].
      by apply (pi_storeval _ _ _ HC (Fn acc.1) BB J v (VInst Dest) (proj1 HF)).
Qed.

Lemma renameInsts_K BB l acc :
  KPass AS b0 J0 acc.1 -> Forall (notCell AS) acc.2 ->
  KPass AS b0 J0 (fold_left (renameInst BB) l acc).1
  /\ Forall (notCell AS) (fold_left (renameInst BB) l acc).2.
Proof.
  revert acc. induction l as [|i l IH]; intros acc HP Hv; cbn [fold_left]; [done|].
  destruct (renameInst_K BB acc i HP Hv). by apply IH.
Qed.

Lemma renameBody_K P BB vals :
  KPass AS b0 J0 P -> Forall (notCell AS) vals ->
  KPass AS b0 J0 (renameBody P BB vals).1
  /\ Forall (notCell AS) (renameBody P BB vals).2.
Proof. intros HP Hv. by apply renameInsts_K. Qed.

Lemma RenamePassStep_K P d wl :
  KPass AS b0 J0 P -> Forall (notCell AS) d.2 ->
  Forall (fun d' => Forall (notCell AS) d'.2) wl ->
  KPass AS b0 J0 (RenamePassStep P d wl).1.1
  /\ Forall (fun d' => Forall (notCell AS) d'.2) (pendingOf (RenamePassStep P d wl)).
Proof.
  intros HP Hd Hwl. unfold pendingOf, RenamePassStep.
  destruct (populatePhis_K P d.1.1 d.1.2 d.2 HP Hd) as [HP1 Hv1].
  case_bool_decide; [done|].
  destruct (renameBody_K _ d.1.1 _ HP1 Hv1) as [HP3 Hv3].
  destruct (firstOccurrences _ _) as [|S1 others]; [done|]. cbn [fst snd].
  split; [done|]. apply Forall_cons. split; [done|].
  apply Forall_app. split; [|done].
  apply Forall_rev, Forall_fmap, Forall_forall. by intros.
Qed.

Lemma RenameLoop_K fuel P d wl P' :
  KPass AS b0 J0 P -> Forall (notCell AS) d.2 ->
  Forall (fun d' => Forall (notCell AS) d'.2) wl ->
  RenameLoop fuel P d wl = Some P' -> KPass AS b0 J0 P'.
Proof.
  revert P d wl. induction fuel as [|fuel IH]; intros P d wl HP Hd Hwl; [done|].
  simpl. destruct (RenamePassStep_K P d wl HP Hd Hwl) as (HP1 & Hpend).
  unfold pendingOf in Hpend.
  destruct ((RenamePassStep P d wl).1.2) as [d'|].
  - apply Forall_cons in Hpend as [? ?]. by apply IH.
  - destruct ((RenamePassStep P d wl).2) as [|d' wl2]; [by intros [= <-]|].
    apply Forall_cons in Hpend as [? ?]. by apply IH.
Qed.

Lemma simplifyPass_K l P flag :
  Forall (fun e : nat * nat * InstId => e.2 <> iid J0) l ->
  KPass AS b0 J0 P -> KPass AS b0 J0 (fold_left simplifyEntry l (P, flag)).1.
Proof.
  revert P flag. induction l as [|e l IH]; intros P flag Hl HP; cbn [fold_left]; [done|].
  apply Forall_cons in Hl as [He Hl].
  rewrite simplifyEntry_eq.
  destruct (simplifyPHINode _ _ _) as [V|] eqn:E; [|by apply IH].
  apply IH; [done|]. destruct HP as (HF & Hn & HAl & HL & HN).
  split; [|split; [done|split; [done|split; [done|]]]]; cbn [Fn nextId NewPhiNodes].
  - apply K_rauw_erase; [done| |done].
    eapply (simplifyPHINode_safe _ _ _ HC); [apply HF|done].
  - intros k i [_ Hk]%lookup_delete_Some. by eapply HN.
Qed.

Lemma simplifyLoop_K fuel P P' :
  KPass AS b0 J0 P -> simplifyLoop fuel P = Some P' -> KPass AS b0 J0 P'.
Proof.
  revert P. induction fuel as [|fuel IH]; intros P HP; [done|]. simpl.
  assert (Forall (fun e : nat * nat * InstId => e.2 <> iid J0)
                 (map_to_list (NewPhiNodes P))) as Hl.
  { apply Forall_forall. intros [k i] Hk%elem_of_map_to_list.
    destruct HP as (_ & _ & _ & _ & HN). by eapply HN. }
  pose proof (simplifyPass_K (map_to_list (NewPhiNodes P)) P false Hl HP) as H1.
  destruct (fold_left _ _ _) as [P1 flag]. simpl in *.
  destruct flag; [by apply IH|]. by intros [= <-].
Qed.

Lemma fillEntry_K P e : KPass AS b0 J0 P -> KPass AS b0 J0 (fillEntry P e).
Proof.
  intros HP. unfold fillEntry.
  destruct (findInst (Fn P) e.2) as [[BB SomePHI]|]; [|done].
  destruct (blockInsts (Fn P) BB) as [|front ?]; [done|].
  case_bool_decide; [done|].
  pose proof (getNumPreds_K P BB HP) as HP1.
  case_bool_decide; [done|].
  apply KPass_setFn; [done|]. apply fillPhis_K, HP1.
Qed.

Lemma fillEntries_K l P : KPass AS b0 J0 P -> KPass AS b0 J0 (fold_left fillEntry l P).
Proof.
  revert P. induction l as [|e l IH]; intros P HP; simpl; [done|].
  by apply IH, fillEntry_K.
Qed.

(** *** The whole pass *)

Lemma run_K P P' :
  KPass AS b0 J0 P -> run P = Some P' -> KInv AS b0 J0 (nextId P') (Fn P').
Proof.
  intros HP. unfold run.
  destruct (allocaLoop _ _) as [s|] eqn:EA; [|done].
  apply allocaLoop_K in EA; [|done].
  destruct (Allocas (ls_P s)) as [|A As] eqn:EAs; [intros [= <-]; apply EA|].
  destruct (RenameLoop _ _ _ _) as [P2|] eqn:ER; [|done].
  apply RenameLoop_K in ER; [|done| |done].
  2:{ cbn [snd]. apply Forall_fmap, Forall_forall. by intros x _ a _. }
  destruct (simplifyLoop _ _) as [P4|] eqn:ES; [|done].
  apply simplifyLoop_K in ES.
  2:{ destruct ER as (HF & Hn & HAl & HL & HN).
      split; [|done]. cbn [Fn nextId]. by apply eraseAllocas_K. }
  intros [= <-]. cbn [Fn nextId].
  by apply fillEntries_K.
Qed.

End Keep.

Lemma PromoteMemToReg_keeps F As F' b J :
  uniqueIds F ->
  allocasOf F As ->
  (forall A, A ∈ As -> isAllocaPromotable F A = true) ->
  PromoteMemToReg F As = Some F' ->
  J ∈ blockInsts F b ->
  (forall A, A ∈ As -> iid J <> a_id A /\ VInst (a_id A) ∉ operands J) ->
  uniqueIds F' /\ exists J', J' ∈ blockInsts F' b /\ sameShape J J'.
Proof.
  intros Hnd Hof Hprom HF' HJ Hrest.
  unfold PromoteMemToReg in HF'.
  destruct As as [|A0 As0].
  { injection HF' as <-. split; [done|]. exists J. split; [done|apply sameShape_refl]. }
  destruct (run _) as [P'|] eqn:E; [|done]. injection HF' as <-.
  set (AS := a_id <$> A0 :: As0).
  assert (iid J ∉ AS) as Hi0.
  { intros (A & Heq & HA)%list_elem_of_fmap. by destruct (Hrest A HA). }
  apply (run_K AS b J Hi0) in E.
  { destruct E as (_ & [HK _] & [Hu _]). done. }
  split; [split; [|split]|split; [|split; [|split]]].
  - intros a (A & -> & HA)%list_elem_of_fmap. apply promotable_cellOK; auto.
  - split; [exists J; split; [done|apply sameShape_refl]|].
    intros b' J' a HJ' Hid (A & -> & HA)%list_elem_of_fmap.
    rewrite (uniqueIds_eq F b' J' b J Hnd HJ' HJ Hid). by apply Hrest.
  - split; [done|]. cbn [nextId newPass]. intros b' J' HJ'.
    pose proof (max_list_elem_of_le _ _ (funcIds_elem F b' J' HJ')).
    pose proof (max_list_app_l (funcIds F) AS). fold AS. lia.
  - cbn [nextId newPass]. intros i Hi. split.
    + intros Hin. apply max_list_elem_of_le in Hin.
      pose proof (max_list_app_r (funcIds F) AS). fold AS in Hi. lia.
    + intros ->. pose proof (max_list_elem_of_le _ _ (funcIds_elem F b J HJ)).
      pose proof (max_list_app_l (funcIds F) AS). fold AS in Hi. lia.
  - cbn [Allocas newPass]. intros A HA. apply list_elem_of_fmap. eauto.
  - done.
  - done.
Qed.

(** X15.  [PromoteMemToReg] takes away nothing but the cells it is given
    and the loads and stores of these cells (and phis of its own): when
    the cells are promotable allocas of a function whose instructions have
    identities of their own, every instruction of the function that is
    none of the cells and has none of them among its operands is in its
    block when the pass is done, the instruction it was up to its operands
    (the same identity, name, type and opcode, and as many operands). *)
Theorem PromoteMemToReg_keeps_the_rest (F : Func) (As : list AllocaInst) :
  uniqueIds F ->
  allocasOf F As ->
  (forall A, A ∈ As -> isAllocaPromotable F A = true) ->
  exists F',
    PromoteMemToReg F As = Some F'
    /\ forall b J, J ∈ blockInsts F b ->
         (forall A, A ∈ As -> iid J <> a_id A /\ VInst (a_id A) ∉ operands J) ->
         exists J', J' ∈ blockInsts F' b /\ sameShape J J'.
Proof.
  intros Hnd Hof Hprom.
  destruct (PromoteMemToReg_total F As) as [F' HF'].
  exists F'. split; [done|]. intros b J HJ Hrest.
  by destruct (PromoteMemToReg_keeps F As F' b J Hnd Hof Hprom HF' HJ Hrest).
Qed.

(** *** The loop of [promoteMemoryToRegister] *)

Lemma sameShape_trans J1 J2 J3 : sameShape J1 J2 -> sameShape J2 J3 -> sameShape J1 J3.
Proof.
  unfold sameShape. intros (H1 & H2 & H3 & H4) (H1' & H2' & H3' & H4').
  split; [congruence|]. split; [congruence|]. split; [congruence|].
  destruct (ikind J1), (ikind J2), (ikind J3); try done; congruence.
Qed.

Lemma notMemory_sameShape J J' : sameShape J J' -> notMemory J -> notMemory J'.
Proof.
  unfold sameShape, notMemory. intros (_ & _ & _ & H).
  by destruct (ikind J), (ikind J').
Qed.

Lemma promotableAllocas_allocasOf F : allocasOf F (promotableAllocas F).
Proof.
  intros A [HA _]%elem_of_promotableAllocas. unfold entryAllocas in HA.
  apply list_elem_of_omap in HA as (J & HJ & HA). eauto.
Qed.

Lemma notMemory_rest F As b J :
  uniqueIds F -> allocasOf F As ->
  (forall A, A ∈ As -> isAllocaPromotable F A = true) ->
  J ∈ blockInsts F b -> notMemory J ->
  forall A, A ∈ As -> iid J <> a_id A /\ VInst (a_id A) ∉ operands J.
Proof.
  intros Hnd Hof Hprom HJ Hnm A HA. split.
  - destruct (Hof A HA) as (bA & JA & HJA & HAs). intros Hid.
    assert (iid JA = a_id A) as HidA.
    { unfold asAlloca in HAs. destruct (ikind JA); [|done..]. by injection HAs as <-. }
    rewrite <- HidA in Hid.
    rewrite (uniqueIds_eq F b J bA JA Hnd HJ HJA Hid) in Hnm.
    unfold notMemory, asAlloca in *. by destruct (ikind JA).
  - intros Hin.
    destruct (promotable_cellOK F A Hnd (Hof A HA) (Hprom A HA)) as (Hu & _ & _).
    unfold notMemory in Hnm.
    destruct (Hu b J HJ Hin) as [HK|(v & HK & _)]; by rewrite HK in Hnm.
Qed.

Lemma promoteLoop_keeps fuel F c F' c' b J :
  uniqueIds F -> J ∈ blockInsts F b -> notMemory J ->
  promoteLoop fuel F c = Some (F', c') ->
  exists J', J' ∈ blockInsts F' b /\ sameShape J J'.
Proof.
  revert F c J. induction fuel as [|fuel IH]; intros F c J Hnd HJ Hnm; [done|].
  cbn [promoteLoop].
  destruct (promotableAllocas F) as [|A As] eqn:EA.
  { intros [= <- <-]. exists J. split; [done|apply sameShape_refl]. }
  destruct (PromoteMemToReg _ _) as [F1|] eqn:E1; [|done].
  assert (forall A', A' ∈ A :: As -> isAllocaPromotable F A' = true) as Hprom.
  { intros A' HA'. rewrite <- EA in HA'. by apply elem_of_promotableAllocas in HA' as [_ ?]. }
  assert (allocasOf F (A :: As)) as Hof.
  { rewrite <- EA. apply promotableAllocas_allocasOf. }
  destruct (PromoteMemToReg_keeps F (A :: As) F1 b J Hnd Hof Hprom E1 HJ
              (notMemory_rest F (A :: As) b J Hnd Hof Hprom HJ Hnm))
    as (Hnd1 & J1 & HJ1 & Hs1).
  intros H. destruct (IH F1 true J1 Hnd1 HJ1 (notMemory_sameShape J J1 Hs1 Hnm) H)
    as (J' & HJ' & Hs'). exists J'. split; [done|]. by eapply sameShape_trans.
Qed.

(** X16.  [promoteMemoryToRegister] takes away allocas, loads and stores
    only: whatever cells it promotes, and in however many rounds, every
    instruction of the function that is neither an alloca nor a load nor a
    store (a phi of the function, or any other instruction) is in its
    block in the function it returns, the instruction it was up to its
    operands.  The identities of the instructions of the function are
    taken to be distinct. *)
Theorem promoteMemoryToRegister_keeps_non_memory (F : Func) :
  uniqueIds F ->
  exists F' Changed,
    promoteMemoryToRegister F = Some (F', Changed)
    /\ forall b J, J ∈ blockInsts F b -> notMemory J ->
         exists J', J' ∈ blockInsts F' b /\ sameShape J J'.
Proof.
  intros Hnd. destruct (promoteMemoryToRegister_total F) as [[F' c] H].
  exists F', c. split; [done|]. intros b J HJ Hnm.
  exact (promoteLoop_keeps _ F false F' c b J Hnd HJ Hnm H).
Qed.

(** *** The books of the loop over the allocas *)

Lemma phiBooks_mono N N' P : N <= N' -> phiBooks N P -> phiBooks N' P.
Proof.
  intros Hle [H1 H2]. split; [|done].
  intros k i Hk. destruct (H1 k i Hk) as (? & ? & ?). split; [lia|done].
Qed.

Lemma QueuePhiNode_phiBooks P BB n V :
  phiBooks (S n) P -> phiBooks (S n) (QueuePhiNode P BB n V).1.1.
Proof.
  intros [H1 H2]. unfold QueuePhiNode.
  destruct (NewPhiNodes P !! (BB, n)) eqn:EN; [done|].
  destruct (Allocas P !! n); [|done].
  destruct (getNumPreds_registry P BB) as (Hn & HN & HM & _).
  split; cbn [fst nextId NewPhiNodes PhiToAllocaMap iid]; rewrite Hn, HN, HM.
  - intros k i [[<- <-]|[Hne Hk]]%lookup_insert_Some.
    + split; [simpl; lia|]. split; [lia|]. by rewrite lookup_insert_eq.
    + destruct (H1 k i Hk) as (? & ? & ?). split; [done|]. split; [lia|].
      rewrite lookup_insert_ne by lia. done.
  - intros i m [[<- <-]|[Hne Hi]]%lookup_insert_Some.
    + exists BB. by rewrite lookup_insert_eq.
    + destruct (H2 i m Hi) as [BB' HB]. exists BB'.
      rewrite lookup_insert_ne; [done|]. intros [= <- <-]. congruence.
Qed.

Lemma queuePhis_phiBooks P n l :
  phiBooks (S n) P -> phiBooks (S n) (queuePhis P n l).
Proof.
  unfold queuePhis. generalize 0 as V. revert P.
  induction l as [|BB l IH]; intros P V HP; cbn [fold_left]; [done|]. cbn [fst snd].
  pose proof (QueuePhiNode_phiBooks P BB n V HP) as H.
  destruct (QueuePhiNode P BB n V) as [[P1 V1] c]. exact (IH P1 V1 H).
Qed.

(** An alloca that is done with leaves the list: the last one takes its
    place, which no entry of the books names yet. *)
Lemma booksOK_remove N P F :
  booksOK N P -> N < length (Allocas P) ->
  booksOK N (RemoveFromAllocasList (setFn P F) N).
Proof.
  intros (Hle & Hnd & HL & HP) Hlt.
  destruct (swapRemove_spec (Allocas P) N Hlt) as (Hperm & Hlen & Hsame & _).
  split; [|split; [|split]]; cbn [RemoveFromAllocasList setAllocas setFn Allocas
                                  AllocaLookup].
  - lia.
  - rewrite Hperm. rewrite list_fmap_delete.
    eapply sublist_NoDup; [exact Hnd|]. apply sublist_delete.
  - intros a n. rewrite HL. split; intros [Hn Ha]; (split; [done|]).
    + rewrite Hsame by lia. done.
    + rewrite Hsame in Ha by lia. done.
  - done.
Qed.

(** An alloca that is left to the renaming walk is entered under its
    number, and its phis are made. *)
Lemma booksOK_queue N P F AI l :
  booksOK N P -> Allocas P !! N = Some AI ->
  booksOK (S N)
          (queuePhis (mkPass F (nextId P) (Allocas P)
                             (<[a_id AI := N]> (AllocaLookup P))
                             (NewPhiNodes P) (PhiToAllocaMap P) (Visited P)
                             (BBNumPreds P)) N l).
Proof.
  intros (Hle & Hnd & HL & HP) HAI.
  pose proof (lookup_lt_Some _ _ _ HAI) as Hlt.
  match goal with |- context [queuePhis ?p _ _] => set (P2 := p) end.
  destruct (queuePhis_books N l P2 0) as (HA & _ & _). cbn zeta in HA.
  fold (queuePhis P2 N l) in HA.
  split; [|split; [|split]].
  - rewrite queuePhis_Allocas. simpl. lia.
  - by rewrite queuePhis_Allocas.
  - rewrite queuePhis_Allocas, HA. subst P2. cbn [Allocas AllocaLookup].
    intros a n. rewrite lookup_insert_Some, HL. split.
    + intros [[<- <-]|(Hne & Hn & Ha)].
      * split; [lia|]. by rewrite HAI.
      * split; [lia|done].
    + intros [Hn Ha]. destruct (decide (n = N)) as [->|Hne].
      * left. rewrite HAI in Ha. by injection Ha as <-.
      * right. split; [|split; [lia|done]].
        intros <-. apply Hne.
        eapply (NoDup_lookup (a_id <$> Allocas P)); [done| |].
        -- rewrite list_lookup_fmap. exact Ha.
        -- rewrite list_lookup_fmap, HAI. done.
  - apply queuePhis_phiBooks. apply (phiBooks_mono N (S N) P2); [lia|]. exact HP.
Qed.

Lemma processAlloca_booksOK s AI s' :
  booksOK (ls_AllocaNum s) (ls_P s) ->
  Allocas (ls_P s) !! ls_AllocaNum s = Some AI ->
  processAlloca s AI = Some s' ->
  booksOK (ls_AllocaNum s') (ls_P s')
  /\ Allocas (ls_P s') ⊆+ Allocas (ls_P s)
  /\ length (Allocas (ls_P s')) - ls_AllocaNum s'
     < length (Allocas (ls_P s)) - ls_AllocaNum s.
Proof.
  intros HB HAI. pose proof (lookup_lt_Some _ _ _ HAI) as Hlt.
  assert (forall F Info LBI,
            let s1 := mkLoop (RemoveFromAllocasList (setFn (ls_P s) F) (ls_AllocaNum s))
                             Info LBI (ls_AllocaNum s) in
            booksOK (ls_AllocaNum s1) (ls_P s1)
            /\ Allocas (ls_P s1) ⊆+ Allocas (ls_P s)
            /\ length (Allocas (ls_P s1)) - ls_AllocaNum s1
               < length (Allocas (ls_P s)) - ls_AllocaNum s) as Hfast.
  { intros F Info LBI s1. subst s1. cbn [ls_P ls_AllocaNum].
    split; [by apply booksOK_remove|].
    cbn [RemoveFromAllocasList setAllocas setFn Allocas].
    destruct (swapRemove_spec (Allocas (ls_P s)) (ls_AllocaNum s) Hlt)
      as (Hperm & Hlen & _).
    split; [|lia]. rewrite Hperm. apply sublist_submseteq, sublist_delete. }
  unfold processAlloca.
  destruct (use_empty _ _); [intros [= <-]; apply Hfast|].
  match goal with |- context [if ?c then rewriteSingleStoreAlloca ?a ?b ?i ?l else ?e] =>
    set (r1 := if c then rewriteSingleStoreAlloca a b i l else e) end.
  destruct (r1.2); [intros [= <-]; apply Hfast|].
  match goal with |- context [if ?c then promoteSingleBlockAlloca ?a ?b ?i ?l else ?e] =>
    set (r2 := if c then promoteSingleBlockAlloca a b i l else e) end.
  destruct (r2.2); [intros [= <-]; apply Hfast|].
  destruct (ComputeLiveInBlocks _ _ _ _); [|done].
  intros [= <-]. cbn [ls_P ls_AllocaNum].
  split; [by apply booksOK_queue|]. rewrite queuePhis_Allocas. cbn [Allocas].
  split; [done|lia].
Qed.

Lemma allocaLoop_booksOK n :
  forall s s',
    booksOK (ls_AllocaNum s) (ls_P s) ->
    length (Allocas (ls_P s)) - ls_AllocaNum s <= n ->
    allocaLoop n s = Some s' ->
    booksOK (ls_AllocaNum s') (ls_P s')
    /\ Allocas (ls_P s') ⊆+ Allocas (ls_P s)
    /\ ls_AllocaNum s' = length (Allocas (ls_P s')).
Proof.
  induction n as [|n IH]; intros s s' HB Hn; cbn [allocaLoop].
  { intros [= <-]. split; [done|]. split; [done|]. destruct HB as [? _]. lia. }
  destruct (Allocas (ls_P s) !! ls_AllocaNum s) as [AI|] eqn:EA.
  2:{ intros [= <-]. split; [done|]. split; [done|].
      apply lookup_ge_None in EA. destruct HB as [? _]. lia. }
  destruct (processAlloca s AI) as [s1|] eqn:E; [|done].
  destruct (processAlloca_booksOK s AI s1 HB EA E) as (HB1 & Hs1 & Hm).
  intros H. destruct (IH s1 s' HB1) as (? & ? & ?); [lia|done|].
  split; [done|]. split; [by etrans|done].
Qed.

(** X17.  The books the renaming walk reads are right when the loop over
    the allocas is done, whatever allocas have left the list on the way
    (each by having the last one moved to its place): [AllocaNum] has come
    to the end of the list, the list holds allocas it was given,
    [AllocaLookup] holds exactly the allocas of the list, each under the
    place it has in the list now, and [NewPhiNodes] and [PhiToAllocaMap]
    agree: a phi entered for a block and an alloca number is entered under
    that number, which is a place of the list, and the other way round.
    The allocas given are taken to be distinct. *)
Theorem allocaLoop_books_agree (F : Func) (As : list AllocaInst) :
  NoDup (a_id <$> As) ->
  exists s,
    allocaLoop (length As) (mkLoop (newPass F As) Info_clear ∅ 0) = Some s
    /\ let P := ls_P s in
       ls_AllocaNum s = length (Allocas P)
       /\ Allocas P ⊆+ As
       /\ (forall a n, AllocaLookup P !! a = Some n
                       <-> a_id <$> (Allocas P !! n) = Some a)
       /\ (forall BB n i, NewPhiNodes P !! (BB, n) = Some i ->
                          n < length (Allocas P) /\ PhiToAllocaMap P !! i = Some n)
       /\ (forall i n, PhiToAllocaMap P !! i = Some n ->
                       exists BB, NewPhiNodes P !! (BB, n) = Some i).
Proof.
  intros Hnd.
  destruct (allocaLoop_total (length As) (mkLoop (newPass F As) Info_clear ∅ 0))
    as [s Hs].
  exists s. split; [done|]. cbn zeta.
  assert (booksOK 0 (newPass F As)) as H0.
  { split; [simpl; lia|]. split; [done|]. split; [|split].
    + intros a n. cbn [newPass AllocaLookup].
      rewrite lookup_empty. split; [done|]. intros [? _]. lia.
    + intros k i. cbn [newPass NewPhiNodes]. by rewrite lookup_empty.
    + intros i m. cbn [newPass PhiToAllocaMap]. by rewrite lookup_empty. }
  assert (length (Allocas (newPass F As)) - 0 <= length As) as Hfuel
    by (cbn [newPass Allocas]; lia).
  destruct (allocaLoop_booksOK _ (mkLoop (newPass F As) Info_clear ∅ 0) s H0 Hfuel Hs)
    as ((_ & _ & HL & [HN HM]) & Hsub & Hnum).
  split; [done|]. split; [done|]. split; [|split; [|done]].
  - intros a n. rewrite HL. split; [by intros [_ ?]|].
    intros Ha. split; [|done]. rewrite Hnum.
    destruct (Allocas (ls_P s) !! n) eqn:E; [|done]. by eapply lookup_lt_Some.
  - intros BB n i Hk. destruct (HN _ _ Hk) as (Hlt & _ & ?). cbn [snd] in *.
    split; [lia|done].
Qed.

(** *** The index cache in the loop over the allocas *)

Lemma isAllocaValue_rauw F old new a :
  uniqueIds F -> isAllocaValue F (VInst a) = true ->
  isAllocaValue (replaceAllUsesWith F old new) (VInst a) = true.
Proof.
  intros Hnd (b & J & t & HJ & Hid & HK)%isAllocaValue_Some.
  apply (isAllocaValue_unique _ _ b (substInst old new J) t);
    [by apply uniqueIds_rauw| |done|].
  - apply elem_of_blockInsts_rauw. eauto.
  - simpl. by rewrite HK.
Qed.

Lemma isAllocaValue_erase F i a :
  uniqueIds F -> i <> a -> isAllocaValue F (VInst a) = true ->
  isAllocaValue (eraseFromParent F i) (VInst a) = true.
Proof.
  intros Hnd Hne (b & J & t & HJ & Hid & HK)%isAllocaValue_Some.
  apply (isAllocaValue_unique _ _ b J t); [by apply uniqueIds_erase| |done..].
  apply elem_of_blockInsts_erase. split; [done|]. congruence.
Qed.

Lemma isAllocaValue_insertAtBegin F b PN a :
  uniqueIds (insertAtBegin F b PN) -> isAllocaValue F (VInst a) = true ->
  isAllocaValue (insertAtBegin F b PN) (VInst a) = true.
Proof.
  intros Hnd (b' & J & t & HJ & Hid & HK)%isAllocaValue_Some.
  apply (isAllocaValue_unique _ _ b' J t); [done| |done..].
  rewrite blockInsts_insertAtBegin. case_bool_decide; [by right|done].
Qed.

(** A user of a cell is not an alloca. *)
Lemma user_not_alloca F a a' bu :
  uniqueIds F -> cellOK a F -> bu ∈ users F a ->
  isAllocaValue F (VInst a') = true -> userId bu.2 <> a'.
Proof.
  intros Hnd Hok Hbu (b' & A & t & HA & Hid & HK)%isAllocaValue_Some.
  destruct bu as [b u].
  destruct (users_cellOK F a b u Hok Hbu) as (J & -> & HJ & HJK). simpl. intros Heq.
  assert (J = A) as -> by (apply (uniqueIds_eq F b J b' A Hnd HJ HA); congruence).
  destruct HJK as [HJK|(v & HJK & _)]; congruence.
Qed.

(** The cache goes with the function when instructions keep their order
    and the cache its entries. *)
Lemma LBIconsistent_map F F' LBI LBI' a b :
  (forall J', J' ∈ blockInsts F' b -> VInst a ∈ operands J' ->
     exists J, J ∈ blockInsts F b /\ iid J = iid J' /\ VInst a ∈ operands J
               /\ LBI' !! iid J' = LBI !! iid J) ->
  (forall J1 J2, J1 ∈ blockInsts F' b -> J2 ∈ blockInsts F' b ->
     VInst a ∈ operands J1 -> VInst a ∈ operands J2 ->
     position F' b (iid J1) < position F' b (iid J2) ->
     position F b (iid J1) < position F b (iid J2)) ->
  LBIconsistent F LBI a b -> LBIconsistent F' LBI' a b.
Proof.
  intros Hback Hpos [Hord Hfn]. split.
  - intros J1' J2' n1 n2 H1 H2 Hu1 Hu2 E1 E2 Hlt.
    destruct (Hback J1' H1 Hu1) as (J1 & HJ1 & Hid1 & Hop1 & HL1).
    destruct (Hback J2' H2 Hu2) as (J2 & HJ2 & Hid2 & Hop2 & HL2).
    apply (Hord J1 J2); [done..|congruence|congruence|].
    rewrite Hid1, Hid2. by apply Hpos.
  - destruct Hfn as [Hf|Hn]; [left|right]; intros J' HJ' Hu';
      destruct (Hback J' HJ' Hu') as (J & HJ & Hid & Hop & HL); rewrite HL; eauto.
Qed.

Lemma LBIconsistent_erase F LBI LBI' a b i :
  uniqueIds F -> (forall j, j <> i -> LBI' !! j = LBI !! j) ->
  LBIconsistent F LBI a b -> LBIconsistent (eraseFromParent F i) LBI' a b.
Proof.
  intros Hnd HL. apply LBIconsistent_map.
  - intros J' [HJ' Hne]%elem_of_blockInsts_erase Hop. exists J'. by rewrite HL.
  - intros J1 J2 [H1 Hne1]%elem_of_blockInsts_erase [H2 Hne2]%elem_of_blockInsts_erase _ _.
    rewrite position_erase; [done..| |]; by apply elem_of_ids.
Qed.

Lemma LBIconsistent_insertAtBegin F LBI a b b' PN :
  ikind PN = PHI [] -> (forall J, J ∈ blockInsts F b -> iid J <> iid PN) ->
  LBIconsistent F LBI a b -> LBIconsistent (insertAtBegin F b' PN) LBI a b.
Proof.
  intros HK Hfresh.
  assert (forall v, v ∉ operands PN) as HPN.
  { intros v. unfold operands. rewrite HK. apply not_elem_of_nil. }
  assert (forall J', J' ∈ blockInsts (insertAtBegin F b' PN) b ->
                     VInst a ∈ operands J' -> J' ∈ blockInsts F b) as Hin.
  { intros J' [->|HJ']%elem_of_blockInsts_insertAtBegin Hop; [by apply HPN in Hop|done]. }
  apply LBIconsistent_map.
  - intros J' HJ' Hop. exists J'. eauto.
  - intros J1 J2 H1 H2 Hop1 Hop2.
    pose proof (Hfresh J1 (Hin J1 H1 Hop1)) as Hne1.
    pose proof (Hfresh J2 (Hin J2 H2 Hop2)) as Hne2.
    unfold position. rewrite !blockInsts_insertAtBegin.
    case_bool_decide as Hb; [|done]. cbn [fmap list_fmap indexOf].
    rewrite !bool_decide_eq_false_2 by congruence. lia.
Qed.

Lemma idsBelow_rauw n F old new : idsBelow n F -> idsBelow n (replaceAllUsesWith F old new).
Proof.
  intros [Hu Hb]. split; [by apply uniqueIds_rauw|].
  intros b J' (J & -> & HJ)%elem_of_blockInsts_rauw. exact (Hb b J HJ).
Qed.

Lemma idsBelow_erase n F i : idsBelow n F -> idsBelow n (eraseFromParent F i).
Proof.
  intros [Hu Hb]. split; [by apply uniqueIds_erase|].
  intros b J [HJ _]%elem_of_blockInsts_erase. exact (Hb b J HJ).
Qed.

Lemma idsBelow_insertAtBegin n F b PN :
  idsBelow n F -> iid PN = n -> idsBelow (S n) (insertAtBegin F b PN).
Proof.
  intros [Hu Hb] Hn. split.
  - apply uniqueIds_insertAtBegin; [done|].
    intros b' J' HJ'. pose proof (Hb b' J' HJ'). lia.
  - intros b' J' [->|HJ']%elem_of_blockInsts_insertAtBegin; [lia|].
    pose proof (Hb b' J' HJ'). lia.
Qed.

Section Cache.

Variable Pend : list InstId.

Let HC := cellsOK_PassInvariant Pend.

Lemma cacheOK_cells n F LBI : cacheOK Pend n F LBI -> cellsOK Pend F.
Proof. intros [_ H] a Ha. by destruct (H a Ha). Qed.

Lemma cacheOK_index n F LBI b i :
  cacheOK Pend n F LBI -> cacheOK Pend n F (getInstructionIndex F LBI b i).2.
Proof.
  intros [[Hnd Hb] H]. unfold getInstructionIndex.
  destruct (LBI !! i) as [k|] eqn:E; [done|]. cbn [snd].
  split; [done|]. intros a Ha. destruct (H a Ha) as (Hok & Hal & Hcons).
  split; [done|]. split; [done|]. intros b'.
  destruct (decide (b' = b)) as [->|Hne].
  - pose proof (uniqueIds_block F b Hnd) as Hndb.
    pose proof (cellOK_accessesNumbered F a b Hok Hal) as Hacc.
    assert (forall K, K ∈ blockInsts F b -> VInst a ∈ operands K ->
              numberBlock F (blockInsts F b) 0 LBI !! iid K
              = Some (length (List.filter (isInterestingInstruction F)
                                (take (position F b (iid K)) (blockInsts F b))))) as Hnum.
    { intros K HK HKin. rewrite (numberBlock_position F _ K 0 LBI); auto. }
    split.
    + intros J1 J2 n1 n2 H1 H2 Hu1 Hu2. rewrite (Hnum J1), (Hnum J2) by done.
      intros [= <-] [= <-] Hlt.
      apply (filter_take_lt _ _ _ _ J1);
        [by apply indexOf_fmap_lookup|by apply Hacc|done].
    + left. intros K HK HKin. rewrite (Hnum K) by done. eauto.
  - apply (LBIconsistent_map F F LBI); [| |done].
    + intros J' HJ' Hop. exists J'. split; [done|]. split; [done|]. split; [done|].
      apply numberBlock_other. intros (K & Hid & HK)%list_elem_of_fmap.
      by destruct (uniqueIds_block_eq F b' b J' K Hnd HJ' HK Hid).
    + done.
Qed.

Lemma cacheOK_replaced n F LBI LI v :
  cacheOK Pend n F LBI -> notCell Pend v -> LI ∉ Pend ->
  cacheOK Pend n (eraseFromParent (replaceAllUsesWith F LI v) LI) (deleteValue LBI LI).
Proof.
  intros [Hids H] Hv HLI. pose proof Hids as [Hnd _].
  split; [by apply idsBelow_erase, idsBelow_rauw|].
  intros a Ha. destruct (H a Ha) as (Hok & Hal & Hcons).
  pose proof (cellOK_PassInvariant a) as HI.
  split; [|split].
  - apply (pi_erase _ _ _ HI), (pi_rauw _ _ _ HI); [done|by apply Hv].
  - apply isAllocaValue_erase; [by apply uniqueIds_rauw| |by apply isAllocaValue_rauw].
    intros ->. done.
  - intros b. apply LBIconsistent_replaced; [done|by apply Hv|done].
Qed.

Lemma cacheOK_erase n F LBI LBI' i :
  cacheOK Pend n F LBI -> i ∉ Pend -> (forall j, j <> i -> LBI' !! j = LBI !! j) ->
  cacheOK Pend n (eraseFromParent F i) LBI'.
Proof.
  intros [Hids H] Hi HL. pose proof Hids as [Hnd _].
  split; [by apply idsBelow_erase|].
  intros a Ha. destruct (H a Ha) as (Hok & Hal & Hcons).
  split; [|split].
  - by apply (pi_erase _ _ _ (cellOK_PassInvariant a)).
  - apply isAllocaValue_erase; [done| |done]. intros ->. done.
  - intros b. by apply (LBIconsistent_erase F LBI).
Qed.

Lemma cacheOK_insertAtBegin n F LBI b PN :
  cacheOK Pend n F LBI -> ikind PN = PHI [] -> iid PN = n ->
  cacheOK Pend (S n) (insertAtBegin F b PN) LBI.
Proof.
  intros [Hids H] HK Hn. pose proof Hids as [Hnd Hb].
  pose proof (idsBelow_insertAtBegin n F b PN Hids Hn) as Hids'.
  split; [done|].
  intros a Ha. destruct (H a Ha) as (Hok & Hal & Hcons).
  split; [|split].
  - apply (pi_insert _ _ _ (cellOK_PassInvariant a)); [done..|].
    apply isAllocaValue_Some in Hal as (b' & A & t & HA & Hid & _).
    pose proof (Hb b' A HA). lia.
  - apply isAllocaValue_insertAtBegin; [apply Hids'|done].
  - intros b'. apply LBIconsistent_insertAtBegin; [done| |done].
    intros J HJ. pose proof (Hb b' J HJ). lia.
Qed.

Lemma cacheOK_user n F LBI a bu :
  cacheOK Pend n F LBI -> a ∈ Pend -> bu ∈ users F a -> userId bu.2 ∉ Pend.
Proof.
  intros [[Hnd _] H] Ha Hbu Hin.
  destruct (H a Ha) as (Hok & _ & _). destruct (H _ Hin) as (_ & Hal & _).
  by apply (user_not_alloca F a (userId bu.2) bu Hnd Hok Hbu Hal).
Qed.

Lemma cacheOK_users n F LBI a :
  cacheOK Pend n F LBI -> a ∈ Pend ->
  Forall (fun bu => userId bu.2 ∉ Pend) (users F a).
Proof. intros H Ha. apply Forall_forall. intros bu. by apply (cacheOK_user n F LBI a). Qed.

(** *** The single-store rewrite *)

Lemma ss_rewrite_cacheOK n OS u st :
  cacheOK Pend n (ss_F st) (ss_LBI st) -> userId u ∉ Pend ->
  cacheOK Pend n (ss_F (ss_rewrite OS u st)) (ss_LBI (ss_rewrite OS u st)).
Proof.
  intros H Hu. unfold ss_rewrite. cbn [ss_F ss_LBI].
  apply cacheOK_replaced; [done| |done].
  case_bool_decide; [by intros a _|].
  apply (storedValue_safe _ _ _ HC). by eapply cacheOK_cells.
Qed.

Lemma ss_storeIndex_cacheOK n OS st :
  cacheOK Pend n (ss_F st) (ss_LBI st) ->
  cacheOK Pend n (ss_F (ss_storeIndex OS st)) (ss_LBI (ss_storeIndex OS st)).
Proof.
  intros H. unfold ss_storeIndex. case_bool_decide; [|done]. cbn [ss_F ss_LBI].
  by apply cacheOK_index.
Qed.

Lemma singleStoreUser_cacheOK n OS g st bu :
  cacheOK Pend n (ss_F st) (ss_LBI st) -> userId bu.2 ∉ Pend ->
  cacheOK Pend n (ss_F (singleStoreUser OS g st bu)) (ss_LBI (singleStoreUser OS g st bu)).
Proof.
  intros H Hu. unfold singleStoreUser.
  case_bool_decide; [done|].
  destruct (negb g); [|by apply ss_rewrite_cacheOK].
  case_bool_decide.
  - pose proof (ss_storeIndex_cacheOK n OS st H) as HS1.
    pose proof (cacheOK_index n _ _ bu.1 (userId bu.2) HS1) as HS2.
    case_bool_decide; [done|]. by apply ss_rewrite_cacheOK.
  - destruct (negb (DT_dominates _ _)); [done|]. by apply ss_rewrite_cacheOK.
Qed.

Lemma singleStoreFold_cacheOK n OS g us st :
  Forall (fun bu => userId bu.2 ∉ Pend) us ->
  cacheOK Pend n (ss_F st) (ss_LBI st) ->
  cacheOK Pend n (ss_F (fold_left (singleStoreUser OS g) us st))
                 (ss_LBI (fold_left (singleStoreUser OS g) us st)).
Proof.
  revert st. induction us as [|bu us IH]; intros st Hus H; cbn [fold_left]; [done|].
  apply Forall_cons in Hus as [Hu Hus]. apply IH; [done|].
  by apply singleStoreUser_cacheOK.
Qed.

End Cache.

Lemma cacheOK_weaken Pend Pend' n F LBI :
  (forall a, a ∈ Pend' -> a ∈ Pend) -> cacheOK Pend n F LBI -> cacheOK Pend' n F LBI.
Proof. intros Hsub [Hids H]. split; [done|]. intros a Ha. by apply H, Hsub. Qed.

(** When a cell is done with, the cache is right for the others. *)
Lemma cacheOK_done Pend Pend' n F LBI a0 :
  (forall a, a ∈ Pend' -> a ∈ Pend /\ a <> a0) ->
  cacheOK Pend n F LBI -> cacheOK Pend' n (eraseFromParent F a0) LBI.
Proof.
  intros Hsub H. apply (cacheOK_erase Pend' n F LBI LBI a0); [|by intros [_ ?]%Hsub|done].
  apply (cacheOK_weaken Pend); [|done]. by intros a [? _]%Hsub.
Qed.

Lemma AnalyzeAlloca_OnlyStore_user F AI OS :
  OnlyStore (AnalyzeAlloca F AI) = Some OS ->
  exists bu, bu ∈ users F (a_id AI) /\ OS.2 = userId bu.2.
Proof.
  unfold AnalyzeAlloca.
  destruct (analyze_stores (users F (a_id AI)) Info_clear) as [_ ->].
  destruct (last _) as [bu|] eqn:E; [|done]. intros [= <-]. simpl.
  apply last_Some_elem_of in E. apply elem_of_filter_bool in E as [E _]. eauto.
Qed.

Lemma rewriteSingleStoreAlloca_cacheOK Pend n F AI Info LBI :
  cacheOK Pend n F LBI -> a_id AI ∈ Pend ->
  (forall OS, OnlyStore Info = Some OS -> OS.2 ∉ Pend) ->
  let r := rewriteSingleStoreAlloca F AI Info LBI in
  (r.2 = false -> cacheOK Pend n r.1.1.1 r.1.2)
  /\ (forall Pend', (forall a, a ∈ Pend' -> a ∈ Pend /\ a <> a_id AI) ->
                    r.2 = true -> cacheOK Pend' n r.1.1.1 r.1.2).
Proof.
  intros H Ha HOS. cbn zeta. unfold rewriteSingleStoreAlloca.
  destruct (OnlyStore Info) as [OS|]; [|by split].
  pose proof (singleStoreFold_cacheOK Pend n OS
                (negb (isInstruction (storedValue F OS.2)))
                (users F (a_id AI)) (mkSS F LBI [] (-1))
                (cacheOK_users Pend n F LBI _ H Ha) H) as Hst.
  destruct (ss_UsingBlocks _); cbn [fst snd]; [|by split].
  split; [done|]. intros Pend' Hsub _.
  apply (cacheOK_done Pend); [done|].
  eapply cacheOK_erase; [exact Hst|by apply HOS|].
  intros j Hj. unfold deleteValue. by rewrite lookup_delete_ne.
Qed.

(** *** The single-block rewrite *)

Lemma collectStore_cacheOK Pend n F us acc :
  cacheOK Pend n F acc.2 -> cacheOK Pend n F (fold_left (collectStore F) us acc).2.
Proof.
  revert acc. induction us as [|bu us IH]; intros acc H; cbn [fold_left]; [done|].
  apply IH. unfold collectStore. destruct (bu.2) as [J|T]; [|done].
  destruct (ikind J); try done. cbn [snd]. by apply cacheOK_index.
Qed.

Lemma singleBlockLoads_cacheOK Pend n SBI us F LBI :
  Forall (fun bu => userId bu.2 ∉ Pend) us ->
  cacheOK Pend n F LBI ->
  cacheOK Pend n (singleBlockLoads SBI F LBI us).1.1 (singleBlockLoads SBI F LBI us).1.2.
Proof.
  revert F LBI. induction us as [|bu us IH]; intros F LBI Hus H; cbn [singleBlockLoads];
    [done|].
  apply Forall_cons in Hus as [Hu Hus].
  destruct (bu.2) as [J|T]; [|by apply IH].
  destruct (ikind J); try by apply IH.
  pose proof (cacheOK_index Pend n F LBI bu.1 (iid J) H) as H1.
  destruct (sb_value _ _ _ _) as [v|] eqn:Ev; [|done]. cbn zeta.
  apply IH; [done|]. unfold sb_replace. cbn [fst snd].
  apply cacheOK_replaced; [done| |done].
  case_bool_decide; [by intros a _|].
  eapply (sb_value_safe _ _ _ (cellsOK_PassInvariant Pend)); [|done].
  by eapply cacheOK_cells.
Qed.

Lemma eraseUsers_cacheOK Pend n F LBI a :
  cacheOK Pend n F LBI -> a ∈ Pend ->
  cacheOK Pend n (eraseUsers F LBI a).1 (eraseUsers F LBI a).2.
Proof.
  intros H Ha. unfold eraseUsers.
  pose proof (cacheOK_users Pend n F LBI a H Ha) as Hus. revert Hus. generalize (users F a). intros l.
  assert (cacheOK Pend n (F, LBI).1 (F, LBI).2) as H' by done. revert H'.
  generalize (F, LBI). induction l as [|bu l IH]; intros acc H' Hus; cbn [fold_left];
    [done|].
  apply Forall_cons in Hus as [Hu Hus]. apply IH; [|done]. cbn [fst snd].
  apply (cacheOK_erase Pend n _ acc.2); [done..|].
  intros j Hj. unfold deleteValue. by rewrite lookup_delete_ne.
Qed.

Lemma promoteSingleBlockAlloca_cacheOK Pend n F AI Info LBI :
  cacheOK Pend n F LBI -> a_id AI ∈ Pend ->
  let r := promoteSingleBlockAlloca F AI Info LBI in
  (r.2 = false -> cacheOK Pend n r.1.1 r.1.2)
  /\ (forall Pend', (forall a, a ∈ Pend' -> a ∈ Pend /\ a <> a_id AI) ->
                    r.2 = true -> cacheOK Pend' n r.1.1 r.1.2).
Proof.
  intros H Ha. cbn zeta. unfold promoteSingleBlockAlloca.
  set (c := fold_left _ _ _).
  assert (cacheOK Pend n F c.2) as Hc by (by apply collectStore_cacheOK).
  pose proof (singleBlockLoads_cacheOK Pend n (merge_sort index_le c.1)
                (users F (a_id AI)) F c.2 (cacheOK_users Pend n F LBI _ H Ha) Hc) as Hr.
  destruct (singleBlockLoads _ _ _ _) as [[F1 LBI2] ok]. cbn [fst snd] in *.
  destruct ok; cbn [fst snd]; [|by split].
  split; [done|]. intros Pend' Hsub _.
  apply (cacheOK_done Pend); [done|]. by apply eraseUsers_cacheOK.
Qed.

(** *** Phi placement *)

Lemma QueuePhiNode_cacheOK Pend LBI P BB AllocaNo V :
  cacheOK Pend (nextId P) (Fn P) LBI ->
  cacheOK Pend (nextId (QueuePhiNode P BB AllocaNo V).1.1)
          (Fn (QueuePhiNode P BB AllocaNo V).1.1) LBI.
Proof.
  intros H. unfold QueuePhiNode.
  destruct (NewPhiNodes P !! _); [done|].
  destruct (Allocas P !! AllocaNo) as [AI|]; [|done]. cbn [fst Fn nextId].
  rewrite getNumPreds_Fn, getNumPreds_nextId. by apply cacheOK_insertAtBegin.
Qed.

Lemma queuePhis_cacheOK Pend LBI P AllocaNum l :
  cacheOK Pend (nextId P) (Fn P) LBI ->
  cacheOK Pend (nextId (queuePhis P AllocaNum l)) (Fn (queuePhis P AllocaNum l)) LBI.
Proof.
  unfold queuePhis. generalize 0 as V. revert P.
  induction l as [|BB l IH]; intros P V HP; cbn [fold_left]; [done|]. cbn [fst snd].
  pose proof (QueuePhiNode_cacheOK Pend LBI P BB AllocaNum V HP) as H.
  destruct (QueuePhiNode P BB AllocaNum V) as [[P1 V1] c]. exact (IH P1 V1 H).
Qed.

(** *** The loop *)

Lemma drop_lookup_cons {A} (l : list A) (i : nat) (x : A) :
  l !! i = Some x -> drop i l = x :: drop (S i) l.
Proof.
  revert i. induction l as [|y l IH]; intros [|i] H; try done.
  - by injection H as ->.
  - simpl. by apply IH.
Qed.

Lemma processAlloca_loopCacheOK s AI s' :
  loopCacheOK s -> Allocas (ls_P s) !! ls_AllocaNum s = Some AI ->
  processAlloca s AI = Some s' -> loopCacheOK s'.
Proof.
  intros [HC Hnd] HAI. pose proof (lookup_lt_Some _ _ _ HAI) as Hlt.
  unfold pendingAllocas in *. rewrite (drop_lookup_cons _ _ _ HAI) in HC, Hnd.
  rewrite fmap_cons in HC, Hnd. apply NoDup_cons in Hnd as [Hnew Hnd].
  set (rest := a_id <$> drop (S (ls_AllocaNum s)) (Allocas (ls_P s))) in *.
  set (Pend := a_id AI :: rest) in *.
  assert (a_id AI ∈ Pend) as Ha by left.
  assert (forall F LBI Info,
            (forall Pend', (forall a, a ∈ Pend' -> a ∈ Pend /\ a <> a_id AI) ->
                           cacheOK Pend' (nextId (ls_P s)) F LBI) ->
            loopCacheOK (mkLoop (RemoveFromAllocasList (setFn (ls_P s) F) (ls_AllocaNum s))
                                Info LBI (ls_AllocaNum s))) as Hfast.
  { intros F LBI Info HF. unfold loopCacheOK, pendingAllocas.
    cbn [ls_P ls_AllocaNum ls_LBI RemoveFromAllocasList setAllocas setFn Allocas Fn nextId].
    destruct (swapRemove_take_drop (Allocas (ls_P s)) (ls_AllocaNum s) Hlt) as [_ Hperm].
    split; [|by rewrite Hperm].
    apply HF. intros a Hin. rewrite Hperm in Hin. fold rest in Hin.
    split; [by right|]. by intros ->. }
  unfold processAlloca.
  destruct (use_empty _ _).
  { intros [= <-]. apply Hfast. intros Pend' Hsub. by apply (cacheOK_done Pend). }
  set (Info1 := AnalyzeAlloca _ AI).
  pose proof (rewriteSingleStoreAlloca_cacheOK Pend _ _ AI Info1 _ HC Ha) as Hss.
  cbn zeta in Hss.
  set (r1 := if bool_decide (length (DefiningBlocks Info1) = 1)
             then rewriteSingleStoreAlloca _ AI Info1 _
             else (_, Info1, _, false)).
  assert ((r1.2 = false -> cacheOK Pend (nextId (ls_P s)) r1.1.1.1 r1.1.2)
          /\ (forall Pend', (forall a, a ∈ Pend' -> a ∈ Pend /\ a <> a_id AI) ->
                r1.2 = true -> cacheOK Pend' (nextId (ls_P s)) r1.1.1.1 r1.1.2))
    as [H1f H1t].
  { subst r1. case_bool_decide; [|by split].
    apply Hss. intros OS (bu & Hbu & ->)%AnalyzeAlloca_OnlyStore_user.
    exact (cacheOK_user Pend _ _ _ (a_id AI) bu HC Ha Hbu). }
  destruct (r1.2) eqn:E1.
  { intros [= <-]. apply Hfast. intros Pend' Hsub. by apply H1t. }
  specialize (H1f eq_refl).
  pose proof (promoteSingleBlockAlloca_cacheOK Pend _ _ AI r1.1.1.2 _ H1f Ha) as Hsb.
  cbn zeta in Hsb.
  set (r2 := if OnlyUsedInOneBlock r1.1.1.2
             then promoteSingleBlockAlloca r1.1.1.1 AI r1.1.1.2 r1.1.2
             else (r1.1.1.1, r1.1.2, false)).
  assert ((r2.2 = false -> cacheOK Pend (nextId (ls_P s)) r2.1.1 r2.1.2)
          /\ (forall Pend', (forall a, a ∈ Pend' -> a ∈ Pend /\ a <> a_id AI) ->
                r2.2 = true -> cacheOK Pend' (nextId (ls_P s)) r2.1.1 r2.1.2))
    as [H2f H2t].
  { subst r2. destruct (OnlyUsedInOneBlock _); [done|by split]. }
  destruct (r2.2) eqn:E2.
  { intros [= <-]. apply Hfast. intros Pend' Hsub. by apply H2t. }
  specialize (H2f eq_refl).
  destruct (ComputeLiveInBlocks _ _ _ _); [|done].
  intros [= <-]. unfold loopCacheOK, pendingAllocas. cbn [ls_P ls_AllocaNum ls_LBI].
  rewrite queuePhis_Allocas. cbn [Allocas]. fold rest. split; [|done].
  apply queuePhis_cacheOK. cbn [Fn nextId].
  apply (cacheOK_weaken Pend); [|done]. intros a Hin. by right.
Qed.

Lemma allocaLoop_loopCacheOK k :
  forall s s', loopCacheOK s -> allocaLoop k s = Some s' -> loopCacheOK s'.
Proof.
  induction k as [|k IH]; intros s s' H; cbn [allocaLoop]; [by intros [= <-]|].
  destruct (Allocas (ls_P s) !! ls_AllocaNum s) as [AI|] eqn:EA; [|by intros [= <-]].
  destruct (processAlloca s AI) as [s1|] eqn:E; [|done].
  apply IH. by eapply processAlloca_loopCacheOK.
Qed.

(** X19.  The index cache is right whenever the loop over the allocas
    comes to an alloca, whatever the rounds before have replaced and
    erased: with promotable, distinct allocas of a function whose
    instructions have identities of their own, after any number of rounds
    the alloca at hand is an alloca of the function as it is now, used by
    loads and stores only, and in every block the cache holds the accesses
    to it in the order they stand, all of them or none.  The single-store
    rewrite is called on this function and cache; the single-block
    rewrite is called on them, or on what the single-store rewrite leaves
    when it returns false, and there the same holds. *)
Theorem cache_consistent_at_every_round (F : Func) (As : list AllocaInst)
    (k : nat) (s : AllocaLoopState) (AI : AllocaInst) :
  uniqueIds F ->
  allocasOf F As ->
  NoDup (a_id <$> As) ->
  (forall A, A ∈ As -> isAllocaPromotable F A = true) ->
  allocaLoop k (mkLoop (newPass F As) Info_clear ∅ 0) = Some s ->
  Allocas (ls_P s) !! ls_AllocaNum s = Some AI ->
  let F1 := Fn (ls_P s) in
  let r := rewriteSingleStoreAlloca F1 AI (AnalyzeAlloca F1 AI) (ls_LBI s) in
  (cellState (a_id AI) F1 /\ forall b, LBIconsistent F1 (ls_LBI s) (a_id AI) b)
  /\ (r.2 = false ->
      cellState (a_id AI) r.1.1.1 /\ forall b, LBIconsistent r.1.1.1 r.1.2 (a_id AI) b).
Proof.
  intros Hnd Hof HAs Hprom Hs HAI. cbn zeta.
  assert (loopCacheOK (mkLoop (newPass F As) Info_clear ∅ 0)) as H0.
  { unfold loopCacheOK, pendingAllocas. cbn [ls_P ls_AllocaNum ls_LBI newPass Allocas
                                            Fn nextId drop].
    split; [|done]. split.
    - split; [done|]. intros b J HJ.
      pose proof (max_list_elem_of_le _ _ (funcIds_elem F b J HJ)).
      pose proof (max_list_app_l (funcIds F) (a_id <$> As)). lia.
    - intros a (A & -> & HA)%list_elem_of_fmap.
      split; [apply promotable_cellOK; auto|]. split; [|intros b; apply LBIconsistent_empty].
      destruct (Hof A HA) as (b & J & HJ & HJA).
      unfold asAlloca in HJA. destruct (ikind J) eqn:EK; [|done..].
      injection HJA as <-. by apply (isAllocaValue_unique F _ b J allocated). }
  destruct (allocaLoop_loopCacheOK k _ s H0 Hs) as [HC _].
  unfold pendingAllocas in HC. rewrite (drop_lookup_cons _ _ _ HAI), fmap_cons in HC.
  set (Pend := a_id AI :: _) in HC.
  assert (a_id AI ∈ Pend) as Ha by left.
  assert (forall n G LBI, cacheOK Pend n G LBI ->
            cellState (a_id AI) G /\ forall b, LBIconsistent G LBI (a_id AI) b) as Hget.
  { intros n G LBI [[Hu _] H]. destruct (H _ Ha) as (Hok & Hal & Hcons).
    split; [|done]. split; [done|]. by split. }
  split; [by eapply Hget|]. intros Hr.
  destruct (rewriteSingleStoreAlloca_cacheOK Pend _ _ AI
              (AnalyzeAlloca (Fn (ls_P s)) AI) _ HC Ha) as [Hf _].
  { intros OS (bu & Hbu & ->)%AnalyzeAlloca_OnlyStore_user.
    exact (cacheOK_user Pend _ _ _ (a_id AI) bu HC Ha Hbu). }
  exact (Hget _ _ _ (Hf Hr)).
Qed.

(** ** The blocks, the CFG and the terminators *)

Lemma keptOperand_refl v : keptOperand v v.
Proof. by destruct v. Qed.

Lemma keptOperand_subst v0 v old new :
  keptOperand v0 v -> keptOperand v0 (substValue old new v).
Proof.
  unfold keptOperand, substValue. destruct v0; [done|..].
  all: intros ->; by rewrite bool_decide_eq_false_2.
Qed.

Lemma sameTerminator_refl T : sameTerminator T T.
Proof.
  split; [done|]. split; [done|]. apply Forall2_same_length_lookup_2; [done|].
  intros i v v' H1 H2. rewrite H1 in H2. injection H2 as <-. apply keptOperand_refl.
Qed.

Lemma sameTerminator_subst T0 T old new :
  sameTerminator T0 T -> sameTerminator T0 (substTerm old new T).
Proof.
  intros (H1 & H2 & H3). split; [done|]. split; [done|]. cbn [substTerm tops].
  apply Forall2_fmap_r. eapply Forall2_impl; [exact H3|].
  intros v0 v. apply keptOperand_subst.
Qed.

Lemma terminatorsKept_refl F : terminatorsKept F F.
Proof.
  unfold terminatorsKept. apply Forall2_same_length_lookup_2; [done|].
  intros i T T' H1 H2. rewrite H1 in H2. injection H2 as <-. apply sameTerminator_refl.
Qed.

Lemma term_erase F i : term <$> eraseFromParent F i = term <$> F.
Proof.
  unfold eraseFromParent. rewrite <- list_fmap_compose. by apply list_fmap_ext.
Qed.

Lemma term_addIncoming F pn v p : term <$> addIncoming F pn v p = term <$> F.
Proof.
  unfold addIncoming. rewrite <- list_fmap_compose. by apply list_fmap_ext.
Qed.

Lemma term_insertAtBegin F b J : term <$> insertAtBegin F b J = term <$> F.
Proof.
  unfold insertAtBegin. destruct (F !! b) as [B|] eqn:E; [|done].
  rewrite list_fmap_insert. cbn [term]. apply list_insert_id.
  by rewrite list_lookup_fmap, E.
Qed.

Lemma term_rauw F old new :
  term <$> replaceAllUsesWith F old new = substTerm old new <$> (term <$> F).
Proof.
  unfold replaceAllUsesWith. rewrite <- !list_fmap_compose. by apply list_fmap_ext.
Qed.

Lemma terminatorsKept_PassInvariant F0 :
  PassInvariant (terminatorsKept F0) (fun _ => True) (fun _ => True).
Proof.
  split; try done; unfold terminatorsKept.
  - intros F old new H _. rewrite term_rauw. apply Forall2_fmap_r.
    eapply Forall2_impl; [exact H|]. intros T0 T. apply sameTerminator_subst.
  - intros F i H. by rewrite term_erase.
  - intros F pn v p H _. by rewrite term_addIncoming.
  - intros F b J H _ _. by rewrite term_insertAtBegin.
Qed.

Lemma promoteLoop_terminatorsKept F0 fuel F c F' c' :
  terminatorsKept F0 F ->
  promoteLoop fuel F c = Some (F', c') -> terminatorsKept F0 F'.
Proof.
  revert F c. induction fuel as [|fuel IH]; intros F c HF; [done|]. cbn [promoteLoop].
  destruct (promotableAllocas F) as [|A As] eqn:EA.
  - by intros [= <- <-].
  - destruct (PromoteMemToReg _ _) as [F1|] eqn:E1; [|done].
    apply IH.
    by eapply (PromoteMemToReg_Inv _ _ _ (terminatorsKept_PassInvariant F0)).
Qed.

(** C8.  The pass keeps the blocks, the CFG and the terminators: the
    function it returns has the same blocks, with the same successors and
    predecessors, and every block keeps its terminator, the same
    instruction with the same successor slots and the same operands, but
    for operands that were instructions, whose uses the pass may replace
    (the load of a promoted cell by the value stored).  And the pass takes
    away loads, stores and allocas only, besides phis of its own: on a
    function whose instructions have identities of their own, every
    instruction that is neither a load, nor a store, nor an alloca is in
    its block in the function returned, the instruction it was up to its
    operands. *)
Theorem promoteMemoryToRegister_preserves_cfg (F : Func) :
  exists F' Changed,
    promoteMemoryToRegister F = Some (F', Changed)
    /\ length F' = length F
    /\ (forall b, successors F' b = successors F b)
    /\ (forall b, predecessors F' b = predecessors F b)
    /\ (fun B => (tid (term B), tsuccs (term B))) <$> F'
       = (fun B => (tid (term B), tsuccs (term B))) <$> F
    /\ Forall2 sameTerminator (term <$> F) (term <$> F')
    /\ (uniqueIds F ->
        forall b J, J ∈ blockInsts F b -> notMemory J ->
          exists J', J' ∈ blockInsts F' b /\ sameShape J J').
Proof.
  destruct (promoteMemoryToRegister_total F) as [[F' c] H].
  exists F', c. split; [done|].
  pose proof (promoteLoop_cfg _ _ _ _ _ H) as Hc.
  split; [by apply cfg_length|]. split; [intros b; by apply cfg_successors|].
  split; [intros b; by apply cfg_predecessors|]. split; [done|]. split.
  - exact (promoteLoop_terminatorsKept F _ F false F' c (terminatorsKept_refl F) H).
  - intros Hnd b J HJ Hnm.
    exact (promoteLoop_keeps _ F false F' c b J Hnd HJ Hnm H).
Qed.

End Mem2Reg.

(** ** The order in which the IDF calculator names the blocks *)

Lemma merge_sort_le_Permutation (l k : list nat) :
  l ≡ₚ k -> merge_sort le l = merge_sort le k.
Proof.
  intros H. apply (StronglySorted_unique le).
  - apply StronglySorted_merge_sort; apply _.
  - apply StronglySorted_merge_sort; apply _.
  - by rewrite !merge_sort_Permutation.
Qed.

Section IDFOrder.

Variable DT_dominates : BlockId -> BlockId -> bool.
Variable DT_dominatesInst : Func -> InstId -> InstId -> bool.
Variable isUndefValue : Value -> bool.
Variable ST_uniqueName : Func -> string -> string.
Variables IDF IDF' : gset BlockId -> gset BlockId -> list BlockId.
Hypothesis HIDF : forall DefBlocks LiveInBlocks,
  IDF DefBlocks LiveInBlocks ≡ₚ IDF' DefBlocks LiveInBlocks.

Lemma processAlloca_IDF s AI :
  processAlloca DT_dominates IDF ST_uniqueName s AI
  = processAlloca DT_dominates IDF' ST_uniqueName s AI.
Proof.
  unfold processAlloca.
  destruct (use_empty _ _); [done|].
  match goal with |- context [if ?c then rewriteSingleStoreAlloca ?d ?a ?b ?i ?l else ?e] =>
    set (r1 := if c then rewriteSingleStoreAlloca d a b i l else e) end.
  destruct (r1.2); [done|].
  match goal with |- context [if ?c then promoteSingleBlockAlloca ?a ?b ?i ?l else ?e] =>
    set (r2 := if c then promoteSingleBlockAlloca a b i l else e) end.
  destruct (r2.2); [done|].
  destruct (ComputeLiveInBlocks _ _ _ _) as [Live|]; [|done].
  by rewrite (merge_sort_le_Permutation _ _ (HIDF _ Live)).
Qed.

Lemma allocaLoop_IDF n s :
  allocaLoop DT_dominates IDF ST_uniqueName n s
  = allocaLoop DT_dominates IDF' ST_uniqueName n s.
Proof.
  revert s. induction n as [|n IH]; intros s; [done|]. cbn [allocaLoop].
  destruct (Allocas (ls_P s) !! ls_AllocaNum s) as [AI|]; [|done].
  rewrite processAlloca_IDF. destruct (processAlloca _ _ _ _ _); [apply IH|done].
Qed.

Lemma PromoteMemToReg_IDF F As :
  PromoteMemToReg DT_dominates DT_dominatesInst IDF isUndefValue ST_uniqueName
                  F As
  = PromoteMemToReg DT_dominates DT_dominatesInst IDF' isUndefValue ST_uniqueName
                    F As.
Proof. unfold PromoteMemToReg, run. by rewrite allocaLoop_IDF. Qed.

Lemma promoteLoop_IDF fuel F c :
  promoteLoop DT_dominates DT_dominatesInst IDF isUndefValue ST_uniqueName
              fuel F c
  = promoteLoop DT_dominates DT_dominatesInst IDF' isUndefValue ST_uniqueName
                fuel F c.
Proof.
  revert F c. induction fuel as [|fuel IH]; intros F c; [done|]. cbn [promoteLoop].
  destruct (promotableAllocas F) as [|A As]; [done|].
  rewrite PromoteMemToReg_IDF. destruct (PromoteMemToReg _ _ _ _ _ _ _); [apply IH|done].
Qed.

End IDFOrder.

(** X18.  The pass does not depend on the order in which the IDF
    calculator names the blocks that need a phi: the blocks are sorted by
    their numbers before the phis are made, so two calculators that name
    the same blocks give the same function, instruction by instruction
    (the identities and the version numbers in the names of the phis
    included), from [PromoteMemToReg] and from [promoteMemoryToRegister]. *)
Theorem IDF_order_is_irrelevant
    (DT_dominates : BlockId -> BlockId -> bool)
    (DT_dominatesInst : Func -> InstId -> InstId -> bool)
    (isUndefValue : Value -> bool)
    (ST_uniqueName : Func -> string -> string)
    (IDF IDF' : gset BlockId -> gset BlockId -> list BlockId) :
  (forall DefBlocks LiveInBlocks,
      IDF DefBlocks LiveInBlocks ≡ₚ IDF' DefBlocks LiveInBlocks) ->
  (forall F As,
      PromoteMemToReg DT_dominates DT_dominatesInst IDF isUndefValue
                      ST_uniqueName F As
      = PromoteMemToReg DT_dominates DT_dominatesInst IDF' isUndefValue
                        ST_uniqueName F As)
  /\ (forall F,
        promoteMemoryToRegister DT_dominates DT_dominatesInst IDF isUndefValue
                                ST_uniqueName F
        = promoteMemoryToRegister DT_dominates DT_dominatesInst IDF' isUndefValue
                                  ST_uniqueName F).
Proof.
  intros H. split.
  - intros F As. by apply PromoteMemToReg_IDF.
  - intros F. unfold promoteMemoryToRegister. by apply promoteLoop_IDF.
Qed.

(** ** The properties at work on the examples *)

(** [ret v] becomes [ret 42]: the terminator of the entry block keeps its
    identity and its successor slots, and its operand, which was the load,
    is the value stored. *)
Example terminator_operands_rewritten :
  promoteMemoryToRegister ex_dominates ex_dominatesInst (ex_idf []) ex_isUndef
                          ex_uniqueName ex_straight
  = Some ([mkBlock [] (mkTerm 4 [VConst i32 42] [])], true).
Proof. by vm_compute. Qed.

(** In [ex_single_store] the cell, its store and its three loads go, [x]
    stays, and the two terminators have [x] and undef where they had the
    loads. *)
Lemma promoteMemoryToRegister_preserves_cfg_witness :
  let F := ex_single_store in
  let run := promoteMemoryToRegister ex_dominates ex_dominatesInst (ex_idf [])
                                     ex_isUndef ex_uniqueName in
  uniqueIds F
  /\ run F
     = Some ([ mkBlock [ mkInst 2 "x" i32 (Other [VArg i32 0]) ]
                       (mkTerm 10 [VInst 2] [1]);
               mkBlock [] (mkTerm 11 [VInst 2; VUndef i32] []) ], true)
  /\ exists F' Changed,
      run F = Some (F', Changed)
      /\ length F' = length F
      /\ (forall b, successors F' b = successors F b)
      /\ (forall b, predecessors F' b = predecessors F b)
      /\ (fun B => (tid (term B), tsuccs (term B))) <$> F'
         = (fun B => (tid (term B), tsuccs (term B))) <$> F
      /\ Forall2 sameTerminator (term <$> F) (term <$> F')
      /\ forall b J, J ∈ blockInsts F b -> notMemory J ->
           exists J', J' ∈ blockInsts F' b /\ sameShape J J'.
Proof.
  intros F run.
  assert (uniqueIds F) as H1.
  { unfold uniqueIds. apply (bool_decide_unpack _). by vm_compute. }
  split; [exact H1|]. split; [by vm_compute|].
  destruct (promoteMemoryToRegister_preserves_cfg ex_dominates ex_dominatesInst
              (ex_idf []) ex_isUndef ex_uniqueName F)
    as (F' & c & H2 & H3 & H4 & H5 & H6 & H7 & H8).
  exists F', c. split; [exact H2|]. split; [exact H3|]. split; [exact H4|].
  split; [exact H5|]. split; [exact H6|]. split; [exact H7|]. exact (H8 H1).
Defined.

Lemma promoted_cells_are_gone_witness :
  let A := mkAlloca 1 "cell" TPtr i32 in
  uniqueIds ex_diamond
  /\ allocasOf ex_diamond [A]
  /\ (forall A', A' ∈ [A] -> isAllocaPromotable ex_diamond A' = true)
  /\ exists F',
      PromoteMemToReg ex_dominates ex_dominatesInst (ex_idf [3]) ex_isUndef ex_uniqueName
                      ex_diamond [A] = Some F'
      /\ forall A', A' ∈ [A] ->
           (forall b J, J ∈ blockInsts F' b ->
                        iid J <> a_id A' /\ VInst (a_id A') ∉ operands J)
           /\ (forall B, B ∈ F' -> VInst (a_id A') ∉ tops (term B)).
Proof.
  intros A.
  assert (uniqueIds ex_diamond) as H1.
  { unfold uniqueIds. apply (bool_decide_unpack _). by vm_compute. }
  assert (allocasOf ex_diamond [A]) as H2.
  { intros A' ->%list_elem_of_singleton. exists 0, (mkInst 1 "cell" TPtr (Alloca i32)).
    split; [|done]. vm_compute. left. }
  assert (forall A', A' ∈ [A] -> isAllocaPromotable ex_diamond A' = true) as H3.
  { intros A' ->%list_elem_of_singleton. by vm_compute. }
  split; [done|]. split; [done|]. split; [done|].
  exact (promoted_cells_are_gone ex_dominates ex_dominatesInst (ex_idf [3]) ex_isUndef ex_uniqueName
           ex_diamond [A] H1 H2 H3).
Defined.

Lemma unused_alloca_erased_witness :
  let s := mkLoop (newPass ex_unused [mkAlloca 1 "dead" TPtr i32;
                                      mkAlloca 2 "cell" TPtr i32])
                  Info_clear ∅ 0 in
  let AI := mkAlloca 1 "dead" TPtr i32 in
  users (Fn (ls_P s)) (a_id AI) = []
  /\ let P := ls_P s in
     let F' := eraseFromParent (Fn P) (a_id AI) in
     processAlloca ex_dominates (ex_idf []) ex_uniqueName s AI
     = Some (mkLoop (mkPass F' (nextId P) (swapRemove (Allocas P) (ls_AllocaNum s))
                            (AllocaLookup P) (NewPhiNodes P) (PhiToAllocaMap P)
                            (Visited P) (BBNumPreds P))
                    (ls_Info s) (ls_LBI s) (ls_AllocaNum s))
     /\ (forall b, blockInsts F' b
                   = List.filter (fun J => negb (bool_decide (iid J = a_id AI)))
                                 (blockInsts (Fn P) b))
     /\ term <$> F' = term <$> Fn P.
Proof.
  intros s AI.
  assert (users (Fn (ls_P s)) (a_id AI) = []) as H by reflexivity.
  split; [exact H|].
  exact (unused_alloca_erased ex_dominates (ex_idf []) ex_uniqueName s AI H).
Defined.

(** The walk over the edge from the switch block 1 into block 2 of
    [ex_switch], which has two slots for it: the phi of the cell takes the
    value stored in block 1 twice. *)
Lemma populatePhis_appends_per_edge_witness :
  let phi := mkInst 14 "cell.0" i32 (PHI []) in
  let P := mkPass (insertAtBegin ex_switch 2 phi) 15 [mkAlloca 1 "cell" TPtr i32]
                  {[1 := 0]} {[(2, 0) := 14]} {[14 := 0]} ∅ ∅ in
  let rest := [mkInst 4 "v" i32 (Load (VInst 1))] in
  let vals := [VArg i32 1] in
  uniqueIds (Fn P)
  /\ blockInsts (Fn P) 2 = [phi] ++ rest
  /\ [phi] <> []
  /\ Forall (fun J => isPHI J = true /\ getNumOperands J = 0
                      /\ is_Some (PhiToAllocaMap P !! iid J)) [phi]
  /\ phiRun 0 rest = []
  /\ NoDup (cellOf P <$> [phi])
  /\ edgeCount (Fn P) 1 2 = 2
  /\ blockInsts (Fn (populatePhis P 2 (Some 1) vals).1) 2
     = [mkInst 14 "cell.0" i32 (PHI [(VArg i32 1, 1); (VArg i32 1, 1)])] ++ rest
  /\ (populatePhis P 2 (Some 1) vals).2 !! 0 = Some (VInst 14).
Proof.
  intros phi P rest vals.
  assert (uniqueIds (Fn P)) as H1.
  { unfold uniqueIds. apply (bool_decide_unpack _). by vm_compute. }
  assert (blockInsts (Fn P) 2 = [phi] ++ rest) as H2 by reflexivity.
  assert ([phi] <> []) as H3 by done.
  assert (Forall (fun J => isPHI J = true /\ getNumOperands J = 0
                           /\ is_Some (PhiToAllocaMap P !! iid J)) [phi]) as H4.
  { repeat constructor. by exists 0. }
  assert (phiRun 0 rest = []) as H5 by reflexivity.
  assert (NoDup (cellOf P <$> [phi])) as H6.
  { apply (bool_decide_unpack _). by vm_compute. }
  destruct (populatePhis_appends_per_edge P 2 1 vals [phi] rest 0 H1 H2 H3 H4 H5 H6)
    as (HB & Hv & _).
  do 6 (split; [assumption|]).
  split; [reflexivity|]. split.
  - exact HB.
  - apply (Hv phi); [left|]. vm_compute. lia.
Defined.

(** The whole pass on [ex_switch]: the phi of block 2 lists the value of
    the switch block twice, and the value of the entry block once. *)
Example switch_phi_lists_entry_twice :
  (fun F' => blockInsts F' 2)
    <$> PromoteMemToReg ex_dominates ex_dominatesInst (ex_idf [2]) ex_isUndef ex_uniqueName
                        ex_switch [mkAlloca 1 "cell" TPtr i32]
  = Some [mkInst 14 "cell.0" i32
                 (PHI [(VArg i32 1, 1); (VArg i32 1, 1); (VConst i32 0, 0)])].
Proof. by vm_compute. Qed.




(** ** The further properties at work on the examples *)

Lemma RemoveFromAllocasList_removes_witness :
  let P := newPass ex_unused [mkAlloca 1 "dead" TPtr i32; mkAlloca 2 "cell" TPtr i32] in
  0 < length (Allocas P)
  /\ Allocas (RemoveFromAllocasList P 0) = [mkAlloca 2 "cell" TPtr i32]
  /\ let P' := RemoveFromAllocasList P 0 in
     Allocas P' ≡ₚ delete 0 (Allocas P)
     /\ length (Allocas P') = length (Allocas P) - 1
     /\ (forall j, j <> 0 -> j < length (Allocas P) - 1 ->
                   Allocas P' !! j = Allocas P !! j)
     /\ (0 < length (Allocas P) - 1 -> Allocas P' !! 0 = last (Allocas P))
     /\ Fn P' = Fn P /\ AllocaLookup P' = AllocaLookup P
     /\ NewPhiNodes P' = NewPhiNodes P /\ PhiToAllocaMap P' = PhiToAllocaMap P.
Proof.
  intros P.
  assert (0 < length (Allocas P)) as H by (simpl; lia).
  split; [exact H|]. split; [reflexivity|].
  exact (RemoveFromAllocasList_removes P 0 H).
Defined.

Lemma getInstructionIndex_ranks_witness :
  let F := ex_single_block in
  let J := mkInst 5 "second" i32 (Load (VInst 1)) in
  uniqueIds F /\ J ∈ blockInsts F 0 /\ isInterestingInstruction F J = true
  /\ (getInstructionIndex F ∅ 0 5).1 = 3
  /\ let rank i :=
       length (List.filter (isInterestingInstruction F)
                           (take (position F 0 i) (blockInsts F 0))) in
     let r := getInstructionIndex F ∅ 0 (iid J) in
     match (∅ : gmap nat nat) !! iid J with
     | Some n => r = (n, ∅)
     | None =>
         r.1 = rank (iid J)
         /\ (forall J', J' ∈ blockInsts F 0 -> isInterestingInstruction F J' = true ->
               getInstructionIndex F r.2 0 (iid J') = (rank (iid J'), r.2))
         /\ (forall i, (forall J', J' ∈ blockInsts F 0 ->
                                   isInterestingInstruction F J' = true -> iid J' <> i) ->
                       r.2 !! i = (∅ : gmap nat nat) !! i)
     end.
Proof.
  intros F J.
  assert (uniqueIds F) as H1.
  { unfold uniqueIds. apply (bool_decide_unpack _). by vm_compute. }
  assert (J ∈ blockInsts F 0) as H2.
  { apply (bool_decide_unpack _). by vm_compute. }
  assert (isInterestingInstruction F J = true) as H3 by reflexivity.
  split; [exact H1|]. split; [exact H2|]. split; [exact H3|].
  split; [by vm_compute|].
  exact (getInstructionIndex_ranks F ∅ 0 J H1 H2 H3).
Defined.

(** In [ex_clash] the load is named as the first phi of the cell asks to
    be: the phi of block 3, the first of the list, is given another name
    by the symbol table, and the phi of block 1 the name it asks for. *)
Lemma QueuePhiNode_registers_witness :
  let AI := mkAlloca 1 "cell" TPtr i32 in
  let P := newPass ex_clash [AI] in
  let PHIBlocks := [3; 1] in
  let P' := queuePhis ex_uniqueName P 0 PHIBlocks in
  Allocas P !! 0 = Some AI
  /\ NoDup PHIBlocks
  /\ (forall BB, BB ∈ PHIBlocks ->
        BB < length (Fn P) /\ NewPhiNodes P !! (BB, 0) = None)
  /\ blockInsts (Fn P') 3
     = [ mkInst 14 "cell.01" i32 (PHI []); mkInst 4 "cell.0" i32 (Load (VInst 1)) ]
  /\ blockInsts (Fn P') 1
     = [ mkInst 15 "cell.1" i32 (PHI []);
         mkInst 2 "" TVoid (Store (VConst i32 1) (VInst 1)) ]
  /\ nextId P' = nextId P + length PHIBlocks
  /\ cfg (Fn P') = cfg (Fn P)
  /\ (forall b, b ∉ PHIBlocks -> blockInsts (Fn P') b = blockInsts (Fn P) b)
  /\ (forall k BB, PHIBlocks !! k = Some BB ->
        blockInsts (Fn P') BB
        = mkInst (nextId P + k)
                 (ex_uniqueName (Fn (queuePhis ex_uniqueName P 0 (take k PHIBlocks)))
                                (a_name AI +:+ "." +:+ pretty k))
                 (a_allocated AI) (PHI [])
          :: blockInsts (Fn P) BB
        /\ NewPhiNodes P' !! (BB, 0) = Some (nextId P + k)
        /\ PhiToAllocaMap P' !! (nextId P + k) = Some 0)
  /\ (forall key, key.2 <> 0 \/ key.1 ∉ PHIBlocks ->
        NewPhiNodes P' !! key = NewPhiNodes P !! key)
  /\ (forall i, ~ (nextId P <= i < nextId P') ->
        PhiToAllocaMap P' !! i = PhiToAllocaMap P !! i)
  /\ (forall BB Version, BB ∈ PHIBlocks ->
        QueuePhiNode ex_uniqueName P' BB 0 Version = (P', Version, false)).
Proof.
  intros AI P PHIBlocks P'.
  assert (Allocas P !! 0 = Some AI) as H1 by reflexivity.
  assert (NoDup PHIBlocks) as H2.
  { apply (bool_decide_unpack _). by vm_compute. }
  assert (forall BB, BB ∈ PHIBlocks ->
            BB < length (Fn P) /\ NewPhiNodes P !! (BB, 0) = None) as H3.
  { intros BB HBB. split; [|done]. simpl.
    repeat (apply elem_of_cons in HBB as [->|HBB]; [lia|]).
    by apply elem_of_nil in HBB. }
  split; [exact H1|]. split; [exact H2|]. split; [exact H3|].
  split; [by vm_compute|]. split; [by vm_compute|].
  exact (QueuePhiNode_registers ex_uniqueName P 0 AI PHIBlocks H1 H2 H3).
Defined.

Lemma RenamePass_visits_reachable_witness :
  let P := newPass ex_unreachable [mkAlloca 1 "cell" TPtr i32] in
  let Values := [VUndef i32] in
  Visited P = ∅
  /\ exists P',
      RenameLoop (numEdges (Fn P) + 1) P (0, None, Values) [] = Some P'
      /\ forall b, b ∈ Visited P' <-> reachable (Fn P) b.
Proof.
  intros P Values.
  assert (Visited P = ∅) as H by reflexivity.
  split; [exact H|].
  exact (RenamePass_visits_reachable ex_dominates ex_dominatesInst (ex_idf [3])
           ex_uniqueName P Values H).
Defined.

Lemma simplifyPHINode_never_self_witness :
  simplifyPHINode ex_isUndef ex_selfphi 7 None = Some (VConst i32 1)
  /\ VConst i32 1 <> VInst 7
  /\ ((exists ty, VConst i32 1 = VUndef ty)
      \/ (ex_isUndef (VConst i32 1) = false
          /\ exists b J, findInst ex_selfphi 7 = Some (b, J)
                         /\ VConst i32 1 ∈ (incomingOf J).*1))
  /\ (forall b J, findInst ex_selfphi 7 = Some (b, J) ->
        VConst i32 1 = VUndef (ity J)
        \/ (ex_isUndef (VConst i32 1) = false /\ VConst i32 1 ∈ (incomingOf J).*1)).
Proof.
  assert (simplifyPHINode ex_isUndef ex_selfphi 7 None = Some (VConst i32 1)) as H
    by reflexivity.
  split; [exact H|].
  exact (simplifyPHINode_never_self ex_isUndef ex_selfphi 7 None (VConst i32 1) H).
Defined.


(** The join of [ex_unreachable] gets a phi for the cell: the walk gives
    it the values stored on the two sides, the loop that fills the phis
    gives it poison for the block no block leads to. *)
Lemma inserted_phis_are_complete_witness :
  let F := ex_unreachable in
  let As := [mkAlloca 1 "cell" TPtr i32] in
  let run := PromoteMemToReg ex_dominates ex_dominatesInst (ex_idf [3]) ex_isUndef ex_uniqueName in
  uniqueIds F /\ wfPhis F
  /\ (fun F' => blockInsts F' 3) <$> run F As
     = Some [mkInst 15 "cell.0" i32
                    (PHI [(VConst i32 1, 1); (VConst i32 2, 2); (VPoison i32, 4)])]
  /\ exists F',
      run F As = Some F'
      /\ forall b J, J ∈ blockInsts F' b -> absent (iid J) F ->
           isPHI J = true
           /\ getNumOperands J = pred_size F' b
           /\ (incomingOf J).*2 ≡ₚ predecessors F' b
           /\ forall v p, (v, p) ∈ incomingOf J -> ~ reachable F' p ->
                          v = VPoison (ity J).
Proof.
  intros F As run.
  assert (uniqueIds F) as H1.
  { unfold uniqueIds. apply (bool_decide_unpack _). by vm_compute. }
  assert (wfPhis F) as H2.
  { unfold wfPhis. apply (bool_decide_unpack _). by vm_compute. }
  split; [exact H1|]. split; [exact H2|]. split; [by vm_compute|].
  exact (inserted_phis_are_complete ex_dominates ex_dominatesInst (ex_idf [3]) ex_isUndef ex_uniqueName
           F As H1 H2).
Defined.

(** In [ex_single_store] the cell goes, and with it the store and the three
    loads; [x] stays, and the terminators take [x] and undef for the
    loads. *)
Lemma PromoteMemToReg_keeps_the_rest_witness :
  let F := ex_single_store in
  let As := [mkAlloca 1 "cell" TPtr i32] in
  let run := PromoteMemToReg ex_dominates ex_dominatesInst (ex_idf []) ex_isUndef ex_uniqueName in
  uniqueIds F
  /\ allocasOf F As
  /\ (forall A, A ∈ As -> isAllocaPromotable F A = true)
  /\ run F As
     = Some [ mkBlock [mkInst 2 "x" i32 (Other [VArg i32 0])] (mkTerm 10 [VInst 2] [1]);
              mkBlock [] (mkTerm 11 [VInst 2; VUndef i32] []) ]
  /\ exists F',
      run F As = Some F'
      /\ forall b J, J ∈ blockInsts F b ->
           (forall A, A ∈ As -> iid J <> a_id A /\ VInst (a_id A) ∉ operands J) ->
           exists J', J' ∈ blockInsts F' b /\ sameShape J J'.
Proof.
  intros F As run.
  assert (uniqueIds F) as H1.
  { unfold uniqueIds. apply (bool_decide_unpack _). by vm_compute. }
  assert (allocasOf F As) as H2.
  { intros A' ->%list_elem_of_singleton. exists 0, (mkInst 1 "cell" TPtr (Alloca i32)).
    split; [|done]. vm_compute. left. }
  assert (forall A, A ∈ As -> isAllocaPromotable F A = true) as H3.
  { intros A' ->%list_elem_of_singleton. by vm_compute. }
  split; [exact H1|]. split; [exact H2|]. split; [exact H3|]. split; [by vm_compute|].
  exact (PromoteMemToReg_keeps_the_rest ex_dominates ex_dominatesInst (ex_idf [])
           ex_isUndef ex_uniqueName F As H1 H2 H3).
Defined.

(** In [ex_two_rounds] the first round promotes [a], the second [b]; [y]
    stays and takes the constant stored through the address. *)
Lemma promoteMemoryToRegister_keeps_non_memory_witness :
  let F := ex_two_rounds in
  let run := promoteMemoryToRegister ex_dominates ex_dominatesInst (ex_idf []) ex_isUndef ex_uniqueName in
  uniqueIds F
  /\ promotableAllocas F = [mkAlloca 2 "a" TPtr TPtr]
  /\ run F
     = Some ([ mkBlock [mkInst 7 "y" i32 (Other [VConst i32 5; VArg i32 0])]
                       (mkTerm 10 [VInst 7] []) ], true)
  /\ exists F' Changed,
      run F = Some (F', Changed)
      /\ forall b J, J ∈ blockInsts F b -> notMemory J ->
           exists J', J' ∈ blockInsts F' b /\ sameShape J J'.
Proof.
  intros F run.
  assert (uniqueIds F) as H1.
  { unfold uniqueIds. apply (bool_decide_unpack _). by vm_compute. }
  split; [exact H1|]. split; [by vm_compute|]. split; [by vm_compute|].
  exact (promoteMemoryToRegister_keeps_non_memory ex_dominates ex_dominatesInst (ex_idf [])
           ex_isUndef ex_uniqueName F H1).
Defined.

(** In [ex_three_cells] the cell nobody uses leaves the list first, and
    [y], the last one, takes its place: [y] is looked up under 0 and [x]
    under 1, and each has its phi at the join. *)
Lemma allocaLoop_books_agree_witness :
  let F := ex_three_cells in
  let As := [mkAlloca 1 "dead" TPtr i32; mkAlloca 2 "x" TPtr i32;
             mkAlloca 3 "y" TPtr i32] in
  let loop := allocaLoop ex_dominates (ex_idf [3]) ex_uniqueName in
  NoDup (a_id <$> As)
  /\ (fun s => (a_id <$> Allocas (ls_P s),
                AllocaLookup (ls_P s) !! 3, AllocaLookup (ls_P s) !! 2,
                NewPhiNodes (ls_P s) !! (3, 0), NewPhiNodes (ls_P s) !! (3, 1)))
       <$> loop (length As) (mkLoop (newPass F As) Info_clear ∅ 0)
     = Some ([3; 2], Some 0, Some 1, Some 24, Some 25)
  /\ exists s,
      loop (length As) (mkLoop (newPass F As) Info_clear ∅ 0) = Some s
      /\ let P := ls_P s in
         ls_AllocaNum s = length (Allocas P)
         /\ Allocas P ⊆+ As
         /\ (forall a n, AllocaLookup P !! a = Some n
                         <-> a_id <$> (Allocas P !! n) = Some a)
         /\ (forall BB n i, NewPhiNodes P !! (BB, n) = Some i ->
                            n < length (Allocas P) /\ PhiToAllocaMap P !! i = Some n)
         /\ (forall i n, PhiToAllocaMap P !! i = Some n ->
                         exists BB, NewPhiNodes P !! (BB, n) = Some i).
Proof.
  intros F As loop.
  assert (NoDup (a_id <$> As)) as H1.
  { apply (bool_decide_unpack _). by vm_compute. }
  split; [exact H1|]. split; [by vm_compute|].
  exact (allocaLoop_books_agree ex_dominates (ex_idf [3]) ex_uniqueName F As H1).
Defined.

(** Two calculators that name the join and a side of the diamond, in the
    two orders. *)
Lemma IDF_order_is_irrelevant_witness :
  let DT := ex_dominates in
  let DTI := ex_dominatesInst in
  (forall DefBlocks LiveInBlocks,
      ex_idf [3; 1] DefBlocks LiveInBlocks ≡ₚ ex_idf [1; 3] DefBlocks LiveInBlocks)
  /\ (forall F As,
        PromoteMemToReg DT DTI (ex_idf [3; 1]) ex_isUndef ex_uniqueName F As
        = PromoteMemToReg DT DTI (ex_idf [1; 3]) ex_isUndef ex_uniqueName F As)
  /\ (forall F,
        promoteMemoryToRegister DT DTI (ex_idf [3; 1]) ex_isUndef ex_uniqueName F
        = promoteMemoryToRegister DT DTI (ex_idf [1; 3]) ex_isUndef ex_uniqueName F).
Proof.
  intros DT DTI.
  assert (forall DefBlocks LiveInBlocks : gset nat,
            ex_idf [3; 1] DefBlocks LiveInBlocks ≡ₚ ex_idf [1; 3] DefBlocks LiveInBlocks)
    as H by (intros; apply perm_swap).
  split; [exact H|].
  exact (IDF_order_is_irrelevant DT DTI ex_isUndef ex_uniqueName (ex_idf [3; 1]) (ex_idf [1; 3]) H).
Defined.

(** In [ex_cached] the first round numbers the block for the store into
    [a] and the load after it, and promotes [a]; the loop comes to [b] with
    the numbers of the accesses to [b] in the cache. *)
Lemma cache_consistent_at_every_round_witness :
  let F := ex_cached in
  let As := [mkAlloca 1 "a" TPtr i32; mkAlloca 2 "b" TPtr i32] in
  let AI := mkAlloca 2 "b" TPtr i32 in
  uniqueIds F
  /\ allocasOf F As
  /\ NoDup (a_id <$> As)
  /\ (forall A, A ∈ As -> isAllocaPromotable F A = true)
  /\ exists s,
      allocaLoop ex_dominates (ex_idf []) ex_uniqueName 1 (mkLoop (newPass F As) Info_clear ∅ 0) = Some s
      /\ Allocas (ls_P s) !! ls_AllocaNum s = Some AI
      /\ ls_LBI s !! 6 = Some 2 /\ ls_LBI s !! 7 = Some 3
      /\ let F1 := Fn (ls_P s) in
         let r := rewriteSingleStoreAlloca ex_dominates F1 AI (AnalyzeAlloca F1 AI)
                                           (ls_LBI s) in
         (cellState (a_id AI) F1 /\ forall b, LBIconsistent F1 (ls_LBI s) (a_id AI) b)
         /\ (r.2 = false ->
             cellState (a_id AI) r.1.1.1
             /\ forall b, LBIconsistent r.1.1.1 r.1.2 (a_id AI) b).
Proof.
  intros F As AI.
  assert (uniqueIds F) as H1.
  { unfold uniqueIds. apply (bool_decide_unpack _). by vm_compute. }
  assert (allocasOf F As) as H2.
  { intros A' [->| ->%list_elem_of_singleton]%elem_of_cons.
    - exists 0, (mkInst 1 "a" TPtr (Alloca i32)). split; [|done]. vm_compute. left.
    - exists 0, (mkInst 2 "b" TPtr (Alloca i32)). split; [|done]. vm_compute. right. left. }
  assert (NoDup (a_id <$> As)) as H3.
  { apply (bool_decide_unpack _). by vm_compute. }
  assert (forall A, A ∈ As -> isAllocaPromotable F A = true) as H4.
  { intros A' [->| ->%list_elem_of_singleton]%elem_of_cons; by vm_compute. }
  split; [exact H1|]. split; [exact H2|]. split; [exact H3|]. split; [exact H4|].
  destruct (allocaLoop ex_dominates (ex_idf []) ex_uniqueName 1 (mkLoop (newPass F As) Info_clear ∅ 0))
    as [s|] eqn:Hs; [|by vm_compute in Hs].
  exists s.
  assert (Allocas (ls_P s) !! ls_AllocaNum s = Some AI
          /\ ls_LBI s !! 6 = Some 2 /\ ls_LBI s !! 7 = Some 3) as (H5 & H6 & H7).
  { vm_compute in Hs. injection Hs as <-. by vm_compute. }
  split; [done|]. split; [exact H5|]. split; [exact H6|]. split; [exact H7|].
  exact (cache_consistent_at_every_round ex_dominates (ex_idf []) ex_uniqueName F As 1 s AI
           H1 H2 H3 H4 Hs H5).
Defined.

(** The round for the cell of [ex_diamond], which has two defining blocks
    and is used in three blocks: none of the three tests holds, and the
    registry gets its one entry, for block 3, which the IDF calculator
    names. *)
Lemma processAlloca_dispatch_witness :
  let AI := mkAlloca 1 "cell" TPtr i32 in
  let s := mkLoop (newPass ex_diamond [AI]) Info_clear ∅ 0 in
  Allocas (ls_P s) !! ls_AllocaNum s = Some AI
  /\ use_empty ex_diamond 1 = false
  /\ length (DefiningBlocks (AnalyzeAlloca ex_diamond AI)) = 2
  /\ OnlyUsedInOneBlock (AnalyzeAlloca ex_diamond AI) = false
  /\ exists s',
      processAlloca ex_dominates (ex_idf [3]) ex_uniqueName s AI = Some s'
      /\ ls_AllocaNum s' = 1
      /\ Allocas (ls_P s') = [AI]
      /\ AllocaLookup (ls_P s') = <[1 := 0]> ∅
      /\ (forall key, is_Some (NewPhiNodes (ls_P s') !! key)
            <-> is_Some (NewPhiNodes (ls_P s) !! key) \/ (key.2 = 0 /\ key.1 ∈ [3]))
      /\ (forall key i,
            NewPhiNodes (ls_P s') !! key = Some i ->
            NewPhiNodes (ls_P s) !! key = None ->
            nextId (ls_P s) <= i < nextId (ls_P s')
            /\ PhiToAllocaMap (ls_P s') !! i = Some 0
            /\ (key.1 < length (Fn (ls_P s')) ->
                exists J, J ∈ blockInsts (Fn (ls_P s')) key.1 /\ iid J = i
                          /\ ikind J = PHI [] /\ ity J = i32)).
Proof.
  intros AI s.
  assert (Allocas (ls_P s) !! ls_AllocaNum s = Some AI) as H by reflexivity.
  split; [exact H|]. split; [reflexivity|]. split; [reflexivity|].
  split; [reflexivity|].
  destruct (processAlloca_dispatch ex_dominates (ex_idf [3]) ex_uniqueName s AI H)
    as (s' & Hs & Hrest).
  exists s'. split; [exact Hs|]. cbn zeta in Hrest.
  match type of Hrest with
  | if ?c then _ else _ => replace c with false in Hrest by (by vm_compute)
  end.
  destruct Hrest as (H1 & H2 & H3 & Live & HL & H4 & H5 & H6).
  split; [exact H1|]. split; [exact H2|]. split; [exact H3|].
  split; [exact H4|]. exact H6.
Defined.

